(** * google-slides-mcp: the markdown-to-slides formatting core

    A shallow embedding of [src/utils/markdownParser.ts] and
    [src/utils/slideHelpers.ts], and the properties of the inline formatter,
    the list and table structurers, the font-fit sizer and the text
    partitioner. The repository holds a second revision of the inline
    formatter, which masks bold spans before it looks for italic ones; it
    is embedded in [MaskingRevision].

    Conventions of the embedding.
    - A JavaScript string is the list of its UTF-16 code units ([str]);
      [String.length] is [length], [+] is [++].
    - Array-building loops ([push] in a [for]) are folds that append at the
      end of the list.
    - Numbers are binary64 floats, as in the source: the font range, the
      estimated dimensions, the container box. The font-fit sizer is
      embedded over doubles in [Binary64]; the tools pass it the
      whole-number constants [FONT_SIZE_RANGES], and for them the search is
      also written over whole numbers ([Z]), which is proved to agree with
      the search over doubles.
    - A loop whose termination depends on its input carries fuel and returns
      [None] when the fuel runs out. Where the fuel is computed from the
      input it always suffices when the source loop terminates (proved
      below), so [None] is reached only where the source loops forever. The
      search over doubles takes its fuel as an argument: what it returns
      with some fuel it returns with any more, and where no fuel gives a
      result the source loops forever. *)

From Stdlib Require Import Ascii String.
From Stdlib Require Import List Arith ZArith NArith Bool Lia.
From Stdlib Require Import Floats.
From Stdlib Require Import Sorting.Sorted Sorting.Permutation.
Import ListNotations.

(* ===================================================================== *)
(** ** JavaScript strings *)
(* ===================================================================== *)

Definition char := N.
Definition str := list char.

(** String literals of the development: the code units of an ASCII text. *)
Definition js (s : string) : str := map N_of_ascii (list_ascii_of_string s).

Definition TAB : char := 9%N.
Definition LF : char := 10%N.
Definition CR : char := 13%N.
Definition SP : char := 32%N.
Definition STAR : char := 42%N.
Definition PLUS : char := 43%N.
Definition HYPHEN : char := 45%N.
Definition DOT : char := 46%N.
Definition COLON : char := 58%N.
Definition UNDERSCORE : char := 95%N.
Definition PIPE : char := 124%N.

Definition inRangeN (lo hi c : N) : bool := (N.leb lo c && N.leb c hi)%bool.

(** ECMAScript [WhiteSpace] and [LineTerminator]: what [trim], [trimStart]
    and the regular-expression class [\s] recognise. *)
Definition isWhiteSpace (c : char) : bool :=
  (inRangeN 9 13 c || N.eqb c 32 || N.eqb c 160 || N.eqb c 5760
   || inRangeN 8192 8202 c || N.eqb c 8232 || N.eqb c 8233 || N.eqb c 8239
   || N.eqb c 8287 || N.eqb c 12288 || N.eqb c 65279)%bool.

(** [LineTerminator]: what the regular-expression [.] does not match. *)
Definition isLineTerminator (c : char) : bool :=
  (N.eqb c 10 || N.eqb c 13 || N.eqb c 8232 || N.eqb c 8233)%bool.

(** [\d] *)
Definition isDigit (c : char) : bool := inRangeN 48 57 c.

Fixpoint dropWhile (p : char -> bool) (s : str) : str :=
  match s with
  | [] => []
  | c :: s' => if p c then dropWhile p s' else s
  end.

Fixpoint takeWhile (p : char -> bool) (s : str) : str :=
  match s with
  | [] => []
  | c :: s' => if p c then c :: takeWhile p s' else []
  end.

Definition trimStart (s : str) : str := dropWhile isWhiteSpace s.
Definition trimEnd (s : str) : str := rev (dropWhile isWhiteSpace (rev s)).
Definition trim (s : str) : str := trimEnd (trimStart s).

(** Truthiness of a string: it is not empty. *)
Definition truthy (s : str) : bool :=
  match s with [] => false | _ :: _ => true end.

(** [s.substring(a, b)]: both indices clamped to the length, swapped when
    [a > b]. *)
Definition substring (s : str) (a b : nat) : str :=
  let a' := Nat.min a (length s) in
  let b' := Nat.min b (length s) in
  firstn (Nat.max a' b' - Nat.min a' b') (skipn (Nat.min a' b') s).

(** [s.substring(a)] *)
Definition substringFrom (s : str) (a : nat) : str := skipn a s.

(** [s.includes(c)] for a one-character needle. *)
Definition includes (s : str) (c : char) : bool := existsb (N.eqb c) s.

(** [s.endsWith(c)] for a one-character needle. *)
Definition endsWith (s : str) (c : char) : bool :=
  match rev s with
  | [] => false
  | d :: _ => N.eqb d c
  end.

Fixpoint isPrefix (p s : str) : bool :=
  match p, s with
  | [], _ => true
  | _ :: _, [] => false
  | a :: p', b :: s' => (N.eqb a b && isPrefix p' s')%bool
  end.

Definition endsWithStr (s suffix : str) : bool := isPrefix (rev suffix) (rev s).

(** [s.split(c)] for a one-character separator: never empty, the pieces are
    the maximal runs between the occurrences of [c]. *)
Fixpoint split1 (c : char) (s : str) : list str :=
  match s with
  | [] => [[]]
  | d :: s' =>
      if N.eqb d c then [] :: split1 c s'
      else match split1 c s' with
           | [] => [[d]]
           | piece :: rest => (d :: piece) :: rest
           end
  end.

(** [s.split(ab)] for a two-character separator: occurrences are found left
    to right and do not overlap. [cur] holds the piece read so far. *)
Fixpoint split2_from (a b : char) (cur : str) (s : str) : list str :=
  match s with
  | [] => [cur]
  | c :: s' =>
      match s' with
      | d :: s'' =>
          if (N.eqb c a && N.eqb d b)%bool
          then cur :: split2_from a b [] s''
          else split2_from a b (cur ++ [c]) s'
      | [] => [cur ++ [c]]
      end
  end.

Definition split2 (a b : char) (s : str) : list str := split2_from a b [] s.

(* ===================================================================== *)
(** ** slideHelpers.ts: text metrics and font fitting *)
(* ===================================================================== *)

(** The ranges the tools pass are the constants [FONT_SIZE_RANGES], all of
    whole numbers. [FontRange] is a range of whole numbers, and the search
    right below steps over whole numbers. The search over doubles, for any
    range, is in [Binary64] further down; the two agree on every range of
    whole numbers whose sizes are safe integers
    ([calculateOptimalFontSize_whole]). *)
Record FontRange := { fr_min : Z; fr_max : Z; fr_default : Z }.

Definition FONT_SIZE_RANGES_TITLE : FontRange :=
  {| fr_min := 24; fr_max := 44; fr_default := 36 |}.
Definition FONT_SIZE_RANGES_BODY : FontRange :=
  {| fr_min := 12; fr_max := 24; fr_default := 18 |}.
Definition FONT_SIZE_RANGES_LIST : FontRange :=
  {| fr_min := 12; fr_max := 20; fr_default := 16 |}.
Definition FONT_SIZE_RANGES_TABLE : FontRange :=
  {| fr_min := 10; fr_max := 16; fr_default := 12 |}.

Record Dimensions := { width : float; height : float }.

(** A whole number as a JavaScript number. The conversion is exact below
    2^53 ([float_of_Z_spec] and the lemmas after it); it goes through a
    machine integer and wraps at 2^63, which the lengths and indices of
    JavaScript strings (below 2^53) never reach. *)
Definition float_of_Z (z : Z) : float :=
  match z with
  | Zneg p => PrimFloat.opp (PrimFloat.of_uint63 (Uint63.of_Z (Zpos p)))
  | _ => PrimFloat.of_uint63 (Uint63.of_Z z)
  end.

Definition float_of_nat (n : nat) : float := float_of_Z (Z.of_nat n).

(** [Math.max(...lengths)] over the lengths of the lines: [split] never
    returns an empty array, and lengths are not negative, so the fold from 0
    is the maximum. *)
Definition maxLength (lines : list str) : nat :=
  fold_right Nat.max 0 (map (@length char) lines).

(** The doubles that the literals [0.6] and [1.2] denote. *)
Definition CHAR_WIDTH_FACTOR : float := 0x1.3333333333333p-1%float.
Definition LINE_HEIGHT_FACTOR : float := 0x1.3333333333333p+0%float.

Definition estimateTextDimensions (text : str) (fontSize : Z) : Dimensions :=
  let avgCharWidth := PrimFloat.mul (float_of_Z fontSize) CHAR_WIDTH_FACTOR in
  let lineHeight := PrimFloat.mul (float_of_Z fontSize) LINE_HEIGHT_FACTOR in
  let lines := split1 LF text in
  let maxLineLength := maxLength lines in
  {| width := PrimFloat.mul (float_of_nat maxLineLength) avgCharWidth;
     height := PrimFloat.mul (float_of_nat (length lines)) lineHeight |}.

(** [dimensions.width <= containerWidth && dimensions.height <= containerHeight] *)
Definition fitsBox (text : str) (containerWidth containerHeight : float)
    (fontSize : Z) : bool :=
  let d := estimateTextDimensions text fontSize in
  (PrimFloat.leb (width d) containerWidth
   && PrimFloat.leb (height d) containerHeight)%bool.

(** [dimensions.width > containerWidth || dimensions.height > containerHeight] *)
Definition overflowsBox (text : str) (containerWidth containerHeight : float)
    (fontSize : Z) : bool :=
  let d := estimateTextDimensions text fontSize in
  (PrimFloat.ltb containerWidth (width d)
   || PrimFloat.ltb containerHeight (height d))%bool.

Section FontLoops.
(** The two loops of [calculateOptimalFontSize], over any pair of tests. *)
Variable fits : Z -> bool.
Variable overflows : Z -> bool.
Variable range : FontRange.

(** [for (fontSize = start; fontSize >= min; fontSize -= 2)
      if (fits) { optimalSize = fontSize; break; }]
    returns the value of [optimalSize] after the loop. *)
Fixpoint shrinkLoop (fuel : nat) (optimalSize fontSize : Z) : option Z :=
  if (fr_min range <=? fontSize)%Z then
    if fits fontSize then Some fontSize
    else match fuel with
         | O => None
         | S fuel' => shrinkLoop fuel' optimalSize (fontSize - 2)
         end
  else Some optimalSize.

(** [for (fontSize = start; fontSize <= max; fontSize += 2)
      { if (overflows) break; optimalSize = fontSize; }] *)
Fixpoint growLoop (fuel : nat) (optimalSize fontSize : Z) : option Z :=
  if (fontSize <=? fr_max range)%Z then
    if overflows fontSize then Some optimalSize
    else match fuel with
         | O => None
         | S fuel' => growLoop fuel' fontSize (fontSize + 2)
         end
  else Some optimalSize.

Definition fontSearch : option Z :=
  let default := fr_default range in
  match shrinkLoop (S (Z.to_nat (default - fr_min range))) default default with
  | None => None
  | Some optimalSize =>
      if (optimalSize =? default)%Z
      then growLoop (S (Z.to_nat (fr_max range - default))) optimalSize (default + 2)
      else Some optimalSize
  end.
End FontLoops.

Definition calculateOptimalFontSize (text : str)
    (containerWidth containerHeight : float) (fontSizeRange : FontRange)
    : option Z :=
  fontSearch (fitsBox text containerWidth containerHeight)
             (overflowsBox text containerWidth containerHeight)
             fontSizeRange.

(* ===================================================================== *)
(** ** slideHelpers.ts: font fitting over doubles *)
(* ===================================================================== *)

(** [fontSizeRange] is an object of three JavaScript numbers, and the loops
    of [calculateOptimalFontSize] step and compare in binary64:
    [fontSize -= 2], [fontSize >= fontSizeRange.min],
    [optimalSize === fontSizeRange.default]. This module embeds them so,
    for any range. A step that rounds back to where it was leaves a loop
    spinning, so the loops carry fuel: one unit for each time round. *)
Module Binary64.

Record FontRange := { fr_min : float; fr_max : float; fr_default : float }.

Definition estimateTextDimensions (text : str) (fontSize : float) : Dimensions :=
  let avgCharWidth := PrimFloat.mul fontSize CHAR_WIDTH_FACTOR in
  let lineHeight := PrimFloat.mul fontSize LINE_HEIGHT_FACTOR in
  let lines := split1 LF text in
  let maxLineLength := maxLength lines in
  {| width := PrimFloat.mul (float_of_nat maxLineLength) avgCharWidth;
     height := PrimFloat.mul (float_of_nat (length lines)) lineHeight |}.

(** [dimensions.width <= containerWidth && dimensions.height <= containerHeight] *)
Definition fitsBox (text : str) (containerWidth containerHeight : float)
    (fontSize : float) : bool :=
  let d := estimateTextDimensions text fontSize in
  (PrimFloat.leb (width d) containerWidth
   && PrimFloat.leb (height d) containerHeight)%bool.

(** [dimensions.width > containerWidth || dimensions.height > containerHeight] *)
Definition overflowsBox (text : str) (containerWidth containerHeight : float)
    (fontSize : float) : bool :=
  let d := estimateTextDimensions text fontSize in
  (PrimFloat.ltb containerWidth (width d)
   || PrimFloat.ltb containerHeight (height d))%bool.

Section FontLoops.
Variable fits : float -> bool.
Variable overflows : float -> bool.
Variable range : FontRange.

(** [for (fontSize = start; fontSize >= min; fontSize -= 2)
      if (fits) { optimalSize = fontSize; break; }]
    returns the value of [optimalSize] after the loop. *)
Fixpoint shrinkLoop (fuel : nat) (optimalSize fontSize : float) : option float :=
  if PrimFloat.leb (fr_min range) fontSize then
    if fits fontSize then Some fontSize
    else match fuel with
         | O => None
         | S fuel' => shrinkLoop fuel' optimalSize (PrimFloat.sub fontSize 2)
         end
  else Some optimalSize.

(** [for (fontSize = start; fontSize <= max; fontSize += 2)
      { if (overflows) break; optimalSize = fontSize; }] *)
Fixpoint growLoop (fuel : nat) (optimalSize fontSize : float) : option float :=
  if PrimFloat.leb fontSize (fr_max range) then
    if overflows fontSize then Some optimalSize
    else match fuel with
         | O => None
         | S fuel' => growLoop fuel' fontSize (PrimFloat.add fontSize 2)
         end
  else Some optimalSize.

Definition fontSearch (fuel : nat) : option float :=
  let default := fr_default range in
  match shrinkLoop fuel default default with
  | None => None
  | Some optimalSize =>
      if PrimFloat.eqb optimalSize default
      then growLoop fuel optimalSize (PrimFloat.add default 2)
      else Some optimalSize
  end.
End FontLoops.

Definition calculateOptimalFontSize (fuel : nat) (text : str)
    (containerWidth containerHeight : float) (fontSizeRange : FontRange)
    : option float :=
  fontSearch (fitsBox text containerWidth containerHeight)
             (overflowsBox text containerWidth containerHeight)
             fontSizeRange fuel.

End Binary64.

(* ===================================================================== *)
(** ** slideHelpers.ts: the text partitioner *)
(* ===================================================================== *)

(** Which [slides.push] of [splitTextForSlides] emitted a chunk. The tag is
    ghost state: the source array holds the strings only, and
    [splitTextForSlides] below erases the tags. *)
Inductive Origin :=
| ParagraphFlush   (* slides.push(currentSlide), paragraph loop *)
| SentenceFlush    (* slides.push(currentSlide + '.'), sentence loop *)
| HardChunk        (* slides.push(chunk), while loop *)
| FinalFlush.      (* slides.push(currentSlide), after the loops *)

Definition Chunk : Type := Origin * str.

(** The state of the loops: the array [slides] and [currentSlide]. *)
Definition SplitState : Type := list Chunk * str.

Definition ELLIPSIS : str := [DOT; DOT; DOT].

(** Monadic left fold: a loop body that may not return. *)
Fixpoint foldM {A S : Type} (step : S -> A -> option S) (l : list A) (st : S)
    : option S :=
  match l with
  | [] => Some st
  | x :: l' =>
      match step st x with
      | None => None
      | Some st' => foldM step l' st'
      end
  end.

Section Partition.
Variable maxCharsPerSlide : nat.

(** [while (sentence.length > max) {
       slides.push(sentence.substring(0, max - 3) + '...');
       sentence = sentence.substring(max - 3); }]
    [max - 3] is negative for [max < 3]; [substring] clamps it to 0, as
    the truncated subtraction does. *)
Fixpoint hardChunkLoop (fuel : nat) (slides : list Chunk) (sentence : str)
    : option SplitState :=
  if maxCharsPerSlide <? length sentence then
    match fuel with
    | O => None
    | S fuel' =>
        hardChunkLoop fuel'
          (slides ++ [(HardChunk,
                       substring sentence 0 (maxCharsPerSlide - 3) ++ ELLIPSIS)])
          (substringFrom sentence (maxCharsPerSlide - 3))
    end
  else Some (slides, sentence).

(** The body of [for (let sentence of sentences)]. *)
Definition sentenceStep (st : SplitState) (sentence : str) : option SplitState :=
  let '(slides, currentSlide) := st in
  if length currentSlide + length sentence + 2 <=? maxCharsPerSlide then
    Some (slides,
          currentSlide ++ (if truthy currentSlide then [DOT; SP] else []) ++ sentence)
  else
    let '(slides, currentSlide) :=
      if truthy currentSlide
      then (slides ++ [(SentenceFlush,
                        currentSlide ++ (if endsWith currentSlide DOT then [] else [DOT]))],
            [])
      else (slides, currentSlide) in
    if maxCharsPerSlide <? length sentence then
      match hardChunkLoop (length sentence) slides sentence with
      | None => None
      | Some (slides, sentence) =>
          Some (slides, if 0 <? length sentence then sentence else currentSlide)
      end
    else Some (slides, sentence).

(** The body of [for (const paragraph of paragraphs)]. *)
Definition paragraphStep (st : SplitState) (paragraph : str) : option SplitState :=
  let '(slides, currentSlide) := st in
  if length currentSlide + length paragraph + 2 <=? maxCharsPerSlide then
    Some (slides,
          currentSlide ++ (if truthy currentSlide then [LF; LF] else []) ++ paragraph)
  else
    let '(slides, currentSlide) :=
      if truthy currentSlide
      then (slides ++ [(ParagraphFlush, currentSlide)], [])
      else (slides, currentSlide) in
    if maxCharsPerSlide <? length paragraph then
      foldM sentenceStep (split2 DOT SP paragraph) (slides, currentSlide)
    else Some (slides, paragraph).

(** The array [slides] when the loops and the final flush are done, for a
    text that is over the budget. *)
Definition splitLoops (text : str) : option (list Chunk) :=
  match foldM paragraphStep (split2 LF LF text) ([], []) with
  | None => None
  | Some (slides, currentSlide) =>
      Some (if truthy currentSlide
            then slides ++ [(FinalFlush, currentSlide)]
            else slides)
  end.

(** [splitTextForSlides(text, maxCharsPerSlide)]; [None] when the source
    does not return. *)
Definition splitTextForSlides (text : str) : option (list str) :=
  if length text <=? maxCharsPerSlide then Some [text]
  else
    match splitLoops text with
    | None => None
    | Some slides =>
        Some (if 0 <? length slides then map snd slides else [text])
    end.
End Partition.

(* ===================================================================== *)
(** ** markdownParser.ts: the list structurer *)
(* ===================================================================== *)

Record ParsedListItem := {
  item_text : str;
  level : nat;
  isNumbered : bool
}.

(** [(.+)] at the head of [s], with nothing after it in the pattern: the
    longest run of characters that are not line terminators, at least one. *)
Definition dotPlus (s : str) : option str :=
  match takeWhile (fun c => negb (isLineTerminator c)) s with
  | [] => None
  | cap => Some cap
  end.

(** [\s+(.+)] at the head of [s]: the whitespace run is greedy and gives
    characters back until [(.+)] can start. Returns the capture. *)
Fixpoint wsThenRest (s : str) : option str :=
  match s with
  | [] => None
  | c :: s' =>
      if isWhiteSpace c then
        match wsThenRest s' with
        | Some cap => Some cap
        | None => dotPlus s'
        end
      else None
  end.

(** [trimmed.match(/^[-*+]\s+(.+)/)]: the capture [bulletMatch[1]]. *)
Definition bulletMatch (trimmed : str) : option str :=
  match trimmed with
  | [] => None
  | c :: s' =>
      if (N.eqb c HYPHEN || N.eqb c STAR || N.eqb c PLUS)%bool
      then wsThenRest s' else None
  end.

(** [(\d+)\.\s+(.+)] at the head of [s]: the capture of [(.+)]. *)
Fixpoint digitsDotRest (s : str) : option str :=
  match s with
  | [] => None
  | c :: s' =>
      if isDigit c then
        match digitsDotRest s' with
        | Some cap => Some cap
        | None =>
            match s' with
            | d :: s'' => if N.eqb d DOT then wsThenRest s'' else None
            | [] => None
            end
        end
      else None
  end.

(** [trimmed.match(/^(\d+)\.\s+(.+)/)]: the capture [numberMatch[2]]. *)
Definition numberMatch (trimmed : str) : option str := digitsDotRest trimmed.

(** [markdown.split('\n').filter((line) => line.trim())] *)
Definition nonBlankLines (markdown : str) : list str :=
  filter (fun line => truthy (trim line)) (split1 LF markdown).

(** [line.length - line.trimStart().length] *)
Definition leadingSpaces (line : str) : nat :=
  length line - length (trimStart line).

(** The item pushed for a line whose [trim()] is not empty. *)
Definition listItemOfLine (line : str) : ParsedListItem :=
  let trimmed := trim line in
  let level := leadingSpaces line / 2 in
  match bulletMatch trimmed with
  | Some t => {| item_text := t; level := level; isNumbered := false |}
  | None =>
      match numberMatch trimmed with
      | Some t => {| item_text := t; level := level; isNumbered := true |}
      | None => {| item_text := trimmed; level := level; isNumbered := false |}
      end
  end.

(** [for (const line of lines)]: the pushed items, in order. *)
Fixpoint listLoop (lines : list str) : list ParsedListItem :=
  match lines with
  | [] => []
  | line :: rest =>
      if truthy (trim line) then listItemOfLine line :: listLoop rest
      else listLoop rest
  end.

Definition parseMarkdownList (markdown : str) : list ParsedListItem :=
  listLoop (nonBlankLines markdown).

(* ===================================================================== *)
(** ** markdownParser.ts: the table structurer *)
(* ===================================================================== *)

Record ParsedTable := {
  headers : list str;
  rows : list (list str)
}.

(** [[\s-:|]]: whitespace, hyphen, colon or pipe. *)
Definition isSeparatorChar (c : char) : bool :=
  (isWhiteSpace c || N.eqb c HYPHEN || N.eqb c COLON || N.eqb c PIPE)%bool.

(** [[\s-:|]+\|?$] at the head of [s]. *)
Fixpoint separatorBody (s : str) : bool :=
  match s with
  | [] => false
  | c :: s' =>
      (isSeparatorChar c
       && (separatorBody s'
           || match s' with
              | [] => true
              | [d] => N.eqb d PIPE
              | _ => false
              end))%bool
  end.

(** [s.match(/^\|?[\s-:|]+\|?$/)] is not null. *)
Definition separatorRegex (s : str) : bool :=
  (match s with
   | c :: s' => N.eqb c PIPE && separatorBody s'
   | [] => false
   end
   || separatorBody s)%bool.

(** [line.split('|').map((cell) => cell.trim()).filter((cell) => cell !== '')] *)
Definition cellsOf (line : str) : list str :=
  filter truthy (map trim (split1 PIPE line)).

(** [while (cells.length < n) cells.push('')] and then [cells.slice(0, n)]. *)
Definition padCells (n : nat) (cells : list str) : list str :=
  firstn n (cells ++ repeat [] (n - length cells)).

(** [for (let i = 2; i < lines.length; i++)] over [lines.slice(2)]: the
    pushed rows, in order. *)
Fixpoint rowLoop (columns : nat) (lines : list str) : list (list str) :=
  match lines with
  | [] => []
  | line :: rest =>
      let rowLine := trim line in
      if negb (includes rowLine PIPE) then rowLoop columns rest
      else
        let cells := cellsOf rowLine in
        if 0 <? length cells
        then padCells columns cells :: rowLoop columns rest
        else rowLoop columns rest
  end.

(** [parseMarkdownTable]; [None] is the source's [null]. *)
Definition parseMarkdownTable (markdown : str) : option ParsedTable :=
  let lines := nonBlankLines markdown in
  if length lines <? 2 then None
  else
    let headerLine := trim (nth 0 lines []) in
    let separatorLine := trim (nth 1 lines []) in
    if (negb (includes headerLine PIPE) || negb (includes separatorLine PIPE))%bool
    then None
    else
      let headers := cellsOf headerLine in
      if negb (separatorRegex separatorLine) then None
      else Some {| headers := headers;
                   rows := rowLoop (length headers) (skipn 2 lines) |}.

(* ===================================================================== *)
(** ** markdownParser.ts: the inline formatter *)
(* ===================================================================== *)

Inductive Format := Bold | Italic | Underline.

Definition Format_eqb (a b : Format) : bool :=
  match a, b with
  | Bold, Bold | Italic, Italic | Underline, Underline => true
  | _, _ => false
  end.

Record FormattedTextSegment := {
  text : str;
  bold : bool;
  italic : bool;
  underline : bool;
  fontSize : option Z
}.

(** An entry of the array [replacements]. *)
Record Replacement := {
  r_start : nat;
  r_end : nat;
  r_text : str;
  r_format : Format
}.

(** The three patterns have one shape: an opening delimiter, a group of one
    or more characters outside a class, a closing delimiter.
    [/\*\*([^*]+)\*\*/g], [/__([^_]+)__/g], [/\*([^*]+)\*/g]. *)
Record SpanRegex := {
  sr_open : str;
  sr_excluded : char -> bool;
  sr_lazy : bool;            (* the group is [+?] rather than [+] *)
  sr_close : str
}.

Definition boldRegex : SpanRegex :=
  {| sr_open := [STAR; STAR]; sr_excluded := N.eqb STAR; sr_lazy := false;
     sr_close := [STAR; STAR] |}.
Definition underlineRegex : SpanRegex :=
  {| sr_open := [UNDERSCORE; UNDERSCORE]; sr_excluded := N.eqb UNDERSCORE;
     sr_lazy := false; sr_close := [UNDERSCORE; UNDERSCORE] |}.
Definition italicRegex : SpanRegex :=
  {| sr_open := [STAR]; sr_excluded := N.eqb STAR; sr_lazy := false;
     sr_close := [STAR] |}.

(** [([^x]+)close] at the head of [s], greedy: the group takes as many
    characters as it can and gives them back until [close] follows. *)
Fixpoint groupGreedy (excluded : char -> bool) (close : str) (s : str)
    : option str :=
  match s with
  | [] => None
  | c :: s' =>
      if excluded c then None
      else match groupGreedy excluded close s' with
           | Some cap => Some (c :: cap)
           | None => if isPrefix close s' then Some [c] else None
           end
  end.

(** [([^x]+?)close] at the head of [s], lazy: the group takes one character
    and one more each time [close] does not follow. *)
Fixpoint groupLazy (excluded : char -> bool) (close : str) (s : str)
    : option str :=
  match s with
  | [] => None
  | c :: s' =>
      if excluded c then None
      else if isPrefix close s' then Some [c]
      else match groupLazy excluded close s' with
           | Some cap => Some (c :: cap)
           | None => None
           end
  end.

(** The pattern at the head of [s]: the captured group. *)
Definition matchAt (re : SpanRegex) (s : str) : option str :=
  if isPrefix (sr_open re) s
  then (if sr_lazy re then groupLazy else groupGreedy)
         (sr_excluded re) (sr_close re) (skipn (length (sr_open re)) s)
  else None.

(** The result of [exec]: [match.index], [match[0]], [match[1]]. *)
Record RegExpMatch := {
  m_index : nat;
  m_0 : str;
  m_1 : str
}.

(** The leftmost match in [s], the suffix of the input that starts at
    [index]. *)
Fixpoint searchFrom (re : SpanRegex) (index : nat) (s : str) : option RegExpMatch :=
  match matchAt re s with
  | Some cap =>
      Some {| m_index := index; m_0 := sr_open re ++ cap ++ sr_close re; m_1 := cap |}
  | None =>
      match s with
      | [] => None
      | _ :: s' => searchFrom re (S index) s'
      end
  end.

(** [regex.exec(input)] for a global regular expression whose [lastIndex]
    is [lastIndex]. The new [lastIndex] is the end of the match. *)
Definition regexExec (re : SpanRegex) (input : str) (lastIndex : nat)
    : option RegExpMatch :=
  if length input <? lastIndex then None
  else searchFrom re lastIndex (skipn lastIndex input).

(** [replacements.some(r => ...)] *)
Definition overlapsAny (start end_ : nat) (replacements : list Replacement) : bool :=
  existsb (fun r =>
    ((r_start r <=? start) && (start <? r_end r))
    || ((r_start r <? end_) && (end_ <=? r_end r))
    || ((start <=? r_start r) && (r_end r <=? end_)))%bool replacements.

(** [while ((match = pattern.regex.exec(markdown)) !== null) { ... }] for one
    pattern: the array [replacements] after the loop. *)
Fixpoint scanPattern (fuel : nat) (markdown : str) (re : SpanRegex) (type : Format)
    (lastIndex : nat) (replacements : list Replacement) : option (list Replacement) :=
  match regexExec re markdown lastIndex with
  | None => Some replacements
  | Some m =>
      match fuel with
      | O => None
      | S fuel' =>
          let start := m_index m in
          let end_ := m_index m + length (m_0 m) in
          let overlaps := overlapsAny start end_ replacements in
          scanPattern fuel' markdown re type end_
            (if negb overlaps
             then replacements ++ [{| r_start := start; r_end := end_;
                                      r_text := m_1 m; r_format := type |}]
             else replacements)
      end
  end.

Definition patterns : list (SpanRegex * Format) :=
  [(boldRegex, Bold); (underlineRegex, Underline); (italicRegex, Italic)].

(** [for (const pattern of patterns)]: the accepted [replacements], in the
    order they were pushed. *)
Definition collectReplacements (markdown : str) : option (list Replacement) :=
  foldM (fun replacements (pattern : SpanRegex * Format) =>
           scanPattern (length markdown) markdown (fst pattern) (snd pattern)
                       0 replacements)
        patterns [].

(** [replacements.sort((a, b) => a.start - b.start)]: a stable sort. *)
Fixpoint insertByStart (r : Replacement) (l : list Replacement) : list Replacement :=
  match l with
  | [] => [r]
  | x :: l' =>
      if r_start r <=? r_start x then r :: l else x :: insertByStart r l'
  end.

Definition sortByStart (l : list Replacement) : list Replacement :=
  fold_right insertByStart [] l.

Definition plainSegment (t : str) : FormattedTextSegment :=
  {| text := t; bold := false; italic := false; underline := false;
     fontSize := None |}.

(** [{ text }] with [segment[format] = true]. *)
Definition styledSegment (t : str) (f : Format) : FormattedTextSegment :=
  {| text := t; bold := Format_eqb f Bold; italic := Format_eqb f Italic;
     underline := Format_eqb f Underline; fontSize := None |}.

(** The body of [for (const replacement of replacements)] on the state
    [(segments, textIndex)]. *)
Definition segmentStep (markdown : str)
    (st : list FormattedTextSegment * nat) (replacement : Replacement)
    : list FormattedTextSegment * nat :=
  let '(segments, textIndex) := st in
  let segments :=
    if textIndex <? r_start replacement then
      let plainText := substring markdown textIndex (r_start replacement) in
      if truthy plainText then segments ++ [plainSegment plainText] else segments
    else segments in
  (segments ++ [styledSegment (r_text replacement) (r_format replacement)],
   r_end replacement).

(** Everything after the sort: the segments for the sorted [replacements]. *)
Definition buildSegments (markdown : str) (replacements : list Replacement)
    : list FormattedTextSegment :=
  let '(segments, textIndex) :=
    fold_left (segmentStep markdown) replacements ([], 0) in
  let segments :=
    if textIndex <? length markdown then
      let remainingText := substringFrom markdown textIndex in
      if truthy remainingText then segments ++ [plainSegment remainingText]
      else segments
    else segments in
  if length segments =? 0 then segments ++ [plainSegment markdown] else segments.

(** The sorted array [replacements]: the spans the formatter accepted. *)
Definition acceptedSpans (markdown : str) : option (list Replacement) :=
  option_map sortByStart (collectReplacements markdown).

(** [parseMarkdownToFormattedText] *)
Definition parseMarkdownToFormattedText (markdown : str)
    : option (list FormattedTextSegment) :=
  option_map (buildSegments markdown) (acceptedSpans markdown).

(* ===================================================================== *)
(** ** The inline formatter, masking revision *)
(* ===================================================================== *)

(** A second revision of [parseMarkdownToFormattedText] in the repository
    collects every bold and underline match first, looks for italic spans in
    a copy of the source whose bold stretches are masked, and only then
    drops overlapping matches. Its last phase (sort, [buildSegments]) is the
    one above. *)
Module MaskingRevision.

(** [/\*([^*\n]+?)\*/g] *)
Definition italicRegex : SpanRegex :=
  {| sr_open := [STAR];
     sr_excluded := fun c => (N.eqb c STAR || N.eqb c LF)%bool;
     sr_lazy := true;
     sr_close := [STAR] |}.

(** [while ((match = regex.exec(markdown)) !== null) allMatches.push(...)].
    An entry of [allMatches] also has a field [fullMatch], which is never
    read. *)
Fixpoint execAll (fuel : nat) (markdown : str) (re : SpanRegex) (type : Format)
    (lastIndex : nat) (allMatches : list Replacement) : option (list Replacement) :=
  match regexExec re markdown lastIndex with
  | None => Some allMatches
  | Some m =>
      match fuel with
      | O => None
      | S fuel' =>
          let end_ := m_index m + length (m_0 m) in
          execAll fuel' markdown re type end_
            (allMatches ++ [{| r_start := m_index m; r_end := end_;
                               r_text := m_1 m; r_format := type |}])
      end
  end.

(** The placeholder literal of the source: the three code units U+00E2,
    U+2013 and U+02C6 (the UTF-8 bytes of the block character U+2588, read
    as Windows-1252). *)
Definition PLACEHOLDER : str := [226%N; 8211%N; 710%N].

(** [s.repeat(n)] *)
Fixpoint repeatStr (s : str) (n : nat) : str :=
  match n with
  | O => []
  | S n' => s ++ repeatStr s n'
  end.

(** [workingText.substring(0, mask.start)
      + placeholder.repeat(mask.end - mask.start)
      + workingText.substring(mask.end)], for any placeholder string. *)
Definition maskStep (placeholder : str) (workingText : str) (mask : Replacement)
    : str :=
  substring workingText 0 (r_start mask)
  ++ repeatStr placeholder (r_end mask - r_start mask)
  ++ substringFrom workingText (r_end mask).

(** [boldMasks.some(mask => ...)] *)
Definition overlapsWithBold (start end_ : nat) (boldMasks : list Replacement) : bool :=
  existsb (fun mask =>
    ((r_start mask <=? start) && (start <? r_end mask))
    || ((r_start mask <? end_) && (end_ <=? r_end mask))
    || ((start <? r_start mask) && (r_end mask <? end_)))%bool boldMasks.

(** [while ((match = italicRegex.exec(workingText)) !== null) { ... }] *)
Fixpoint italicLoop (fuel : nat) (markdown workingText : str)
    (boldMasks : list Replacement) (lastIndex : nat)
    (allMatches : list Replacement) : option (list Replacement) :=
  match regexExec italicRegex workingText lastIndex with
  | None => Some allMatches
  | Some m =>
      match fuel with
      | O => None
      | S fuel' =>
          let start := m_index m in
          let end_ := m_index m + length (m_0 m) in
          italicLoop fuel' markdown workingText boldMasks end_
            (if negb (overlapsWithBold start end_ boldMasks)
             then allMatches ++ [{| r_start := start; r_end := end_;
                                    r_text := substring markdown (start + 1) (end_ - 1);
                                    r_format := Italic |}]
             else allMatches)
      end
  end.

(** [for (const match of allMatches)]: keep a match unless it overlaps one
    kept before. *)
Definition acceptStep (replacements : list Replacement) (m : Replacement)
    : list Replacement :=
  if negb (overlapsAny (r_start m) (r_end m) replacements)
  then replacements ++ [m] else replacements.

(** The sorted array [replacements], for any placeholder string. *)
Definition acceptedSpansWith (placeholder : str) (markdown : str)
    : option (list Replacement) :=
  match execAll (length markdown) markdown boldRegex Bold 0 [] with
  | None => None
  | Some allMatches =>
      match execAll (length markdown) markdown underlineRegex Underline 0 allMatches with
      | None => None
      | Some allMatches =>
          let boldMasks :=
            rev (filter (fun m => Format_eqb (r_format m) Bold) allMatches) in
          let workingText := fold_left (maskStep placeholder) boldMasks markdown in
          match italicLoop (length workingText) markdown workingText boldMasks 0
                           allMatches with
          | None => None
          | Some allMatches =>
              Some (sortByStart (fold_left acceptStep (sortByStart allMatches) []))
          end
      end
  end.

Definition parseWith (placeholder : str) (markdown : str)
    : option (list FormattedTextSegment) :=
  option_map (buildSegments markdown) (acceptedSpansWith placeholder markdown).

(** The revision as it is in the repository. *)
Definition acceptedSpans (markdown : str) : option (list Replacement) :=
  acceptedSpansWith PLACEHOLDER markdown.

Definition parseMarkdownToFormattedText (markdown : str)
    : option (list FormattedTextSegment) :=
  parseWith PLACEHOLDER markdown.

End MaskingRevision.

(* ===================================================================== *)
(** ** markdownParser.ts: the formatting requests *)
(* ===================================================================== *)

(** [l.join(sep)] *)
Fixpoint join (sep : str) (l : list str) : str :=
  match l with
  | [] => []
  | [s] => s
  | s :: l' => s ++ sep ++ join sep l'
  end.

(** [slides_v1.Schema$TextStyle], with the properties the code sets: a flag
    is [true] when the property is set to [true], the font size is its
    magnitude in points. *)
Record TextStyle := {
  style_bold : bool;
  style_italic : bool;
  style_underline : bool;
  style_fontSize : option Z;
  style_fontFamily : option str
}.

(** [textRange]: [{ type: 'ALL' }] or
    [{ type: 'FIXED_RANGE', startIndex, endIndex }]. *)
Inductive TextRange :=
| ALL
| FIXED_RANGE (startIndex endIndex : nat).

Record CellLocation := { rowIndex : nat; columnIndex : nat }.

(** The request [{ updateTextStyle: { objectId, cellLocation?, textRange,
    style, fields } }]. *)
Record UpdateTextStyle := {
  uts_objectId : str;
  uts_cellLocation : option CellLocation;
  uts_textRange : TextRange;
  uts_style : TextStyle;
  uts_fields : str
}.

(** Truthiness of the optional number [segment.fontSize]: present and not
    zero. *)
Definition fontSizeSet (fontSize : option Z) : bool :=
  match fontSize with
  | Some z => negb (Z.eqb z 0)
  | None => false
  end.

(** [segment.bold || segment.italic || segment.underline || segment.fontSize] *)
Definition needsFormatting (segment : FormattedTextSegment) : bool :=
  (bold segment || italic segment || underline segment
   || fontSizeSet (fontSize segment))%bool.

(** The array [fields] after the four tests. *)
Definition styleFields (segment : FormattedTextSegment) : list str :=
  (if bold segment then [js "bold"] else [])
  ++ (if italic segment then [js "italic"] else [])
  ++ (if underline segment then [js "underline"] else [])
  ++ (if fontSizeSet (fontSize segment) then [js "fontSize"] else []).

(** The object [style] after the four tests. *)
Definition styleOf (segment : FormattedTextSegment) : TextStyle :=
  {| style_bold := bold segment;
     style_italic := italic segment;
     style_underline := underline segment;
     style_fontSize := if fontSizeSet (fontSize segment) then fontSize segment else None;
     style_fontFamily := None |}.

(** The body of [for (const segment of segments)] on the state
    [(requests, currentIndex)]. *)
Definition formattingStep (objectId : str)
    (st : list UpdateTextStyle * nat) (segment : FormattedTextSegment)
    : list UpdateTextStyle * nat :=
  let '(requests, currentIndex) := st in
  let startIndex := currentIndex in
  let endIndex := currentIndex + length (text segment) in
  (if needsFormatting segment
   then requests ++ [{| uts_objectId := objectId;
                        uts_cellLocation := None;
                        uts_textRange := FIXED_RANGE startIndex endIndex;
                        uts_style := styleOf segment;
                        uts_fields := join (js ",") (styleFields segment) |}]
   else requests,
   endIndex).

Definition generateTextFormattingRequests (objectId : str)
    (segments : list FormattedTextSegment) : list UpdateTextStyle :=
  fst (fold_left (formattingStep objectId) segments ([], 0)).

(* ===================================================================== *)
(** ** slideHelpers.ts: truncation *)
(* ===================================================================== *)

(** [s.lastIndexOf(c)] for a one-character needle; [-1] when there is
    none. *)
Fixpoint lastIndexOf (s : str) (c : char) : Z :=
  match s with
  | [] => (-1)%Z
  | d :: s' =>
      let i := lastIndexOf s' c in
      if (0 <=? i)%Z then (i + 1)%Z
      else if N.eqb d c then 0%Z else (-1)%Z
  end.

(** The double that the literal [0.8] denotes. *)
Definition WORD_BOUNDARY_FACTOR : float := 0x1.999999999999ap-1%float.

(** [truncateText(text, maxLength)], for a limit that is a natural number.
    [substring(0, lastSpace)] is only reached with [lastSpace] above a
    product that is not negative. *)
Definition truncateText (text : str) (maxLength : nat) : str :=
  if length text <=? maxLength then text
  else
    let truncated := substring text 0 maxLength in
    let lastSpace := lastIndexOf truncated SP in
    if PrimFloat.ltb (PrimFloat.mul (float_of_nat maxLength) WORD_BOUNDARY_FACTOR)
                     (float_of_Z lastSpace)
    then substring truncated 0 (Z.to_nat lastSpace) ++ ELLIPSIS
    else truncated ++ ELLIPSIS.

(* ===================================================================== *)
(** ** slideHelpers.ts: element properties *)
(* ===================================================================== *)

Record LayoutBox := {
  box_x : float; box_y : float; box_width : float; box_height : float
}.

Definition LAYOUT_DIMENSIONS_TITLE : LayoutBox :=
  {| box_x := 50; box_y := 50; box_width := 620; box_height := 80 |}.
Definition LAYOUT_DIMENSIONS_BODY : LayoutBox :=
  {| box_x := 50; box_y := 150; box_width := 620; box_height := 340 |}.
Definition LAYOUT_DIMENSIONS_FULL_SLIDE : LayoutBox :=
  {| box_x := 50; box_y := 50; box_width := 620; box_height := 440 |}.

(** [slides_v1.Schema$AffineTransform] *)
Record AffineTransform := {
  scaleX : float;
  scaleY : float;
  translateX : float;
  translateY : float;
  transform_unit : str
}.

(** [slides_v1.Schema$Dimension] *)
Record SchemaDimension := { magnitude : float; dimension_unit : str }.

(** [slides_v1.Schema$Size] *)
Record Size := { size_width : SchemaDimension; size_height : SchemaDimension }.

(** [slides_v1.Schema$PageElementProperties] *)
Record PageElementProperties := {
  pageObjectId : str;
  element_size : Size;
  element_transform : AffineTransform
}.

Definition PT : str := js "PT".

(** A parameter with a default value: the default when it is not passed. *)
Definition orDefault (v : option float) (d : float) : float :=
  match v with
  | Some x => x
  | None => d
  end.

(** [createTransform(x, y, scaleX = 1, scaleY = 1)] *)
Definition createTransform (x y : float) (sx sy : option float) : AffineTransform :=
  {| scaleX := orDefault sx 1;
     scaleY := orDefault sy 1;
     translateX := x;
     translateY := y;
     transform_unit := PT |}.

(** [createSize(width, height)] *)
Definition createSize (w h : float) : Size :=
  {| size_width := {| magnitude := w; dimension_unit := PT |};
     size_height := {| magnitude := h; dimension_unit := PT |} |}.

(** [createElementProperties(pageObjectId, x, y, width, height)] *)
Definition createElementProperties (page : str) (x y w h : float)
    : PageElementProperties :=
  {| pageObjectId := page;
     element_size := createSize w h;
     element_transform := createTransform x y None None |}.

(** Truthiness of a number: it is neither a zero nor NaN. *)
Definition truthyNumber (x : float) : bool :=
  negb (PrimFloat.is_zero x || PrimFloat.is_nan x).

(** [v || d] for an optional number [v]. *)
Definition orNumber (v : option float) (d : float) : float :=
  match v with
  | Some x => if truthyNumber x then x else d
  | None => d
  end.

(** [Math.min(a, b)] *)
Definition mathMin (a b : float) : float :=
  if (PrimFloat.is_nan a || PrimFloat.is_nan b)%bool then PrimFloat.nan
  else if PrimFloat.ltb b a then b
  else if (PrimFloat.eqb a b && PrimFloat.get_sign b)%bool then b
  else a.

(* ===================================================================== *)
(** ** The requests of a batch update *)
(* ===================================================================== *)

Record RgbColor := { red : float; green : float; blue : float }.

(** [tableRange: { location, rowSpan, columnSpan }] *)
Record TableRange := {
  range_location : CellLocation;
  rowSpan : nat;
  columnSpan : nat
}.

(** [slides_v1.Schema$Request], with the kinds of request and the
    properties that the tools set. *)
Inductive Request :=
| CreateSlide (objectId : str) (insertionIndex : float) (predefinedLayout : str)
| CreateShape (objectId shapeType : str) (elementProperties : PageElementProperties)
| CreateTable (objectId : str) (elementProperties : PageElementProperties)
    (tableRows tableColumns : nat)
| InsertText (objectId : str) (cellLocation : option CellLocation)
    (insertedText : str) (insertionIndex : nat)
| UpdateTextStyleRequest (updateTextStyle : UpdateTextStyle)
| CreateParagraphBullets (objectId : str) (textRange : TextRange)
    (bulletPreset : str)
| UpdateTableCellProperties (objectId : str) (tableRange : TableRange)
    (backgroundColor : RgbColor) (fields : str)
| UpdateTableBorderProperties (objectId : str) (tableRange : TableRange)
    (borderPosition : str) (borderColor : RgbColor) (weight : SchemaDimension)
    (dashStyle : str) (fields : str)
| UpdateShapeProperties (objectId : str) (autofitType : str)
    (fontScale lineSpacingReduction : float) (fields : str).

(* ===================================================================== *)
(** ** tools/addTableToSlide.ts: the requests *)
(* ===================================================================== *)

Record AddTableToSlideArgs := {
  table_presentationId : str;
  table_slideId : str;
  tableContent : str;
  table_x : option float;
  table_y : option float;
  table_width : option float;
  table_height : option float;
  headerStyle : option bool
}.

Definition INVALID_TABLE_FORMAT : str :=
  js "Invalid table format. Please use markdown table syntax with | separators.".
Definition TABLE_WITHOUT_COLUMN : str :=
  js "Table must have at least one column and one row".

Definition ARIAL : str := js "Arial".

(** The double that the literal [0.9] denotes. *)
Definition LIGHT_GRAY_LEVEL : float := 0x1.ccccccccccccdp-1%float.

(** [for (let col = 0; col < headers.length; col++)
      if (headers[col]) requests.push({ insertText: ... })] *)
Definition headerInserts (tableObjectId : str) (headers : list str) : list Request :=
  flat_map (fun col =>
              let header := nth col headers [] in
              if truthy header
              then [InsertText tableObjectId
                      (Some {| rowIndex := 0; columnIndex := col |}) header 0]
              else [])
           (seq 0 (length headers)).

(** The two nested loops over the rows: [rows[row][col] || ''] is the cell,
    or the empty string when there is none. *)
Definition rowInserts (tableObjectId : str) (rows : list (list str))
    (totalColumns : nat) : list Request :=
  flat_map (fun row =>
              flat_map (fun col =>
                          let cellValue := nth col (nth row rows []) [] in
                          if truthy cellValue
                          then [InsertText tableObjectId
                                  (Some {| rowIndex := row + 1; columnIndex := col |})
                                  cellValue 0]
                          else [])
                       (seq 0 totalColumns))
           (seq 0 (length rows)).

Definition headerCellStyle : TextStyle :=
  {| style_bold := true;
     style_italic := false;
     style_underline := false;
     style_fontSize := Some (fr_default FONT_SIZE_RANGES_TABLE + 2)%Z;
     style_fontFamily := Some ARIAL |}.

Definition dataCellStyle : TextStyle :=
  {| style_bold := false;
     style_italic := false;
     style_underline := false;
     style_fontSize := Some (fr_default FONT_SIZE_RANGES_TABLE);
     style_fontFamily := Some ARIAL |}.

(** [if (headerStyle) { for (col...) push(updateTextStyle);
                        push(updateTableCellProperties) }] *)
Definition headerStyling (tableObjectId : str) (totalColumns : nat) : list Request :=
  map (fun col =>
         UpdateTextStyleRequest
           {| uts_objectId := tableObjectId;
              uts_cellLocation := Some {| rowIndex := 0; columnIndex := col |};
              uts_textRange := ALL;
              uts_style := headerCellStyle;
              uts_fields := js "bold,fontSize,fontFamily" |})
      (seq 0 totalColumns)
  ++ [UpdateTableCellProperties tableObjectId
        {| range_location := {| rowIndex := 0; columnIndex := 0 |};
           rowSpan := 1; columnSpan := totalColumns |}
        {| red := LIGHT_GRAY_LEVEL; green := LIGHT_GRAY_LEVEL; blue := LIGHT_GRAY_LEVEL |}
        (js "tableCellBackgroundFill")].

(** [for (let row = 1; row <= rows.length; row++) for (col...)
      push(updateTextStyle)] *)
Definition dataStyling (tableObjectId : str) (rowCount totalColumns : nat)
    : list Request :=
  flat_map (fun row =>
              map (fun col =>
                     UpdateTextStyleRequest
                       {| uts_objectId := tableObjectId;
                          uts_cellLocation := Some {| rowIndex := row; columnIndex := col |};
                          uts_textRange := ALL;
                          uts_style := dataCellStyle;
                          uts_fields := js "fontSize,fontFamily" |})
                  (seq 0 totalColumns))
           (seq 1 rowCount).

Definition tableBorders (tableObjectId : str) (totalRows totalColumns : nat) : Request :=
  UpdateTableBorderProperties tableObjectId
    {| range_location := {| rowIndex := 0; columnIndex := 0 |};
       rowSpan := totalRows; columnSpan := totalColumns |}
    (js "ALL")
    {| red := 0; green := 0; blue := 0 |}
    {| magnitude := 1; dimension_unit := PT |}
    (js "SOLID")
    (js "tableBorderFill,weight,dashStyle").

(** [addTableToSlideTool] up to the call of [batchUpdate]: the array
    [requests], or the message of the error thrown. [tableObjectId] is what
    [generateObjectId('table')] returned. *)
Definition addTableToSlideRequests (tableObjectId : str) (args : AddTableToSlideArgs)
    : str + list Request :=
  match parseMarkdownTable (tableContent args) with
  | None => inl INVALID_TABLE_FORMAT
  | Some parsedTable =>
      let headers := headers parsedTable in
      let rows := rows parsedTable in
      let totalRows := length rows + 1 in
      let totalColumns := length headers in
      if ((totalColumns =? 0) || (totalRows =? 0))%bool then inl TABLE_WITHOUT_COLUMN
      else
        let x := orNumber (table_x args) (box_x LAYOUT_DIMENSIONS_BODY) in
        let y := orNumber (table_y args) (box_y LAYOUT_DIMENSIONS_BODY) in
        let w := orNumber (table_width args) (box_width LAYOUT_DIMENSIONS_BODY) in
        let h := orNumber (table_height args)
                   (mathMin (box_height LAYOUT_DIMENSIONS_BODY)
                            (PrimFloat.mul (float_of_nat totalRows) 40)) in
        let styled := match headerStyle args with
                      | Some false => false
                      | _ => true
                      end in
        inr ([CreateTable tableObjectId
                (createElementProperties (table_slideId args) x y w h)
                totalRows totalColumns]
             ++ headerInserts tableObjectId headers
             ++ rowInserts tableObjectId rows totalColumns
             ++ (if styled then headerStyling tableObjectId totalColumns else [])
             ++ (if 0 <? length rows then dataStyling tableObjectId (length rows) totalColumns
                 else [])
             ++ [tableBorders tableObjectId totalRows totalColumns])
  end.

(* ===================================================================== *)
(** ** tools/addListToSlide.ts: the requests *)
(* ===================================================================== *)

Record AddListToSlideArgs := {
  list_presentationId : str;
  list_slideId : str;
  listContent : str;
  list_x : option float;
  list_y : option float;
  list_width : option float;
  list_height : option float;
  bulletStyle : option str
}.

Definition NO_LIST_ITEMS : str :=
  js "No valid list items found in the provided content".

Definition BULLET_DISC_CIRCLE_SQUARE : str := js "BULLET_DISC_CIRCLE_SQUARE".
Definition BULLET_CIRCLE_HOLLOW : str := js "BULLET_CIRCLE_HOLLOW".
Definition BULLET_DIAMOND_X : str := js "BULLET_DIAMOND_X".
Definition NUMBERED_DECIMAL : str := js "NUMBERED_DECIMAL".
Definition NUMBERED_ALPHA_LOWER : str := js "NUMBERED_ALPHA_LOWER".

(** [v || d] for an optional string [v]. *)
Definition orString (v : option str) (d : str) : str :=
  match v with
  | Some s => if truthy s then s else d
  | None => d
  end.

(** ['  '.repeat(item.level) + item.text] *)
Definition itemLine (item : ParsedListItem) : str :=
  MaskingRevision.repeatStr (js "  ") (level item) ++ item_text item.

(** [listItems.map(...).join('\n')] *)
Definition listTextOf (listItems : list ParsedListItem) : str :=
  join [LF] (map itemLine listItems).

(** An entry [{ start, end }] of a level group. *)
Record LevelRange := { range_start : nat; range_end : nat }.

(** The object [levelGroups]: its entries in the order in which
    [Object.entries] lists them, which for keys that are array indices is
    the ascending order of the keys. A level that is not an array index (at
    least [2^32 - 1]) would be listed after these instead; such a group
    gives no request, and the order of the others is not changed by it. *)
Definition LevelGroups : Type := list (nat * list LevelRange).

(** [if (!levelGroups[level]) levelGroups[level] = [];
     levelGroups[level].push(range)] *)
Fixpoint pushRange (lv : nat) (r : LevelRange) (levelGroups : LevelGroups)
    : LevelGroups :=
  match levelGroups with
  | [] => [(lv, [r])]
  | (k, ranges) :: rest =>
      if lv =? k then (k, ranges ++ [r]) :: rest
      else if lv <? k then (lv, [r]) :: levelGroups
      else (k, ranges) :: pushRange lv r rest
  end.

(** The body of [for (const item of listItems)] on the state
    [(levelGroups, currentIndex)]. *)
Definition groupStep (st : LevelGroups * nat) (item : ParsedListItem)
    : LevelGroups * nat :=
  let '(levelGroups, currentIndex) := st in
  let itemText := itemLine item ++ [LF] in
  let startIndex := currentIndex in
  let endIndex := currentIndex + length itemText - 1 in
  (pushRange (level item)
     {| range_start := startIndex; range_end := endIndex |} levelGroups,
   currentIndex + length itemText).

(** The array [bulletStyles]. *)
Definition bulletStyles (preset : str) (isNumberedList : bool) : list str :=
  [ preset;
    if isNumberedList then NUMBERED_ALPHA_LOWER else BULLET_CIRCLE_HOLLOW;
    if isNumberedList then NUMBERED_DECIMAL else BULLET_DIAMOND_X ].

(** [for (const [level, ranges] of Object.entries(levelGroups))
      if (levelNum > 0 && levelNum < bulletStyles.length)
        for (const range of ranges) requests.push(...)] *)
Definition nestedBullets (listObjectId : str) (styles : list str)
    (levelGroups : LevelGroups) : list Request :=
  flat_map (fun entry : nat * list LevelRange =>
              let '(levelNum, ranges) := entry in
              if ((0 <? levelNum) && (levelNum <? length styles))%bool
              then map (fun r =>
                          CreateParagraphBullets listObjectId
                            (FIXED_RANGE (range_start r) (range_end r))
                            (nth levelNum styles []))
                       ranges
              else [])
           levelGroups.

(** [addListToSlideTool] up to the call of [batchUpdate]: the array
    [requests], or the message of the error thrown; [None] if the font
    search did not return. [listObjectId] is what
    [generateObjectId('list')] returned. *)
Definition addListToSlideRequests (listObjectId : str) (args : AddListToSlideArgs)
    : option (str + list Request) :=
  let x := orNumber (list_x args) (box_x LAYOUT_DIMENSIONS_BODY) in
  let y := orNumber (list_y args) (box_y LAYOUT_DIMENSIONS_BODY) in
  let w := orNumber (list_width args) (box_width LAYOUT_DIMENSIONS_BODY) in
  let h := orNumber (list_height args) (box_height LAYOUT_DIMENSIONS_BODY) in
  let listItems := parseMarkdownList (listContent args) in
  match listItems with
  | [] => Some (inl NO_LIST_ITEMS)
  | first :: _ =>
      let isNumberedList := isNumbered first in
      let preset :=
        orString (bulletStyle args)
          (if isNumberedList then NUMBERED_DECIMAL else BULLET_DISC_CIRCLE_SQUARE) in
      let listText := listTextOf listItems in
      match calculateOptimalFontSize listText w h FONT_SIZE_RANGES_LIST with
      | None => None
      | Some fontSize =>
          let hasNestedItems := existsb (fun item => 0 <? level item) listItems in
          Some (inr
            ([ CreateShape listObjectId (js "TEXT_BOX")
                 (createElementProperties (list_slideId args) x y w h);
               InsertText listObjectId None listText 0;
               UpdateTextStyleRequest
                 {| uts_objectId := listObjectId;
                    uts_cellLocation := None;
                    uts_textRange := ALL;
                    uts_style := {| style_bold := false;
                                    style_italic := false;
                                    style_underline := false;
                                    style_fontSize := Some fontSize;
                                    style_fontFamily := Some ARIAL |};
                    uts_fields := js "fontSize,fontFamily" |};
               CreateParagraphBullets listObjectId ALL preset ]
             ++ (if hasNestedItems
                 then nestedBullets listObjectId
                        (bulletStyles preset isNumberedList)
                        (fst (fold_left groupStep listItems ([], 0)))
                 else [])))
      end
  end.

(* ===================================================================== *)
(** ** tools/createSlideWithContent.ts: the requests *)
(* ===================================================================== *)

Record CreateSlideWithContentArgs := {
  slide_presentationId : str;
  slide_title : str;
  slide_content : str;
  slideIndex : option float;
  layout : option str
}.

Definition TITLE_AND_BODY : str := js "TITLE_AND_BODY".
Definition BLANK : str := js "BLANK".

(** The default value of [maxCharsPerSlide]. *)
Definition DEFAULT_MAX_CHARS_PER_SLIDE : nat := 800.

Fixpoint str_eqb (a b : str) : bool :=
  match a, b with
  | [], [] => true
  | x :: a', y :: b' => (N.eqb x y && str_eqb a' b')%bool
  | _, _ => false
  end.

(** The decimal digits of a number, as a template literal writes it. *)
Fixpoint digitsOf (d : Decimal.uint) : str :=
  match d with
  | Decimal.Nil => []
  | Decimal.D0 d' => 48%N :: digitsOf d'
  | Decimal.D1 d' => 49%N :: digitsOf d'
  | Decimal.D2 d' => 50%N :: digitsOf d'
  | Decimal.D3 d' => 51%N :: digitsOf d'
  | Decimal.D4 d' => 52%N :: digitsOf d'
  | Decimal.D5 d' => 53%N :: digitsOf d'
  | Decimal.D6 d' => 54%N :: digitsOf d'
  | Decimal.D7 d' => 55%N :: digitsOf d'
  | Decimal.D8 d' => 56%N :: digitsOf d'
  | Decimal.D9 d' => 57%N :: digitsOf d'
  end.

Definition decimal (n : nat) : str := digitsOf (Nat.to_uint n).

(** [i === 0 ? args.title : `${args.title} (cont. ${i + 1})`] *)
Definition currentTitle (title : str) (i : nat) : str :=
  if i =? 0 then title
  else title ++ js " (cont. " ++ decimal (i + 1) ++ js ")".

(** The three object ids that [generateObjectId] returned in a round of the
    loop: for the slide, the title and the content. *)
Record SlideIds := { slideObjectId : str; titleObjectId : str; contentObjectId : str }.

(** [segments.map((s) => s.text).join('')] *)
Definition joinedText (segments : list FormattedTextSegment) : str :=
  join [] (map text segments).

(** The array [requests] of one round of the loop; [None] when a call that
    the round makes did not return. *)
Definition slideRequests (ids : SlideIds) (layoutName : str) (insertionIndex : float)
    (title content : str) : option (list Request) :=
  match parseMarkdownToFormattedText title,
        parseMarkdownToFormattedText content with
  | Some titleSegments, Some contentSegments =>
      let titleText := joinedText titleSegments in
      let contentText := joinedText contentSegments in
      match calculateOptimalFontSize titleText
              (box_width LAYOUT_DIMENSIONS_TITLE) (box_height LAYOUT_DIMENSIONS_TITLE)
              FONT_SIZE_RANGES_TITLE,
            calculateOptimalFontSize contentText
              (box_width LAYOUT_DIMENSIONS_BODY) (box_height LAYOUT_DIMENSIONS_BODY)
              FONT_SIZE_RANGES_BODY with
      | Some titleFontSize, Some contentFontSize =>
          Some
            ([ CreateSlide (slideObjectId ids) insertionIndex layoutName;
               CreateShape (titleObjectId ids) (js "TEXT_BOX")
                 (createElementProperties (slideObjectId ids)
                    (box_x LAYOUT_DIMENSIONS_TITLE) (box_y LAYOUT_DIMENSIONS_TITLE)
                    (box_width LAYOUT_DIMENSIONS_TITLE)
                    (box_height LAYOUT_DIMENSIONS_TITLE));
               InsertText (titleObjectId ids) None titleText 0;
               UpdateTextStyleRequest
                 {| uts_objectId := titleObjectId ids;
                    uts_cellLocation := None;
                    uts_textRange := ALL;
                    uts_style := {| style_bold := true;
                                    style_italic := false;
                                    style_underline := false;
                                    style_fontSize := Some titleFontSize;
                                    style_fontFamily := Some ARIAL |};
                    uts_fields := js "fontSize,fontFamily,bold" |} ]
             ++ map UpdateTextStyleRequest
                  (generateTextFormattingRequests (titleObjectId ids) titleSegments)
             ++ (if (str_eqb layoutName TITLE_AND_BODY || str_eqb layoutName BLANK)%bool
                 then
                   [ CreateShape (contentObjectId ids) (js "TEXT_BOX")
                       (createElementProperties (slideObjectId ids)
                          (box_x LAYOUT_DIMENSIONS_BODY) (box_y LAYOUT_DIMENSIONS_BODY)
                          (box_width LAYOUT_DIMENSIONS_BODY)
                          (box_height LAYOUT_DIMENSIONS_BODY));
                     InsertText (contentObjectId ids) None contentText 0;
                     UpdateTextStyleRequest
                       {| uts_objectId := contentObjectId ids;
                          uts_cellLocation := None;
                          uts_textRange := ALL;
                          uts_style := {| style_bold := false;
                                          style_italic := false;
                                          style_underline := false;
                                          style_fontSize := Some contentFontSize;
                                          style_fontFamily := Some ARIAL |};
                          uts_fields := js "fontSize,fontFamily" |} ]
                   ++ map UpdateTextStyleRequest
                        (generateTextFormattingRequests (contentObjectId ids)
                           contentSegments)
                 else []))
      | _, _ => None
      end
  | _, _ => None
  end.

(** [for (let i = 0; i < contentSlides.length; i++)], from round [i] on:
    the request arrays of the calls of [batchUpdate], in order. *)
Fixpoint slideLoop (ids : nat -> SlideIds) (layoutName : str) (index : float)
    (title : str) (i : nat) (contentSlides : list str) : option (list (list Request)) :=
  match contentSlides with
  | [] => Some []
  | currentContent :: rest =>
      match slideRequests (ids i) layoutName
              (PrimFloat.add index (float_of_nat i))
              (currentTitle title i) currentContent with
      | None => None
      | Some requests =>
          match slideLoop ids layoutName index title (S i) rest with
          | None => None
          | Some batches => Some (requests :: batches)
          end
      end
  end.

(** [createSlideWithContentTool]: the request arrays of its calls of
    [batchUpdate], when every call succeeds. [ids i] holds what
    [generateObjectId] returned in round [i]. *)
Definition createSlideWithContentRequests (ids : nat -> SlideIds)
    (args : CreateSlideWithContentArgs) : option (list (list Request)) :=
  let layoutName := orString (layout args) TITLE_AND_BODY in
  let index := orNumber (slideIndex args) 1 in
  match splitTextForSlides DEFAULT_MAX_CHARS_PER_SLIDE (slide_content args) with
  | None => None
  | Some contentSlides => slideLoop ids layoutName index (slide_title args) 0 contentSlides
  end.

(* ===================================================================== *)
(** ** tools/addTextToSlide.ts: the requests *)
(* ===================================================================== *)

(** The arguments of the tool, for a font size that is a whole number of
    points when it is given. *)
Record AddTextToSlideArgs := {
  text_presentationId : str;
  text_slideId : str;
  text_text : str;
  text_x : option float;
  text_y : option float;
  text_width : option float;
  text_height : option float;
  text_fontSize : option Z;
  autoFitText : option bool;
  textType : option str
}.

Definition TITLE : str := js "TITLE".
Definition BODY : str := js "BODY".

(** The double that the literal [0.1] denotes. *)
Definition LINE_SPACING_REDUCTION : float := 0x1.999999999999ap-4%float.

(** [args.autoFitText !== false] *)
Definition autoFits (args : AddTextToSlideArgs) : bool :=
  match autoFitText args with
  | Some false => false
  | _ => true
  end.

(** The kind of text: [args.textType || 'BODY']. *)
Definition textTypeOf (args : AddTextToSlideArgs) : str :=
  orString (textType args) BODY.

Definition defaultDimensions (args : AddTextToSlideArgs) : LayoutBox :=
  if str_eqb (textTypeOf args) TITLE then LAYOUT_DIMENSIONS_TITLE
  else LAYOUT_DIMENSIONS_BODY.

Definition defaultFontRange (args : AddTextToSlideArgs) : FontRange :=
  if str_eqb (textTypeOf args) TITLE then FONT_SIZE_RANGES_TITLE
  else FONT_SIZE_RANGES_BODY.

(** [let fontSize = args.fontSize;
     if (!fontSize && autoFitText) fontSize = calculateOptimalFontSize(...);
     else if (!fontSize) fontSize = defaultFontRange.default;] *)
Definition chosenFontSize (args : AddTextToSlideArgs) (plainText : str)
    (w h : float) : option Z :=
  if (negb (fontSizeSet (text_fontSize args)) && autoFits args)%bool
  then calculateOptimalFontSize plainText w h (defaultFontRange args)
  else if negb (fontSizeSet (text_fontSize args))
       then Some (fr_default (defaultFontRange args))
       else text_fontSize args.

(** [addTextToSlideTool] up to the call of [batchUpdate]: the array
    [requests]; [None] when a call that it makes did not return.
    [textObjectId] is what [generateObjectId('text')] returned. *)
Definition addTextToSlideRequests (textObjectId : str) (args : AddTextToSlideArgs)
    : option (list Request) :=
  let x := orNumber (text_x args) (box_x (defaultDimensions args)) in
  let y := orNumber (text_y args) (box_y (defaultDimensions args)) in
  let w := orNumber (text_width args) (box_width (defaultDimensions args)) in
  let h := orNumber (text_height args) (box_height (defaultDimensions args)) in
  match parseMarkdownToFormattedText (text_text args) with
  | None => None
  | Some textSegments =>
      let plainText := joinedText textSegments in
      match chosenFontSize args plainText w h with
      | None => None
      | Some size =>
          Some
            ([ CreateShape textObjectId (js "TEXT_BOX")
                 (createElementProperties (text_slideId args) x y w h);
               InsertText textObjectId None plainText 0;
               UpdateTextStyleRequest
                 {| uts_objectId := textObjectId;
                    uts_cellLocation := None;
                    uts_textRange := ALL;
                    uts_style := {| style_bold := false;
                                    style_italic := false;
                                    style_underline := false;
                                    style_fontSize := Some size;
                                    style_fontFamily := Some ARIAL |};
                    uts_fields := js "fontSize,fontFamily" |} ]
             ++ (if str_eqb (textTypeOf args) TITLE
                 then [ UpdateTextStyleRequest
                          {| uts_objectId := textObjectId;
                             uts_cellLocation := None;
                             uts_textRange := ALL;
                             uts_style := {| style_bold := true;
                                             style_italic := false;
                                             style_underline := false;
                                             style_fontSize := None;
                                             style_fontFamily := None |};
                             uts_fields := js "bold" |} ]
                 else [])
             ++ map UpdateTextStyleRequest
                  (generateTextFormattingRequests textObjectId textSegments)
             ++ (if autoFits args
                 then [ UpdateShapeProperties textObjectId (js "SHAPE_AUTOFIT")
                          1 LINE_SPACING_REDUCTION (js "autofit") ]
                 else []))
      end
  end.

(* ===================================================================== *)
(** * The vocabulary of the properties *)
(* ===================================================================== *)

(** ** The text partitioner *)

(** The pieces of a split and the separators between them add up to the
    input: counting two characters for every piece, the total is the length
    of the input plus two. *)
Fixpoint sumLen (l : list str) : nat :=
  match l with
  | [] => 0
  | s :: l' => length s + 2 + sumLen l'
  end.

(** A hard-chunked piece: pushed by the [while] loop, exactly [n] long. *)
Definition isHardChunk (n : nat) (c : Chunk) : Prop :=
  fst c = HardChunk /\ length (snd c) = n.

(** What the loops maintain for a budget [n] and a text of length [L] over
    it. Every chunk pushed is shorter than the text; a chunk closed at a
    paragraph boundary or by the final flush fits the budget, a hard-chunked
    piece is exactly [n] long, and a chunk closed at a sentence boundary is
    at most one character (the appended full stop) over the budget. *)
Definition chunkInv (n L : nat) (c : Chunk) : Prop :=
  length (snd c) < L /\
  match fst c with
  | HardChunk => length (snd c) = n
  | SentenceFlush => length (snd c) <= n + 1
  | ParagraphFlush | FinalFlush => length (snd c) <= n
  end.

(** The bound of the partitioner by the origin of a chunk: a chunk closed at
    a paragraph boundary or by the final flush fits the budget, and a
    hard-chunked piece is exactly as long as the budget. Chunks closed at a
    sentence boundary are left out. *)
Definition chunkBound (n : nat) (c : Chunk) : Prop :=
  match fst c with
  | HardChunk => length (snd c) = n
  | SentenceFlush => True
  | ParagraphFlush | FinalFlush => length (snd c) <= n
  end.

(** C2 as stated: [[text]] is returned exactly when the text fits. *)
Definition singleChunkIffFits (n : nat) (text : str) : Prop :=
  splitTextForSlides n text = Some [text] <-> length text <= n.

(** The output has a chunk that ends in ["..."]. *)
Definition hasHardChunk (chunks : list str) : bool :=
  existsb (fun c => endsWithStr c ELLIPSIS) chunks.

(** C3 as stated. Every chunk is within the budget, except the last chunk of
    an output that has a hard-chunked piece (the hard-chunk remainder); and
    every chunk ending in ["..."], except possibly the last, is exactly as
    long as the budget. *)
Definition claimedChunkBounds (n : nat) (text : str) : Prop :=
  forall chunks, splitTextForSlides n text = Some chunks ->
  forall i c, nth_error chunks i = Some c ->
    ((S i < length chunks \/ hasHardChunk chunks = false) -> length c <= n) /\
    (endsWithStr c ELLIPSIS = true -> S i < length chunks -> length c = n).

(** ** The table and list structurers *)

(** A line after the separator gives a row when it has a pipe and at least
    one cell that is not empty once trimmed. *)
Definition isDataRow (line : str) : bool :=
  (includes (trim line) PIPE && (0 <? length (cellsOf (trim line))))%bool.

(** The scenario of the specification:
    [parseTable("| A | B |\n|---|---|\n| 1 | 2 |")]. *)
Definition TABLE_SCENARIO : str :=
  js "| A | B |" ++ [LF] ++ js "|---|---|" ++ [LF] ++ js "| 1 | 2 |".

(** C7 as stated: [null] exactly for fewer than two non-blank lines or a
    second non-blank line that the separator pattern rejects. *)
Definition nullIffShortOrNoSeparator (markdown : str) : Prop :=
  parseMarkdownTable markdown = None <->
  (length (nonBlankLines markdown) < 2 \/
   separatorRegex (nth 1 (nonBlankLines markdown) []) = false).

(** C8 as stated: as many rows as there are non-blank lines with a pipe
    after the second line. *)
Definition rowsCountPipeLines (markdown : str) : Prop :=
  forall table, parseMarkdownTable markdown = Some table ->
  length (rows table) =
  length (filter (fun line => includes line PIPE) (skipn 2 (nonBlankLines markdown))).

(** The scenario of the specification: [parseList("- top\n  - nested")]. *)
Definition LIST_SCENARIO : str := js "- top" ++ [LF] ++ js "  - nested".

(** ** The inline formatter *)

Definition delimiterOf (f : Format) : str :=
  match f with
  | Bold => [STAR; STAR]
  | Underline => [UNDERSCORE; UNDERSCORE]
  | Italic => [STAR]
  end.

(** An accepted span is a stretch of the source: the delimiter of its
    format, its non-empty text, and the delimiter again. *)
Definition wrappedSpan (markdown : str) (r : Replacement) : Prop :=
  let d := delimiterOf (r_format r) in
  r_text r <> [] /\
  r_end r = r_start r + length (d ++ r_text r ++ d) /\
  r_end r <= length markdown /\
  substring markdown (r_start r) (r_end r) = d ++ r_text r ++ d.

Definition disjointSpans (a b : Replacement) : Prop :=
  r_end a <= r_start b \/ r_end b <= r_start a.

(** Each span ends before the next one starts. *)
Definition inOrder (spans : list Replacement) : Prop :=
  StronglySorted (fun a b => r_end a <= r_start b) spans.

(** A pattern and the format it stands for have the same delimiters. *)
Definition patternOf (re : SpanRegex) (type : Format) : Prop :=
  sr_open re = delimiterOf type /\ sr_close re = delimiterOf type.

(** The position [i] of the source holds a delimiter character of [r]. *)
Definition inDelimiter (r : Replacement) (i : nat) : bool :=
  let k := length (delimiterOf (r_format r)) in
  (((r_start r <=? i) && (i <? r_start r + k))
   || ((r_end r - k <=? i) && (i <? r_end r)))%bool.

Definition isDelimiterPos (spans : list Replacement) (i : nat) : bool :=
  existsb (fun r => inDelimiter r i) spans.

(** The characters of [s], which starts at index [i] of the source, whose
    index passes [keep]. *)
Fixpoint keepFrom (keep : nat -> bool) (i : nat) (s : str) : str :=
  match s with
  | [] => []
  | c :: s' =>
      if keep i then c :: keepFrom keep (S i) s' else keepFrom keep (S i) s'
  end.

(** The source without the delimiters of the spans: every character whose
    position is not a delimiter position, once, in order. *)
Definition stripDelimiters (markdown : str) (spans : list Replacement) : str :=
  keepFrom (fun i => negb (isDelimiterPos spans i)) 0 markdown.

(** ** The formatting requests *)

(** The request pushed for [segment] when [currentIndex] is [startIndex]. *)
Definition formattingRequest (objectId : str) (startIndex : nat)
    (segment : FormattedTextSegment) : UpdateTextStyle :=
  {| uts_objectId := objectId;
     uts_cellLocation := None;
     uts_textRange := FIXED_RANGE startIndex (startIndex + length (text segment));
     uts_style := styleOf segment;
     uts_fields := join (js ",") (styleFields segment) |}.

(** The requests for [segments] when the text before them is [currentIndex]
    long. *)
Fixpoint requestsFrom (objectId : str) (currentIndex : nat)
    (segments : list FormattedTextSegment) : list UpdateTextStyle :=
  match segments with
  | [] => []
  | segment :: rest =>
      (if needsFormatting segment
       then [formattingRequest objectId currentIndex segment] else [])
      ++ requestsFrom objectId (currentIndex + length (text segment)) rest
  end.

(** The text that the callers insert: [segments.map((s) => s.text).join('')]. *)
Definition plainTextOf (segments : list FormattedTextSegment) : str :=
  concat (map text segments).

Definition rangeStart (r : UpdateTextStyle) : nat :=
  match uts_textRange r with
  | FIXED_RANGE s _ => s
  | ALL => 0
  end.

Definition rangeEnd (r : UpdateTextStyle) : nat :=
  match uts_textRange r with
  | FIXED_RANGE _ e => e
  | ALL => 0
  end.

(** The name of a format in [fields]. *)
Definition formatName (f : Format) : str :=
  match f with
  | Bold => js "bold"
  | Italic => js "italic"
  | Underline => js "underline"
  end.

(** The style that sets the flag of one format and nothing else. *)
Definition formatStyle (f : Format) : TextStyle :=
  {| style_bold := Format_eqb f Bold;
     style_italic := Format_eqb f Italic;
     style_underline := Format_eqb f Underline;
     style_fontSize := None;
     style_fontFamily := None |}.

(** A segment as the formatter builds it: plain, or styled with one
    format. *)
Definition segmentShape (segment : FormattedTextSegment) : Prop :=
  segment = plainSegment (text segment) \/
  exists f, segment = styledSegment (text segment) f.

(** A stretch of text with no asterisk and no underscore. *)
Definition noDelimiter (s : str) : Prop :=
  includes s STAR = false /\ includes s UNDERSCORE = false.

(** A plain segment for a text that is not empty, and nothing for the empty
    text. *)
Definition plainIfAny (t : str) : list FormattedTextSegment :=
  if truthy t then [plainSegment t] else [].

(** ** Truncation *)

(** The sign of a binary float; a NaN has none. *)
Definition signIs (s : bool) (x : SpecFloat.spec_float) : Prop :=
  match x with
  | SpecFloat.S754_nan => True
  | SpecFloat.S754_zero s' | SpecFloat.S754_infinity s'
  | SpecFloat.S754_finite s' _ _ => s' = s
  end.

(** ** The text partitioner, further *)

(** The chunks pushed so far are not empty. *)
Definition pushedNonEmpty (st : SplitState) : Prop :=
  Forall (fun c : Chunk => snd c <> []) (fst st).

(** The paragraphs of a text: its pieces between blank lines. *)
Definition paragraphsOf (text : str) : list str := split2 LF LF text.

(** A paragraph that the loop can take whole: not empty, within the budget. *)
Definition wholeParagraph (n : nat) (paragraph : str) : Prop :=
  paragraph <> [] /\ length paragraph <= n.

(** ** The font-fit sizer, further *)

Section FontSearchVocabulary.
Variable fits : Z -> bool.
Variable overflows : Z -> bool.
Variable range : FontRange.

(** [size] is the first candidate of the descent [default, default - 2, ...]
    that is not below the minimum and passes the test. *)
Definition firstFit (size : Z) : Prop :=
  exists k, (0 <= k)%Z /\ size = (fr_default range - 2 * k)%Z /\
    (fr_min range <= size)%Z /\ fits size = true /\
    forall j, (0 <= j < k)%Z -> fits (fr_default range - 2 * j) = false.

(** No candidate of the descent passes the test. *)
Definition noFit : Prop :=
  forall j, (0 <= j)%Z -> (fr_min range <= fr_default range - 2 * j)%Z ->
    fits (fr_default range - 2 * j) = false.

(** [size] is where the ascent [default + 2, default + 4, ...] stops: every
    candidate up to [size] is within the maximum and does not overflow, and
    the next one is above the maximum or overflows. *)
Definition lastBeforeOverflow (size : Z) : Prop :=
  exists k, (0 <= k)%Z /\ size = (fr_default range + 2 * k)%Z /\
    (forall j, (1 <= j <= k)%Z ->
       (fr_default range + 2 * j <= fr_max range)%Z /\
       overflows (fr_default range + 2 * j) = false) /\
    ((fr_max range < size + 2)%Z \/ overflows (size + 2) = true).
End FontSearchVocabulary.

(** ** The list structurer, further *)

(** The first character is there and is not whitespace. *)
Definition startsVisible (t : str) : bool :=
  match t with
  | c :: _ => negb (isWhiteSpace c)
  | [] => false
  end.

(** The last character is there and is not whitespace. *)
Definition endsVisible (t : str) : bool := startsVisible (rev t).

(** A text that [trim] leaves as it is and that is not empty. *)
Definition visibleText (t : str) : bool := (startsVisible t && endsVisible t)%bool.

(** No character of the text is a line terminator: [(.+)] takes it whole. *)
Definition oneLine (t : str) : bool :=
  forallb (fun c => negb (isLineTerminator c)) t.

(** The text of an item is taken from its line: it is a stretch of the line
    that starts with a visible character and has no line feed. *)
Definition takenFrom (line : str) (item : ParsedListItem) : Prop :=
  (exists pre post, line = pre ++ item_text item ++ post) /\
  startsVisible (item_text item) = true /\
  ~ In LF (item_text item).

(** The markers of a list line: one of [-], [*], [+], or digits and a dot. *)
Inductive ListMarker :=
| BulletMarker (c : char)
| NumberMarker (digits : str).

Definition markerText (m : ListMarker) : str :=
  match m with
  | BulletMarker c => [c]
  | NumberMarker digits => digits ++ [DOT]
  end.

Definition markerOk (m : ListMarker) : bool :=
  match m with
  | BulletMarker c => (N.eqb c HYPHEN || N.eqb c STAR || N.eqb c PLUS)%bool
  | NumberMarker digits => (truthy digits && forallb isDigit digits)%bool
  end.

Definition markerNumbered (m : ListMarker) : bool :=
  match m with
  | BulletMarker _ => false
  | NumberMarker _ => true
  end.

(** A list line as it is written: spaces, the marker, whitespace, the body. *)
Record MarkedLine := {
  ml_indent : nat;
  ml_marker : ListMarker;
  ml_gap : str;
  ml_body : str
}.

Definition lineText (l : MarkedLine) : str :=
  repeat SP (ml_indent l) ++ markerText (ml_marker l) ++ ml_gap l ++ ml_body l.

(** The gap is whitespace within the line, at least one character; the body
    is one line of text with visible ends. *)
Definition markedLineOk (l : MarkedLine) : bool :=
  (markerOk (ml_marker l)
   && truthy (ml_gap l)
   && forallb (fun c => isWhiteSpace c && negb (N.eqb c LF)) (ml_gap l)
   && visibleText (ml_body l)
   && oneLine (ml_body l))%bool.

Definition itemOfMarkedLine (l : MarkedLine) : ParsedListItem :=
  {| item_text := ml_body l;
     level := ml_indent l / 2;
     isNumbered := markerNumbered (ml_marker l) |}.

(** ** The table structurer, further *)

(** A cell as the structurer delivers it: visible ends, no pipe, no line
    feed. *)
Definition cellOk (c : str) : bool :=
  (visibleText c && negb (includes c PIPE) && negb (includes c LF))%bool.

(** A row of a table with [n] columns: cells, then empty strings only; the
    cells are not all padding unless the table has no column. *)
Definition paddedRow (n : nat) (row : list str) : Prop :=
  exists cells k,
    row = cells ++ repeat [] k /\ forallb cellOk cells = true /\
    (n = 0 \/ cells <> []).

(** A table line as it is written: [| a | b |]. *)
Definition tableLine (cells : list str) : str :=
  PIPE :: concat (map (fun c => SP :: c ++ [SP; PIPE]) cells).

(** The separator line for [columns] columns: [|---|---|]. *)
Definition separatorLine (columns : nat) : str :=
  PIPE :: concat (repeat (js "---|") columns).

Definition renderTable (t : ParsedTable) : str :=
  join [LF] (tableLine (headers t)
             :: separatorLine (length (headers t))
             :: map tableLine (rows t)).

(** A table that can be written down: at least one column, every row as
    wide as the header, every cell with visible ends and without pipe and
    line feed. *)
Definition tableOk (t : ParsedTable) : bool :=
  ((0 <? length (headers t))
   && forallb cellOk (headers t)
   && forallb (fun row => (length row =? length (headers t)) && forallb cellOk row)
              (rows t))%bool.

(** ** The table tool *)

(** The cell of a parsed table at a location of the created table; row 0 is
    the header row. *)
Definition tableCell (t : ParsedTable) (loc : CellLocation) : str :=
  match rowIndex loc with
  | 0 => nth (columnIndex loc) (headers t) []
  | S r => nth (columnIndex loc) (nth r (rows t) []) []
  end.

(** A location within the created table. *)
Definition inTable (t : ParsedTable) (loc : CellLocation) : Prop :=
  rowIndex loc < length (rows t) + 1 /\ columnIndex loc < length (headers t).

(** The arguments of the scenario table, with every option left out. *)
Definition TABLE_SCENARIO_ARGS : AddTableToSlideArgs :=
  {| table_presentationId := js "presentation"; table_slideId := js "slide";
     tableContent := TABLE_SCENARIO;
     table_x := None; table_y := None; table_width := None;
     table_height := None; headerStyle := None |}.

(** The requests of an outcome; none when the tool threw. *)
Definition requestsOf (outcome : str + list Request) : list Request :=
  match outcome with
  | inr requests => requests
  | inl _ => []
  end.

(** The style request for the whole text of a cell. *)
Definition cellStyleRequest (tableObjectId : str) (loc : CellLocation)
    (style : TextStyle) (fields : str) : UpdateTextStyle :=
  {| uts_objectId := tableObjectId;
     uts_cellLocation := Some loc;
     uts_textRange := ALL;
     uts_style := style;
     uts_fields := fields |}.

(** ** The list tool *)

(** The items with the offsets of their lines in the text inserted: a line
    starts one character (the line feed) after the line before it ends. *)
Fixpoint locateItems (offset : nat) (items : list ParsedListItem)
    : list (nat * ParsedListItem) :=
  match items with
  | [] => []
  | item :: rest =>
      (offset, item) :: locateItems (offset + length (itemLine item) + 1) rest
  end.

Definition atLevel (k : nat) (located : nat * ParsedListItem) : bool :=
  level (snd located) =? k.

(** The range of the line of a located item. *)
Definition lineRange (located : nat * ParsedListItem) : LevelRange :=
  {| range_start := fst located;
     range_end := fst located + length (itemLine (snd located)) |}.

(** The bullet request for the line of a located item, with the preset of
    its level. *)
Definition nestedBulletRequest (listObjectId : str) (styles : list str)
    (located : nat * ParsedListItem) : Request :=
  CreateParagraphBullets listObjectId
    (FIXED_RANGE (fst located) (fst located + length (itemLine (snd located))))
    (nth (level (snd located)) styles []).

(** The ranges that [levelGroups] holds for a level; none when the level is
    not a key. *)
Fixpoint rangesAt (k : nat) (levelGroups : LevelGroups) : list LevelRange :=
  match levelGroups with
  | [] => []
  | (k', ranges) :: rest => if k =? k' then ranges else rangesAt k rest
  end.

Definition keysAscending (levelGroups : LevelGroups) : Prop :=
  StronglySorted lt (map fst levelGroups).

(** [listItems[0].isNumbered] *)
Definition firstIsNumbered (listItems : list ParsedListItem) : bool :=
  match listItems with
  | first :: _ => isNumbered first
  | [] => false
  end.

(** The preset of the top level: the one asked for, or the one that fits
    the first item. *)
Definition topPreset (args : AddListToSlideArgs) (listItems : list ParsedListItem)
    : str :=
  orString (bulletStyle args)
    (if firstIsNumbered listItems then NUMBERED_DECIMAL else BULLET_DISC_CIRCLE_SQUARE).

(** The request that sets the font of the whole list. *)
Definition listFontRequest (listObjectId : str) (size : Z) : Request :=
  UpdateTextStyleRequest
    {| uts_objectId := listObjectId;
       uts_cellLocation := None;
       uts_textRange := ALL;
       uts_style := {| style_bold := false;
                       style_italic := false;
                       style_underline := false;
                       style_fontSize := Some size;
                       style_fontFamily := Some ARIAL |};
       uts_fields := js "fontSize,fontFamily" |}.

Definition LIST_SCENARIO_ARGS : AddListToSlideArgs :=
  {| list_presentationId := js "presentation"; list_slideId := js "slide";
     listContent := LIST_SCENARIO;
     list_x := None; list_y := None; list_width := None; list_height := None;
     bulletStyle := None |}.

(** The requests of an outcome of the list tool; none when it threw. *)
Definition listRequestsOf (outcome : option (str + list Request)) : list Request :=
  match outcome with
  | Some (inr requests) => requests
  | _ => []
  end.

(** A sentence that the loop can take whole: not empty, within the budget,
    and not ending in a full stop of its own. *)
Definition wholeSentence (n : nat) (sentence : str) : Prop :=
  sentence <> [] /\ length sentence <= n /\ endsWith sentence DOT = false.

(** ** The slide tool *)

(** Round [i] of the loop for the chunk [chunk]: the array of requests is
    the one built for the title of the round at the index of the round, and
    it starts with the creation of the slide. *)
Definition slideRound (ids : nat -> SlideIds) (layoutName : str) (index : float)
    (title : str) (round : nat * str) (batch : list Request) : Prop :=
  slideRequests (ids (fst round)) layoutName
    (PrimFloat.add index (float_of_nat (fst round)))
    (currentTitle title (fst round)) (snd round) = Some batch /\
  exists titleSegments rest,
    parseMarkdownToFormattedText (currentTitle title (fst round)) = Some titleSegments /\
    batch = CreateSlide (slideObjectId (ids (fst round)))
              (PrimFloat.add index (float_of_nat (fst round))) layoutName
            :: CreateShape (titleObjectId (ids (fst round))) (js "TEXT_BOX")
                 (createElementProperties (slideObjectId (ids (fst round)))
                    (box_x LAYOUT_DIMENSIONS_TITLE) (box_y LAYOUT_DIMENSIONS_TITLE)
                    (box_width LAYOUT_DIMENSIONS_TITLE)
                    (box_height LAYOUT_DIMENSIONS_TITLE))
            :: InsertText (titleObjectId (ids (fst round))) None
                 (concat (map text titleSegments)) 0
            :: rest.

(** ** The text tool *)

(** The request that sets the font of the whole text. *)
Definition textFontRequest (textObjectId : str) (size : Z) : Request :=
  UpdateTextStyleRequest
    {| uts_objectId := textObjectId;
       uts_cellLocation := None;
       uts_textRange := ALL;
       uts_style := {| style_bold := false;
                       style_italic := false;
                       style_underline := false;
                       style_fontSize := Some size;
                       style_fontFamily := Some ARIAL |};
       uts_fields := js "fontSize,fontFamily" |}.

(** How the font size of the text box is chosen: a size that is given and
    is not zero is taken as it is; without it the size is searched in the
    range of the kind of text, unless fitting is switched off, and is the
    default of that range then. *)
Definition fontSizeChoice (args : AddTextToSlideArgs) (size : Z) : Prop :=
  match text_fontSize args with
  | Some given =>
      if Z.eqb given 0
      then (if autoFits args
            then (fr_min (defaultFontRange args) <= size
                  <= fr_max (defaultFontRange args))%Z
            else size = fr_default (defaultFontRange args))
      else size = given
  | None =>
      if autoFits args
      then (fr_min (defaultFontRange args) <= size
            <= fr_max (defaultFontRange args))%Z
      else size = fr_default (defaultFontRange args)
  end.

(** ** The inline formatter, further *)

(** The character that the delimiter of a format is made of. *)
Definition delimiterChar (f : Format) : char :=
  match f with
  | Underline => UNDERSCORE
  | Bold | Italic => STAR
  end.

(** The text of a span holds no character of its own delimiter. *)
Definition cleanSpan (r : Replacement) : Prop :=
  includes (r_text r) (delimiterChar (r_format r)) = false.

(** The same for a segment: no asterisk in a bold or italic text, no
    underscore in an underlined one. *)
Definition cleanSegment (segment : FormattedTextSegment) : Prop :=
  (bold segment = true \/ italic segment = true ->
   includes (text segment) STAR = false) /\
  (underline segment = true -> includes (text segment) UNDERSCORE = false).

(** A pattern whose group excludes the character of its format's delimiter
    and is greedy. *)
Definition excludesOwn (re : SpanRegex) (type : Format) : Prop :=
  sr_lazy re = false /\ sr_excluded re = N.eqb (delimiterChar type).

(** [[-*+]] *)
Definition isBulletChar (c : char) : bool :=
  (N.eqb c HYPHEN || N.eqb c STAR || N.eqb c PLUS)%bool.

(** A run of whitespace, at least one character. *)
Definition isGap (gap : str) : Prop :=
  gap <> [] /\ forallb isWhiteSpace gap = true.

(** How the item of a line was read: with [isNumbered], after digits, a dot
    and whitespace; without it, after a bullet character and whitespace, or
    as the whole trimmed line when the line has no marker. *)
Definition readFrom (line : str) (item : ParsedListItem) : Prop :=
  (isNumbered item = true ->
   exists digits gap post,
     trim line = digits ++ [DOT] ++ gap ++ item_text item ++ post /\
     digits <> [] /\ forallb isDigit digits = true /\ isGap gap) /\
  (isNumbered item = false ->
   (exists c gap post,
      trim line = c :: gap ++ item_text item ++ post /\
      isBulletChar c = true /\ isGap gap) \/
   (item_text item = trim line /\ bulletMatch (trim line) = None /\
    numberMatch (trim line) = None)).

(** The number of cells of a table that are not empty. *)
Definition nonEmptyCells (t : ParsedTable) : nat :=
  length (filter truthy (headers t)) + length (filter truthy (concat (rows t))).

(** The number of styling requests: one per data cell, and for the header
    row, unless its styling is switched off, one per column and one for the
    background. *)
Definition stylingRequests (args : AddTableToSlideArgs) (t : ParsedTable) : nat :=
  (match headerStyle args with
   | Some false => 0
   | _ => length (headers t) + 1
   end)
  + length (rows t) * length (headers t).

(** ** The font-fit sizer over doubles *)

(** The double of a whole number, as the specification of binary64 has
    it: the number rounded to 53 bits. *)
Definition wholeSF (z : Z) : SpecFloat.spec_float :=
  SpecFloat.binary_normalize FloatOps.prec FloatOps.emax z 0 false.

(** A mantissa at an exponent, as a whole number: exponents of the format
    are not below -1074. *)
Definition scaled (m : positive) (e : Z) : Z := (Zpos m * 2 ^ (e + 1074))%Z.

(** The place of a double on the number line, as a whole number: the
    doubles that are not NaN compare as their places do. *)
Definition rank (f : SpecFloat.spec_float) : Z :=
  match f with
  | SpecFloat.S754_zero _ => 0
  | SpecFloat.S754_finite s m e => if s then - scaled m e else scaled m e
  | SpecFloat.S754_infinity s => if s then - 2 ^ 2100 else 2 ^ 2100
  | SpecFloat.S754_nan => 0
  end.

(** [Number.isNaN] on the specification of a double. *)
Definition isNaN (f : SpecFloat.spec_float) : bool :=
  match f with
  | SpecFloat.S754_nan => true
  | _ => false
  end.

(** [Number.MAX_SAFE_INTEGER], 2^53 - 1. *)
Definition MAX_SAFE_INTEGER : Z := 9007199254740991.

(** A range of whole numbers as the object of doubles that is passed. *)
Definition toBinary64 (range : FontRange) : Binary64.FontRange :=
  {| Binary64.fr_min := float_of_Z (fr_min range);
     Binary64.fr_max := float_of_Z (fr_max range);
     Binary64.fr_default := float_of_Z (fr_default range) |}.

(** Two steps of 2 beyond the number, either way, stay within the safe
    integers. *)
Definition safeSize (z : Z) : Prop :=
  (- MAX_SAFE_INTEGER + 2 <= z <= MAX_SAFE_INTEGER - 2)%Z.

(** Every size the loops can compute for the range, from [min - 2] to
    [max + 2], is a safe integer. *)
Definition safeRange (range : FontRange) : Prop :=
  safeSize (fr_min range) /\ safeSize (fr_max range) /\ safeSize (fr_default range).

(** Fuel for every candidate size of a range of whole numbers. *)
Definition fuelFor (range : FontRange) : nat :=
  S (Z.to_nat (Z.max (fr_default range - fr_min range)
                     (fr_max range - fr_default range))).

(** The double 2^54 + 8 has an even mantissa, and the doubles next to it
    are 4 away: [2^54 + 8 - 2] is a tie and rounds back to [2^54 + 8]. *)
Definition DESCENT_STALLS : Binary64.FontRange :=
  {| Binary64.fr_min := 18014398509481988;
     Binary64.fr_max := 18014398509481992;
     Binary64.fr_default := 18014398509481992 |}.

(** Likewise [2^54 + 2] rounds back to [2^54]. *)
Definition ASCENT_STALLS : Binary64.FontRange :=
  {| Binary64.fr_min := 18014398509481984;
     Binary64.fr_max := 18014398509481992;
     Binary64.fr_default := 18014398509481984 |}.

(** The range of 2^53 - 1, 2^53 + 2 and 2^53 - 1: the maximum is 3 above
    the default. All three are doubles; [2^53 - 1 + 2] is not, and is
    rounded to 2^53. *)
Definition ROUNDED_ASCENT : FontRange :=
  {| fr_min := MAX_SAFE_INTEGER;
     fr_max := MAX_SAFE_INTEGER + 3;
     fr_default := MAX_SAFE_INTEGER |}.

(** A box of 10^17 by 10^17 points. *)
Definition VAST : float := 100000000000000000.

(** ** The masking revision, further *)

(** The character [c] twice in a row somewhere in the text. *)
Fixpoint hasDoubled (c : char) (s : str) : bool :=
  match s with
  | [] => false
  | _ :: s' => (isPrefix [c; c] s || hasDoubled c s')%bool
  end.

(* ===================================================================== *)
(** * Properties *)
(* ===================================================================== *)

(** ** The font-fit sizer *)

Section FontLoopFacts.
Variable fits : Z -> bool.
Variable overflows : Z -> bool.
Variable range : FontRange.

(** With fuel for every candidate size, the descent returns: either the
    size it was given as [optimalSize], or a candidate [fontSize - 2j]
    that is not below the minimum and passes the test. *)
Lemma shrinkLoop_returns : forall fuel optimalSize fontSize,
  (fontSize - fr_min range < 2 * Z.of_nat fuel)%Z ->
  exists r, shrinkLoop fits range fuel optimalSize fontSize = Some r /\
    (r = optimalSize \/
     (fr_min range <= r /\ fits r = true /\
      exists j, 0 <= j /\ r = fontSize - 2 * j)%Z).
Proof.
  induction fuel as [|fuel IH]; intros opt fs Hfuel; cbn [shrinkLoop growLoop].
  - destruct (fr_min range <=? fs)%Z eqn:Hmin.
    + apply Z.leb_le in Hmin. lia.
    + eexists; split; [reflexivity | now left].
  - destruct (fr_min range <=? fs)%Z eqn:Hmin.
    + apply Z.leb_le in Hmin.
      destruct (fits fs) eqn:Hfit.
      * eexists; split; [reflexivity | right].
        split; [exact Hmin | split; [exact Hfit|]]. exists 0%Z. lia.
      * destruct (IH opt (fs - 2)%Z) as (r & Hr & Hcase); [lia|].
        exists r; split; [exact Hr|].
        destruct Hcase as [-> | (Hlo & Hf & j & Hj & ->)]; [now left | right].
        split; [exact Hlo | split; [exact Hf|]]. exists (j + 1)%Z. lia.
    + eexists; split; [reflexivity | now left].
Qed.

(** With fuel for every candidate size, the ascent returns: either the
    size it was given, or a candidate [fontSize + 2j] that is not above
    the maximum. *)
Lemma growLoop_returns : forall fuel optimalSize fontSize,
  (fr_max range - fontSize < 2 * Z.of_nat fuel)%Z ->
  exists r, growLoop overflows range fuel optimalSize fontSize = Some r /\
    (r = optimalSize \/
     (r <= fr_max range /\ exists j, 0 <= j /\ r = fontSize + 2 * j)%Z).
Proof.
  induction fuel as [|fuel IH]; intros opt fs Hfuel; cbn [shrinkLoop growLoop].
  - destruct (fs <=? fr_max range)%Z eqn:Hmax.
    + apply Z.leb_le in Hmax. lia.
    + eexists; split; [reflexivity | now left].
  - destruct (fs <=? fr_max range)%Z eqn:Hmax.
    + apply Z.leb_le in Hmax.
      destruct (overflows fs) eqn:Hov.
      * eexists; split; [reflexivity | now left].
      * destruct (IH fs (fs + 2)%Z) as (r & Hr & Hcase); [lia|].
        exists r; split; [exact Hr|].
        right. destruct Hcase as [-> | (Hhi & j & Hj & ->)].
        -- split; [lia|]. exists 0%Z. lia.
        -- split; [lia|]. exists (j + 1)%Z. lia.
    + eexists; split; [reflexivity | now left].
Qed.

(** The search returns, and what it returns is the default moved by an
    even number of points, downwards not below the minimum or upwards not
    above the maximum. *)
Lemma fontSearch_returns :
  exists r, fontSearch fits overflows range = Some r /\
    exists j, (0 <= j)%Z /\
      ((r = fr_default range - 2 * j /\ (j = 0 \/ fr_min range <= r))
       \/ (r = fr_default range + 2 * j /\ (j = 0 \/ r <= fr_max range)))%Z.
Proof.
  unfold fontSearch.
  destruct (shrinkLoop_returns (S (Z.to_nat (fr_default range - fr_min range)))
              (fr_default range) (fr_default range)) as (r1 & Hr1 & Hc1); [lia|].
  rewrite Hr1.
  destruct (r1 =? fr_default range)%Z eqn:Heq.
  - apply Z.eqb_eq in Heq. subst r1.
    destruct (growLoop_returns (S (Z.to_nat (fr_max range - fr_default range)))
                (fr_default range) (fr_default range + 2)%Z) as (r2 & Hr2 & Hc2); [lia|].
    exists r2; split; [exact Hr2|].
    destruct Hc2 as [-> | (Hhi & j & Hj & ->)].
    + exists 0%Z. split; [lia|]. left. split; [lia | now left].
    + exists (j + 1)%Z. split; [lia|]. right. split; [lia | right; lia].
  - apply Z.eqb_neq in Heq.
    exists r1; split; [reflexivity|].
    destruct Hc1 as [-> | (Hlo & _ & j & Hj & ->)]; [congruence|].
    exists j. split; [lia|]. left. split; [lia | now right].
Qed.
End FontLoopFacts.

(** *** Whole numbers as doubles

    Below 2^53 a whole number is a double, and on such doubles the steps
    [- 2] and [+ 2] and the comparisons of the loops are those of the
    whole numbers. This is read off the specification of binary64 that
    the primitive floats come with. *)

Lemma digits2_pos_log2 (p : positive) :
  Zpos (SpecFloat.digits2_pos p) = Z.succ (Z.log2 (Zpos p)).
Proof.
  assert (Hsize : forall q, SpecFloat.digits2_pos q = Pos.size q)
    by (induction q as [q IH | q IH |]; cbn; now rewrite ?IH).
  rewrite Hsize. destruct p as [p | p |]; cbn [Z.log2]; try reflexivity.
  - cbn [Pos.size]. lia.
  - cbn [Pos.size]. lia.
Qed.

Lemma digits2_pos_bounds (p : positive) (d : Z) :
  (2 ^ (d - 1) <= Zpos p < 2 ^ d)%Z -> Zpos (SpecFloat.digits2_pos p) = d.
Proof.
  intros [Hlo Hhi]. rewrite digits2_pos_log2.
  assert (Hd : (1 <= d)%Z).
  { destruct (Z.le_gt_cases 1 d) as [H | H]; [exact H |].
    assert (d = 0 \/ d < 0)%Z as [-> | Hneg] by lia.
    - cbn in Hhi. lia.
    - rewrite Z.pow_neg_r in Hhi by lia. lia. }
  rewrite (Z.log2_unique (Zpos p) (d - 1)); [lia | lia |].
  replace (Z.succ (d - 1)) with d by lia. split; assumption.
Qed.

Lemma iter_xO_pow (p d : positive) :
  Zpos (Pos.iter xO p d) = (Zpos p * 2 ^ Zpos d)%Z.
Proof.
  induction d as [|d IH] using Pos.peano_ind.
  - cbn [Pos.iter]. lia.
  - rewrite Pos.iter_succ, Pos2Z.inj_succ, Z.pow_succ_r by lia.
    rewrite Pos2Z.inj_xO, IH. lia.
Qed.

Lemma shr_exact : forall (d q : positive),
  SpecFloat.iter_pos SpecFloat.shr_1 d
    {| SpecFloat.shr_m := Zpos (Pos.iter xO q d);
       SpecFloat.shr_r := false; SpecFloat.shr_s := false |}
  = {| SpecFloat.shr_m := Zpos q; SpecFloat.shr_r := false; SpecFloat.shr_s := false |}.
Proof.
  induction d as [d IH | d IH |]; intros q.
  - cbn [SpecFloat.iter_pos Pos.iter]. cbn [SpecFloat.shr_1 orb].
    now rewrite !IH.
  - cbn [SpecFloat.iter_pos Pos.iter]. now rewrite !IH.
  - reflexivity.
Qed.

Lemma fexp_normal (x : Z) :
  (-1074 <= x - 53)%Z ->
  SpecFloat.fexp FloatOps.prec FloatOps.emax x = (x - 53)%Z.
Proof.
  intros H. unfold SpecFloat.fexp, SpecFloat.emin.
  change FloatOps.prec with 53%Z. change FloatOps.emax with 1024%Z. lia.
Qed.

(** A mantissa of 53 bits with an exponent in range is left as it is. *)
Lemma binary_round_aux_canonical (s : bool) (q : positive) (e : Z) :
  (2 ^ 52 <= Zpos q < 2 ^ 53)%Z -> (-1074 <= e <= 971)%Z ->
  SpecFloat.binary_round_aux FloatOps.prec FloatOps.emax s (Zpos q) e SpecFloat.loc_Exact
  = SpecFloat.S754_finite s q e.
Proof.
  intros Hq He.
  assert (Hd : Zpos (SpecFloat.digits2_pos q) = 53%Z)
    by (apply digits2_pos_bounds; exact Hq).
  assert (Hshift : (SpecFloat.fexp FloatOps.prec FloatOps.emax
                      (SpecFloat.Zdigits2 (Zpos q) + e) - e = 0)%Z).
  { cbn [SpecFloat.Zdigits2]. rewrite Hd, fexp_normal by lia. lia. }
  unfold SpecFloat.binary_round_aux, SpecFloat.shr_fexp.
  rewrite Hshift.
  cbn [SpecFloat.shr SpecFloat.shr_record_of_loc SpecFloat.shr_m
       SpecFloat.loc_of_shr_record SpecFloat.round_nearest_even].
  rewrite Hshift.
  cbn [SpecFloat.shr SpecFloat.shr_record_of_loc SpecFloat.shr_m].
  change FloatOps.emax with 1024%Z. change FloatOps.prec with 53%Z.
  replace (e <=? 1024 - 53)%Z with true by (symmetry; apply Z.leb_le; lia).
  reflexivity.
Qed.

(** Trailing zero bits beyond the 53 are shifted out without rounding. *)
Lemma binary_round_aux_shifted (s : bool) (q d : positive) (e : Z) :
  (2 ^ 52 <= Zpos q < 2 ^ 53)%Z -> (-1074 <= e <= 971)%Z ->
  SpecFloat.binary_round_aux FloatOps.prec FloatOps.emax s
    (Zpos (Pos.iter xO q d)) (e - Zpos d) SpecFloat.loc_Exact
  = SpecFloat.S754_finite s q e.
Proof.
  intros Hq He.
  assert (Hd : Zpos (SpecFloat.digits2_pos q) = 53%Z)
    by (apply digits2_pos_bounds; exact Hq).
  assert (Hdp : Zpos (SpecFloat.digits2_pos (Pos.iter xO q d)) = (53 + Zpos d)%Z).
  { apply digits2_pos_bounds. rewrite iter_xO_pow.
    replace (53 + Zpos d - 1)%Z with (52 + Zpos d)%Z by lia.
    rewrite !Z.pow_add_r by lia.
    assert (0 < 2 ^ Zpos d)%Z by (apply Z.pow_pos_nonneg; lia). nia. }
  assert (Hshift : (SpecFloat.fexp FloatOps.prec FloatOps.emax
                      (SpecFloat.Zdigits2 (Zpos (Pos.iter xO q d)) + (e - Zpos d))
                    - (e - Zpos d) = Zpos d)%Z).
  { cbn [SpecFloat.Zdigits2]. rewrite Hdp, fexp_normal by lia. lia. }
  assert (Hshift0 : (SpecFloat.fexp FloatOps.prec FloatOps.emax
                      (SpecFloat.Zdigits2 (Zpos q) + e) - e = 0)%Z).
  { cbn [SpecFloat.Zdigits2]. rewrite Hd, fexp_normal by lia. lia. }
  unfold SpecFloat.binary_round_aux, SpecFloat.shr_fexp.
  rewrite Hshift.
  cbn [SpecFloat.shr SpecFloat.shr_record_of_loc].
  rewrite shr_exact.
  cbn [SpecFloat.shr_m SpecFloat.loc_of_shr_record SpecFloat.round_nearest_even].
  replace (e - Zpos d + Zpos d)%Z with e by lia.
  rewrite Hshift0.
  cbn [SpecFloat.shr SpecFloat.shr_record_of_loc SpecFloat.shr_m].
  change FloatOps.emax with 1024%Z. change FloatOps.prec with 53%Z.
  replace (e <=? 1024 - 53)%Z with true by (symmetry; apply Z.leb_le; lia).
  reflexivity.
Qed.

(** Rounding a number that has a 53-bit mantissa gives that mantissa. *)
Lemma binary_round_exact (s : bool) (p q : positive) (e e' : Z) :
  (2 ^ 52 <= Zpos q < 2 ^ 53)%Z ->
  (-1074 <= e' <= 971)%Z ->
  ((e' <= e)%Z /\ Zpos q = (Zpos p * 2 ^ (e - e'))%Z) \/
  ((e <= e')%Z /\ Zpos p = (Zpos q * 2 ^ (e' - e))%Z) ->
  SpecFloat.binary_round FloatOps.prec FloatOps.emax s p e
  = SpecFloat.S754_finite s q e'.
Proof.
  intros Hq He Hcase.
  assert (Hdp : (Zpos (SpecFloat.digits2_pos p) + e = 53 + e')%Z).
  { destruct Hcase as [[Hle Hv] | [Hle Hv]].
    - assert (Hk : (0 < 2 ^ (e - e'))%Z) by (apply Z.pow_pos_nonneg; lia).
      assert (Hk53 : (e - e' < 53)%Z).
      { apply (Z.pow_lt_mono_r_iff 2); [lia | lia | nia]. }
      rewrite (digits2_pos_bounds p (53 - (e - e'))); [lia |].
      assert (H52 : (2 ^ 52 = 2 ^ (53 - (e - e') - 1) * 2 ^ (e - e'))%Z)
        by (rewrite <- Z.pow_add_r by lia; f_equal; lia).
      assert (H53 : (2 ^ 53 = 2 ^ (53 - (e - e')) * 2 ^ (e - e'))%Z)
        by (rewrite <- Z.pow_add_r by lia; f_equal; lia).
      rewrite Hv, H52, H53 in Hq. destruct Hq as [Hlo Hhi]. split.
      + apply (Z.mul_le_mono_pos_r _ _ (2 ^ (e - e'))); assumption.
      + apply (Z.mul_lt_mono_pos_r (2 ^ (e - e'))); assumption.
    - assert (Hk : (0 < 2 ^ (e' - e))%Z) by (apply Z.pow_pos_nonneg; lia).
      rewrite (digits2_pos_bounds p (53 + (e' - e))); [lia |].
      replace (53 + (e' - e) - 1)%Z with (52 + (e' - e))%Z by lia.
      rewrite Hv, !Z.pow_add_r by lia. nia. }
  unfold SpecFloat.binary_round. rewrite Hdp, fexp_normal by lia.
  replace (53 + e' - 53)%Z with e' by lia.
  unfold SpecFloat.shl_align.
  destruct Hcase as [[Hle Hv] | [Hle Hv]].
  - destruct (e' - e)%Z as [|k|k] eqn:Hk; try lia.
    + assert (e = e') by lia. subst e'.
      rewrite Z.sub_diag, Z.mul_1_r in Hv. injection Hv as <-.
      now apply binary_round_aux_canonical.
    + replace (e - e')%Z with (Zpos k) in Hv by lia.
      rewrite <- iter_xO_pow in Hv. injection Hv as <-.
      now apply binary_round_aux_canonical.
  - destruct (e' - e)%Z as [|k|k] eqn:Hk; try lia.
    + assert (e = e') by lia. subst e'.
      rewrite Z.mul_1_r in Hv. injection Hv as ->.
      now apply binary_round_aux_canonical.
    + rewrite <- iter_xO_pow in Hv. injection Hv as ->.
      replace e with (e' - Zpos k)%Z by lia.
      now apply binary_round_aux_shifted.
Qed.

(** The double of a whole number below 2^53 that is not zero: its sign, and
    a mantissa of 53 bits that holds the number exactly. *)
Lemma wholeSF_nonzero (z : Z) :
  (0 < Z.abs z < 2 ^ 53)%Z ->
  exists q e,
    wholeSF z = SpecFloat.S754_finite (z <? 0)%Z q e /\
    (2 ^ 52 <= Zpos q < 2 ^ 53)%Z /\ (-52 <= e <= 0)%Z /\
    Zpos q = (Z.abs z * 2 ^ (- e))%Z.
Proof.
  intros Hz.
  assert (Hpos : forall (s : bool) (p : positive),
            (Zpos p < 2 ^ 53)%Z ->
            exists q e,
              SpecFloat.binary_round FloatOps.prec FloatOps.emax s p 0
              = SpecFloat.S754_finite s q e /\
              (2 ^ 52 <= Zpos q < 2 ^ 53)%Z /\ (-52 <= e <= 0)%Z /\
              Zpos q = (Zpos p * 2 ^ (- e))%Z).
  { intros s p Hp.
    pose proof (Z.log2_spec (Zpos p) eq_refl) as [Hlo Hhi].
    pose proof (Z.log2_nonneg (Zpos p)) as Hnn.
    set (l := Z.log2 (Zpos p)) in *.
    assert (Hl : (l < 53)%Z)
      by (apply (Z.pow_lt_mono_r_iff 2); [lia | lia | lia]).
    assert (Hk : (0 < 2 ^ (52 - l))%Z) by (apply Z.pow_pos_nonneg; lia).
    assert (H52 : (2 ^ 52 = 2 ^ l * 2 ^ (52 - l))%Z)
      by (rewrite <- Z.pow_add_r by lia; f_equal; lia).
    assert (H53 : (2 ^ 53 = 2 ^ Z.succ l * 2 ^ (52 - l))%Z)
      by (rewrite <- Z.pow_add_r by lia; f_equal; lia).
    assert (Hq : (2 ^ 52 <= Zpos p * 2 ^ (52 - l) < 2 ^ 53)%Z).
    { rewrite H52, H53. split.
      - apply Z.mul_le_mono_pos_r; assumption.
      - apply Z.mul_lt_mono_pos_r; assumption. }
    exists (Z.to_pos (Zpos p * 2 ^ (52 - l))), (l - 52)%Z.
    assert (Hto : Zpos (Z.to_pos (Zpos p * 2 ^ (52 - l))) = (Zpos p * 2 ^ (52 - l))%Z)
      by (apply Z2Pos.id; lia).
    rewrite Hto. replace (- (l - 52))%Z with (52 - l)%Z by lia.
    split; [| split; [exact Hq | split; [lia | reflexivity]]].
    apply binary_round_exact; [rewrite Hto; exact Hq | lia |].
    left. split; [lia |]. rewrite Hto. f_equal. f_equal. lia. }
  unfold wholeSF, SpecFloat.binary_normalize.
  destruct z as [|p|p]; cbn [Z.abs] in Hz; [lia | |].
  - apply Hpos. lia.
  - apply Hpos. lia.
Qed.

(** Trailing zeros do not change the double of a whole number. *)
Lemma scaled_normalize (c k : Z) :
  (Z.abs c < 2 ^ 53)%Z -> (0 <= k <= 1074)%Z ->
  SpecFloat.binary_normalize FloatOps.prec FloatOps.emax (c * 2 ^ k) (- k) false
  = wholeSF c.
Proof.
  intros Hc Hk.
  assert (Hk2 : (0 < 2 ^ k)%Z) by (apply Z.pow_pos_nonneg; lia).
  destruct (Z.eq_dec c 0) as [-> | Hnz]; [reflexivity |].
  destruct (wholeSF_nonzero c) as (q & e & Hw & Hq & He & Hv); [lia |].
  rewrite Hw.
  assert (Hround : forall (s : bool) (p : positive),
            Zpos p = (Z.abs c * 2 ^ k)%Z ->
            SpecFloat.binary_round FloatOps.prec FloatOps.emax s p (- k)
            = SpecFloat.S754_finite s q e).
  { intros s p Hp. apply binary_round_exact; [exact Hq | lia |].
    destruct (Z.le_gt_cases e (- k)) as [Hle | Hgt].
    - left. split; [exact Hle |].
      rewrite Hv, Hp, <- Z.mul_assoc, <- Z.pow_add_r by lia.
      f_equal. f_equal. lia.
    - right. split; [lia |].
      rewrite Hv, Hp, <- Z.mul_assoc, <- Z.pow_add_r by lia.
      f_equal. f_equal. lia. }
  unfold SpecFloat.binary_normalize.
  destruct (c * 2 ^ k)%Z as [|p|p] eqn:Hp.
  - nia.
  - assert (0 < c)%Z by nia.
    replace (c <? 0)%Z with false by (symmetry; apply Z.ltb_ge; lia).
    apply Hround. rewrite Z.abs_eq by lia. lia.
  - assert (c < 0)%Z by nia.
    replace (c <? 0)%Z with true by (symmetry; apply Z.ltb_lt; lia).
    apply Hround. rewrite Z.abs_neq by lia. lia.
Qed.

Lemma shl_align_value (m : positive) (ex ez : Z) :
  (ez <= ex)%Z ->
  Zpos (fst (SpecFloat.shl_align m ex ez)) = (Zpos m * 2 ^ (ex - ez))%Z.
Proof.
  intros Hle. unfold SpecFloat.shl_align.
  destruct (ez - ex)%Z as [|d|d] eqn:Hd; cbn [fst]; try lia.
  - replace (ex - ez)%Z with 0%Z by lia. lia.
  - rewrite iter_xO_pow. f_equal. f_equal. lia.
Qed.

(** The aligned mantissas of a whole number and of 2. *)
Lemma aligned_whole (z : Z) (q : positive) (e ez : Z) :
  Zpos q = (Z.abs z * 2 ^ (- e))%Z -> (ez <= e <= 0)%Z ->
  SpecFloat.cond_Zopp (z <? 0)%Z (Zpos (fst (SpecFloat.shl_align q e ez)))
  = (z * 2 ^ (- ez))%Z.
Proof.
  intros Hv He. rewrite shl_align_value by lia.
  rewrite Hv, <- Z.mul_assoc, <- Z.pow_add_r by lia.
  replace (- e + (e - ez))%Z with (- ez)%Z by lia.
  unfold SpecFloat.cond_Zopp.
  destruct (z <? 0)%Z eqn:Hs.
  - apply Z.ltb_lt in Hs. rewrite Z.abs_neq by lia. lia.
  - apply Z.ltb_ge in Hs. rewrite Z.abs_eq by lia. lia.
Qed.

Lemma wholeSF_two :
  wholeSF 2 = SpecFloat.S754_finite false 4503599627370496 (-51).
Proof. vm_compute. reflexivity. Qed.

(** Subtracting 2 from the double of a whole number is exact below 2^53. *)
Lemma SFsub_two (z : Z) :
  (Z.abs z < 2 ^ 53)%Z -> (Z.abs (z - 2) < 2 ^ 53)%Z ->
  SpecFloat.SFsub FloatOps.prec FloatOps.emax (wholeSF z) (wholeSF 2) = wholeSF (z - 2).
Proof.
  intros Hz Hz2.
  destruct (Z.eq_dec z 0) as [-> | Hnz]; [vm_compute; reflexivity |].
  destruct (wholeSF_nonzero z) as (q & e & Hw & Hq & He & Hv); [lia |].
  rewrite Hw, wholeSF_two. unfold SpecFloat.SFsub. cbv zeta.
  set (ez := Z.min e (-51)).
  rewrite (aligned_whole z q e ez Hv) by lia.
  change (SpecFloat.cond_Zopp false
            (Zpos (fst (SpecFloat.shl_align 4503599627370496 (-51) ez))))
    with (Zpos (fst (SpecFloat.shl_align 4503599627370496 (-51) ez))).
  rewrite shl_align_value by lia.
  replace (z * 2 ^ (- ez) - 4503599627370496 * 2 ^ (-51 - ez))%Z
    with ((z - 2) * 2 ^ (- ez))%Z.
  - replace ez with (- (- ez))%Z at 2 by lia.
    apply scaled_normalize; lia.
  - replace (- ez)%Z with (51 + (-51 - ez))%Z by lia.
    rewrite Z.pow_add_r by lia.
    change (2 ^ 51)%Z with 2251799813685248%Z. lia.
Qed.

(** Adding 2 to the double of a whole number is exact below 2^53. *)
Lemma SFadd_two (z : Z) :
  (Z.abs z < 2 ^ 53)%Z -> (Z.abs (z + 2) < 2 ^ 53)%Z ->
  SpecFloat.SFadd FloatOps.prec FloatOps.emax (wholeSF z) (wholeSF 2) = wholeSF (z + 2).
Proof.
  intros Hz Hz2.
  destruct (Z.eq_dec z 0) as [-> | Hnz]; [vm_compute; reflexivity |].
  destruct (wholeSF_nonzero z) as (q & e & Hw & Hq & He & Hv); [lia |].
  rewrite Hw, wholeSF_two. unfold SpecFloat.SFadd. cbv zeta.
  set (ez := Z.min e (-51)).
  rewrite (aligned_whole z q e ez Hv) by lia.
  change (SpecFloat.cond_Zopp false
            (Zpos (fst (SpecFloat.shl_align 4503599627370496 (-51) ez))))
    with (Zpos (fst (SpecFloat.shl_align 4503599627370496 (-51) ez))).
  rewrite shl_align_value by lia.
  replace (z * 2 ^ (- ez) + 4503599627370496 * 2 ^ (-51 - ez))%Z
    with ((z + 2) * 2 ^ (- ez))%Z.
  - replace ez with (- (- ez))%Z at 2 by lia.
    apply scaled_normalize; lia.
  - replace (- ez)%Z with (51 + (-51 - ez))%Z by lia.
    rewrite Z.pow_add_r by lia.
    change (2 ^ 51)%Z with 2251799813685248%Z. lia.
Qed.

(** Two positive numbers with 53-bit mantissas compare as their exponents
    and then their mantissas do. *)
Lemma magnitude_compare (a b : Z) (qa qb : positive) (ea eb : Z) :
  (0 < a)%Z -> (0 < b)%Z ->
  (2 ^ 52 <= Zpos qa < 2 ^ 53)%Z -> (2 ^ 52 <= Zpos qb < 2 ^ 53)%Z ->
  (ea <= 0)%Z -> (eb <= 0)%Z ->
  Zpos qa = (a * 2 ^ (- ea))%Z -> Zpos qb = (b * 2 ^ (- eb))%Z ->
  match (ea ?= eb)%Z with
  | Lt => Lt
  | Gt => Gt
  | Eq => Pos.compare_cont Eq qa qb
  end = (a ?= b)%Z.
Proof.
  intros Ha Hb Hqa Hqb Hea Heb Hva Hvb.
  assert (Hfar : forall (x y : Z) (qx qy : positive) (e1 e2 : Z),
            (0 < x)%Z -> (0 < y)%Z ->
            (Zpos qx < 2 ^ 53)%Z -> (2 ^ 52 <= Zpos qy)%Z ->
            (e1 < e2 <= 0)%Z ->
            Zpos qx = (x * 2 ^ (- e1))%Z -> Zpos qy = (y * 2 ^ (- e2))%Z ->
            (x < y)%Z).
  { intros x y qx qy e1 e2 Hx Hy Hqx Hqy He Hvx Hvy.
    destruct (Z.lt_ge_cases x y) as [Hlt | Hge]; [exact Hlt | exfalso].
    assert (H2 : (0 < 2 ^ (- e2))%Z) by (apply Z.pow_pos_nonneg; lia).
    assert (Hd : (2 <= 2 ^ (e2 - e1))%Z).
    { change 2%Z with (2 ^ 1)%Z at 1. apply Z.pow_le_mono_r; lia. }
    assert (Hsplit : (2 ^ (- e1) = 2 ^ (- e2) * 2 ^ (e2 - e1))%Z)
      by (rewrite <- Z.pow_add_r by lia; f_equal; lia).
    rewrite Hsplit in Hvx.
    change (2 ^ 53)%Z with (2 ^ 52 * 2)%Z in Hqx.
    assert (y * 2 ^ (- e2) <= x * 2 ^ (- e2))%Z by nia.
    nia. }
  destruct (Z.compare_spec ea eb) as [Heq | Hlt | Hgt].
  - subst eb.
    assert (H2 : (0 < 2 ^ (- ea))%Z) by (apply Z.pow_pos_nonneg; lia).
    change (Pos.compare_cont Eq qa qb) with (Zpos qa ?= Zpos qb)%Z.
    rewrite Hva, Hvb.
    destruct (Z.compare_spec a b) as [-> | H | H];
      [apply Z.compare_refl | apply Z.compare_lt_iff; nia
      | apply Z.compare_gt_iff; nia].
  - symmetry. apply Z.compare_lt_iff.
    apply (Hfar a b qa qb ea eb); try assumption; lia.
  - symmetry. apply Z.compare_gt_iff.
    apply (Hfar b a qb qa eb ea); try assumption; lia.
Qed.

(** The doubles of whole numbers below 2^53 compare as the numbers do. *)
Lemma SFcompare_whole (a b : Z) :
  (Z.abs a < 2 ^ 53)%Z -> (Z.abs b < 2 ^ 53)%Z ->
  SpecFloat.SFcompare (wholeSF a) (wholeSF b) = Some (a ?= b)%Z.
Proof.
  intros Ha Hb.
  destruct (Z.eq_dec a 0) as [-> | Hanz]; destruct (Z.eq_dec b 0) as [-> | Hbnz].
  - reflexivity.
  - destruct (wholeSF_nonzero b) as (q & e & Hw & _); [lia |].
    rewrite Hw. change (wholeSF 0) with (SpecFloat.S754_zero false).
    cbn [SpecFloat.SFcompare]. f_equal.
    destruct (b <? 0)%Z eqn:Hs; symmetry.
    + apply Z.ltb_lt in Hs. apply Z.compare_gt_iff. lia.
    + apply Z.ltb_ge in Hs. apply Z.compare_lt_iff. lia.
  - destruct (wholeSF_nonzero a) as (q & e & Hw & _); [lia |].
    rewrite Hw. change (wholeSF 0) with (SpecFloat.S754_zero false).
    cbn [SpecFloat.SFcompare]. f_equal.
    destruct (a <? 0)%Z eqn:Hs; symmetry.
    + apply Z.ltb_lt in Hs. apply Z.compare_lt_iff. lia.
    + apply Z.ltb_ge in Hs. apply Z.compare_gt_iff. lia.
  - destruct (wholeSF_nonzero a) as (qa & ea & Hwa & Hqa & Hea & Hva); [lia |].
    destruct (wholeSF_nonzero b) as (qb & eb & Hwb & Hqb & Heb & Hvb); [lia |].
    rewrite Hwa, Hwb. cbn [SpecFloat.SFcompare]. f_equal.
    destruct (a <? 0)%Z eqn:Hsa; destruct (b <? 0)%Z eqn:Hsb;
      try apply Z.ltb_lt in Hsa; try apply Z.ltb_ge in Hsa;
      try apply Z.ltb_lt in Hsb; try apply Z.ltb_ge in Hsb.
    + rewrite Z.abs_neq in Hva, Hvb by lia.
      pose proof (magnitude_compare (- a) (- b) qa qb ea eb) as Hm.
      specialize (Hm ltac:(lia) ltac:(lia) Hqa Hqb ltac:(lia) ltac:(lia) Hva Hvb).
      rewrite Z.compare_opp in Hm.
      rewrite (Z.compare_antisym b a), <- Hm.
      destruct (ea ?= eb)%Z; reflexivity.
    + symmetry. apply Z.compare_lt_iff. lia.
    + symmetry. apply Z.compare_gt_iff. lia.
    + rewrite Z.abs_eq in Hva, Hvb by lia.
      apply (magnitude_compare a b qa qb ea eb); try assumption; lia.
Qed.

Lemma SFopp_binary_round (p : positive) (e : Z) :
  SpecFloat.SFopp (SpecFloat.binary_round FloatOps.prec FloatOps.emax false p e)
  = SpecFloat.binary_round FloatOps.prec FloatOps.emax true p e.
Proof.
  unfold SpecFloat.binary_round.
  destruct (SpecFloat.shl_align _ _ _) as [mz ez].
  unfold SpecFloat.binary_round_aux.
  destruct (SpecFloat.shr_fexp _ _ (Zpos mz) ez _) as [mrs' e'].
  destruct (SpecFloat.shr_fexp _ _ _ e' SpecFloat.loc_Exact) as [mrs'' e''].
  destruct (SpecFloat.shr_m mrs''); [reflexivity | | reflexivity].
  destruct (Z.leb _ _); reflexivity.
Qed.

(** [float_of_Z] is the double of the whole number (below 2^63, where the
    conversion of the machine integer wraps). *)
Lemma float_of_Z_spec (z : Z) :
  (Z.abs z < 2 ^ 63)%Z -> FloatOps.Prim2SF (float_of_Z z) = wholeSF z.
Proof.
  intros Hz.
  assert (Hnat : forall n, (0 <= n < 2 ^ 63)%Z ->
            FloatOps.Prim2SF (PrimFloat.of_uint63 (Uint63.of_Z n)) = wholeSF n).
  { intros n Hn. rewrite FloatAxioms.of_uint63_spec, Uint63.of_Z_spec.
    rewrite Z.mod_small; [reflexivity |]. exact Hn. }
  destruct z as [|p|p]; cbn [float_of_Z].
  - apply Hnat. lia.
  - apply Hnat. lia.
  - rewrite FloatAxioms.opp_spec, Hnat by (cbn [Z.abs] in Hz; lia).
    apply SFopp_binary_round.
Qed.

Lemma sub_two_whole (z : Z) :
  (Z.abs z < 2 ^ 53)%Z -> (Z.abs (z - 2) < 2 ^ 53)%Z ->
  PrimFloat.sub (float_of_Z z) 2 = float_of_Z (z - 2).
Proof.
  intros Hz Hz2. apply FloatAxioms.Prim2SF_inj.
  rewrite FloatAxioms.sub_spec, !float_of_Z_spec by lia.
  change (FloatOps.Prim2SF 2) with (FloatOps.Prim2SF (float_of_Z 2)).
  rewrite float_of_Z_spec by (cbn; lia).
  now apply SFsub_two.
Qed.

Lemma add_two_whole (z : Z) :
  (Z.abs z < 2 ^ 53)%Z -> (Z.abs (z + 2) < 2 ^ 53)%Z ->
  PrimFloat.add (float_of_Z z) 2 = float_of_Z (z + 2).
Proof.
  intros Hz Hz2. apply FloatAxioms.Prim2SF_inj.
  rewrite FloatAxioms.add_spec, !float_of_Z_spec by lia.
  change (FloatOps.Prim2SF 2) with (FloatOps.Prim2SF (float_of_Z 2)).
  rewrite float_of_Z_spec by (cbn; lia).
  now apply SFadd_two.
Qed.

Lemma leb_whole (a b : Z) :
  (Z.abs a < 2 ^ 53)%Z -> (Z.abs b < 2 ^ 53)%Z ->
  PrimFloat.leb (float_of_Z a) (float_of_Z b) = (a <=? b)%Z.
Proof.
  intros Ha Hb.
  rewrite FloatAxioms.leb_spec, !float_of_Z_spec by lia.
  unfold SpecFloat.SFleb. rewrite SFcompare_whole by assumption.
  unfold Z.leb. destruct (a ?= b)%Z; reflexivity.
Qed.

Lemma ltb_whole (a b : Z) :
  (Z.abs a < 2 ^ 53)%Z -> (Z.abs b < 2 ^ 53)%Z ->
  PrimFloat.ltb (float_of_Z a) (float_of_Z b) = (a <? b)%Z.
Proof.
  intros Ha Hb.
  rewrite FloatAxioms.ltb_spec, !float_of_Z_spec by lia.
  unfold SpecFloat.SFltb. rewrite SFcompare_whole by assumption.
  unfold Z.ltb. destruct (a ?= b)%Z; reflexivity.
Qed.

Lemma eqb_whole (a b : Z) :
  (Z.abs a < 2 ^ 53)%Z -> (Z.abs b < 2 ^ 53)%Z ->
  PrimFloat.eqb (float_of_Z a) (float_of_Z b) = (a =? b)%Z.
Proof.
  intros Ha Hb.
  rewrite FloatAxioms.eqb_spec, !float_of_Z_spec by lia.
  unfold SpecFloat.SFeqb. rewrite SFcompare_whole by assumption.
  destruct (a ?= b)%Z eqn:Hc; symmetry.
  - apply Z.eqb_eq. now apply Z.compare_eq_iff.
  - apply Z.eqb_neq. intros ->. rewrite Z.compare_refl in Hc. discriminate.
  - apply Z.eqb_neq. intros ->. rewrite Z.compare_refl in Hc. discriminate.
Qed.

(** *** Rounding in general *)

Lemma iter_pos_nat (A : Type) (f : A -> A) : forall (n : positive) (x : A),
  SpecFloat.iter_pos f n x = Nat.iter (Pos.to_nat n) f x.
Proof.
  induction n as [n IH | n IH |]; intros x; cbn [SpecFloat.iter_pos].
  - rewrite !IH, Pos2Nat.inj_xI.
    replace (S (2 * Pos.to_nat n)) with (Pos.to_nat n + Pos.to_nat n + 1) by lia.
    rewrite !Nat.iter_add. reflexivity.
  - rewrite !IH, Pos2Nat.inj_xO.
    replace (2 * Pos.to_nat n) with (Pos.to_nat n + Pos.to_nat n) by lia.
    rewrite Nat.iter_add. reflexivity.
  - reflexivity.
Qed.

(** One step to the right: the mantissa is halved, and the two flags stay
    clear as long as nothing but zeros was shifted out. *)
Lemma shr_1_spec (m : Z) (r s : bool) :
  (0 <= m)%Z ->
  let mrs := SpecFloat.shr_1 {| SpecFloat.shr_m := m; SpecFloat.shr_r := r;
                                SpecFloat.shr_s := s |} in
  SpecFloat.shr_m mrs = (m / 2)%Z /\
  SpecFloat.shr_r mrs = Z.odd m /\
  SpecFloat.shr_s mrs = (r || s)%bool.
Proof.
  intros Hm. destruct m as [|[p | p |]|p]; try lia; cbn [SpecFloat.shr_1];
    cbn [SpecFloat.shr_m SpecFloat.shr_r SpecFloat.shr_s Z.odd];
    repeat split; try reflexivity.
  - rewrite Pos2Z.inj_xI. apply (Z.div_unique _ _ _ 1); lia.
  - rewrite Pos2Z.inj_xO. apply (Z.div_unique _ _ _ 0); lia.
Qed.

Lemma shr_steps (p0 : Z) : forall k,
  (0 <= p0)%Z ->
  let mrs := Nat.iter k SpecFloat.shr_1
               {| SpecFloat.shr_m := p0; SpecFloat.shr_r := false;
                  SpecFloat.shr_s := false |} in
  SpecFloat.shr_m mrs = (p0 / 2 ^ Z.of_nat k)%Z /\
  ((SpecFloat.shr_r mrs || SpecFloat.shr_s mrs)%bool = false <->
   (p0 mod 2 ^ Z.of_nat k = 0)%Z).
Proof.
  intros k Hp0. induction k as [|k IH]; cbv zeta in *.
  - cbn [Nat.iter SpecFloat.shr_m SpecFloat.shr_r SpecFloat.shr_s orb].
    change (2 ^ Z.of_nat 0)%Z with 1%Z. rewrite Z.div_1_r, Z.mod_1_r. tauto.
  - rewrite Nat.iter_succ. destruct IH as [IHm IHf].
    destruct (Nat.iter k SpecFloat.shr_1 _) as [m r s] eqn:Hiter.
    cbn [SpecFloat.shr_m SpecFloat.shr_r SpecFloat.shr_s] in IHm, IHf.
    assert (Hk : (0 < 2 ^ Z.of_nat k)%Z) by (apply Z.pow_pos_nonneg; lia).
    assert (Hm : (0 <= m)%Z) by (rewrite IHm; apply Z.div_pos; lia).
    destruct (shr_1_spec m r s Hm) as (H1 & H2 & H3).
    rewrite H1, H2, H3.
    rewrite Nat2Z.inj_succ, Z.pow_succ_r by lia.
    assert (Hdiv : (p0 / (2 * 2 ^ Z.of_nat k) = m / 2)%Z).
    { rewrite IHm, Z.mul_comm, Z.div_div by lia. reflexivity. }
    split; [symmetry; exact Hdiv |].
    pose proof (Z.div_mod p0 (2 ^ Z.of_nat k) ltac:(lia)) as Hdm.
    pose proof (Z.mod_pos_bound p0 (2 ^ Z.of_nat k) Hk) as Hb.
    rewrite <- IHm in Hdm.
    pose proof (Z.div_mod m 2 ltac:(lia)) as Hdm2.
    pose proof (Z.mod_pos_bound m 2 ltac:(lia)) as Hb2.
    assert (Hodd : Z.odd m = negb (m mod 2 =? 0)%Z).
    { rewrite Zmod_odd. destruct (Z.odd m); reflexivity. }
    rewrite Hodd.
    split.
    + intros Hflags. apply orb_false_iff in Hflags. destruct Hflags as [Hr Hrs].
      apply negb_false_iff, Z.eqb_eq in Hr. apply IHf in Hrs.
      apply Z.mod_divide; [lia |].
      exists (m / 2)%Z. nia.
    + intros Hexact. apply Z.mod_divide in Hexact; [| lia].
      destruct Hexact as [c Hc].
      assert (Hr0 : (p0 mod 2 ^ Z.of_nat k = 0)%Z).
      { apply Z.mod_divide; [lia |]. exists (2 * c)%Z. lia. }
      assert (Hmc : m = (2 * c)%Z) by nia.
      apply orb_false_iff. split.
      * apply negb_false_iff, Z.eqb_eq. rewrite Hmc, Z.mul_comm. apply Z.mod_mul. lia.
      * apply IHf. exact Hr0.
Qed.

Lemma fexp_max (x : Z) :
  SpecFloat.fexp FloatOps.prec FloatOps.emax x = Z.max (x - 53) (-1074).
Proof. reflexivity. Qed.

(** A mantissa that is already at the exponent of the format is kept; only
    the exponent may be beyond the largest. *)
Lemma binary_round_aux_fixed (s : bool) (m : positive) (e : Z) :
  SpecFloat.fexp FloatOps.prec FloatOps.emax (Zpos (SpecFloat.digits2_pos m) + e) = e ->
  SpecFloat.binary_round_aux FloatOps.prec FloatOps.emax s (Zpos m) e SpecFloat.loc_Exact
  = if (e <=? 971)%Z then SpecFloat.S754_finite s m e else SpecFloat.S754_infinity s.
Proof.
  intros Hfix.
  unfold SpecFloat.binary_round_aux, SpecFloat.shr_fexp.
  cbn [SpecFloat.Zdigits2]. rewrite Hfix, Z.sub_diag.
  cbn [SpecFloat.shr SpecFloat.shr_record_of_loc SpecFloat.shr_m
       SpecFloat.loc_of_shr_record SpecFloat.round_nearest_even SpecFloat.Zdigits2].
  rewrite Hfix, Z.sub_diag.
  cbn [SpecFloat.shr SpecFloat.shr_record_of_loc SpecFloat.shr_m].
  reflexivity.
Qed.

(** Rounding to nearest moves the shifted mantissa up by one at most, and
    not at all when only zeros were shifted out. *)
Lemma round_nearest_even_bounds (mrs : SpecFloat.shr_record) :
  let m := SpecFloat.shr_m mrs in
  let m' := SpecFloat.round_nearest_even m (SpecFloat.loc_of_shr_record mrs) in
  (m <= m' <= m + 1)%Z /\
  ((SpecFloat.shr_r mrs || SpecFloat.shr_s mrs)%bool = false -> m' = m).
Proof.
  destruct mrs as [m [|] [|]]; cbn; try (destruct (Z.even m)); split;
    try lia; try discriminate; reflexivity.
Qed.

(** Rounding a mantissa of more than 53 bits: the bits beyond the 53 are
    shifted out, and the result is the shifted mantissa or the next one. *)
Lemma binary_round_aux_shift (s : bool) (p n : positive) (ez : Z) :
  Zpos (SpecFloat.digits2_pos p) = (53 + Zpos n)%Z ->
  (-1074 <= ez)%Z ->
  exists (mr : positive) (er c : Z),
    SpecFloat.binary_round_aux FloatOps.prec FloatOps.emax s (Zpos p) ez
      SpecFloat.loc_Exact
    = (if (er <=? 971)%Z then SpecFloat.S754_finite s mr er
       else SpecFloat.S754_infinity s) /\
    (ez + Zpos n <= er)%Z /\
    (2 ^ 52 <= Zpos mr)%Z /\
    (Zpos mr * 2 ^ (er - (ez + Zpos n)) = c)%Z /\
    (Zpos p / 2 ^ Zpos n <= c)%Z /\
    (c <= Zpos p / 2 ^ Zpos n + (if (Zpos p mod 2 ^ Zpos n =? 0)%Z then 0 else 1))%Z.
Proof.
  intros Hd Hez.
  pose proof (Z.log2_spec (Zpos p) eq_refl) as [Hlo Hhi].
  rewrite digits2_pos_log2 in Hd.
  replace (Z.log2 (Zpos p)) with (52 + Zpos n)%Z in Hlo, Hhi by lia.
  replace (Z.succ (52 + Zpos n)) with (53 + Zpos n)%Z in Hhi by lia.
  rewrite Z.pow_add_r in Hlo, Hhi by lia.
  assert (Hn : (0 < 2 ^ Zpos n)%Z) by (apply Z.pow_pos_nonneg; lia).
  set (q := (Zpos p / 2 ^ Zpos n)%Z).
  assert (Hq : (2 ^ 52 <= q < 2 ^ 53)%Z).
  { unfold q. split.
    - apply Z.div_le_lower_bound; lia.
    - apply Z.div_lt_upper_bound; lia. }
  (* the first shift *)
  unfold SpecFloat.binary_round_aux, SpecFloat.shr_fexp.
  cbn [SpecFloat.Zdigits2]. rewrite digits2_pos_log2.
  replace (Z.succ (Z.log2 (Zpos p))) with (53 + Zpos n)%Z by lia.
  rewrite fexp_max.
  replace (Z.max (53 + Zpos n + ez - 53) (-1074) - ez)%Z with (Zpos n) by lia.
  cbn [SpecFloat.shr SpecFloat.shr_record_of_loc].
  rewrite iter_pos_nat.
  destruct (shr_steps (Zpos p) (Pos.to_nat n) ltac:(lia)) as [Hm Hflags].
  rewrite positive_nat_Z in Hm, Hflags. fold q in Hm.
  set (mrs := Nat.iter (Pos.to_nat n) SpecFloat.shr_1 _) in *.
  destruct (round_nearest_even_bounds mrs) as [Hround Hexact]. cbv zeta in *.
  set (m0 := SpecFloat.round_nearest_even (SpecFloat.shr_m mrs)
               (SpecFloat.loc_of_shr_record mrs)) in *.
  rewrite Hm in Hround, Hexact.
  assert (Hup : (m0 <= q + (if (Zpos p mod 2 ^ Zpos n =? 0)%Z then 0 else 1))%Z).
  { destruct (Zpos p mod 2 ^ Zpos n =? 0)%Z eqn:Hmod.
    - apply Z.eqb_eq in Hmod. apply Hflags in Hmod. apply Hexact in Hmod. lia.
    - lia. }
  (* the second shift *)
  destruct (Z.eq_dec m0 (2 ^ 53)) as [Htop | Hbelow].
  - exists 4503599627370496%positive, (ez + Zpos n + 1)%Z, m0.
    rewrite Htop. cbn [SpecFloat.Zdigits2 SpecFloat.digits2_pos Pos.succ].
    change (2 ^ 53)%Z with 9007199254740992%Z.
    cbn [SpecFloat.Zdigits2 SpecFloat.digits2_pos Pos.succ].
    rewrite fexp_max.
    replace (Z.max (54 + (ez + Zpos n) - 53) (-1074) - (ez + Zpos n))%Z with 1%Z by lia.
    cbn [SpecFloat.shr SpecFloat.shr_record_of_loc SpecFloat.iter_pos
         SpecFloat.shr_1 SpecFloat.shr_m orb].
    split; [reflexivity |]. split; [lia |]. split; [reflexivity |]. split; [| lia].
    replace (ez + Zpos n + 1 - (ez + Zpos n))%Z with 1%Z by lia. reflexivity.
  - assert (Hm0 : (2 ^ 52 <= m0 < 2 ^ 53)%Z) by lia.
    destruct m0 as [|mr|mr] eqn:Hm0eq; try lia.
    exists mr, (ez + Zpos n)%Z, (Zpos mr).
    cbn [SpecFloat.Zdigits2].
    rewrite (digits2_pos_bounds mr 53) by exact Hm0.
    rewrite fexp_max.
    replace (Z.max (53 + (ez + Zpos n) - 53) (-1074) - (ez + Zpos n))%Z with 0%Z by lia.
    cbn [SpecFloat.shr SpecFloat.shr_record_of_loc SpecFloat.shr_m].
    split; [reflexivity |]. split; [lia |]. split; [lia |]. split; [| lia].
    rewrite Z.sub_diag. lia.
Qed.

Lemma digits2_pos_shifted (p k : positive) :
  Zpos (SpecFloat.digits2_pos (Pos.iter xO p k))
  = (Zpos (SpecFloat.digits2_pos p) + Zpos k)%Z.
Proof.
  induction k as [|k IH] using Pos.peano_ind.
  - cbn [Pos.iter SpecFloat.digits2_pos]. lia.
  - rewrite Pos.iter_succ. cbn [SpecFloat.digits2_pos]. lia.
Qed.

(** What [binary_round] gives for a mantissa [p] at an exponent [ez]: a
    double on the grid of the exponent [et] that the format assigns to the
    number, which is the number rounded down to the grid or the next point
    of the grid, and the number itself when it is on the grid; an infinity
    when the exponent of that double is beyond the largest. *)
Lemma binary_round_bounds (s : bool) (p : positive) (ez : Z) :
  (-1074 <= ez)%Z ->
  let et := Z.max (Zpos (SpecFloat.digits2_pos p) + ez - 53) (-1074) in
  let g := (2 ^ (et + 1074))%Z in
  let v := scaled p ez in
  (et = Zpos (SpecFloat.digits2_pos p) + ez - 53 -> 2 ^ 52 <= v / g)%Z /\
  exists mr er c,
    SpecFloat.binary_round FloatOps.prec FloatOps.emax s p ez
    = (if (er <=? 971)%Z then SpecFloat.S754_finite s mr er
       else SpecFloat.S754_infinity s) /\
    (et <= er)%Z /\
    (-1074 < er -> 2 ^ 52 <= Zpos mr)%Z /\
    scaled mr er = (c * g)%Z /\
    (v / g <= c <= v / g + (if (v mod g =? 0)%Z then 0 else 1))%Z.
Proof.
  intros Hez et g v.
  set (d := Zpos (SpecFloat.digits2_pos p)) in *.
  assert (Hd : (2 ^ (d - 1) <= Zpos p < 2 ^ d)%Z).
  { unfold d. rewrite digits2_pos_log2.
    replace (Z.succ (Z.log2 (Zpos p)) - 1)%Z with (Z.log2 (Zpos p)) by lia.
    apply Z.log2_spec. reflexivity. }
  assert (Hd1 : (1 <= d)%Z) by (unfold d; lia).
  assert (Hg : (0 < g)%Z) by (apply Z.pow_pos_nonneg; lia).
  assert (Hz : (0 < 2 ^ (ez + 1074))%Z) by (apply Z.pow_pos_nonneg; lia).
  destruct (Z.le_gt_cases et ez) as [Hle | Hgt].
  - (* no bit is shifted out *)
    assert (Hk : (0 < 2 ^ (ez - et))%Z) by (apply Z.pow_pos_nonneg; lia).
    assert (Hv : v = (Zpos p * 2 ^ (ez - et) * g)%Z).
    { unfold v, scaled, g. rewrite <- Z.mul_assoc, <- Z.pow_add_r by lia.
      f_equal. f_equal. lia. }
    assert (Hvg : (v / g = Zpos p * 2 ^ (ez - et))%Z)
      by (rewrite Hv; apply Z.div_mul; lia).
    assert (Hvm : (v mod g = 0)%Z) by (rewrite Hv; apply Z.mod_mul; lia).
    assert (Hnormal : (et = d + ez - 53 -> 2 ^ 52 <= Zpos p * 2 ^ (ez - et))%Z).
    { intros Het. replace 52%Z with (d - 1 + (ez - et))%Z by lia.
      rewrite Z.pow_add_r by lia. nia. }
    split; [intros Het; rewrite Hvg; now apply Hnormal |].
    assert (Hround : exists mz,
              Zpos mz = (Zpos p * 2 ^ (ez - et))%Z /\
              SpecFloat.binary_round FloatOps.prec FloatOps.emax s p ez
              = if (et <=? 971)%Z then SpecFloat.S754_finite s mz et
                else SpecFloat.S754_infinity s).
    { unfold SpecFloat.binary_round. rewrite fexp_max. fold d. fold et.
      unfold SpecFloat.shl_align.
      destruct (et - ez)%Z as [|k|k] eqn:Hk'; try lia.
      - exists p. replace (ez - et)%Z with 0%Z by lia.
        split; [lia |]. replace ez with et by lia.
        apply binary_round_aux_fixed. rewrite fexp_max. fold d.
        replace (d + et)%Z with (d + ez)%Z by lia. reflexivity.
      - exists (Pos.iter xO p k).
        split; [rewrite iter_xO_pow; f_equal; f_equal; lia |].
        apply binary_round_aux_fixed. rewrite fexp_max, digits2_pos_shifted.
        fold d. replace (d + Zpos k + et)%Z with (d + ez)%Z by lia. reflexivity. }
    destruct Hround as (mz & Hmz & Hround).
    exists mz, et, (Zpos p * 2 ^ (ez - et))%Z.
    split; [exact Hround |]. split; [lia |].
    split; [intros Het; rewrite Hmz; apply Hnormal; lia |].
    split; [unfold scaled; fold g; now rewrite Hmz |].
    rewrite Hvg, Hvm. cbn. lia.
  - (* bits are shifted out *)
    assert (Het : et = (d + ez - 53)%Z) by lia.
    destruct (et - ez)%Z as [|n|n] eqn:Hn; try lia.
    assert (Hdn : d = (53 + Zpos n)%Z) by lia.
    assert (H2n : (0 < 2 ^ Zpos n)%Z) by (apply Z.pow_pos_nonneg; lia).
    assert (Hgn : g = (2 ^ Zpos n * 2 ^ (ez + 1074))%Z).
    { unfold g. rewrite <- Z.pow_add_r by lia. f_equal. lia. }
    assert (Hvg : (v / g = Zpos p / 2 ^ Zpos n)%Z).
    { unfold v, scaled. rewrite Hgn. apply Z.div_mul_cancel_r; lia. }
    assert (Hvm : (v mod g = (Zpos p mod 2 ^ Zpos n) * 2 ^ (ez + 1074))%Z).
    { unfold v, scaled. rewrite Hgn. apply Z.mul_mod_distr_r; lia. }
    split.
    { intros _. rewrite Hvg. apply Z.div_le_lower_bound; [lia |].
      replace (d - 1)%Z with (Zpos n + 52)%Z in Hd by lia.
      rewrite Z.pow_add_r in Hd by lia. lia. }
    destruct (binary_round_aux_shift s p n ez Hdn Hez)
      as (mr & er & c & Hres & Her & Hmr & Hc & Hlo & Hhi).
    exists mr, er, c.
    split.
    { unfold SpecFloat.binary_round. rewrite fexp_max. fold d. fold et.
      unfold SpecFloat.shl_align. rewrite Hn. exact Hres. }
    split; [lia |]. split; [intros _; exact Hmr |]. split.
    + unfold scaled, g. rewrite <- Hc, <- Z.mul_assoc, <- Z.pow_add_r by lia.
      f_equal. f_equal. lia.
    + rewrite Hvg. split; [exact Hlo |].
      replace (v mod g =? 0)%Z with (Zpos p mod 2 ^ Zpos n =? 0)%Z; [exact Hhi |].
      rewrite Hvm.
      destruct (Z.eqb_spec (Zpos p mod 2 ^ Zpos n) 0) as [-> | Hne];
        symmetry; [reflexivity |].
      apply Z.eqb_neq. nia.
Qed.

Lemma bounded_spec (m : positive) (e : Z) :
  SpecFloat.bounded FloatOps.prec FloatOps.emax m e = true ->
  (-1074 <= e <= 971)%Z /\
  (Zpos m < 2 ^ 53)%Z /\
  (-1074 < e -> 2 ^ 52 <= Zpos m)%Z /\
  e = Z.max (Zpos (SpecFloat.digits2_pos m) + e - 53) (-1074).
Proof.
  unfold SpecFloat.bounded, SpecFloat.canonical_mantissa. intros H.
  apply andb_true_iff in H. destruct H as [Hc He].
  apply Z.eqb_eq in Hc. apply Z.leb_le in He. rewrite fexp_max in Hc.
  change (FloatOps.emax - FloatOps.prec)%Z with 971%Z in He.
  pose proof (Z.log2_spec (Zpos m) eq_refl) as [Hlo Hhi].
  pose proof (digits2_pos_log2 m) as Hd.
  set (d := Zpos (SpecFloat.digits2_pos m)) in *.
  replace (Z.succ (Z.log2 (Zpos m))) with d in Hhi by lia.
  replace (Z.log2 (Zpos m)) with (d - 1)%Z in Hlo by lia.
  split; [lia |]. split; [| split; [| lia]].
  - apply (Z.lt_le_trans _ _ _ Hhi). apply Z.pow_le_mono_r; lia.
  - intros Hn. replace 52%Z with (d - 1)%Z by lia. exact Hlo.
Qed.

Lemma scaled_pos (m : positive) (e : Z) : (-1074 <= e -> 0 < scaled m e)%Z.
Proof.
  intros He. unfold scaled.
  assert (0 < 2 ^ (e + 1074))%Z by (apply Z.pow_pos_nonneg; lia). lia.
Qed.

Lemma scaled_below (m : positive) (e : Z) :
  SpecFloat.bounded FloatOps.prec FloatOps.emax m e = true ->
  (0 < scaled m e < 2 ^ 2098)%Z.
Proof.
  intros Hb. destruct (bounded_spec m e Hb) as (He & Hm & _).
  split; [apply scaled_pos; lia |]. unfold scaled.
  assert (Hk : (0 < 2 ^ (e + 1074))%Z) by (apply Z.pow_pos_nonneg; lia).
  assert (Hle : (2 ^ (e + 1074) <= 2 ^ 2045)%Z) by (apply Z.pow_le_mono_r; lia).
  replace 2098%Z with (53 + 2045)%Z by lia. rewrite (Z.pow_add_r 2 53 2045) by lia.
  apply (Z.lt_le_trans _ (2 ^ 53 * 2 ^ (e + 1074))).
  - apply Z.mul_lt_mono_pos_r; assumption.
  - apply Z.mul_le_mono_nonneg_l; [apply Z.pow_nonneg; lia | exact Hle].
Qed.

(** Doubles of one sign compare as their exponents and then their mantissas
    do, and that is the order of their places. *)
Lemma scaled_compare (m1 m2 : positive) (e1 e2 : Z) :
  SpecFloat.bounded FloatOps.prec FloatOps.emax m1 e1 = true ->
  SpecFloat.bounded FloatOps.prec FloatOps.emax m2 e2 = true ->
  match (e1 ?= e2)%Z with
  | Lt => Lt
  | Gt => Gt
  | Eq => Pos.compare_cont Eq m1 m2
  end = (scaled m1 e1 ?= scaled m2 e2)%Z.
Proof.
  intros H1 H2.
  assert (Hfar : forall (a b : positive) (ea eb : Z),
            SpecFloat.bounded FloatOps.prec FloatOps.emax a ea = true ->
            SpecFloat.bounded FloatOps.prec FloatOps.emax b eb = true ->
            (ea < eb)%Z -> (scaled a ea < scaled b eb)%Z).
  { intros a b ea eb Ha Hb Hlt.
    destruct (bounded_spec a ea Ha) as (Hea & Hma & _).
    destruct (bounded_spec b eb Hb) as (Heb & _ & Hmb & _).
    specialize (Hmb ltac:(lia)). unfold scaled.
    assert (Hk : (0 < 2 ^ (ea + 1074))%Z) by (apply Z.pow_pos_nonneg; lia).
    assert (Hd : (2 <= 2 ^ (eb - ea))%Z).
    { change 2%Z with (2 ^ 1)%Z at 1. apply Z.pow_le_mono_r; lia. }
    replace (eb + 1074)%Z with (ea + 1074 + (eb - ea))%Z by lia.
    rewrite (Z.pow_add_r 2 (ea + 1074) (eb - ea)) by lia.
    set (K := (2 ^ (ea + 1074))%Z) in *. set (D := (2 ^ (eb - ea))%Z) in *.
    assert (H0 : (Zpos a * K < 2 ^ 53 * K)%Z)
      by (apply Z.mul_lt_mono_pos_r; assumption).
    assert (H1' : (2 ^ 52 * K <= Zpos b * K)%Z)
      by (apply Z.mul_le_mono_nonneg_r; lia).
    assert (H2' : (Zpos b * K * 2 <= Zpos b * K * D)%Z)
      by (apply Z.mul_le_mono_nonneg_l; [nia | exact Hd]).
    change (2 ^ 53)%Z with (2 * 2 ^ 52)%Z in H0. lia. }
  destruct (Z.compare_spec e1 e2) as [Heq | Hlt | Hgt].
  - subst e2. destruct (bounded_spec m1 e1 H1) as (He & _).
    assert (Hk : (0 < 2 ^ (e1 + 1074))%Z) by (apply Z.pow_pos_nonneg; lia).
    change (Pos.compare_cont Eq m1 m2) with (Zpos m1 ?= Zpos m2)%Z.
    unfold scaled.
    destruct (Z.compare_spec (Zpos m1) (Zpos m2)) as [-> | H | H]; symmetry;
      [apply Z.compare_refl | apply Z.compare_lt_iff; nia
      | apply Z.compare_gt_iff; nia].
  - symmetry. apply Z.compare_lt_iff. now apply Hfar.
  - symmetry. apply Z.compare_gt_iff. now apply Hfar.
Qed.

(** The comparison of valid doubles is the comparison of their places. *)
Lemma SFcompare_rank (f1 f2 : SpecFloat.spec_float) :
  SpecFloat.valid_binary FloatOps.prec FloatOps.emax f1 = true ->
  SpecFloat.valid_binary FloatOps.prec FloatOps.emax f2 = true ->
  isNaN f1 = false -> isNaN f2 = false ->
  SpecFloat.SFcompare f1 f2 = Some (rank f1 ?= rank f2)%Z.
Proof.
  intros V1 V2 N1 N2.
  assert (Hbig : (0 < 2 ^ 2098 < 2 ^ 2100)%Z).
  { split; [apply Z.pow_pos_nonneg; lia | apply Z.pow_lt_mono_r; lia]. }
  destruct f1 as [s1 | s1 | | s1 m1 e1]; destruct f2 as [s2 | s2 | | s2 m2 e2];
    try discriminate; cbn [SpecFloat.valid_binary] in V1, V2;
    try (pose proof (scaled_below m1 e1 V1) as B1);
    try (pose proof (scaled_below m2 e2 V2) as B2);
    cbn [SpecFloat.SFcompare rank]; f_equal.
  - destruct s2; symmetry;
      [apply Z.compare_gt_iff | apply Z.compare_lt_iff]; lia.
  - destruct s2; symmetry;
      [apply Z.compare_gt_iff | apply Z.compare_lt_iff]; lia.
  - destruct s1; symmetry;
      [apply Z.compare_lt_iff | apply Z.compare_gt_iff]; lia.
  - destruct s1, s2; symmetry;
      [apply Z.compare_refl | apply Z.compare_lt_iff; lia
      | apply Z.compare_gt_iff; lia | apply Z.compare_refl].
  - destruct s1; symmetry;
      [apply Z.compare_lt_iff | apply Z.compare_gt_iff]; destruct s2; lia.
  - destruct s1; symmetry;
      [apply Z.compare_lt_iff | apply Z.compare_gt_iff]; lia.
  - destruct s2; symmetry;
      [apply Z.compare_gt_iff | apply Z.compare_lt_iff]; destruct s1; lia.
  - pose proof (scaled_compare m1 m2 e1 e2 V1 V2) as Hc.
    pose proof (scaled_compare m2 m1 e2 e1 V2 V1) as Hc'.
    destruct s1, s2.
    + rewrite Z.compare_opp, <- Hc'.
      rewrite (Z.compare_antisym e1 e2), (Pos.compare_cont_antisym m1 m2 Eq).
      destruct (e1 ?= e2)%Z; reflexivity.
    + symmetry. apply Z.compare_lt_iff. lia.
    + symmetry. apply Z.compare_gt_iff. lia.
    + exact Hc.
Qed.

(** Rounding a number that is not above a double gives a double that is
    not above it either. *)
Lemma binary_round_le (s : bool) (p m : positive) (ez e : Z) :
  (-1074 <= ez)%Z ->
  SpecFloat.bounded FloatOps.prec FloatOps.emax m e = true ->
  (scaled p ez <= scaled m e)%Z ->
  exists mr er,
    SpecFloat.binary_round FloatOps.prec FloatOps.emax s p ez
    = SpecFloat.S754_finite s mr er /\
    (scaled mr er <= scaled m e)%Z.
Proof.
  intros Hez Hb Hle.
  destruct (bounded_spec m e Hb) as (He & Hm & _ & Hcanon).
  destruct (binary_round_bounds s p ez Hez) as (_ & mr & er & c & Hres & Her & Hmr & Hc & Hc1).
  cbv zeta in *.
  set (d := Zpos (SpecFloat.digits2_pos p)) in *.
  set (dm := Zpos (SpecFloat.digits2_pos m)) in *.
  set (et := Z.max (d + ez - 53) (-1074)) in *.
  set (g := (2 ^ (et + 1074))%Z) in *.
  set (v := scaled p ez) in *.
  assert (Hg : (0 < g)%Z) by (apply Z.pow_pos_nonneg; lia).
  (* the double is on the grid *)
  assert (Hdd : (d + ez <= dm + e)%Z).
  { pose proof (Z.log2_spec (Zpos p) eq_refl) as [Hplo _].
    pose proof (Z.log2_spec (Zpos m) eq_refl) as [_ Hmhi].
    pose proof (digits2_pos_log2 p) as Hdp. pose proof (digits2_pos_log2 m) as Hdm.
    fold d in Hdp. fold dm in Hdm.
    replace (Z.log2 (Zpos p)) with (d - 1)%Z in Hplo by lia.
    replace (Z.succ (Z.log2 (Zpos m))) with dm in Hmhi by lia.
    assert (Hlt : (2 ^ (d - 1 + (ez + 1074)) < 2 ^ (dm + (e + 1074)))%Z).
    { rewrite (Z.pow_add_r 2 (d - 1) (ez + 1074)), (Z.pow_add_r 2 dm (e + 1074)) by lia.
      assert (Hk1 : (0 < 2 ^ (ez + 1074))%Z) by (apply Z.pow_pos_nonneg; lia).
      assert (Hk2 : (0 < 2 ^ (e + 1074))%Z) by (apply Z.pow_pos_nonneg; lia).
      unfold v, scaled in Hle.
      apply (Z.le_lt_trans _ (Zpos p * 2 ^ (ez + 1074))).
      - apply Z.mul_le_mono_nonneg_r; lia.
      - apply (Z.le_lt_trans _ _ _ Hle).
        apply (proj1 (Z.mul_lt_mono_pos_r _ _ _ Hk2)). exact Hmhi. }
    apply Z.pow_lt_mono_r_iff in Hlt; lia. }
  assert (Hete : (et <= e)%Z) by lia.
  assert (Hx : scaled m e = (Zpos m * 2 ^ (e - et) * g)%Z).
  { unfold scaled, g. rewrite <- Z.mul_assoc, <- Z.pow_add_r by lia.
    f_equal. f_equal. lia. }
  set (xc := (Zpos m * 2 ^ (e - et))%Z) in *.
  assert (Hcx : (c <= xc)%Z).
  { pose proof (Z.div_mod v g ltac:(lia)) as Hdm.
    pose proof (Z.mod_pos_bound v g Hg) as Hmb.
    rewrite Hx in Hle.
    destruct (Z.eqb_spec (v mod g) 0) as [Hz | Hnz]; nia. }
  assert (Hfin : (scaled mr er <= scaled m e)%Z) by (rewrite Hc, Hx; nia).
  assert (Her2 : (er <= 971)%Z).
  { destruct (Z.le_gt_cases er 971) as [H | H]; [exact H | exfalso].
    specialize (Hmr ltac:(lia)).
    pose proof (scaled_below m e Hb) as [_ Hbelow].
    assert (Hbig : (2 ^ 2098 <= scaled mr er)%Z).
    { unfold scaled. replace 2098%Z with (52 + 2046)%Z by lia.
      rewrite (Z.pow_add_r 2 52 2046) by lia.
      assert (Hp : (2 ^ 2046 <= 2 ^ (er + 1074))%Z) by (apply Z.pow_le_mono_r; lia).
      assert (Hp0 : (0 < 2 ^ 2046)%Z) by (apply Z.pow_pos_nonneg; lia).
      apply (Z.le_trans _ (2 ^ 52 * 2 ^ (er + 1074))).
      - apply Z.mul_le_mono_nonneg_l; [apply Z.pow_nonneg; lia | exact Hp].
      - apply Z.mul_le_mono_nonneg_r; [lia | exact Hmr]. }
    lia. }
  exists mr, er. split; [| exact Hfin].
  rewrite Hres. now replace (er <=? 971)%Z with true by (symmetry; apply Z.leb_le; lia).
Qed.

(** Rounding a number that is not below a double gives a double that is
    not below it either, or an infinity. *)
Lemma binary_round_ge (s : bool) (p m : positive) (ez e : Z) :
  (-1074 <= ez)%Z ->
  SpecFloat.bounded FloatOps.prec FloatOps.emax m e = true ->
  (scaled m e <= scaled p ez)%Z ->
  SpecFloat.binary_round FloatOps.prec FloatOps.emax s p ez = SpecFloat.S754_infinity s \/
  exists mr er,
    SpecFloat.binary_round FloatOps.prec FloatOps.emax s p ez
    = SpecFloat.S754_finite s mr er /\
    (scaled m e <= scaled mr er)%Z.
Proof.
  intros Hez Hb Hle.
  destruct (bounded_spec m e Hb) as (He & Hm & _ & Hcanon).
  destruct (binary_round_bounds s p ez Hez)
    as (Hnormal & mr & er & c & Hres & Her & Hmr & Hc & Hc1).
  cbv zeta in *.
  set (d := Zpos (SpecFloat.digits2_pos p)) in *.
  set (et := Z.max (d + ez - 53) (-1074)) in *.
  set (g := (2 ^ (et + 1074))%Z) in *.
  set (v := scaled p ez) in *.
  assert (Hg : (0 < g)%Z) by (apply Z.pow_pos_nonneg; lia).
  rewrite Hres. destruct (er <=? 971)%Z; [right | now left].
  exists mr, er. split; [reflexivity |]. rewrite Hc.
  destruct (Z.le_gt_cases et e) as [Hete | Hete].
  - assert (Hx : scaled m e = (Zpos m * 2 ^ (e - et) * g)%Z).
    { unfold scaled, g. rewrite <- Z.mul_assoc, <- Z.pow_add_r by lia.
      f_equal. f_equal. lia. }
    rewrite Hx in *. set (xc := (Zpos m * 2 ^ (e - et))%Z) in *.
    assert (Hxc : (xc <= v / g)%Z) by (apply Z.div_le_lower_bound; lia).
    nia.
  - specialize (Hnormal ltac:(lia)).
    assert (Hc52 : (2 ^ 52 <= c)%Z) by lia.
    unfold scaled. unfold g.
    replace (et + 1074)%Z with (e + 1074 + (et - e))%Z by lia.
    rewrite (Z.pow_add_r 2 (e + 1074) (et - e)) by lia.
    set (K := (2 ^ (e + 1074))%Z). set (D := (2 ^ (et - e))%Z).
    assert (HK : (0 < K)%Z) by (apply Z.pow_pos_nonneg; lia).
    assert (HD : (2 <= D)%Z).
    { unfold D. change 2%Z with (2 ^ 1)%Z at 1. apply Z.pow_le_mono_r; lia. }
    assert (H0 : (Zpos m * K <= 2 ^ 53 * K)%Z)
      by (apply Z.mul_le_mono_nonneg_r; lia).
    assert (H1 : (2 ^ 52 * K <= c * K)%Z)
      by (apply Z.mul_le_mono_nonneg_r; lia).
    assert (H2 : (c * K * 2 <= c * K * D)%Z)
      by (apply Z.mul_le_mono_nonneg_l; [nia | exact HD]).
    change (2 ^ 53)%Z with (2 * 2 ^ 52)%Z in H0. lia.
Qed.

(** The double that [binary_normalize] gives for a whole number [M] of
    grid steps: it is not above a double that the number is not above. *)
Lemma normalize_rank_le (M ez : Z) (x : SpecFloat.spec_float) :
  (-1074 <= ez)%Z ->
  SpecFloat.valid_binary FloatOps.prec FloatOps.emax x = true ->
  (exists s m e, x = SpecFloat.S754_finite s m e) ->
  (M * 2 ^ (ez + 1074) <= rank x)%Z ->
  let r := SpecFloat.binary_normalize FloatOps.prec FloatOps.emax M ez false in
  isNaN r = false /\ (rank r <= rank x)%Z.
Proof.
  intros Hez Hvalid (s & m & e & ->) HM. cbv zeta.
  cbn [SpecFloat.valid_binary] in Hvalid. cbn [rank] in *.
  pose proof (scaled_below m e Hvalid) as [Hx0 Hx1].
  assert (Hbig : (2 ^ 2098 < 2 ^ 2100)%Z) by (apply Z.pow_lt_mono_r; lia).
  assert (Hk : (0 < 2 ^ (ez + 1074))%Z) by (apply Z.pow_pos_nonneg; lia).
  destruct M as [|p|p]; cbn [SpecFloat.binary_normalize].
  - split; [reflexivity |]. cbn [rank]. destruct s; lia.
  - destruct s; [exfalso; nia |].
    destruct (binary_round_le false p m ez e Hez Hvalid) as (mr & er & -> & Hle).
    { unfold scaled at 1. lia. }
    split; [reflexivity | exact Hle].
  - destruct s.
    + destruct (binary_round_ge true p m ez e Hez Hvalid)
        as [-> | (mr & er & -> & Hge)].
      { unfold scaled at 2. lia. }
      * split; [reflexivity |]. cbn [rank]. lia.
      * split; [reflexivity |]. cbn [rank]. lia.
    + destruct (binary_round_bounds true p ez Hez)
        as (_ & mr & er & c & -> & Her & _ & _ & _).
      destruct (er <=? 971)%Z; (split; [reflexivity |]); cbn [rank].
      * pose proof (scaled_pos mr er ltac:(lia)). lia.
      * lia.
Qed.

Lemma normalize_rank_ge (M ez : Z) (x : SpecFloat.spec_float) :
  (-1074 <= ez)%Z ->
  SpecFloat.valid_binary FloatOps.prec FloatOps.emax x = true ->
  (exists s m e, x = SpecFloat.S754_finite s m e) ->
  (rank x <= M * 2 ^ (ez + 1074))%Z ->
  let r := SpecFloat.binary_normalize FloatOps.prec FloatOps.emax M ez false in
  isNaN r = false /\ (rank x <= rank r)%Z.
Proof.
  intros Hez Hvalid (s & m & e & ->) HM. cbv zeta.
  cbn [SpecFloat.valid_binary] in Hvalid. cbn [rank] in *.
  pose proof (scaled_below m e Hvalid) as [Hx0 Hx1].
  assert (Hbig : (2 ^ 2098 < 2 ^ 2100)%Z) by (apply Z.pow_lt_mono_r; lia).
  assert (Hk : (0 < 2 ^ (ez + 1074))%Z) by (apply Z.pow_pos_nonneg; lia).
  destruct M as [|p|p]; cbn [SpecFloat.binary_normalize].
  - split; [reflexivity |]. cbn [rank]. destruct s; lia.
  - destruct s.
    + destruct (binary_round_bounds false p ez Hez)
        as (_ & mr & er & c & -> & Her & _ & _ & _).
      destruct (er <=? 971)%Z; (split; [reflexivity |]); cbn [rank].
      * pose proof (scaled_pos mr er ltac:(lia)). lia.
      * lia.
    + destruct (binary_round_ge false p m ez e Hez Hvalid)
        as [-> | (mr & er & -> & Hge)].
      { unfold scaled at 2. lia. }
      * split; [reflexivity |]. cbn [rank]. lia.
      * split; [reflexivity |]. cbn [rank]. lia.
  - destruct s; [| exfalso; nia].
    destruct (binary_round_le true p m ez e Hez Hvalid) as (mr & er & -> & Hle).
    { unfold scaled at 1. lia. }
    split; [reflexivity |]. cbn [rank]. lia.
Qed.

Lemma cond_Zopp_scaled (s : bool) (m : positive) (e ez : Z) :
  (-1074 <= ez <= e)%Z ->
  (SpecFloat.cond_Zopp s (Zpos (fst (SpecFloat.shl_align m e ez))) * 2 ^ (ez + 1074))%Z
  = rank (SpecFloat.S754_finite s m e).
Proof.
  intros He. rewrite shl_align_value by lia. cbn [rank]. unfold scaled.
  replace (e + 1074)%Z with (e - ez + (ez + 1074))%Z by lia.
  rewrite (Z.pow_add_r 2 (e - ez) (ez + 1074)) by lia.
  destruct s; cbn [SpecFloat.cond_Zopp]; lia.
Qed.

(** Taking 2 from a double never gives a greater one, whether the
    subtraction rounds or not. *)
Lemma rank_sub_two (x : SpecFloat.spec_float) :
  SpecFloat.valid_binary FloatOps.prec FloatOps.emax x = true ->
  isNaN x = false ->
  let r := SpecFloat.SFsub FloatOps.prec FloatOps.emax x (wholeSF 2) in
  isNaN r = false /\ (rank r <= rank x)%Z.
Proof.
  intros Hvalid Hnan. cbv zeta. rewrite wholeSF_two.
  destruct x as [s | s | | s m e]; try discriminate.
  - cbn [SpecFloat.SFsub]. split; [reflexivity |]. cbn [rank negb].
    pose proof (scaled_pos 4503599627370496 (-51) ltac:(lia)). lia.
  - cbn [SpecFloat.SFsub]. split; [reflexivity | lia].
  - unfold SpecFloat.SFsub. cbv zeta.
    cbn [SpecFloat.valid_binary] in Hvalid.
    destruct (bounded_spec m e Hvalid) as (He & _).
    set (ez := Z.min e (-51)).
    apply normalize_rank_le; [lia | exact Hvalid | now exists s, m, e |].
    rewrite Z.mul_sub_distr_r, (cond_Zopp_scaled s m e ez) by lia.
    assert (H2 : (0 < SpecFloat.cond_Zopp false
                         (Zpos (fst (SpecFloat.shl_align 4503599627370496 (-51) ez)))
                       * 2 ^ (ez + 1074))%Z).
    { rewrite (cond_Zopp_scaled false _ (-51) ez) by lia. cbn [rank].
      apply scaled_pos. lia. }
    lia.
Qed.

(** Adding 2 to a double never gives a smaller one. *)
Lemma rank_add_two (x : SpecFloat.spec_float) :
  SpecFloat.valid_binary FloatOps.prec FloatOps.emax x = true ->
  isNaN x = false ->
  let r := SpecFloat.SFadd FloatOps.prec FloatOps.emax x (wholeSF 2) in
  isNaN r = false /\ (rank x <= rank r)%Z.
Proof.
  intros Hvalid Hnan. cbv zeta. rewrite wholeSF_two.
  destruct x as [s | s | | s m e]; try discriminate.
  - cbn [SpecFloat.SFadd]. split; [reflexivity |]. cbn [rank].
    pose proof (scaled_pos 4503599627370496 (-51) ltac:(lia)). lia.
  - cbn [SpecFloat.SFadd]. split; [reflexivity | lia].
  - unfold SpecFloat.SFadd. cbv zeta.
    cbn [SpecFloat.valid_binary] in Hvalid.
    destruct (bounded_spec m e Hvalid) as (He & _).
    set (ez := Z.min e (-51)).
    apply normalize_rank_ge; [lia | exact Hvalid | now exists s, m, e |].
    rewrite Z.mul_add_distr_r, (cond_Zopp_scaled s m e ez) by lia.
    assert (H2 : (0 < SpecFloat.cond_Zopp false
                         (Zpos (fst (SpecFloat.shl_align 4503599627370496 (-51) ez)))
                       * 2 ^ (ez + 1074))%Z).
    { rewrite (cond_Zopp_scaled false _ (-51) ez) by lia. cbn [rank].
      apply scaled_pos. lia. }
    lia.
Qed.

(** [<=] on doubles: neither side is NaN and the places are in order. *)
Lemma leb_rank (x y : float) :
  PrimFloat.leb x y = true <->
  isNaN (FloatOps.Prim2SF x) = false /\ isNaN (FloatOps.Prim2SF y) = false /\
  (rank (FloatOps.Prim2SF x) <= rank (FloatOps.Prim2SF y))%Z.
Proof.
  rewrite FloatAxioms.leb_spec. unfold SpecFloat.SFleb.
  pose proof (FloatAxioms.Prim2SF_valid x) as Vx.
  pose proof (FloatAxioms.Prim2SF_valid y) as Vy.
  destruct (isNaN (FloatOps.Prim2SF x)) eqn:Nx.
  { destruct (FloatOps.Prim2SF x); try discriminate. cbn [SpecFloat.SFcompare].
    split; [discriminate | intros (H & _); discriminate]. }
  destruct (isNaN (FloatOps.Prim2SF y)) eqn:Ny.
  { destruct (FloatOps.Prim2SF y); try discriminate.
    destruct (FloatOps.Prim2SF x); cbn [SpecFloat.SFcompare];
      (split; [discriminate | intros (_ & H & _); discriminate]). }
  rewrite (SFcompare_rank _ _ Vx Vy Nx Ny).
  destruct (Z.compare_spec (rank (FloatOps.Prim2SF x)) (rank (FloatOps.Prim2SF y)));
    (split; [intros H'; try discriminate; repeat split; lia
            | intros (_ & _ & H'); try reflexivity; lia]).
Qed.

Lemma leb_trans (x y z : float) :
  PrimFloat.leb x y = true -> PrimFloat.leb y z = true -> PrimFloat.leb x z = true.
Proof.
  rewrite !leb_rank. intros (Nx & Ny & H1) (_ & Nz & H2). repeat split; try assumption. lia.
Qed.

Lemma leb_sub_two (x : float) :
  isNaN (FloatOps.Prim2SF x) = false ->
  PrimFloat.leb (PrimFloat.sub x 2) x = true.
Proof.
  intros Nx. apply leb_rank. rewrite FloatAxioms.sub_spec.
  change (FloatOps.Prim2SF 2) with (wholeSF 2).
  destruct (rank_sub_two _ (FloatAxioms.Prim2SF_valid x) Nx) as [N H].
  repeat split; assumption.
Qed.

Lemma leb_add_two (x : float) :
  isNaN (FloatOps.Prim2SF x) = false ->
  PrimFloat.leb x (PrimFloat.add x 2) = true.
Proof.
  intros Nx. apply leb_rank. rewrite FloatAxioms.add_spec.
  change (FloatOps.Prim2SF 2) with (wholeSF 2).
  destruct (rank_add_two _ (FloatAxioms.Prim2SF_valid x) Nx) as [N H].
  repeat split; assumption.
Qed.

(** *** The loops over doubles: fuel, and steps that stall *)

Ltac safe_lia :=
  unfold safeRange, safeSize, MAX_SAFE_INTEGER in *;
  change (2 ^ 53)%Z with 9007199254740992%Z; lia.

Lemma float_of_Z_inj (a b : Z) :
  (Z.abs a < 2 ^ 53)%Z -> (Z.abs b < 2 ^ 53)%Z ->
  float_of_Z a = float_of_Z b -> a = b.
Proof.
  intros Ha Hb Heq. apply Z.eqb_eq.
  rewrite <- (eqb_whole a b Ha Hb), <- Heq, (eqb_whole a a Ha Ha).
  apply Z.eqb_refl.
Qed.

(** More fuel does not change what a loop returns. *)
Lemma Binary64_shrinkLoop_more_fuel (fits : float -> bool) (range : Binary64.FontRange) :
  forall fuel fuel' optimalSize fontSize r,
    Binary64.shrinkLoop fits range fuel optimalSize fontSize = Some r ->
    fuel <= fuel' ->
    Binary64.shrinkLoop fits range fuel' optimalSize fontSize = Some r.
Proof.
  induction fuel as [|fuel IH]; intros [|fuel'] opt x r H Hle;
    try lia; try exact H; cbn [Binary64.shrinkLoop] in *;
    destruct (PrimFloat.leb (Binary64.fr_min range) x); try exact H;
    destruct (fits x); try exact H; try discriminate.
  apply (IH fuel'); [exact H | lia].
Qed.

Lemma Binary64_growLoop_more_fuel (overflows : float -> bool)
    (range : Binary64.FontRange) :
  forall fuel fuel' optimalSize fontSize r,
    Binary64.growLoop overflows range fuel optimalSize fontSize = Some r ->
    fuel <= fuel' ->
    Binary64.growLoop overflows range fuel' optimalSize fontSize = Some r.
Proof.
  induction fuel as [|fuel IH]; intros [|fuel'] opt x r H Hle;
    try lia; try exact H; cbn [Binary64.growLoop] in *;
    destruct (PrimFloat.leb x (Binary64.fr_max range)); try exact H;
    destruct (overflows x); try exact H; try discriminate.
  apply (IH fuel'); [exact H | lia].
Qed.

(** A candidate that is in the range, fails the test of its loop and is
    left where it is by the step keeps the loop going for ever. *)
Lemma Binary64_shrinkLoop_stalled (fits : float -> bool) (range : Binary64.FontRange)
    (fontSize : float) :
  PrimFloat.leb (Binary64.fr_min range) fontSize = true ->
  fits fontSize = false ->
  PrimFloat.sub fontSize 2 = fontSize ->
  forall fuel optimalSize,
    Binary64.shrinkLoop fits range fuel optimalSize fontSize = None.
Proof.
  intros Hin Hfit Hstep.
  induction fuel as [|fuel IH]; intros opt; cbn [Binary64.shrinkLoop];
    rewrite Hin, Hfit; [reflexivity |].
  rewrite Hstep. apply IH.
Qed.

Lemma Binary64_growLoop_stalled (overflows : float -> bool)
    (range : Binary64.FontRange) (fontSize : float) :
  PrimFloat.leb fontSize (Binary64.fr_max range) = true ->
  overflows fontSize = false ->
  PrimFloat.add fontSize 2 = fontSize ->
  forall fuel optimalSize,
    Binary64.growLoop overflows range fuel optimalSize fontSize = None.
Proof.
  intros Hin Hov Hstep.
  induction fuel as [|fuel IH]; intros opt; cbn [Binary64.growLoop];
    rewrite Hin, Hov; [reflexivity |].
  rewrite Hstep. apply IH.
Qed.

Lemma Binary64_calculateOptimalFontSize_more_fuel (text : str)
    (containerWidth containerHeight : float) (range : Binary64.FontRange) :
  forall fuel fuel' size,
    Binary64.calculateOptimalFontSize fuel text containerWidth containerHeight range
    = Some size ->
    fuel <= fuel' ->
    Binary64.calculateOptimalFontSize fuel' text containerWidth containerHeight range
    = Some size.
Proof.
  intros fuel fuel' size H Hle.
  unfold Binary64.calculateOptimalFontSize, Binary64.fontSearch in *.
  destruct (Binary64.shrinkLoop _ range fuel _ _) as [opt |] eqn:Hshrink;
    [| discriminate].
  rewrite (Binary64_shrinkLoop_more_fuel _ _ _ _ _ _ _ Hshrink Hle).
  destruct (PrimFloat.eqb opt (Binary64.fr_default range)); [| exact H].
  now apply (Binary64_growLoop_more_fuel _ _ fuel).
Qed.

(** *** The search over doubles on any range *)

(** A candidate of the descent is never above the maximum, so what the
    descent leaves in [optimalSize] is in the range. *)
Lemma Binary64_shrinkLoop_bounds (fits : float -> bool) (range : Binary64.FontRange) :
  forall fuel optimalSize fontSize size,
    PrimFloat.leb fontSize (Binary64.fr_max range) = true ->
    PrimFloat.leb (Binary64.fr_min range) optimalSize = true ->
    PrimFloat.leb optimalSize (Binary64.fr_max range) = true ->
    Binary64.shrinkLoop fits range fuel optimalSize fontSize = Some size ->
    PrimFloat.leb (Binary64.fr_min range) size = true /\
    PrimFloat.leb size (Binary64.fr_max range) = true.
Proof.
  induction fuel as [|fuel IH]; intros opt x size Hmax Hlo Hhi H;
    cbn [Binary64.shrinkLoop] in H;
    destruct (PrimFloat.leb (Binary64.fr_min range) x) eqn:Hmin;
    try (injection H as <-; now split);
    destruct (fits x);
    try (injection H as <-; now split); try discriminate.
  apply (IH opt (PrimFloat.sub x 2) size); try assumption.
  apply (leb_trans _ x); [| exact Hmax].
  apply leb_sub_two. now apply leb_rank in Hmin.
Qed.

(** A candidate of the ascent is never below the minimum. *)
Lemma Binary64_growLoop_bounds (overflows : float -> bool)
    (range : Binary64.FontRange) :
  forall fuel optimalSize fontSize size,
    PrimFloat.leb (Binary64.fr_min range) fontSize = true ->
    PrimFloat.leb (Binary64.fr_min range) optimalSize = true ->
    PrimFloat.leb optimalSize (Binary64.fr_max range) = true ->
    Binary64.growLoop overflows range fuel optimalSize fontSize = Some size ->
    PrimFloat.leb (Binary64.fr_min range) size = true /\
    PrimFloat.leb size (Binary64.fr_max range) = true.
Proof.
  induction fuel as [|fuel IH]; intros opt x size Hmin Hlo Hhi H;
    cbn [Binary64.growLoop] in H;
    destruct (PrimFloat.leb x (Binary64.fr_max range)) eqn:Hmax;
    try (injection H as <-; now split);
    destruct (overflows x);
    try (injection H as <-; now split); try discriminate.
  apply (IH x (PrimFloat.add x 2) size); try assumption.
  apply (leb_trans _ x); [exact Hmin |].
  apply leb_add_two. now apply leb_rank in Hmax.
Qed.

(** Whatever the range, the text and the box are: a size that
    [calculateOptimalFontSize] returns is in [[min, max]]. *)
Lemma Binary64_calculateOptimalFontSize_bounds (text : str)
    (containerWidth containerHeight : float) (range : Binary64.FontRange) :
  PrimFloat.leb (Binary64.fr_min range) (Binary64.fr_default range) = true ->
  PrimFloat.leb (Binary64.fr_default range) (Binary64.fr_max range) = true ->
  forall fuel size,
    Binary64.calculateOptimalFontSize fuel text containerWidth containerHeight range
    = Some size ->
    PrimFloat.leb (Binary64.fr_min range) size = true /\
    PrimFloat.leb size (Binary64.fr_max range) = true.
Proof.
  intros Hlo Hhi fuel size H.
  unfold Binary64.calculateOptimalFontSize, Binary64.fontSearch in H.
  destruct (Binary64.shrinkLoop _ range fuel _ _) as [opt |] eqn:Hshrink;
    [| discriminate].
  destruct (Binary64_shrinkLoop_bounds _ _ _ _ _ _ Hhi Hlo Hhi Hshrink)
    as [Hopt_lo Hopt_hi].
  destruct (PrimFloat.eqb opt (Binary64.fr_default range)).
  - apply (Binary64_growLoop_bounds _ _ _ _ _ _ (leb_trans _ _ _ Hlo
             (leb_add_two _ (proj1 (proj1 (leb_rank _ _) Hhi)))) Hopt_lo Hopt_hi H).
  - injection H as <-. now split.
Qed.

(** *** The search over doubles on ranges of whole numbers *)

Section WholeRanges.
Variable text : str.
Variable containerWidth containerHeight : float.
Variable range : FontRange.
Hypothesis Hsafe : safeRange range.

(** On safe integers the descent over doubles is the descent over whole
    numbers. *)
Lemma shrinkLoop_whole : forall fuel optimalSize fontSize,
  (- MAX_SAFE_INTEGER <= fontSize <= MAX_SAFE_INTEGER)%Z ->
  Binary64.shrinkLoop (Binary64.fitsBox text containerWidth containerHeight)
    (toBinary64 range) fuel (float_of_Z optimalSize) (float_of_Z fontSize)
  = option_map float_of_Z
      (shrinkLoop (fitsBox text containerWidth containerHeight) range fuel
                  optimalSize fontSize).
Proof.
  induction fuel as [|fuel IH]; intros opt z Hz;
    cbn [Binary64.shrinkLoop shrinkLoop toBinary64 Binary64.fr_min];
    rewrite leb_whole by safe_lia;
    change (Binary64.fitsBox text containerWidth containerHeight (float_of_Z z))
      with (fitsBox text containerWidth containerHeight z);
    destruct (fr_min range <=? z)%Z eqn:Hmin; try reflexivity;
    destruct (fitsBox text containerWidth containerHeight z); try reflexivity.
  apply Z.leb_le in Hmin.
  rewrite sub_two_whole by safe_lia. apply IH. safe_lia.
Qed.

(** Likewise the ascent. *)
Lemma growLoop_whole : forall fuel optimalSize fontSize,
  (- MAX_SAFE_INTEGER <= fontSize <= MAX_SAFE_INTEGER)%Z ->
  Binary64.growLoop (Binary64.overflowsBox text containerWidth containerHeight)
    (toBinary64 range) fuel (float_of_Z optimalSize) (float_of_Z fontSize)
  = option_map float_of_Z
      (growLoop (overflowsBox text containerWidth containerHeight) range fuel
                optimalSize fontSize).
Proof.
  induction fuel as [|fuel IH]; intros opt z Hz;
    cbn [Binary64.growLoop growLoop toBinary64 Binary64.fr_max];
    rewrite leb_whole by safe_lia;
    change (Binary64.overflowsBox text containerWidth containerHeight (float_of_Z z))
      with (overflowsBox text containerWidth containerHeight z);
    destruct (z <=? fr_max range)%Z eqn:Hmax; try reflexivity;
    destruct (overflowsBox text containerWidth containerHeight z); try reflexivity.
  apply Z.leb_le in Hmax.
  rewrite add_two_whole by safe_lia. apply IH. safe_lia.
Qed.

(** With fuel for every candidate, the search over doubles returns the
    double of what the search over whole numbers returns. *)
Lemma fontSearch_whole : forall size fuel,
  fontSearch (fitsBox text containerWidth containerHeight)
             (overflowsBox text containerWidth containerHeight) range = Some size ->
  fuelFor range <= fuel ->
  Binary64.calculateOptimalFontSize fuel text containerWidth containerHeight
    (toBinary64 range) = Some (float_of_Z size).
Proof.
  intros size fuel Hsearch Hfuel.
  unfold fontSearch in Hsearch.
  unfold Binary64.calculateOptimalFontSize, Binary64.fontSearch.
  destruct (shrinkLoop_returns (fitsBox text containerWidth containerHeight) range
              (S (Z.to_nat (fr_default range - fr_min range)))
              (fr_default range) (fr_default range)) as (r1 & Hr1 & Hc1); [lia |].
  rewrite Hr1 in Hsearch.
  assert (Hb1 : (fr_min range <= r1 <= fr_default range \/ r1 = fr_default range)%Z).
  { destruct Hc1 as [-> | (Hlo & _ & j & Hj & ->)]; [now right | left; lia]. }
  cbn [toBinary64 Binary64.fr_default].
  rewrite (Binary64_shrinkLoop_more_fuel _ _
             (S (Z.to_nat (fr_default range - fr_min range))) fuel _ _
             (float_of_Z r1)).
  2:{ rewrite shrinkLoop_whole by safe_lia. now rewrite Hr1. }
  2:{ unfold fuelFor in Hfuel. lia. }
  rewrite eqb_whole by safe_lia.
  destruct (r1 =? fr_default range)%Z eqn:Heq; [| now injection Hsearch as ->].
  apply Z.eqb_eq in Heq. subst r1.
  rewrite add_two_whole by safe_lia.
  apply (Binary64_growLoop_more_fuel _ _
           (S (Z.to_nat (fr_max range - fr_default range))) fuel).
  - rewrite growLoop_whole by safe_lia. now rewrite Hsearch.
  - unfold fuelFor in Hfuel. lia.
Qed.
End WholeRanges.

(** The search over whole numbers is the search over doubles on every range
    of whole numbers whose sizes are safe integers. *)
Lemma calculateOptimalFontSize_whole (text : str)
    (containerWidth containerHeight : float) (range : FontRange) :
  safeRange range ->
  exists size,
    calculateOptimalFontSize text containerWidth containerHeight range = Some size /\
    forall fuel, fuelFor range <= fuel ->
      Binary64.calculateOptimalFontSize fuel text containerWidth containerHeight
        (toBinary64 range) = Some (float_of_Z size).
Proof.
  intros Hsafe. unfold calculateOptimalFontSize.
  destruct (fontSearch_returns (fitsBox text containerWidth containerHeight)
              (overflowsBox text containerWidth containerHeight) range)
    as (size & Hsize & _).
  exists size. split; [exact Hsize |].
  intros fuel Hfuel. now apply fontSearch_whole.
Qed.

(** C4, as the code has it. Take any range of doubles with
    [min <= default <= max], any text and any box. Whenever
    [calculateOptimalFontSize] returns, the size it returns is in
    [[min, max]], whether the steps of 2 round or not. And it does return
    when the range is one of whole numbers whose sizes are safe integers:
    the size is then a whole number of [[min, max]]. *)
Theorem calculateOptimalFontSize_returned_in_range :
  forall (text : str) (containerWidth containerHeight : float)
         (range : Binary64.FontRange),
    PrimFloat.leb (Binary64.fr_min range) (Binary64.fr_default range) = true ->
    PrimFloat.leb (Binary64.fr_default range) (Binary64.fr_max range) = true ->
    (forall fuel size,
       Binary64.calculateOptimalFontSize fuel text containerWidth containerHeight range
       = Some size ->
       PrimFloat.leb (Binary64.fr_min range) size = true /\
       PrimFloat.leb size (Binary64.fr_max range) = true) /\
    (forall whole : FontRange,
       range = toBinary64 whole -> safeRange whole ->
       exists fuel size,
         (forall fuel', fuel <= fuel' ->
            Binary64.calculateOptimalFontSize fuel' text containerWidth containerHeight
              range = Some (float_of_Z size)) /\
         (fr_min whole <= size <= fr_max whole)%Z).
Proof.
  intros text cw ch range Hlo Hhi. split.
  - now apply Binary64_calculateOptimalFontSize_bounds.
  - intros whole -> Hsafe.
    cbn [toBinary64 Binary64.fr_min Binary64.fr_max Binary64.fr_default] in Hlo, Hhi.
    rewrite leb_whole in Hlo, Hhi by safe_lia.
    apply Z.leb_le in Hlo, Hhi.
    destruct (fontSearch_returns (fitsBox text cw ch) (overflowsBox text cw ch) whole)
      as (size & Hsize & j & Hj & Hcase).
    exists (fuelFor whole), size. split.
    + intros fuel Hfuel. now apply fontSearch_whole.
    + destruct Hcase as [(-> & [-> | Hmin]) | (-> & [-> | Hmax])]; lia.
Qed.

Lemma calculateOptimalFontSize_returned_in_range_witness :
  exists fuel size,
    (forall fuel', fuel <= fuel' ->
       Binary64.calculateOptimalFontSize fuel' (js "short") 620 340
         (toBinary64 FONT_SIZE_RANGES_BODY) = Some (float_of_Z size)) /\
    (fr_min FONT_SIZE_RANGES_BODY <= size <= fr_max FONT_SIZE_RANGES_BODY)%Z /\
    PrimFloat.leb (Binary64.fr_min (toBinary64 FONT_SIZE_RANGES_BODY))
                  (float_of_Z size) = true /\
    PrimFloat.leb (float_of_Z size)
                  (Binary64.fr_max (toBinary64 FONT_SIZE_RANGES_BODY)) = true.
Proof.
  destruct (calculateOptimalFontSize_returned_in_range (js "short") 620 340
              (toBinary64 FONT_SIZE_RANGES_BODY))
    as [Hbounds Hreturns]; [vm_compute; reflexivity | vm_compute; reflexivity |].
  destruct (Hreturns FONT_SIZE_RANGES_BODY eq_refl) as (fuel & size & Hsize & Hin).
  { unfold safeRange, safeSize, MAX_SAFE_INTEGER. simpl. lia. }
  exists fuel, size. split; [exact Hsize |]. split; [exact Hin |].
  exact (Hbounds fuel (float_of_Z size) (Hsize fuel (le_n fuel))).
Defined.

(** C4, as stated, fails. The range of 2^54 + 4, 2^54 + 8 and 2^54 + 8 has
    [min <= default <= max]. The text does not fit at the default, and
    [fontSize -= 2] leaves the default where it is, so the first loop never
    ends: no amount of fuel gives a result. *)
Lemma calculateOptimalFontSize_descent_never_returns :
  PrimFloat.leb (Binary64.fr_min DESCENT_STALLS)
                (Binary64.fr_default DESCENT_STALLS) = true /\
  PrimFloat.leb (Binary64.fr_default DESCENT_STALLS)
                (Binary64.fr_max DESCENT_STALLS) = true /\
  forall fuel,
    Binary64.calculateOptimalFontSize fuel (js "short") 620 340 DESCENT_STALLS = None.
Proof.
  split; [vm_compute; reflexivity |]. split; [vm_compute; reflexivity |].
  intros fuel. unfold Binary64.calculateOptimalFontSize, Binary64.fontSearch.
  rewrite Binary64_shrinkLoop_stalled; [reflexivity | | |];
    vm_compute; reflexivity.
Qed.

(** C5, as the code has it. [fit("short", 620, 340, {min:12, max:24,
    default:18})] returns 24: the text fits at the default 18, so the second
    phase runs and accepts 20, 22 and 24 in turn. *)
Theorem calculateOptimalFontSize_short_is_24 :
  calculateOptimalFontSize (js "short") 620 340
    {| fr_min := 12; fr_max := 24; fr_default := 18 |} = Some 24%Z.
Proof. vm_compute. reflexivity. Qed.

(** C5, as stated, fails: the result of the scenario is not 18. *)
Lemma calculateOptimalFontSize_short_not_18 :
  calculateOptimalFontSize (js "short") 620 340
    {| fr_min := 12; fr_max := 24; fr_default := 18 |} <> Some 18%Z.
Proof. vm_compute. discriminate. Qed.

(** C10, as the code has it. For a range of whole numbers whose sizes are
    safe integers and with [min <= default <= max],
    [calculateOptimalFontSize] returns [default + 2j] or [default - 2j] for
    some [j >= 0]; hence an endpoint of the range whose parity differs from
    the default's is never returned, whatever the text and the box are. *)
Theorem calculateOptimalFontSize_safe_parity :
  forall (text : str) (containerWidth containerHeight : float) (range : FontRange),
    safeRange range ->
    (fr_min range <= fr_default range <= fr_max range)%Z ->
    exists fuel size,
      (forall fuel', fuel <= fuel' ->
         Binary64.calculateOptimalFontSize fuel' text containerWidth containerHeight
           (toBinary64 range) = Some (float_of_Z size)) /\
      (exists j, 0 <= j /\
         (size = fr_default range + 2 * j \/ size = fr_default range - 2 * j))%Z /\
      (size mod 2 = fr_default range mod 2)%Z /\
      ((fr_min range mod 2 <> fr_default range mod 2)%Z ->
       float_of_Z size <> Binary64.fr_min (toBinary64 range)) /\
      ((fr_max range mod 2 <> fr_default range mod 2)%Z ->
       float_of_Z size <> Binary64.fr_max (toBinary64 range)).
Proof.
  intros text cw ch range Hsafe Hrange.
  destruct (fontSearch_returns (fitsBox text cw ch) (overflowsBox text cw ch) range)
    as (r & Hr & j & Hj & Hcase).
  assert (Hin : (fr_min range <= r <= fr_max range)%Z)
    by (destruct Hcase as [(-> & [-> | Hlo]) | (-> & [-> | Hhi])]; lia).
  exists (fuelFor range), r.
  split; [intros fuel Hfuel; now apply fontSearch_whole |].
  assert (Hpar : (r mod 2 = fr_default range mod 2)%Z).
  { destruct Hcase as [(-> & _) | (-> & _)].
    - replace (fr_default range - 2 * j)%Z with (fr_default range + (- j) * 2)%Z by lia.
      apply Z.mod_add. lia.
    - replace (fr_default range + 2 * j)%Z with (fr_default range + j * 2)%Z by lia.
      apply Z.mod_add. lia. }
  split; [| split; [exact Hpar | split]].
  - exists j. split; [exact Hj |]. destruct Hcase as [(-> & _) | (-> & _)]; auto.
  - intros Hne Heq. cbn [toBinary64 Binary64.fr_min] in Heq.
    apply float_of_Z_inj in Heq; [| safe_lia | safe_lia]. subst r. congruence.
  - intros Hne Heq. cbn [toBinary64 Binary64.fr_max] in Heq.
    apply float_of_Z_inj in Heq; [| safe_lia | safe_lia]. subst r. congruence.
Qed.

Lemma calculateOptimalFontSize_safe_parity_witness :
  exists fuel size,
    (forall fuel', fuel <= fuel' ->
       Binary64.calculateOptimalFontSize fuel' (js "short") 620 340
         (toBinary64 {| fr_min := 11; fr_max := 23; fr_default := 18 |})
       = Some (float_of_Z size)) /\
    (exists j, 0 <= j /\ (size = 18 + 2 * j \/ size = 18 - 2 * j))%Z /\
    (size mod 2 = 18 mod 2)%Z /\
    ((11 mod 2 <> 18 mod 2)%Z ->
     float_of_Z size
     <> Binary64.fr_min (toBinary64 {| fr_min := 11; fr_max := 23; fr_default := 18 |})) /\
    ((23 mod 2 <> 18 mod 2)%Z ->
     float_of_Z size
     <> Binary64.fr_max (toBinary64 {| fr_min := 11; fr_max := 23; fr_default := 18 |})).
Proof.
  apply (calculateOptimalFontSize_safe_parity (js "short") 620 340
           {| fr_min := 11; fr_max := 23; fr_default := 18 |}).
  - unfold safeRange, safeSize, MAX_SAFE_INTEGER. simpl. lia.
  - simpl. lia.
Defined.

(** C10, as stated, fails. The range of 2^53 - 1, 2^53 + 2 and 2^53 - 1 has
    [min <= default <= max], and its maximum differs in parity from its
    default. In the vast box the text fits at every size of the range. The
    ascent starts at [default + 2], which is rounded to 2^53, and goes on
    to 2^53 + 2: the maximum is returned, 3 above the default, which is
    neither [default + 2j] nor [default - 2j]. *)
Lemma calculateOptimalFontSize_rounded_ascent_returns_max :
  (fr_min ROUNDED_ASCENT <= fr_default ROUNDED_ASCENT <= fr_max ROUNDED_ASCENT)%Z /\
  PrimFloat.leb (Binary64.fr_min (toBinary64 ROUNDED_ASCENT))
                (Binary64.fr_default (toBinary64 ROUNDED_ASCENT)) = true /\
  PrimFloat.leb (Binary64.fr_default (toBinary64 ROUNDED_ASCENT))
                (Binary64.fr_max (toBinary64 ROUNDED_ASCENT)) = true /\
  (forall fuel, 2 <= fuel ->
     Binary64.calculateOptimalFontSize fuel (js "short") VAST VAST
       (toBinary64 ROUNDED_ASCENT)
     = Some (Binary64.fr_max (toBinary64 ROUNDED_ASCENT))) /\
  FloatOps.Prim2SF (Binary64.fr_default (toBinary64 ROUNDED_ASCENT))
  = SpecFloat.S754_finite false 9007199254740991 0 /\
  FloatOps.Prim2SF (Binary64.fr_max (toBinary64 ROUNDED_ASCENT))
  = SpecFloat.S754_finite false 4503599627370497 1 /\
  (9007199254740991 * 2 ^ 0 = fr_default ROUNDED_ASCENT)%Z /\
  (4503599627370497 * 2 ^ 1 = fr_max ROUNDED_ASCENT)%Z /\
  (fr_max ROUNDED_ASCENT = fr_default ROUNDED_ASCENT + 3)%Z /\
  (fr_max ROUNDED_ASCENT mod 2 <> fr_default ROUNDED_ASCENT mod 2)%Z /\
  (forall j : Z,
     fr_max ROUNDED_ASCENT <> fr_default ROUNDED_ASCENT + 2 * j /\
     fr_max ROUNDED_ASCENT <> fr_default ROUNDED_ASCENT - 2 * j)%Z.
Proof.
  split; [unfold ROUNDED_ASCENT, MAX_SAFE_INTEGER; cbn; lia |].
  split; [vm_compute; reflexivity |]. split; [vm_compute; reflexivity |].
  split.
  { intros fuel Hfuel.
    apply (Binary64_calculateOptimalFontSize_more_fuel _ _ _ _ 2); [| exact Hfuel].
    vm_compute. reflexivity. }
  split; [vm_compute; reflexivity |]. split; [vm_compute; reflexivity |].
  split; [reflexivity |]. split; [reflexivity |].
  unfold ROUNDED_ASCENT, MAX_SAFE_INTEGER. cbn [fr_max fr_default].
  split; [lia |]. split; [vm_compute; discriminate |].
  intros j. lia.
Qed.

(** The ascent can stall as the descent can. The range of 2^54, 2^54 and
    2^54 + 8 has [min <= default <= max]. In the vast box the text fits at
    the default, the ascent starts at [default + 2], which is the default
    again, and [fontSize += 2] leaves it there, so the second loop never
    ends: nothing is returned. *)
Lemma calculateOptimalFontSize_ascent_never_returns :
  PrimFloat.leb (Binary64.fr_min ASCENT_STALLS)
                (Binary64.fr_default ASCENT_STALLS) = true /\
  PrimFloat.leb (Binary64.fr_default ASCENT_STALLS)
                (Binary64.fr_max ASCENT_STALLS) = true /\
  forall fuel,
    Binary64.calculateOptimalFontSize fuel (js "short") VAST VAST ASCENT_STALLS = None.
Proof.
  split; [vm_compute; reflexivity |]. split; [vm_compute; reflexivity |].
  intros fuel. unfold Binary64.calculateOptimalFontSize, Binary64.fontSearch.
  assert (Hfound : Binary64.shrinkLoop (Binary64.fitsBox (js "short") VAST VAST)
                     ASCENT_STALLS fuel (Binary64.fr_default ASCENT_STALLS)
                     (Binary64.fr_default ASCENT_STALLS)
                   = Some (Binary64.fr_default ASCENT_STALLS)).
  { assert (Hin : PrimFloat.leb (Binary64.fr_min ASCENT_STALLS)
                    (Binary64.fr_default ASCENT_STALLS) = true)
      by (vm_compute; reflexivity).
    assert (Hfit : Binary64.fitsBox (js "short") VAST VAST
                     (Binary64.fr_default ASCENT_STALLS) = true)
      by (vm_compute; reflexivity).
    destruct fuel; cbn [Binary64.shrinkLoop]; now rewrite Hin, Hfit. }
  rewrite Hfound.
  replace (PrimFloat.eqb (Binary64.fr_default ASCENT_STALLS)
                         (Binary64.fr_default ASCENT_STALLS)) with true
    by (vm_compute; reflexivity).
  replace (PrimFloat.add (Binary64.fr_default ASCENT_STALLS) 2)
    with (Binary64.fr_default ASCENT_STALLS) by (vm_compute; reflexivity).
  apply Binary64_growLoop_stalled; vm_compute; reflexivity.
Qed.


(** ** The text partitioner *)

Lemma substring_0_length : forall (s : str) (k : nat),
  length (substring s 0 k) = Nat.min k (length s).
Proof.
  intros s k. unfold substring.
  rewrite !Nat.min_0_l, Nat.max_0_l, Nat.sub_0_r. cbn [skipn].
  rewrite length_firstn. lia.
Qed.

Lemma truthy_false_nil : forall s : str, truthy s = false -> s = [].
Proof. intros [|c s]; [reflexivity | discriminate]. Qed.

Lemma truthy_length : forall s : str, truthy s = (0 <? length s).
Proof. intros [|c s]; reflexivity. Qed.

Lemma split2_from_cons2 : forall (a b c d : char) (cur s : str),
  split2_from a b cur (c :: d :: s) =
  if (N.eqb c a && N.eqb d b)%bool
  then cur :: split2_from a b [] s
  else split2_from a b (cur ++ [c]) (d :: s).
Proof. reflexivity. Qed.

Lemma split2_from_sumLen : forall (a b : char) (k : nat) (s cur : str),
  length s <= k ->
  sumLen (split2_from a b cur s) = length cur + length s + 2.
Proof.
  intros a b. induction k as [|k IH]; intros s cur Hk.
  - destruct s; [simpl; lia | simpl in Hk; lia].
  - destruct s as [|c [|d s'']]; [| |rewrite split2_from_cons2].
    + simpl. lia.
    + simpl. rewrite length_app. simpl. lia.
    + destruct (N.eqb c a && N.eqb d b)%bool.
      * cbn [sumLen]. rewrite IH by (simpl in *; lia). simpl. lia.
      * rewrite IH by (simpl in *; lia). rewrite length_app. simpl. lia.
Qed.

Lemma split2_sumLen : forall (a b : char) (s : str),
  sumLen (split2 a b s) = length s + 2.
Proof.
  intros a b s. unfold split2.
  rewrite (split2_from_sumLen a b (length s)) by lia. reflexivity.
Qed.

Lemma sumLen_In : forall (l : list str) (p : str),
  In p l -> length p + 2 <= sumLen l.
Proof.
  induction l as [|x l IH]; intros p Hin; [contradiction|].
  destruct Hin as [-> | Hin]; simpl.
  - lia.
  - specialize (IH p Hin). lia.
Qed.

Lemma split2_piece_length : forall (a b : char) (s p : str),
  In p (split2 a b s) -> length p <= length s.
Proof.
  intros a b s p Hin. apply sumLen_In in Hin.
  rewrite split2_sumLen in Hin. lia.
Qed.

Section PartitionFacts.
Variable n : nat.

(** With a budget of at most 3 the [while] loop makes no progress:
    [substring(max - 3)] returns the sentence unchanged. *)
Lemma hardChunkLoop_stuck : forall fuel slides sentence,
  n <= 3 -> n < length sentence ->
  hardChunkLoop n fuel slides sentence = None.
Proof.
  induction fuel as [|fuel IH]; intros slides sentence Hn Hlen; cbn [hardChunkLoop];
    (destruct (n <? length sentence) eqn:Hlt; [|apply Nat.ltb_ge in Hlt; lia]).
  - reflexivity.
  - replace (n - 3) with 0 by lia. unfold substringFrom at 1. cbn [skipn].
    apply IH; assumption.
Qed.

(** When the [while] loop returns, it has appended hard-chunked pieces only,
    each exactly [n] long, and the rest fits the budget. *)
Lemma hardChunkLoop_inv : forall fuel slides sentence slides' rest,
  hardChunkLoop n fuel slides sentence = Some (slides', rest) ->
  exists pieces,
    slides' = slides ++ pieces /\ Forall (isHardChunk n) pieces /\
    length rest <= n /\ length rest <= length sentence /\
    (n < length sentence -> pieces <> []).
Proof.
  induction fuel as [|fuel IH]; intros slides sentence slides' rest; cbn [hardChunkLoop];
    destruct (n <? length sentence) eqn:Hlt; try discriminate.
  - intros H; injection H as <- <-. apply Nat.ltb_ge in Hlt.
    exists []. rewrite app_nil_r. repeat split; auto; lia.
  - intros H. apply Nat.ltb_lt in Hlt.
    destruct (le_lt_dec n 3) as [Hsmall | Hbig].
    { rewrite hardChunkLoop_stuck in H; [discriminate | assumption |].
      replace (n - 3) with 0 by lia. exact Hlt. }
    apply IH in H. destruct H as (pieces & -> & Hall & Hrest & Hle & _).
    eexists (_ :: pieces). rewrite <- app_assoc. split; [reflexivity|].
    split; [|split; [exact Hrest|split]].
    + constructor; [|exact Hall]. split; [reflexivity|]. cbn [snd].
      rewrite length_app, substring_0_length. unfold ELLIPSIS. simpl length. lia.
    + unfold substringFrom in Hle. rewrite length_skipn in Hle. lia.
    + discriminate.
  - intros H; injection H as <- <-. apply Nat.ltb_ge in Hlt.
    exists []. rewrite app_nil_r. repeat split; auto; lia.
Qed.

(** With a budget above 3 every round of the [while] loop shortens the
    sentence, so fuel equal to its length is enough. *)
Lemma hardChunkLoop_total : forall fuel slides sentence,
  3 < n -> length sentence <= fuel ->
  exists st, hardChunkLoop n fuel slides sentence = Some st.
Proof.
  induction fuel as [|fuel IH]; intros slides sentence Hn Hfuel; cbn [hardChunkLoop];
    destruct (n <? length sentence) eqn:Hlt; try (eexists; reflexivity).
  - apply Nat.ltb_lt in Hlt. lia.
  - apply Nat.ltb_lt in Hlt. apply IH; [assumption|].
    unfold substringFrom. rewrite length_skipn. lia.
Qed.

Lemma isHardChunk_chunkInv : forall L pieces,
  n < L -> Forall (isHardChunk n) pieces -> Forall (chunkInv n L) pieces.
Proof.
  intros L pieces HL Hall. eapply Forall_impl; [|exact Hall].
  intros [o c] [Ho Hc]; cbn [fst snd] in *. subst o.
  split; cbn [fst snd]; lia.
Qed.

(** The part of the sentence body after the flush. *)
Lemma sentenceRest_inv : forall L slides1 currentSlide1 sentence slides' currentSlide',
  (if n <? length sentence then
     match hardChunkLoop n (length sentence) slides1 sentence with
     | None => None
     | Some (slides, sentence) =>
         Some (slides, if 0 <? length sentence then sentence else currentSlide1)
     end
   else Some (slides1, sentence)) = Some (slides', currentSlide') ->
  n < L ->
  Forall (chunkInv n L) slides1 ->
  currentSlide1 = [] ->
  Forall (chunkInv n L) slides' /\ length currentSlide' <= n /\
  length currentSlide' <= length sentence.
Proof.
  intros L slides1 cur1 s slides' cur' Hstep HL Hall1 ->.
  destruct (n <? length s) eqn:Hlong.
  - destruct (hardChunkLoop n (length s) slides1 s) as [[slides2 rest]|] eqn:Hhard;
      [|discriminate].
    injection Hstep as <- <-.
    apply hardChunkLoop_inv in Hhard.
    destruct Hhard as (pieces & -> & Hpieces & Hrest & Hle & _).
    split; [apply Forall_app; split; [exact Hall1 | now apply isHardChunk_chunkInv]|].
    destruct (0 <? length rest); simpl length; lia.
  - apply Nat.ltb_ge in Hlong. injection Hstep as <- <-.
    split; [exact Hall1|]. lia.
Qed.

(** One sentence. [used] counts the sentences of the paragraph read so far,
    with their separators: a non-empty [currentSlide] is made of them. *)
Lemma sentenceStep_inv : forall L used slides currentSlide sentence slides' currentSlide',
  sentenceStep n (slides, currentSlide) sentence = Some (slides', currentSlide') ->
  n < L ->
  Forall (chunkInv n L) slides ->
  length currentSlide <= n ->
  (truthy currentSlide = true -> length currentSlide + 2 <= used) ->
  used + length sentence + 2 <= L + 2 ->
  Forall (chunkInv n L) slides' /\ length currentSlide' <= n /\
  (truthy currentSlide' = true ->
   length currentSlide' + 2 <= used + length sentence + 2).
Proof.
  intros L used slides cur s slides' cur' Hstep HL Hall Hcur Hused Hroom.
  unfold sentenceStep in Hstep.
  destruct (length cur + length s + 2 <=? n) eqn:Hfit.
  - apply Nat.leb_le in Hfit. injection Hstep as <- <-.
    split; [exact Hall|].
    rewrite !length_app. destruct (truthy cur) eqn:Ht.
    + specialize (Hused eq_refl). simpl length. split; [lia|]. intros _. lia.
    + apply truthy_false_nil in Ht. subst cur. simpl length. split; [lia|]. intros _. lia.
  - apply Nat.leb_gt in Hfit.
    destruct (truthy cur) eqn:Ht; cbv beta iota in Hstep.
    + apply sentenceRest_inv with (L := L) in Hstep; trivial.
      * destruct Hstep as (H1 & H2 & H3). split; [exact H1|]. split; [exact H2|].
        intros _. lia.
      * apply Forall_app; split; [exact Hall|].
        constructor; [|constructor]. specialize (Hused eq_refl).
        split; cbn [fst snd]; rewrite length_app;
          destruct (endsWith cur DOT); simpl length; lia.
    + apply sentenceRest_inv with (L := L) in Hstep; trivial.
      * destruct Hstep as (H1 & H2 & H3). split; [exact H1|]. split; [exact H2|].
        intros _. lia.
      * now apply truthy_false_nil.
Qed.

Lemma sentenceFold_inv : forall L sentences used slides currentSlide slides' currentSlide',
  foldM (sentenceStep n) sentences (slides, currentSlide) = Some (slides', currentSlide') ->
  n < L ->
  Forall (chunkInv n L) slides ->
  length currentSlide <= n ->
  (truthy currentSlide = true -> length currentSlide + 2 <= used) ->
  used + sumLen sentences <= L + 2 ->
  Forall (chunkInv n L) slides' /\ length currentSlide' <= n.
Proof.
  intros L. induction sentences as [|s rest IH];
    intros used slides cur slides' cur' Hfold HL Hall Hcur Hused Hroom.
  - injection Hfold as <- <-. split; assumption.
  - cbn [foldM] in Hfold. cbn [sumLen] in Hroom.
    destruct (sentenceStep n (slides, cur) s) as [[slides1 cur1]|] eqn:Hstep;
      [|discriminate].
    eapply sentenceStep_inv with (used := used) in Hstep; try eassumption; [|lia].
    destruct Hstep as (Hall1 & Hcur1 & Hused1).
    eapply (IH (used + length s + 2)); try eassumption. lia.
Qed.

Lemma paragraphStep_inv : forall L slides currentSlide paragraph slides' currentSlide',
  paragraphStep n (slides, currentSlide) paragraph = Some (slides', currentSlide') ->
  n < L ->
  Forall (chunkInv n L) slides ->
  length currentSlide <= n ->
  length paragraph <= L ->
  Forall (chunkInv n L) slides' /\ length currentSlide' <= n.
Proof.
  intros L slides cur p slides' cur' Hstep HL Hall Hcur Hp.
  unfold paragraphStep in Hstep.
  destruct (length cur + length p + 2 <=? n) eqn:Hfit.
  - apply Nat.leb_le in Hfit. injection Hstep as <- <-.
    split; [exact Hall|]. rewrite !length_app.
    destruct (truthy cur); simpl length; lia.
  - destruct (truthy cur) eqn:Ht; cbv beta iota in Hstep;
      (destruct (n <? length p) eqn:Hlong;
       [|apply Nat.ltb_ge in Hlong; injection Hstep as <- <-]).
    + eapply sentenceFold_inv with (used := 0) in Hstep; try eassumption.
      * apply Forall_app; split; [exact Hall|].
        constructor; [|constructor]. split; cbn [fst snd]; lia.
      * simpl; lia.
      * discriminate.
      * rewrite split2_sumLen. lia.
    + split; [|exact Hlong]. apply Forall_app; split; [exact Hall|].
      constructor; [|constructor]. split; cbn [fst snd]; lia.
    + eapply sentenceFold_inv with (used := 0) in Hstep; try eassumption.
      * intros H; rewrite H in Ht; discriminate.
      * rewrite split2_sumLen. lia.
    + split; assumption.
Qed.

Lemma paragraphFold_inv : forall L paragraphs slides currentSlide slides' currentSlide',
  foldM (paragraphStep n) paragraphs (slides, currentSlide) = Some (slides', currentSlide') ->
  n < L ->
  Forall (chunkInv n L) slides ->
  length currentSlide <= n ->
  Forall (fun p => length p <= L) paragraphs ->
  Forall (chunkInv n L) slides' /\ length currentSlide' <= n.
Proof.
  intros L. induction paragraphs as [|p rest IH];
    intros slides cur slides' cur' Hfold HL Hall Hcur Hps.
  - injection Hfold as <- <-. split; assumption.
  - cbn [foldM] in Hfold. inversion Hps as [|? ? Hp Hrest]; subst.
    destruct (paragraphStep n (slides, cur) p) as [[slides1 cur1]|] eqn:Hstep;
      [|discriminate].
    eapply paragraphStep_inv in Hstep; try eassumption.
    destruct Hstep as (Hall1 & Hcur1).
    eapply IH; eassumption.
Qed.

(** Every chunk the loops leave in [slides] for an over-budget text. *)
Lemma splitLoops_inv : forall text slides,
  n < length text ->
  splitLoops n text = Some slides ->
  Forall (chunkInv n (length text)) slides.
Proof.
  intros text slides HL Hloops. unfold splitLoops in Hloops.
  destruct (foldM (paragraphStep n) (split2 LF LF text) ([], []))
    as [[slides1 cur1]|] eqn:Hfold; [|discriminate].
  eapply paragraphFold_inv in Hfold; try eassumption.
  - destruct Hfold as (Hall & Hcur). injection Hloops as <-.
    destruct (truthy cur1); [|exact Hall].
    apply Forall_app; split; [exact Hall|].
    constructor; [|constructor]. split; cbn [fst snd]; lia.
  - constructor.
  - simpl; lia.
  - apply Forall_forall. intros p Hin. eapply split2_piece_length; eassumption.
Qed.

(** With a budget above 3 the loops return. *)
Lemma sentenceStep_total : forall st sentence,
  3 < n -> exists st', sentenceStep n st sentence = Some st'.
Proof.
  intros [slides cur] s Hn. unfold sentenceStep.
  destruct (length cur + length s + 2 <=? n); [eexists; reflexivity|].
  destruct (truthy cur); (destruct (n <? length s); [|eexists; reflexivity]).
  - destruct (hardChunkLoop_total (length s)
                (slides ++ [(SentenceFlush, cur ++ (if endsWith cur DOT then [] else [DOT]))])
                s Hn (le_n _)) as ([slides2 rest] & ->).
    eexists; reflexivity.
  - destruct (hardChunkLoop_total (length s) slides s Hn (le_n _)) as ([slides2 rest] & ->).
    eexists; reflexivity.
Qed.

Lemma foldM_total : forall (A S : Type) (step : S -> A -> option S),
  (forall st x, exists st', step st x = Some st') ->
  forall l st, exists st', foldM step l st = Some st'.
Proof.
  intros A S step Hstep. induction l as [|x l IH]; intros st; cbn [foldM].
  - eexists; reflexivity.
  - destruct (Hstep st x) as (st1 & ->). apply IH.
Qed.

Lemma paragraphStep_total : forall st paragraph,
  3 < n -> exists st', paragraphStep n st paragraph = Some st'.
Proof.
  intros [slides cur] p Hn. unfold paragraphStep.
  destruct (length cur + length p + 2 <=? n); [eexists; reflexivity|].
  destruct (truthy cur); (destruct (n <? length p); [|eexists; reflexivity]);
    apply foldM_total; intros; now apply sentenceStep_total.
Qed.

Lemma splitLoops_total : forall text,
  3 < n -> exists slides, splitLoops n text = Some slides.
Proof.
  intros text Hn. unfold splitLoops.
  destruct (foldM_total _ _ (paragraphStep n)
              (fun st x => paragraphStep_total st x Hn)
              (split2 LF LF text) ([], [])) as ([slides cur] & ->).
  eexists; reflexivity.
Qed.

End PartitionFacts.

Lemma chunkInv_chunkBound : forall n L c, chunkInv n L c -> chunkBound n c.
Proof.
  intros n L [o c] [_ H]. unfold chunkBound. cbn [fst snd] in *.
  destruct o; trivial.
Qed.

Lemma splitTextForSlides_total : forall n text,
  3 < n -> exists chunks, splitTextForSlides n text = Some chunks.
Proof.
  intros n text Hn. unfold splitTextForSlides.
  destruct (length text <=? n); [eexists; reflexivity|].
  destruct (splitLoops_total n text Hn) as (slides & ->).
  eexists; reflexivity.
Qed.

(** With a budget of at most 3 a sentence over the budget is never split:
    the source loops forever. *)
Example splitTextForSlides_diverges :
  splitTextForSlides 3 (js "abcd") = None.
Proof. reflexivity. Qed.

(** C2, as stated, fails. Six line feeds are three paragraph separators
    around four empty paragraphs: no chunk is produced, and the fallback
    returns the text, which is over the budget of 4. *)
Lemma splitTextForSlides_fallback_over_budget :
  0 < 4 /\ ~ singleChunkIffFits 4 [LF; LF; LF; LF; LF; LF].
Proof.
  split; [lia|]. unfold singleChunkIffFits. intros [Hfwd _].
  assert (H : length [LF; LF; LF; LF; LF; LF] <= 4) by (apply Hfwd; reflexivity).
  simpl in H. lia.
Qed.

(** C2, as the code has it. [splitTextForSlides] returns [[text]] exactly
    when the text fits the budget, or the text is over the budget and the
    loops end with no chunk at all (the fallback). *)
Theorem splitTextForSlides_single_chunk : forall (n : nat) (text : str),
  splitTextForSlides n text = Some [text] <->
  (length text <= n \/ (n < length text /\ splitLoops n text = Some [])).
Proof.
  intros n text. unfold splitTextForSlides.
  destruct (length text <=? n) eqn:Hfit.
  - apply Nat.leb_le in Hfit. split; [now left | reflexivity].
  - apply Nat.leb_gt in Hfit. split.
    + intros H. right. split; [exact Hfit|].
      destruct (splitLoops n text) as [slides|] eqn:Hloops; [|discriminate].
      destruct slides as [|[o c] slides]; [reflexivity|].
      exfalso. cbn in H. injection H as Hc Hrest.
      apply splitLoops_inv in Hloops; [|exact Hfit].
      inversion Hloops as [|? ? [Hlt _] _]; subst. cbn [snd] in Hlt. lia.
    + intros [Hle | [_ ->]]; [lia | reflexivity].
Qed.

(** C3, as stated, fails: the fallback returns an over-budget text as the
    only chunk, and no hard chunking has taken place. *)
Lemma splitTextForSlides_fallback_chunk_unbounded :
  ~ claimedChunkBounds 4 [LF; LF; LF; LF; LF; LF].
Proof.
  intros H.
  destruct (H [[LF; LF; LF; LF; LF; LF]] eq_refl 0 [LF; LF; LF; LF; LF; LF] eq_refl)
    as [Hlen _].
  assert (Hle : length [LF; LF; LF; LF; LF; LF] <= 4) by (apply Hlen; right; reflexivity).
  simpl in Hle. lia.
Qed.

(** The chunk closed at a sentence boundary gets a full stop appended and
    can be one character over the budget. *)
Example splitTextForSlides_sentence_flush_over_budget :
  splitTextForSlides 4 (js "abcd. efgh") = Some [js "abcd."; js "efgh"].
Proof. reflexivity. Qed.

(** The scenario of the specification: [partition("A" * 2000, 800)] is two
    hard-chunked pieces of 800 characters and the rest. *)
Example splitTextForSlides_scenario :
  splitTextForSlides 800 (repeat 65%N 2000)
  = Some [repeat 65%N 797 ++ ELLIPSIS; repeat 65%N 797 ++ ELLIPSIS;
          repeat 65%N 406].
Proof. vm_compute. reflexivity. Qed.

(** A chunk can end in ["..."] without being a hard-chunked piece. *)
Example splitTextForSlides_natural_ellipsis :
  splitTextForSlides 6 (js "ab..." ++ [LF; LF] ++ js "cdefgh")
  = Some [js "ab..."; js "cdefgh"].
Proof. reflexivity. Qed.

(** C3, as the code has it. With a budget above 3 [splitTextForSlides]
    returns. Whenever it returns, the result is [[text]] for a text within
    the budget; [[text]] again, now over the budget, when the loops produce
    no chunk; and otherwise the chunks of the loops, of which those closed at
    a paragraph boundary or by the final flush are within the budget and
    the hard-chunked pieces are exactly as long as the budget. *)
Theorem splitTextForSlides_chunk_bounds : forall (n : nat) (text : str),
  (3 < n -> exists chunks, splitTextForSlides n text = Some chunks) /\
  (forall chunks, splitTextForSlides n text = Some chunks ->
     (length text <= n /\ chunks = [text]) \/
     (n < length text /\ splitLoops n text = Some [] /\ chunks = [text]) \/
     (n < length text /\
      exists tagged, tagged <> [] /\ splitLoops n text = Some tagged /\
        chunks = map snd tagged /\ Forall (chunkBound n) tagged)).
Proof.
  intros n text. split; [apply splitTextForSlides_total|].
  intros chunks Hret. unfold splitTextForSlides in Hret.
  destruct (length text <=? n) eqn:Hfit.
  - apply Nat.leb_le in Hfit. injection Hret as <-. now left.
  - apply Nat.leb_gt in Hfit. right.
    destruct (splitLoops n text) as [slides|] eqn:Hloops; [|discriminate].
    injection Hret as <-.
    destruct slides as [|c slides]; [left; auto|].
    right. split; [exact Hfit|]. exists (c :: slides).
    split; [discriminate|]. split; [reflexivity|]. split; [reflexivity|].
    apply splitLoops_inv in Hloops; [|exact Hfit].
    eapply Forall_impl; [|exact Hloops]. intros a. apply chunkInv_chunkBound.
Qed.

Lemma splitTextForSlides_chunk_bounds_witness :
  (exists chunks, splitTextForSlides 6 (js "abcdefghijklmnop. xy") = Some chunks) /\
  exists tagged,
    tagged <> [] /\ splitLoops 6 (js "abcdefghijklmnop. xy") = Some tagged /\
    [js "abc..."; js "def..."; js "ghi..."; js "jkl..."; js "mnop."; js "xy"]
      = map snd tagged /\
    Forall (chunkBound 6) tagged.
Proof.
  split.
  - apply (proj1 (splitTextForSlides_chunk_bounds 6 (js "abcdefghijklmnop. xy"))). lia.
  - destruct (proj2 (splitTextForSlides_chunk_bounds 6 (js "abcdefghijklmnop. xy"))
                _ eq_refl) as [[Hle _] | [(_ & Hnil & _) | (_ & H)]].
    + simpl in Hle. lia.
    + discriminate Hnil.
    + exact H.
Defined.

(** ** The table structurer *)

Lemma padCells_length : forall n cells, length (padCells n cells) = n.
Proof.
  intros n cells. unfold padCells.
  rewrite length_firstn, length_app, repeat_length. lia.
Qed.

Lemma padCells_short : forall n cells,
  length cells <= n -> padCells n cells = cells ++ repeat [] (n - length cells).
Proof.
  intros n cells Hle. unfold padCells. apply firstn_all2.
  rewrite length_app, repeat_length. lia.
Qed.

Lemma padCells_long : forall n cells,
  n <= length cells -> padCells n cells = firstn n cells.
Proof.
  intros n cells Hle. unfold padCells.
  replace (n - length cells) with 0 by lia. cbn [repeat].
  now rewrite app_nil_r.
Qed.

Lemma rowLoop_filter_map : forall columns lines,
  rowLoop columns lines =
  map (fun line => padCells columns (cellsOf (trim line))) (filter isDataRow lines).
Proof.
  intros columns. induction lines as [|line rest IH]; [reflexivity|].
  cbn [rowLoop filter]. unfold isDataRow at 1.
  destruct (includes (trim line) PIPE); cbn [negb andb]; [|exact IH].
  destruct (0 <? length (cellsOf (trim line))); cbn [map]; [f_equal|]; exact IH.
Qed.

(** What [parseMarkdownTable] returns when it does not return [null]. *)
Lemma parseMarkdownTable_Some : forall markdown table,
  parseMarkdownTable markdown = Some table ->
  headers table = cellsOf (trim (nth 0 (nonBlankLines markdown) [])) /\
  rows table = rowLoop (length (headers table)) (skipn 2 (nonBlankLines markdown)).
Proof.
  intros markdown table. unfold parseMarkdownTable.
  destruct (length (nonBlankLines markdown) <? 2); [discriminate|].
  destruct (negb (includes (trim (nth 0 (nonBlankLines markdown) [])) PIPE)
            || negb (includes (trim (nth 1 (nonBlankLines markdown) [])) PIPE))%bool;
    [discriminate|].
  destruct (negb (separatorRegex (trim (nth 1 (nonBlankLines markdown) []))));
    [discriminate|].
  intros [= <-]. split; reflexivity.
Qed.

(** C6. In every table that [parseMarkdownTable] returns, each row has
    exactly as many cells as there are headers: it is the cells of a data
    line, followed by empty strings when they are fewer than the headers
    and cut to the header count when they are more. *)
Theorem parseMarkdownTable_row_width : forall (markdown : str) (table : ParsedTable),
  parseMarkdownTable markdown = Some table ->
  Forall (fun row =>
            length row = length (headers table) /\
            exists line,
              In line (skipn 2 (nonBlankLines markdown)) /\
              let cells := cellsOf (trim line) in
              (length cells <= length (headers table) ->
               row = cells ++ repeat [] (length (headers table) - length cells)) /\
              (length (headers table) <= length cells ->
               row = firstn (length (headers table)) cells))
         (rows table).
Proof.
  intros markdown table Hparse.
  apply parseMarkdownTable_Some in Hparse. destruct Hparse as [_ ->].
  rewrite rowLoop_filter_map. apply Forall_forall. intros row Hin.
  apply in_map_iff in Hin. destruct Hin as (line & <- & Hline).
  apply filter_In in Hline. destruct Hline as [Hline _].
  split; [apply padCells_length|].
  exists line. split; [exact Hline|]. cbv zeta. split.
  - apply padCells_short.
  - apply padCells_long.
Qed.

Example parseMarkdownTable_scenario :
  parseMarkdownTable TABLE_SCENARIO
  = Some {| headers := [js "A"; js "B"]; rows := [[js "1"; js "2"]] |}.
Proof. reflexivity. Qed.

Example parseMarkdownTable_one_line :
  parseMarkdownTable (js "just one line") = None.
Proof. reflexivity. Qed.

Lemma parseMarkdownTable_row_width_witness :
  Forall (fun row =>
            length row = 2 /\
            exists line,
              In line (skipn 2 (nonBlankLines TABLE_SCENARIO)) /\
              let cells := cellsOf (trim line) in
              (length cells <= 2 -> row = cells ++ repeat [] (2 - length cells)) /\
              (2 <= length cells -> row = firstn 2 cells))
         [[js "1"; js "2"]].
Proof.
  exact (parseMarkdownTable_row_width TABLE_SCENARIO
           {| headers := [js "A"; js "B"]; rows := [[js "1"; js "2"]] |} eq_refl).
Defined.

(** The separator pattern accepts exactly the non-empty strings made of
    whitespace, hyphens, colons and pipes. *)
Lemma separatorBody_spec : forall s,
  separatorBody s = true <-> s <> [] /\ forallb isSeparatorChar s = true.
Proof.
  assert (Hpipe : isSeparatorChar PIPE = true) by reflexivity.
  induction s as [|c s IH]; cbn [separatorBody forallb].
  - split; [discriminate | intros [H _]; now destruct H].
  - rewrite andb_true_iff, orb_true_iff, IH. split.
    + intros [Hc [[_ Hall] | Htail]]; (split; [discriminate|]); rewrite Hc; cbn [andb].
      * exact Hall.
      * destruct s as [|d [|e s]]; try discriminate; [reflexivity|].
        apply N.eqb_eq in Htail. subst d. cbn [forallb]. now rewrite Hpipe.
    + intros [_ Hall]. apply andb_true_iff in Hall. destruct Hall as [Hc Hall].
      split; [exact Hc|]. destruct s as [|d s]; [now right | left].
      split; [discriminate | exact Hall].
Qed.

Lemma separatorRegex_spec : forall s,
  separatorRegex s = true <-> s <> [] /\ forallb isSeparatorChar s = true.
Proof.
  intros s. unfold separatorRegex. rewrite orb_true_iff, separatorBody_spec.
  split; [|now right].
  intros [Hfirst | H]; [|exact H].
  destruct s as [|c s]; [discriminate|].
  apply andb_true_iff in Hfirst. destruct Hfirst as [Hc Hbody].
  apply N.eqb_eq in Hc. subst c.
  apply separatorBody_spec in Hbody. destruct Hbody as [_ Hall].
  split; [discriminate|]. cbn [forallb]. now rewrite Hall.
Qed.

(** C7, as stated, fails: a header without a pipe is rejected although there
    are two non-blank lines and the second matches the pattern. *)
Lemma parseMarkdownTable_null_without_pipe :
  ~ nullIffShortOrNoSeparator (js "A" ++ [LF] ++ js "---").
Proof.
  unfold nullIffShortOrNoSeparator. intros [Hfwd _].
  destruct (Hfwd eq_refl) as [Hlen | Hsep].
  - vm_compute in Hlen. lia.
  - vm_compute in Hsep. discriminate.
Qed.

(** C7, as the code has it. [parseMarkdownTable] is total, and it returns
    [null] exactly when there are fewer than two non-blank lines, or the
    first or the second of them has no pipe, or the second, trimmed, is not
    a non-empty run of whitespace, hyphens, colons and pipes (which is what
    the separator pattern accepts). *)
Theorem parseMarkdownTable_null_iff : forall markdown : str,
  let lines := nonBlankLines markdown in
  let headerLine := trim (nth 0 lines []) in
  let separatorLine := trim (nth 1 lines []) in
  (parseMarkdownTable markdown = None <->
   (length lines < 2 \/
    includes headerLine PIPE = false \/
    includes separatorLine PIPE = false \/
    separatorRegex separatorLine = false)) /\
  (separatorRegex separatorLine = true <->
   separatorLine <> [] /\ forallb isSeparatorChar separatorLine = true).
Proof.
  intros markdown lines headerLine separatorLine.
  split; [|apply separatorRegex_spec].
  unfold parseMarkdownTable. fold lines. fold headerLine. fold separatorLine.
  destruct (length lines <? 2) eqn:Hlen.
  - apply Nat.ltb_lt in Hlen. split; [now left | reflexivity].
  - apply Nat.ltb_ge in Hlen.
    destruct (includes headerLine PIPE) eqn:Hh; cbn [negb orb].
    + destruct (includes separatorLine PIPE) eqn:Hs; cbn [negb].
      * destruct (separatorRegex separatorLine) eqn:Hre; cbn [negb].
        -- split; [discriminate|].
           intros [H | [H | [H | H]]]; [lia | discriminate..].
        -- split; [auto | reflexivity].
      * split; [auto | reflexivity].
    + split; [auto | reflexivity].
Qed.

(** C8, as stated, fails: the data line ["|"] has a pipe and no cell, and
    gives no row. *)
Lemma parseMarkdownTable_pipe_line_without_row :
  ~ rowsCountPipeLines (js "|A|" ++ [LF] ++ js "|-|" ++ [LF] ++ js "|").
Proof.
  intros H. specialize (H _ eq_refl). vm_compute in H. discriminate.
Qed.

(** C8, as the code has it. When [parseMarkdownTable] succeeds, the rows are,
    in order, the padded cells of the non-blank lines after the separator
    that have a pipe and at least one cell that is not empty once trimmed;
    the other lines (no pipe, or empty cells only) give no row and no
    error. So the number of rows is the number of such lines. *)
Theorem parseMarkdownTable_rows : forall (markdown : str) (table : ParsedTable),
  parseMarkdownTable markdown = Some table ->
  let dataLines := filter isDataRow (skipn 2 (nonBlankLines markdown)) in
  rows table =
    map (fun line => padCells (length (headers table)) (cellsOf (trim line))) dataLines /\
  length (rows table) = length dataLines /\
  (forall line, In line dataLines -> includes line PIPE = true).
Proof.
  intros markdown table Hparse dataLines.
  apply parseMarkdownTable_Some in Hparse. destruct Hparse as [_ Hrows].
  rewrite Hrows, rowLoop_filter_map. fold dataLines.
  split; [reflexivity|]. split; [apply length_map|].
  intros line Hin. apply filter_In in Hin. destruct Hin as [_ Hrow].
  unfold isDataRow in Hrow. apply andb_true_iff in Hrow. destruct Hrow as [Hpipe _].
  unfold includes in *. apply existsb_exists in Hpipe.
  destruct Hpipe as (c & Hc & Heq). apply existsb_exists. exists c. split; [|exact Heq].
  (* a character of the trimmed line is a character of the line *)
  unfold trim, trimEnd, trimStart in Hc.
  apply in_rev in Hc.
  assert (Hdrop : forall p s x, In x (dropWhile p s) -> In x s).
  { intros p s. induction s as [|d s IH]; intros x Hx; [exact Hx|].
    cbn [dropWhile] in Hx. destruct (p d); [right; now apply IH | exact Hx]. }
  apply Hdrop in Hc. apply in_rev in Hc. now apply Hdrop in Hc.
Qed.

Lemma parseMarkdownTable_rows_witness :
  let dataLines := filter isDataRow (skipn 2 (nonBlankLines TABLE_SCENARIO)) in
  [[js "1"; js "2"]] =
    map (fun line => padCells 2 (cellsOf (trim line))) dataLines /\
  1 = length dataLines /\
  (forall line, In line dataLines -> includes line PIPE = true).
Proof.
  exact (parseMarkdownTable_rows TABLE_SCENARIO
           {| headers := [js "A"; js "B"]; rows := [[js "1"; js "2"]] |} eq_refl).
Defined.

(** ** The list structurer *)

Lemma listLoop_map : forall lines,
  Forall (fun line => truthy (trim line) = true) lines ->
  listLoop lines = map listItemOfLine lines.
Proof.
  induction lines as [|line rest IH]; intros Hall; [reflexivity|].
  inversion Hall as [|? ? Hline Hrest]; subst.
  cbn [listLoop map]. rewrite Hline. f_equal. now apply IH.
Qed.

(** Every non-blank line gives one item, in order. *)
Lemma parseMarkdownList_map : forall markdown,
  parseMarkdownList markdown = map listItemOfLine (nonBlankLines markdown).
Proof.
  intros markdown. unfold parseMarkdownList. apply listLoop_map.
  apply Forall_forall. intros line Hin. unfold nonBlankLines in Hin.
  apply filter_In in Hin. now destruct Hin.
Qed.

Lemma trimStart_whitespace_prefix : forall indent rest,
  forallb isWhiteSpace indent = true ->
  trimStart (indent ++ rest) = trimStart rest.
Proof.
  induction indent as [|c indent IH]; intros rest Hall; [reflexivity|].
  cbn [forallb] in Hall. apply andb_true_iff in Hall. destruct Hall as [Hc Hall].
  cbn [app]. unfold trimStart. cbn [dropWhile]. rewrite Hc. now apply IH.
Qed.

(** An indentation of whitespace in front of a character that is not
    whitespace is what [leadingSpaces] counts. *)
Lemma leadingSpaces_indent : forall indent c rest,
  forallb isWhiteSpace indent = true ->
  isWhiteSpace c = false ->
  leadingSpaces (indent ++ c :: rest) = length indent.
Proof.
  intros indent c rest Hall Hc. unfold leadingSpaces.
  rewrite trimStart_whitespace_prefix by exact Hall.
  unfold trimStart. cbn [dropWhile]. rewrite Hc.
  rewrite length_app. lia.
Qed.

Lemma forallb_repeat_SP : forall m, forallb isWhiteSpace (repeat SP m) = true.
Proof. induction m as [|m IH]; [reflexivity | exact IH]. Qed.

Lemma level_listItemOfLine : forall line,
  level (listItemOfLine line) = leadingSpaces line / 2.
Proof.
  intros line. unfold listItemOfLine.
  destruct (bulletMatch (trim line)); [reflexivity|].
  destruct (numberMatch (trim line)); reflexivity.
Qed.

(** C9. [parseMarkdownList] gives one item per non-blank line, in order, and
    none for a blank line; the level of the item is
    [floor(leadingSpaces / 2)], so a line that starts with [2k] spaces
    followed by a character that is not whitespace gives level [k]. *)
Theorem parseMarkdownList_level : forall markdown : str,
  length (parseMarkdownList markdown) = length (nonBlankLines markdown) /\
  nonBlankLines markdown
    = filter (fun line => truthy (trim line)) (split1 LF markdown) /\
  forall (i : nat) (line : str),
    nth_error (nonBlankLines markdown) i = Some line ->
    exists item,
      nth_error (parseMarkdownList markdown) i = Some item /\
      level item = leadingSpaces line / 2 /\
      forall (k : nat) (c : char) (rest : str),
        line = repeat SP (2 * k) ++ c :: rest ->
        isWhiteSpace c = false ->
        level item = k.
Proof.
  intros markdown. rewrite parseMarkdownList_map.
  split; [apply length_map|]. split; [reflexivity|].
  intros i line Hline. exists (listItemOfLine line).
  split; [now apply map_nth_error|].
  split; [apply level_listItemOfLine|].
  intros k c rest -> Hc. rewrite level_listItemOfLine.
  rewrite leadingSpaces_indent by (trivial; apply forallb_repeat_SP).
  rewrite repeat_length. rewrite Nat.mul_comm. apply Nat.div_mul. discriminate.
Qed.

Example parseMarkdownList_scenario :
  parseMarkdownList LIST_SCENARIO
  = [ {| item_text := js "top"; level := 0; isNumbered := false |};
      {| item_text := js "nested"; level := 1; isNumbered := false |} ].
Proof. reflexivity. Qed.

Lemma parseMarkdownList_level_witness :
  exists item,
    nth_error (parseMarkdownList LIST_SCENARIO) 1 = Some item /\
    level item = 1.
Proof.
  destruct (proj2 (proj2 (parseMarkdownList_level LIST_SCENARIO)) 1 (js "  - nested") eq_refl)
    as (item & Hnth & _ & Hlevel).
  exists item. split; [exact Hnth|].
  apply (Hlevel 1 HYPHEN (js " nested")); reflexivity.
Defined.

(** ** The inline formatter *)

(** *** What a match of a pattern is *)

Lemma isPrefix_app : forall p s,
  isPrefix p s = true -> exists rest, s = p ++ rest.
Proof.
  induction p as [|a p IH]; intros s H.
  - exists s. reflexivity.
  - destruct s as [|b s]; [discriminate|]. cbn [isPrefix] in H.
    apply andb_true_iff in H. destruct H as [Hab Hp].
    apply N.eqb_eq in Hab. subst b.
    destruct (IH s Hp) as (rest & ->). exists rest. reflexivity.
Qed.

Lemma groupGreedy_match : forall excluded close s cap,
  groupGreedy excluded close s = Some cap ->
  cap <> [] /\ exists rest, s = cap ++ close ++ rest.
Proof.
  intros excluded close. induction s as [|c s IH]; intros cap H; [discriminate|].
  cbn [groupGreedy] in H. destruct (excluded c); [discriminate|].
  destruct (groupGreedy excluded close s) as [cap'|] eqn:Hrec.
  - injection H as <-. destruct (IH cap' eq_refl) as (_ & rest & ->).
    split; [discriminate|]. exists rest. reflexivity.
  - destruct (isPrefix close s) eqn:Hp; [|discriminate]. injection H as <-.
    apply isPrefix_app in Hp. destruct Hp as (rest & ->).
    split; [discriminate|]. exists rest. reflexivity.
Qed.

Lemma groupLazy_match : forall excluded close s cap,
  groupLazy excluded close s = Some cap ->
  cap <> [] /\ exists rest, s = cap ++ close ++ rest.
Proof.
  intros excluded close. induction s as [|c s IH]; intros cap H; [discriminate|].
  cbn [groupLazy] in H. destruct (excluded c); [discriminate|].
  destruct (isPrefix close s) eqn:Hp.
  - injection H as <-. apply isPrefix_app in Hp. destruct Hp as (rest & ->).
    split; [discriminate|]. exists rest. reflexivity.
  - destruct (groupLazy excluded close s) as [cap'|] eqn:Hrec; [|discriminate].
    injection H as <-. destruct (IH cap' eq_refl) as (_ & rest & ->).
    split; [discriminate|]. exists rest. reflexivity.
Qed.

Lemma matchAt_match : forall re s cap,
  matchAt re s = Some cap ->
  cap <> [] /\ exists rest, s = (sr_open re ++ cap ++ sr_close re) ++ rest.
Proof.
  intros re s cap H. unfold matchAt in H.
  destruct (isPrefix (sr_open re) s) eqn:Hp; [|discriminate].
  apply isPrefix_app in Hp. destruct Hp as (s1 & ->).
  rewrite skipn_app, Nat.sub_diag, skipn_all in H. cbn [skipn app] in H.
  assert (Hg : cap <> [] /\ exists rest, s1 = cap ++ sr_close re ++ rest).
  { destruct (sr_lazy re); [now apply groupLazy_match in H | now apply groupGreedy_match in H]. }
  clear H. destruct Hg as (Hne & rest & ->).
  split; [exact Hne|]. exists rest. now rewrite <- !app_assoc.
Qed.

Lemma searchFrom_match : forall re s index m,
  searchFrom re index s = Some m ->
  m_1 m <> [] /\ m_0 m = sr_open re ++ m_1 m ++ sr_close re /\
  exists before rest,
    s = before ++ m_0 m ++ rest /\ m_index m = index + length before.
Proof.
  intros re. induction s as [|c s IH]; intros index m H; cbn [searchFrom] in H.
  - destruct (matchAt re []) as [cap|] eqn:Hm; [|discriminate].
    injection H as <-. cbn [m_0 m_1 m_index].
    apply matchAt_match in Hm. destruct Hm as (Hne & rest & Heq).
    split; [exact Hne|]. split; [reflexivity|].
    exists [], rest. cbn [app length]. split; [exact Heq | lia].
  - destruct (matchAt re (c :: s)) as [cap|] eqn:Hm.
    + injection H as <-. cbn [m_0 m_1 m_index].
      apply matchAt_match in Hm. destruct Hm as (Hne & rest & Heq).
      split; [exact Hne|]. split; [reflexivity|].
      exists [], rest. cbn [app length]. split; [exact Heq | lia].
    + apply IH in H. destruct H as (Hne & H0 & before & rest & -> & Hidx).
      split; [exact Hne|]. split; [exact H0|].
      exists (c :: before), rest. cbn [app length]. split; [reflexivity | lia].
Qed.

(** A match of [exec] lies in the input at or after [lastIndex]; it is the
    opening delimiter, a non-empty group and the closing delimiter. *)
Lemma regexExec_match : forall re input lastIndex m,
  regexExec re input lastIndex = Some m ->
  lastIndex <= m_index m /\
  m_index m + length (m_0 m) <= length input /\
  m_1 m <> [] /\
  m_0 m = sr_open re ++ m_1 m ++ sr_close re /\
  firstn (length (m_0 m)) (skipn (m_index m) input) = m_0 m.
Proof.
  intros re input lastIndex m H. unfold regexExec in H.
  destruct (length input <? lastIndex) eqn:Hlast; [discriminate|].
  apply Nat.ltb_ge in Hlast.
  apply searchFrom_match in H.
  destruct H as (Hne & H0 & before & rest & Hskip & Hidx).
  assert (Hinput : input = (firstn lastIndex input ++ before) ++ m_0 m ++ rest).
  { rewrite <- app_assoc, <- Hskip. symmetry. apply firstn_skipn. }
  assert (Hlen : length (firstn lastIndex input ++ before) = m_index m).
  { rewrite length_app, length_firstn. lia. }
  split; [lia|]. split.
  - pose proof (f_equal (@length char) Hinput) as Hl.
    rewrite !length_app in Hl. rewrite length_app in Hlen. lia.
  - split; [exact Hne|]. split; [exact H0|].
    rewrite Hinput, <- Hlen, skipn_app, Nat.sub_diag, skipn_all. cbn [skipn app].
    rewrite firstn_app, Nat.sub_diag, firstn_all. cbn [firstn]. apply app_nil_r.
Qed.

(** *** The accepted spans *)

Lemma substring_firstn_skipn : forall (s : str) (a b : nat),
  a <= b -> b <= length s -> substring s a b = firstn (b - a) (skipn a s).
Proof.
  intros s a b Hab Hb. unfold substring.
  rewrite (Nat.min_l a) by lia. rewrite (Nat.min_l b) by lia.
  rewrite Nat.max_r, Nat.min_l by lia. reflexivity.
Qed.

Lemma wrappedSpan_nonempty : forall markdown r,
  wrappedSpan markdown r -> r_start r < r_end r.
Proof.
  intros markdown r (Hne & Hend & _). rewrite Hend, !length_app.
  destruct (r_text r); [contradiction | simpl; lia].
Qed.

Lemma ForallOrdPairs_snoc : forall (A : Type) (R : A -> A -> Prop) (l : list A) (x : A),
  ForallOrdPairs R l -> Forall (fun a => R a x) l -> ForallOrdPairs R (l ++ [x]).
Proof.
  intros A R l x Hl Hx. induction Hl as [|a l Ha Hl IH]; cbn [app].
  - constructor; constructor.
  - inversion Hx as [|? ? Hax Hlx]; subst. constructor.
    + apply Forall_app; split; [exact Ha | constructor; [exact Hax | constructor]].
    + now apply IH.
Qed.

(** The test of the source rejects exactly the matches that meet a span
    accepted before. *)
Lemma overlapsAny_false : forall start end_ replacements,
  start < end_ ->
  Forall (fun r => r_start r < r_end r) replacements ->
  overlapsAny start end_ replacements = false ->
  Forall (fun r => r_end r <= start \/ end_ <= r_start r) replacements.
Proof.
  intros start end_ replacements Hse Hne Hov. unfold overlapsAny in Hov.
  apply Forall_forall. intros r Hin.
  rewrite Forall_forall in Hne. specialize (Hne r Hin).
  destruct (le_lt_dec (r_end r) start) as [|H1]; [now left|].
  destruct (le_lt_dec end_ (r_start r)) as [|H2]; [now right|].
  exfalso.
  assert (Htrue : existsb (fun r =>
    ((r_start r <=? start) && (start <? r_end r))
    || ((r_start r <? end_) && (end_ <=? r_end r))
    || ((start <=? r_start r) && (r_end r <=? end_)))%bool replacements = true).
  { apply existsb_exists. exists r. split; [exact Hin|].
    destruct (le_lt_dec (r_start r) start) as [Ha | Ha].
    - apply orb_true_iff; left. apply orb_true_iff; left.
      apply andb_true_iff; split; [now apply Nat.leb_le | now apply Nat.ltb_lt].
    - destruct (le_lt_dec end_ (r_end r)) as [Hb | Hb].
      + apply orb_true_iff; left. apply orb_true_iff; right.
        apply andb_true_iff; split; [now apply Nat.ltb_lt | now apply Nat.leb_le].
      + apply orb_true_iff; right.
        apply andb_true_iff; split; apply Nat.leb_le; lia. }
  rewrite Htrue in Hov. discriminate.
Qed.

Lemma patterns_patternOf :
  Forall (fun pattern => patternOf (fst pattern) (snd pattern)) patterns.
Proof. repeat constructor. Qed.

(** A match of a pattern is a genuine span of its format. *)
Lemma match_wrappedSpan : forall markdown re type lastIndex m,
  patternOf re type ->
  regexExec re markdown lastIndex = Some m ->
  wrappedSpan markdown
    {| r_start := m_index m; r_end := m_index m + length (m_0 m);
       r_text := m_1 m; r_format := type |}.
Proof.
  intros markdown re type lastIndex m [Hopen Hclose] Hexec.
  apply regexExec_match in Hexec.
  destruct Hexec as (Hlast & Hend & Hne & H0 & Hsub).
  unfold wrappedSpan. cbn [r_start r_end r_text r_format].
  rewrite Hopen, Hclose in H0. rewrite <- H0.
  split; [exact Hne|]. split; [reflexivity|]. split; [exact Hend|].
  rewrite substring_firstn_skipn by lia.
  replace (m_index m + length (m_0 m) - m_index m) with (length (m_0 m)) by lia.
  exact Hsub.
Qed.

(** [exec] moves on: what is left of the input after a match is shorter
    than what was left before. *)
Lemma match_advances : forall re input lastIndex m,
  regexExec re input lastIndex = Some m ->
  length input - (m_index m + length (m_0 m)) < length input - lastIndex.
Proof.
  intros re input lastIndex m H. apply regexExec_match in H.
  destruct H as (Hlast & Hend & Hne & H0 & _).
  assert (0 < length (m_0 m)).
  { rewrite H0, !length_app. destruct (m_1 m); [contradiction | simpl; lia]. }
  lia.
Qed.

(** One pattern: the loop returns with the fuel it has, and keeps the
    accepted spans genuine and pairwise disjoint. *)
Lemma scanPattern_spec : forall markdown re type,
  patternOf re type ->
  forall fuel lastIndex replacements,
    length markdown - lastIndex <= fuel ->
    Forall (wrappedSpan markdown) replacements ->
    ForallOrdPairs disjointSpans replacements ->
    exists replacements',
      scanPattern fuel markdown re type lastIndex replacements = Some replacements' /\
      Forall (wrappedSpan markdown) replacements' /\
      ForallOrdPairs disjointSpans replacements'.
Proof.
  intros markdown re type Hpat.
  induction fuel as [|fuel IH]; intros lastIndex reps Hfuel Hwf Hdisj;
    cbn [scanPattern];
    destruct (regexExec re markdown lastIndex) as [m|] eqn:Hexec;
    try (exists reps; repeat split; assumption);
    pose proof (match_advances _ _ _ _ Hexec) as Hadv;
    pose proof (match_wrappedSpan markdown re type lastIndex m Hpat Hexec) as Hnew.
  - lia.
  - pose proof (wrappedSpan_nonempty _ _ Hnew) as Hpos. cbn [r_start r_end] in Hpos.
    apply IH; [lia | |].
    + destruct (overlapsAny (m_index m) (m_index m + length (m_0 m)) reps);
        cbn [negb]; [exact Hwf|].
      apply Forall_app; split; [exact Hwf|]. constructor; [exact Hnew | constructor].
    + destruct (overlapsAny (m_index m) (m_index m + length (m_0 m)) reps) eqn:Hov;
        cbn [negb]; [exact Hdisj|].
      apply ForallOrdPairs_snoc; [exact Hdisj|].
      apply overlapsAny_false in Hov; [exact Hov | exact Hpos |].
      eapply Forall_impl; [|exact Hwf]. intros r. apply wrappedSpan_nonempty.
Qed.

(** All three patterns. *)
Lemma collectReplacements_spec : forall markdown,
  exists replacements,
    collectReplacements markdown = Some replacements /\
    Forall (wrappedSpan markdown) replacements /\
    ForallOrdPairs disjointSpans replacements.
Proof.
  intros markdown. unfold collectReplacements.
  assert (Hgen : forall ps reps,
    Forall (fun pattern => patternOf (fst pattern) (snd pattern)) ps ->
    Forall (wrappedSpan markdown) reps ->
    ForallOrdPairs disjointSpans reps ->
    exists reps',
      foldM (fun replacements (pattern : SpanRegex * Format) =>
               scanPattern (length markdown) markdown (fst pattern) (snd pattern)
                           0 replacements) ps reps = Some reps' /\
      Forall (wrappedSpan markdown) reps' /\
      ForallOrdPairs disjointSpans reps').
  { induction ps as [|[re type] ps IH]; intros reps Hps Hwf Hdisj; cbn [foldM].
    - exists reps. repeat split; assumption.
    - inversion Hps as [|? ? Hp Hrest]; subst. cbn [fst snd] in *.
      destruct (scanPattern_spec markdown re type Hp (length markdown) 0 reps)
        as (reps1 & -> & Hwf1 & Hdisj1); [lia | assumption..|].
      now apply IH. }
  apply Hgen; [apply patterns_patternOf | constructor | constructor].
Qed.

(** *** The sort *)

Lemma insertByStart_Forall : forall (P : Replacement -> Prop) r l,
  P r -> Forall P l -> Forall P (insertByStart r l).
Proof.
  intros P r. induction l as [|x l IH]; intros Hr Hl; cbn [insertByStart].
  - constructor; [exact Hr | constructor].
  - inversion Hl as [|? ? Hx Hl']; subst.
    destruct (r_start r <=? r_start x).
    + constructor; assumption.
    + constructor; [exact Hx | now apply IH].
Qed.

Lemma sortByStart_Forall : forall (P : Replacement -> Prop) l,
  Forall P l -> Forall P (sortByStart l).
Proof.
  intros P. induction l as [|x l IH]; intros Hl; [constructor|].
  inversion Hl; subst. cbn [sortByStart fold_right].
  apply insertByStart_Forall; [assumption | now apply IH].
Qed.

Lemma sortByStart_Permutation : forall l, Permutation (sortByStart l) l.
Proof.
  assert (Hins : forall r l, Permutation (insertByStart r l) (r :: l)).
  { intros r. induction l as [|x l IH]; cbn [insertByStart]; [reflexivity|].
    destruct (r_start r <=? r_start x); [reflexivity|].
    rewrite IH. apply perm_swap. }
  induction l as [|x l IH]; [reflexivity|].
  cbn [sortByStart fold_right]. rewrite Hins. now constructor.
Qed.

Lemma insertByStart_inOrder : forall r l,
  r_start r < r_end r ->
  Forall (fun x => r_start x < r_end x) l ->
  Forall (disjointSpans r) l ->
  inOrder l ->
  inOrder (insertByStart r l).
Proof.
  intros r. induction l as [|x l IH]; intros Hr Hne Hdisj Hord; cbn [insertByStart].
  - constructor; constructor.
  - inversion Hne as [|? ? Hx Hne']; subst.
    inversion Hdisj as [|? ? Hrx Hdisj']; subst.
    apply StronglySorted_inv in Hord. destruct Hord as [Hord Hxl].
    destruct (r_start r <=? r_start x) eqn:Hle.
    + apply Nat.leb_le in Hle. constructor.
      * constructor; assumption.
      * assert (Hfirst : r_end r <= r_start x) by (destruct Hrx; lia).
        constructor; [exact Hfirst|].
        eapply Forall_impl; [|exact Hxl]. cbv beta. intros b Hb. lia.
    + apply Nat.leb_gt in Hle. constructor.
      * now apply IH.
      * apply insertByStart_Forall; [destruct Hrx; lia | exact Hxl].
Qed.

(** Sorted by start, pairwise disjoint spans follow one another. *)
Lemma sortByStart_inOrder : forall l,
  Forall (fun x => r_start x < r_end x) l ->
  ForallOrdPairs disjointSpans l ->
  inOrder (sortByStart l).
Proof.
  induction l as [|x l IH]; intros Hne Hdisj; [constructor|].
  inversion Hne; subst. inversion Hdisj; subst.
  cbn [sortByStart fold_right]. apply insertByStart_inOrder.
  - assumption.
  - now apply sortByStart_Forall.
  - now apply sortByStart_Forall.
  - now apply IH.
Qed.

(** The accepted spans: genuine, and one after the other. *)
Lemma acceptedSpans_spec : forall markdown,
  exists spans,
    acceptedSpans markdown = Some spans /\
    Forall (wrappedSpan markdown) spans /\
    inOrder spans.
Proof.
  intros markdown. unfold acceptedSpans.
  destruct (collectReplacements_spec markdown) as (reps & -> & Hwf & Hdisj).
  exists (sortByStart reps). split; [reflexivity|].
  split; [now apply sortByStart_Forall|].
  apply sortByStart_inOrder; [|exact Hdisj].
  eapply Forall_impl; [|exact Hwf]. intros r. apply wrappedSpan_nonempty.
Qed.

(** *** Stripping the delimiters *)

Lemma keepFrom_app : forall keep s1 s2 i,
  keepFrom keep i (s1 ++ s2) = keepFrom keep i s1 ++ keepFrom keep (i + length s1) s2.
Proof.
  intros keep. induction s1 as [|c s1 IH]; intros s2 i; cbn [app keepFrom length].
  - now rewrite Nat.add_0_r.
  - rewrite IH. replace (S i + length s1) with (i + S (length s1)) by lia.
    destruct (keep i); reflexivity.
Qed.

Lemma keepFrom_all : forall keep s i,
  (forall j, i <= j < i + length s -> keep j = true) -> keepFrom keep i s = s.
Proof.
  intros keep. induction s as [|c s IH]; intros i H; [reflexivity|].
  cbn [keepFrom]. rewrite H by (simpl; lia). f_equal.
  apply IH. intros j Hj. apply H. simpl. lia.
Qed.

Lemma keepFrom_none : forall keep s i,
  (forall j, i <= j < i + length s -> keep j = false) -> keepFrom keep i s = [].
Proof.
  intros keep. induction s as [|c s IH]; intros i H; [reflexivity|].
  cbn [keepFrom]. rewrite H by (simpl; lia).
  apply IH. intros j Hj. apply H. simpl. lia.
Qed.

Lemma inDelimiter_covered : forall markdown r j,
  wrappedSpan markdown r -> inDelimiter r j = true -> r_start r <= j < r_end r.
Proof.
  intros markdown r j (_ & Hend & _) H. unfold inDelimiter in H.
  rewrite !length_app in Hend.
  apply orb_true_iff in H. destruct H as [H | H];
    apply andb_true_iff in H; destruct H as [H1 H2];
    apply Nat.leb_le in H1; apply Nat.ltb_lt in H2; lia.
Qed.

Lemma inOrder_In : forall spans a b,
  inOrder spans -> In a spans -> In b spans ->
  a = b \/ r_end a <= r_start b \/ r_end b <= r_start a.
Proof.
  induction spans as [|x spans IH]; intros a b Hord Ha Hb; [contradiction|].
  apply StronglySorted_inv in Hord. destruct Hord as [Hord Hx].
  rewrite Forall_forall in Hx.
  destruct Ha as [-> | Ha], Hb as [-> | Hb].
  - now left.
  - right; left. now apply Hx.
  - right; right. now apply Hx.
  - now apply IH.
Qed.

(** Outside the accepted spans nothing is a delimiter position. *)
Lemma isDelimiterPos_outside : forall markdown spans j,
  Forall (wrappedSpan markdown) spans ->
  (forall x, In x spans -> ~ (r_start x <= j < r_end x)) ->
  isDelimiterPos spans j = false.
Proof.
  intros markdown spans j Hwf Hout. unfold isDelimiterPos.
  destruct (existsb (fun r => inDelimiter r j) spans) eqn:Hex; [|reflexivity].
  apply existsb_exists in Hex. destruct Hex as (x & Hin & Hd).
  rewrite Forall_forall in Hwf.
  apply (inDelimiter_covered markdown) in Hd; [|now apply Hwf].
  exfalso. exact (Hout x Hin Hd).
Qed.

(** Inside an accepted span only its own delimiters are delimiter
    positions. *)
Lemma isDelimiterPos_inside : forall markdown spans x j,
  Forall (wrappedSpan markdown) spans -> inOrder spans ->
  In x spans -> r_start x <= j < r_end x ->
  isDelimiterPos spans j = inDelimiter x j.
Proof.
  intros markdown spans x j Hwf Hord Hin Hj. unfold isDelimiterPos.
  destruct (inDelimiter x j) eqn:Hx.
  - apply existsb_exists. exists x. split; assumption.
  - destruct (existsb (fun r => inDelimiter r j) spans) eqn:Hex; [|reflexivity].
    apply existsb_exists in Hex. destruct Hex as (y & Hy & Hd).
    rewrite Forall_forall in Hwf.
    pose proof (inDelimiter_covered markdown y j (Hwf y Hy) Hd) as Hcov.
    destruct (inOrder_In spans x y Hord Hin Hy) as [-> | [H | H]];
      [congruence | lia | lia].
Qed.

(** *** Building the segments *)

Lemma concat_texts_snoc : forall segments s,
  concat (map text (segments ++ [s])) = concat (map text segments) ++ text s.
Proof.
  intros segments s. rewrite map_app, concat_app. cbn [map concat].
  now rewrite app_nil_r.
Qed.

Section BuildSegments.
Variable markdown : str.
Variable keep : nat -> bool.

(** One span. What is already emitted, followed by what is kept of the
    source from [textIndex] on, does not change. *)
Lemma segmentStep_keep : forall r segments textIndex,
  wrappedSpan markdown r ->
  textIndex <= r_start r ->
  (forall j, textIndex <= j < r_start r -> keep j = true) ->
  (forall j, r_start r <= j < r_end r -> keep j = negb (inDelimiter r j)) ->
  exists segments',
    segmentStep markdown (segments, textIndex) r = (segments', r_end r) /\
    length segments < length segments' /\
    concat (map text segments') ++ keepFrom keep (r_end r) (skipn (r_end r) markdown)
    = concat (map text segments) ++ keepFrom keep textIndex (skipn textIndex markdown).
Proof.
  intros r segments ti Hwf Hti Hgap Hspan.
  pose proof (wrappedSpan_nonempty markdown r Hwf) as Hne.
  destruct Hwf as (Htext & Hend & Hlen & Hsub).
  set (d := delimiterOf (r_format r)) in *.
  set (gap := substring markdown ti (r_start r)).
  (* the source from [textIndex] on: the gap, the span, the rest *)
  assert (Hsplit : skipn ti markdown
                   = gap ++ (d ++ r_text r ++ d) ++ skipn (r_end r) markdown).
  { rewrite <- Hsub. unfold gap.
    rewrite !substring_firstn_skipn by lia.
    rewrite <- (firstn_skipn (r_start r - ti) (skipn ti markdown)) at 1.
    f_equal. rewrite skipn_skipn.
    replace (r_start r - ti + ti) with (r_start r) by lia.
    rewrite <- (firstn_skipn (r_end r - r_start r) (skipn (r_start r) markdown)) at 1.
    f_equal. rewrite skipn_skipn. f_equal. lia. }
  assert (Hgaplen : length gap = r_start r - ti).
  { unfold gap. rewrite substring_firstn_skipn by lia.
    rewrite length_firstn, length_skipn. lia. }
  rewrite !length_app in Hend. fold d in Hend.
  assert (Hkeep : keepFrom keep ti (skipn ti markdown)
                  = gap ++ r_text r ++ keepFrom keep (r_end r) (skipn (r_end r) markdown)).
  { rewrite Hsplit, keepFrom_app, Hgaplen.
    replace (ti + (r_start r - ti)) with (r_start r) by lia.
    rewrite keepFrom_all by (intros j Hj; apply Hgap; lia).
    f_equal. rewrite <- !app_assoc, !keepFrom_app.
    rewrite (keepFrom_none keep d).
    2:{ intros j Hj. rewrite Hspan by lia. unfold inDelimiter. fold d.
        replace (r_start r <=? j) with true by (symmetry; apply Nat.leb_le; lia).
        replace (j <? r_start r + length d) with true by (symmetry; apply Nat.ltb_lt; lia).
        reflexivity. }
    rewrite (keepFrom_all keep (r_text r)).
    2:{ intros j Hj. rewrite Hspan by lia. unfold inDelimiter. fold d.
        replace (j <? r_start r + length d) with false by (symmetry; apply Nat.ltb_ge; lia).
        replace (r_end r - length d <=? j) with false by (symmetry; apply Nat.leb_gt; lia).
        now rewrite andb_false_r. }
    rewrite (keepFrom_none keep d).
    2:{ intros j Hj. rewrite Hspan by lia. unfold inDelimiter. fold d.
        replace (r_end r - length d <=? j) with true by (symmetry; apply Nat.leb_le; lia).
        replace (j <? r_end r) with true by (symmetry; apply Nat.ltb_lt; lia).
        now rewrite orb_true_r. }
    cbn [app]. do 2 f_equal. lia. }
  rewrite Hkeep. unfold segmentStep. fold gap.
  destruct (ti <? r_start r) eqn:Hlt.
  - destruct (truthy gap) eqn:Hgaptruthy.
    + eexists. split; [reflexivity|]. split; [rewrite !length_app; simpl; lia|].
      rewrite !concat_texts_snoc. cbn [text plainSegment styledSegment].
      now rewrite <- !app_assoc.
    + apply truthy_false_nil in Hgaptruthy.
      eexists. split; [reflexivity|]. split; [rewrite !length_app; simpl; lia|].
      rewrite concat_texts_snoc. cbn [text styledSegment].
      rewrite Hgaptruthy. cbn [app]. now rewrite <- !app_assoc.
  - apply Nat.ltb_ge in Hlt.
    assert (Hnil : gap = []).
    { apply length_zero_iff_nil. lia. }
    eexists. split; [reflexivity|]. split; [rewrite !length_app; simpl; lia|].
    rewrite concat_texts_snoc. cbn [text styledSegment].
    rewrite Hnil. cbn [app]. now rewrite <- !app_assoc.
Qed.

(** All the spans, in order. *)
Lemma segmentFold_keep : forall spans segments textIndex,
  Forall (wrappedSpan markdown) spans ->
  inOrder spans ->
  Forall (fun x => textIndex <= r_start x) spans ->
  (forall j, textIndex <= j ->
     (forall x, In x spans -> ~ (r_start x <= j < r_end x)) -> keep j = true) ->
  (forall x, In x spans ->
     forall j, r_start x <= j < r_end x -> keep j = negb (inDelimiter x j)) ->
  exists segments' textIndex',
    fold_left (segmentStep markdown) spans (segments, textIndex)
      = (segments', textIndex') /\
    length segments + length spans <= length segments' /\
    (spans = [] -> textIndex' = textIndex) /\
    (forall j, textIndex' <= j -> keep j = true) /\
    concat (map text segments') ++ keepFrom keep textIndex' (skipn textIndex' markdown)
    = concat (map text segments) ++ keepFrom keep textIndex (skipn textIndex markdown).
Proof.
  induction spans as [|r spans IH]; intros segments ti Hwf Hord Hti Hgap Hspan.
  - exists segments, ti. cbn [fold_left length]. split; [reflexivity|].
    split; [lia|]. split; [reflexivity|]. split; [|reflexivity].
    intros j Hj. apply Hgap; [exact Hj|]. intros x [].
  - inversion Hwf as [|? ? Hr Hwf']; subst.
    inversion Hti as [|? ? Htir Hti']; subst.
    apply StronglySorted_inv in Hord. destruct Hord as [Hord Hnext].
    pose proof (wrappedSpan_nonempty markdown r Hr) as Hne.
    destruct (segmentStep_keep r segments ti Hr Htir) as (segments1 & Hstep & Hlen1 & Heq1).
    + intros j Hj. apply Hgap; [lia|].
      intros x [<- | Hx]; [lia|].
      rewrite Forall_forall in Hnext. specialize (Hnext x Hx). lia.
    + apply Hspan. now left.
    + destruct (IH segments1 (r_end r) Hwf' Hord Hnext)
        as (segments' & ti' & Hfold & Hlen & _ & Hrest & Heq).
      * intros j Hj Hout. apply Hgap; [lia|].
        intros x [<- | Hx]; [lia | now apply Hout].
      * intros x Hx. apply Hspan. now right.
      * exists segments', ti'. cbn [fold_left]. rewrite Hstep.
        split; [exact Hfold|]. split; [cbn [length]; lia|].
        split; [discriminate|]. split; [exact Hrest|].
        now rewrite Heq, Heq1.
Qed.

(** The segments spell what is kept of the source. *)
Lemma buildSegments_keep : forall spans,
  Forall (wrappedSpan markdown) spans ->
  inOrder spans ->
  (forall j, (forall x, In x spans -> ~ (r_start x <= j < r_end x)) -> keep j = true) ->
  (forall x, In x spans ->
     forall j, r_start x <= j < r_end x -> keep j = negb (inDelimiter x j)) ->
  concat (map text (buildSegments markdown spans)) = keepFrom keep 0 markdown.
Proof.
  intros spans Hwf Hord Hgap Hspan. unfold buildSegments.
  destruct (segmentFold_keep spans [] 0 Hwf Hord)
    as (segments & ti & -> & Hlen & Hnil & Hrest & Heq).
  - apply Forall_forall. intros; lia.
  - intros j _. apply Hgap.
  - exact Hspan.
  - cbn [map concat app skipn] in Heq.
    rewrite (keepFrom_all keep (skipn ti markdown)) in Heq
      by (intros j Hj; apply Hrest; lia).
    set (segments2 :=
           if ti <? length markdown
           then if truthy (substringFrom markdown ti)
                then segments ++ [plainSegment (substringFrom markdown ti)]
                else segments
           else segments).
    assert (H2 : concat (map text segments2) = keepFrom keep 0 markdown).
    { rewrite <- Heq. unfold segments2, substringFrom.
      destruct (ti <? length markdown) eqn:Hlt.
      - destruct (truthy (skipn ti markdown)) eqn:Ht.
        + now rewrite concat_texts_snoc.
        + apply truthy_false_nil in Ht. rewrite Ht. now rewrite app_nil_r.
      - apply Nat.ltb_ge in Hlt. rewrite skipn_all2 by exact Hlt.
        now rewrite app_nil_r. }
    destruct (length segments2 =? 0) eqn:Hempty; [|exact H2].
    apply Nat.eqb_eq in Hempty. apply length_zero_iff_nil in Hempty.
    rewrite Hempty in *. cbn [app map concat text plainSegment].
    rewrite app_nil_r. cbn [map concat] in H2. rewrite <- H2.
    (* no segment at all: no span, and nothing left of the source *)
    assert (Hseg : segments = []).
    { unfold segments2 in Hempty.
      destruct (ti <? length markdown); [|exact Hempty].
      destruct (truthy (substringFrom markdown ti)); [|exact Hempty].
      destruct segments; discriminate. }
    subst segments. cbn [length] in Hlen.
    assert (Hspans : spans = []) by (apply length_zero_iff_nil; lia).
    specialize (Hnil Hspans). subst ti.
    unfold segments2, substringFrom in Hempty. cbn [skipn app] in Hempty.
    destruct markdown as [|c rest]; [reflexivity|].
    cbn in Hempty. discriminate.
Qed.

End BuildSegments.

(** For genuine spans that follow one another, the texts of the segments
    are the source without the delimiters of the spans. *)
Lemma buildSegments_strip : forall markdown spans,
  Forall (wrappedSpan markdown) spans ->
  inOrder spans ->
  concat (map text (buildSegments markdown spans)) = stripDelimiters markdown spans.
Proof.
  intros markdown spans Hwf Hord.
  unfold stripDelimiters. apply buildSegments_keep; try assumption.
  - intros j Hout. now rewrite (isDelimiterPos_outside markdown).
  - intros x Hx j Hj. now rewrite (isDelimiterPos_inside markdown spans x).
Qed.

(** The segments against the spans the formatter accepted. For every
    markdown string [parseMarkdownToFormattedText] returns, and the texts
    of its segments, concatenated in order, are the source without the
    delimiters of the accepted spans. The accepted spans are stretches of
    the source of the form delimiter, non-empty text, delimiter, and each
    ends before the next one starts. Which spans are accepted is another
    matter: an italic span after a bold one is not, as the examples below
    show. *)
Theorem parseMarkdownToFormattedText_reconstruction : forall markdown : str,
  exists spans segments,
    acceptedSpans markdown = Some spans /\
    parseMarkdownToFormattedText markdown = Some segments /\
    concat (map text segments) = stripDelimiters markdown spans /\
    Forall (wrappedSpan markdown) spans /\
    inOrder spans.
Proof.
  intros markdown.
  destruct (acceptedSpans_spec markdown) as (spans & Hacc & Hwf & Hord).
  exists spans, (buildSegments markdown spans).
  split; [exact Hacc|].
  split; [unfold parseMarkdownToFormattedText; now rewrite Hacc|].
  split; [|split; assumption].
  now apply buildSegments_strip.
Qed.

(** The formatter on some inputs. In this revision an italic span that
    follows a bold one is not recognised: the italic pattern first matches
    from the closing asterisk of the bold span, and [exec] resumes after
    that rejected match. *)
Example parseMarkdownToFormattedText_bold_then_italic :
  parseMarkdownToFormattedText (js "Hello **world** and *friend*")
  = Some [plainSegment (js "Hello "); styledSegment (js "world") Bold;
          plainSegment (js " and *friend*")].
Proof. reflexivity. Qed.

Example parseMarkdownToFormattedText_italic_then_bold :
  parseMarkdownToFormattedText (js "an *old* and **new** __thing__")
  = Some [plainSegment (js "an "); styledSegment (js "old") Italic;
          plainSegment (js " and "); styledSegment (js "new") Bold;
          plainSegment (js " "); styledSegment (js "thing") Underline].
Proof. reflexivity. Qed.

Example parseMarkdownToFormattedText_empty :
  parseMarkdownToFormattedText [] = Some [plainSegment []].
Proof. reflexivity. Qed.

Example parseMarkdownToFormattedText_unclosed :
  parseMarkdownToFormattedText (js "a **b") = Some [plainSegment (js "a **b")].
Proof. reflexivity. Qed.

(** *** The masking revision *)

Lemma MaskingRevision_execAll_total : forall markdown re type fuel lastIndex allMatches,
  length markdown - lastIndex <= fuel ->
  exists allMatches',
    MaskingRevision.execAll fuel markdown re type lastIndex allMatches = Some allMatches'.
Proof.
  intros markdown re type.
  induction fuel as [|fuel IH]; intros lastIndex allMatches Hfuel;
    cbn [MaskingRevision.execAll];
    destruct (regexExec re markdown lastIndex) as [m|] eqn:Hexec;
    try (eexists; reflexivity);
    apply match_advances in Hexec.
  - lia.
  - apply IH. lia.
Qed.

Lemma MaskingRevision_italicLoop_total :
  forall markdown workingText boldMasks fuel lastIndex allMatches,
  length workingText - lastIndex <= fuel ->
  exists allMatches',
    MaskingRevision.italicLoop fuel markdown workingText boldMasks lastIndex allMatches
    = Some allMatches'.
Proof.
  intros markdown workingText boldMasks.
  induction fuel as [|fuel IH]; intros lastIndex allMatches Hfuel;
    cbn [MaskingRevision.italicLoop];
    destruct (regexExec MaskingRevision.italicRegex workingText lastIndex) as [m|] eqn:Hexec;
    try (eexists; reflexivity);
    apply match_advances in Hexec.
  - lia.
  - apply IH. lia.
Qed.

(** The loops of the masking revision return with the fuel they have. *)
Lemma MaskingRevision_total : forall markdown,
  exists segments,
    MaskingRevision.parseMarkdownToFormattedText markdown = Some segments.
Proof.
  intros markdown.
  unfold MaskingRevision.parseMarkdownToFormattedText, MaskingRevision.parseWith,
    MaskingRevision.acceptedSpansWith.
  destruct (MaskingRevision_execAll_total markdown boldRegex Bold
              (length markdown) 0 []) as (m1 & ->); [lia|].
  destruct (MaskingRevision_execAll_total markdown underlineRegex Underline
              (length markdown) 0 m1) as (m2 & ->); [lia|].
  cbv zeta.
  match goal with
  | |- context [MaskingRevision.italicLoop ?f ?md ?w ?b 0 m2] =>
      destruct (MaskingRevision_italicLoop_total md w b f 0 m2) as (m3 & ->); [lia|]
  end.
  eexists; reflexivity.
Qed.

(** **** With a placeholder of one code unit

    The comment in the source says that a bold stretch is replaced by
    placeholders of the same length. For a placeholder that does have one
    code unit the masked copy agrees with the source outside the bold
    stretches, and the texts of the segments are the source without the
    delimiters of the accepted spans. The placeholder of the file is three
    code units long; what the revision does with it is further down. *)

Lemma MaskingRevision_execAll_wrapped : forall markdown re type,
  patternOf re type ->
  forall fuel lastIndex allMatches allMatches',
    Forall (wrappedSpan markdown) allMatches ->
    MaskingRevision.execAll fuel markdown re type lastIndex allMatches = Some allMatches' ->
    Forall (wrappedSpan markdown) allMatches'.
Proof.
  intros markdown re type Hpat.
  induction fuel as [|fuel IH]; intros lastIndex acc acc' Hwf;
    cbn [MaskingRevision.execAll];
    destruct (regexExec re markdown lastIndex) as [m|] eqn:Hexec;
    try discriminate; try (intros [= <-]; exact Hwf).
  intros H. apply IH in H; [exact H|].
  apply Forall_app; split; [exact Hwf|].
  constructor; [|constructor]. eapply match_wrappedSpan; eassumption.
Qed.

Lemma repeatStr_length : forall p k,
  length (MaskingRevision.repeatStr p k) = k * length p.
Proof.
  intros p. induction k as [|k IH]; cbn [MaskingRevision.repeatStr]; [reflexivity|].
  rewrite length_app, IH. simpl. lia.
Qed.

Lemma substring_0 : forall (s : str) (k : nat),
  k <= length s -> substring s 0 k = firstn k s.
Proof.
  intros s k Hk. rewrite substring_firstn_skipn by lia.
  now rewrite Nat.sub_0_r.
Qed.

(** One mask: the length stays, and so does every character outside the
    masked stretch. *)
Lemma maskStep_same : forall placeholder workingText mask,
  length placeholder = 1 ->
  r_start mask <= r_end mask -> r_end mask <= length workingText ->
  length (MaskingRevision.maskStep placeholder workingText mask) = length workingText /\
  forall i, i < r_start mask \/ r_end mask <= i ->
    nth_error (MaskingRevision.maskStep placeholder workingText mask) i
    = nth_error workingText i.
Proof.
  intros p w mask Hp Hse Hew. unfold MaskingRevision.maskStep, substringFrom.
  rewrite substring_0 by lia.
  assert (Hfirst : length (firstn (r_start mask) w) = r_start mask)
    by (rewrite length_firstn; lia).
  assert (Hrep : length (MaskingRevision.repeatStr p (r_end mask - r_start mask))
                 = r_end mask - r_start mask)
    by (rewrite repeatStr_length; lia).
  split.
  - rewrite !length_app, Hfirst, Hrep, length_skipn. lia.
  - intros i [Hi | Hi].
    + rewrite nth_error_app1 by lia. rewrite nth_error_firstn.
      replace (i <? r_start mask) with true by (symmetry; apply Nat.ltb_lt; lia).
      reflexivity.
    + rewrite nth_error_app2 by lia. rewrite nth_error_app2 by lia.
      rewrite nth_error_skipn. f_equal. lia.
Qed.

Lemma maskFold_same : forall placeholder masks workingText,
  length placeholder = 1 ->
  Forall (fun mask => r_start mask <= r_end mask /\ r_end mask <= length workingText)
         masks ->
  length (fold_left (MaskingRevision.maskStep placeholder) masks workingText)
  = length workingText /\
  forall i,
    (forall mask, In mask masks -> i < r_start mask \/ r_end mask <= i) ->
    nth_error (fold_left (MaskingRevision.maskStep placeholder) masks workingText) i
    = nth_error workingText i.
Proof.
  intros p. induction masks as [|mask masks IH]; intros w Hp Hall; cbn [fold_left].
  - split; reflexivity.
  - inversion Hall as [|? ? [Hse Hew] Hrest]; subst.
    destruct (maskStep_same p w mask Hp Hse Hew) as [Hlen Hnth].
    destruct (IH (MaskingRevision.maskStep p w mask) Hp) as [Hlen' Hnth'].
    { eapply Forall_impl; [|exact Hrest]. cbv beta. intros a Ha. rewrite Hlen. exact Ha. }
    split; [congruence|].
    intros i Hout. rewrite Hnth' by (intros a Ha; apply Hout; now right).
    apply Hnth. apply Hout. now left.
Qed.

Lemma overlapsWithBold_false : forall start end_ boldMasks,
  start < end_ ->
  Forall (fun mask => r_start mask < r_end mask) boldMasks ->
  MaskingRevision.overlapsWithBold start end_ boldMasks = false ->
  forall mask, In mask boldMasks -> r_end mask <= start \/ end_ <= r_start mask.
Proof.
  intros start end_ boldMasks Hse Hne Hov mask Hin.
  rewrite Forall_forall in Hne. specialize (Hne mask Hin).
  destruct (le_lt_dec (r_end mask) start) as [|H1]; [now left|].
  destruct (le_lt_dec end_ (r_start mask)) as [|H2]; [now right|].
  exfalso. unfold MaskingRevision.overlapsWithBold in Hov.
  assert (Htrue : existsb (fun mask =>
    ((r_start mask <=? start) && (start <? r_end mask))
    || ((r_start mask <? end_) && (end_ <=? r_end mask))
    || ((start <? r_start mask) && (r_end mask <? end_)))%bool boldMasks = true).
  { apply existsb_exists. exists mask. split; [exact Hin|].
    destruct (le_lt_dec (r_start mask) start) as [Ha | Ha].
    - apply orb_true_iff; left. apply orb_true_iff; left.
      apply andb_true_iff; split; [now apply Nat.leb_le | now apply Nat.ltb_lt].
    - destruct (le_lt_dec end_ (r_end mask)) as [Hb | Hb].
      + apply orb_true_iff; left. apply orb_true_iff; right.
        apply andb_true_iff; split; [now apply Nat.ltb_lt | now apply Nat.leb_le].
      + apply orb_true_iff; right.
        apply andb_true_iff; split; apply Nat.ltb_lt; lia. }
  rewrite Htrue in Hov. discriminate.
Qed.

(** Two strings that agree on a stretch have the same substring there. *)
Lemma stretch_ext : forall (w m : str) (a k : nat),
  (forall i, a <= i < a + k -> nth_error w i = nth_error m i) ->
  firstn k (skipn a w) = firstn k (skipn a m).
Proof.
  intros w m a k H. apply nth_error_ext. intros i.
  rewrite !nth_error_firstn, !nth_error_skipn.
  destruct (i <? k) eqn:Hi; [|reflexivity].
  apply Nat.ltb_lt in Hi. apply H. lia.
Qed.

(** The text between the delimiters of a stretch. *)
Lemma stretch_middle : forall (m d t d' : str) (a : nat),
  a + length (d ++ t ++ d') <= length m ->
  firstn (length (d ++ t ++ d')) (skipn a m) = d ++ t ++ d' ->
  substring m (a + length d) (a + length (d ++ t ++ d') - length d') = t.
Proof.
  intros m d t d' a Hlen H.
  rewrite !length_app in *.
  rewrite substring_firstn_skipn by lia.
  replace (a + (length d + (length t + length d')) - length d' - (a + length d))
    with (length t) by lia.
  rewrite Nat.add_comm, <- skipn_skipn.
  rewrite <- (firstn_skipn (length d + (length t + length d')) (skipn a m)), H.
  rewrite <- app_assoc, skipn_app, Nat.sub_diag, skipn_all. cbn [skipn app].
  rewrite <- app_assoc, firstn_app, Nat.sub_diag, firstn_all. cbn [firstn].
  apply app_nil_r.
Qed.

(** An italic match in the masked copy that meets no bold stretch is a
    genuine italic span of the source. *)
Lemma italic_match_wrappedSpan :
  forall markdown workingText boldMasks lastIndex m,
  length workingText = length markdown ->
  (forall i, (forall mask, In mask boldMasks -> i < r_start mask \/ r_end mask <= i) ->
     nth_error workingText i = nth_error markdown i) ->
  Forall (fun mask => r_start mask < r_end mask) boldMasks ->
  regexExec MaskingRevision.italicRegex workingText lastIndex = Some m ->
  MaskingRevision.overlapsWithBold (m_index m) (m_index m + length (m_0 m)) boldMasks
    = false ->
  wrappedSpan markdown
    {| r_start := m_index m; r_end := m_index m + length (m_0 m);
       r_text := substring markdown (m_index m + 1) (m_index m + length (m_0 m) - 1);
       r_format := Italic |}.
Proof.
  intros markdown w boldMasks lastIndex m Hlen Hagree Hne Hexec Hov.
  pose proof (match_advances _ _ _ _ Hexec) as Hadv.
  apply regexExec_match in Hexec.
  destruct Hexec as (Hlast & Hend & Hcap & H0 & Hsub).
  cbn [MaskingRevision.italicRegex sr_open sr_close] in H0.
  assert (Hpos : m_index m < m_index m + length (m_0 m)).
  { rewrite H0, !length_app. simpl. lia. }
  pose proof (overlapsWithBold_false _ _ _ Hpos Hne Hov) as Hout.
  (* the matched stretch is the same in the source *)
  assert (Hsrc : firstn (length (m_0 m)) (skipn (m_index m) markdown) = m_0 m).
  { transitivity (firstn (length (m_0 m)) (skipn (m_index m) w)); [|exact Hsub].
    symmetry. apply stretch_ext. intros i Hi.
    apply Hagree. intros mask Hin. destruct (Hout mask Hin); lia. }
  assert (Htext : substring markdown (m_index m + 1) (m_index m + length (m_0 m) - 1)
                  = m_1 m).
  { rewrite H0 in Hsrc |- *.
    apply (stretch_middle markdown [STAR] (m_1 m) [STAR] (m_index m)); [|exact Hsrc].
    rewrite <- H0. lia. }
  unfold wrappedSpan. cbn [r_start r_end r_text r_format delimiterOf].
  rewrite Htext, <- H0.
  split; [exact Hcap|]. split; [reflexivity|]. split; [lia|].
  rewrite substring_firstn_skipn by lia.
  replace (m_index m + length (m_0 m) - m_index m) with (length (m_0 m)) by lia.
  exact Hsrc.
Qed.

Lemma MaskingRevision_italicLoop_wrapped :
  forall markdown workingText boldMasks,
  length workingText = length markdown ->
  (forall i, (forall mask, In mask boldMasks -> i < r_start mask \/ r_end mask <= i) ->
     nth_error workingText i = nth_error markdown i) ->
  Forall (fun mask => r_start mask < r_end mask) boldMasks ->
  forall fuel lastIndex allMatches allMatches',
    Forall (wrappedSpan markdown) allMatches ->
    MaskingRevision.italicLoop fuel markdown workingText boldMasks lastIndex allMatches
      = Some allMatches' ->
    Forall (wrappedSpan markdown) allMatches'.
Proof.
  intros markdown w boldMasks Hlen Hagree Hne.
  induction fuel as [|fuel IH]; intros lastIndex acc acc' Hwf;
    cbn [MaskingRevision.italicLoop];
    destruct (regexExec MaskingRevision.italicRegex w lastIndex) as [m|] eqn:Hexec;
    try discriminate; try (intros [= <-]; exact Hwf).
  intros H. apply IH in H; [exact H|].
  destruct (MaskingRevision.overlapsWithBold (m_index m) (m_index m + length (m_0 m))
              boldMasks) eqn:Hov; cbn [negb]; [exact Hwf|].
  apply Forall_app; split; [exact Hwf|].
  constructor; [|constructor]. eapply italic_match_wrappedSpan; eassumption.
Qed.

(** The last loop keeps genuine spans that are pairwise disjoint. *)
Lemma acceptFold_spec : forall markdown allMatches replacements,
  Forall (wrappedSpan markdown) allMatches ->
  Forall (wrappedSpan markdown) replacements ->
  ForallOrdPairs disjointSpans replacements ->
  Forall (wrappedSpan markdown)
         (fold_left MaskingRevision.acceptStep allMatches replacements) /\
  ForallOrdPairs disjointSpans
         (fold_left MaskingRevision.acceptStep allMatches replacements).
Proof.
  intros markdown. induction allMatches as [|m ms IH]; intros reps Hms Hwf Hdisj;
    cbn [fold_left]; [split; assumption|].
  inversion Hms as [|? ? Hm Hms']; subst.
  apply IH; [exact Hms' | |]; unfold MaskingRevision.acceptStep;
    destruct (overlapsAny (r_start m) (r_end m) reps) eqn:Hov; cbn [negb];
    try assumption.
  - apply Forall_app; split; [exact Hwf | constructor; [exact Hm | constructor]].
  - apply ForallOrdPairs_snoc; [exact Hdisj|].
    apply overlapsAny_false in Hov; [exact Hov | |].
    + eapply wrappedSpan_nonempty; eassumption.
    + eapply Forall_impl; [|exact Hwf]. intros r. apply wrappedSpan_nonempty.
Qed.

(** The masking revision with a placeholder of one code unit: the
    formatter returns, the texts of the segments are the source without the
    delimiters of the accepted spans, and the accepted spans are genuine
    (delimiter, text, delimiter in the source) and follow one another. *)
Lemma MaskingRevision_reconstruction : forall placeholder markdown,
  length placeholder = 1 ->
  exists spans segments,
    MaskingRevision.acceptedSpansWith placeholder markdown = Some spans /\
    MaskingRevision.parseWith placeholder markdown = Some segments /\
    concat (map text segments) = stripDelimiters markdown spans /\
    Forall (wrappedSpan markdown) spans /\
    inOrder spans.
Proof.
  intros p markdown Hp.
  unfold MaskingRevision.parseWith, MaskingRevision.acceptedSpansWith.
  destruct (MaskingRevision_execAll_total markdown boldRegex Bold
              (length markdown) 0 []) as (m1 & Hm1); [lia|].
  rewrite Hm1.
  apply MaskingRevision_execAll_wrapped in Hm1; [|split; reflexivity | constructor].
  destruct (MaskingRevision_execAll_total markdown underlineRegex Underline
              (length markdown) 0 m1) as (m2 & Hm2); [lia|].
  rewrite Hm2.
  apply MaskingRevision_execAll_wrapped in Hm2; [|split; reflexivity | exact Hm1].
  cbv zeta.
  set (boldMasks := rev (filter (fun m => Format_eqb (r_format m) Bold) m2)).
  set (workingText := fold_left (MaskingRevision.maskStep p) boldMasks markdown).
  assert (Hmasks : Forall (wrappedSpan markdown) boldMasks).
  { apply Forall_forall. intros mask Hin. unfold boldMasks in Hin.
    apply in_rev, filter_In in Hin. destruct Hin as [Hin _].
    rewrite Forall_forall in Hm2. now apply Hm2. }
  destruct (maskFold_same p boldMasks markdown Hp) as [Hlen Hagree].
  { eapply Forall_impl; [|exact Hmasks]. intros mask Hmask.
    pose proof (wrappedSpan_nonempty _ _ Hmask). destruct Hmask as (_ & _ & Hle & _). lia. }
  fold workingText in Hlen, Hagree.
  destruct (MaskingRevision_italicLoop_total markdown workingText boldMasks
              (length workingText) 0 m2) as (m3 & Hm3); [lia|].
  rewrite Hm3.
  apply MaskingRevision_italicLoop_wrapped in Hm3; try assumption.
  2:{ eapply Forall_impl; [|exact Hmasks]. intros mask. apply wrappedSpan_nonempty. }
  destruct (acceptFold_spec markdown (sortByStart m3) [])
    as [Hwf Hdisj]; [now apply sortByStart_Forall | constructor | constructor |].
  set (reps := fold_left MaskingRevision.acceptStep (sortByStart m3) []) in *.
  assert (Hord : inOrder (sortByStart reps)).
  { apply sortByStart_inOrder; [|exact Hdisj].
    eapply Forall_impl; [|exact Hwf]. intros r. apply wrappedSpan_nonempty. }
  exists (sortByStart reps), (buildSegments markdown (sortByStart reps)).
  split; [reflexivity|]. split; [reflexivity|].
  split; [apply buildSegments_strip; [now apply sortByStart_Forall | exact Hord]|].
  split; [now apply sortByStart_Forall | exact Hord].
Qed.

(** With the block character U+2588 for a placeholder the scenario of the
    specification gives the four segments it names. *)
Example MaskingRevision_scenario_block :
  MaskingRevision.parseWith [9608%N] (js "Hello **world** and *friend*")
  = Some [plainSegment (js "Hello "); styledSegment (js "world") Bold;
          plainSegment (js " and "); styledSegment (js "friend") Italic].
Proof. reflexivity. Qed.

(** Without a bold span nothing is masked, and the italic span is found. *)
Example MaskingRevision_italic_alone :
  MaskingRevision.parseMarkdownToFormattedText (js "an *old* thing")
  = Some [plainSegment (js "an "); styledSegment (js "old") Italic;
          plainSegment (js " thing")].
Proof. reflexivity. Qed.

(** The comment in the source says that bold stretches are replaced by
    placeholders of the same length, but the placeholder literal is three
    code units long, so the masked copy is longer than the source and an
    italic match after a bold span has offsets that do not fit the source.
    Here the italic span is accepted at offsets 16 to 19, where the source
    has ["gh "]: the segments keep ["*b*"] and lose ["g"] and a space. *)
Example MaskingRevision_italic_after_bold :
  MaskingRevision.acceptedSpans (js "**a** *b* cd ef gh ij")
  = Some [ {| r_start := 0; r_end := 5; r_text := js "a"; r_format := Bold |};
           {| r_start := 16; r_end := 19; r_text := js "h"; r_format := Italic |} ] /\
  MaskingRevision.parseMarkdownToFormattedText (js "**a** *b* cd ef gh ij")
  = Some [styledSegment (js "a") Bold; plainSegment (js " *b* cd ef ");
          styledSegment (js "h") Italic; plainSegment (js "ij")] /\
  ~ wrappedSpan (js "**a** *b* cd ef gh ij")
      {| r_start := 16; r_end := 19; r_text := js "h"; r_format := Italic |}.
Proof.
  split; [reflexivity|]. split; [reflexivity|].
  intros (_ & _ & _ & Hsub). vm_compute in Hsub. discriminate.
Qed.

(** C1. The scenario of the specification,
    [Hello **world** and *friend*], whose italic span it names as
    recognised. In [markdownParser.ts] the italic pattern first matches
    [*world*] and [* and *], which overlap the bold span and are rejected,
    and [exec] resumes after the opening asterisk of [*friend*]: the span is
    never tried. The masking revision was written for this case, but its
    placeholder is three code units long where its comment says "of same
    length", so the italic match has offsets beyond the end of the source
    and pushes a segment with no text. In both revisions the two asterisks
    stay in the text of the segments. *)
Theorem parseMarkdownToFormattedText_scenario_keeps_asterisks :
  let markdown := js "Hello **world** and *friend*" in
  let named := [plainSegment (js "Hello "); styledSegment (js "world") Bold;
                plainSegment (js " and *friend*")] in
  let masking := named ++ [styledSegment [] Italic] in
  parseMarkdownToFormattedText markdown = Some named /\
  MaskingRevision.parseMarkdownToFormattedText markdown = Some masking /\
  concat (map text named) = js "Hello world and *friend*" /\
  concat (map text masking) = js "Hello world and *friend*" /\
  js "Hello world and *friend*" <> js "Hello world and friend".
Proof. repeat split; try reflexivity. discriminate. Qed.

(* ===================================================================== *)
(** * Further properties *)
(* ===================================================================== *)

(** ** The formatting requests *)

Lemma formattingFold : forall objectId segments requests currentIndex,
  fold_left (formattingStep objectId) segments (requests, currentIndex)
  = (requests ++ requestsFrom objectId currentIndex segments,
     currentIndex + length (plainTextOf segments)).
Proof.
  intros objectId. induction segments as [|segment rest IH]; intros requests idx.
  - cbn. now rewrite app_nil_r, Nat.add_0_r.
  - cbn [fold_left formattingStep requestsFrom]. rewrite IH.
    unfold plainTextOf. cbn [map concat]. rewrite length_app.
    fold (formattingRequest objectId idx segment).
    destruct (needsFormatting segment); cbn [app];
      rewrite <- ?app_assoc; cbn [app]; f_equal; lia.
Qed.

Lemma generateTextFormattingRequests_from : forall objectId segments,
  generateTextFormattingRequests objectId segments = requestsFrom objectId 0 segments.
Proof.
  intros objectId segments. unfold generateTextFormattingRequests.
  now rewrite formattingFold.
Qed.

Lemma requestsFrom_length : forall objectId segments currentIndex,
  length (requestsFrom objectId currentIndex segments)
  = length (filter needsFormatting segments).
Proof.
  intros objectId. induction segments as [|segment rest IH]; intros idx; [reflexivity|].
  cbn [requestsFrom filter]. rewrite length_app, IH.
  destruct (needsFormatting segment); reflexivity.
Qed.

(** The [k]-th request is the one of the [k]-th segment that has a flag. *)
Lemma requestsFrom_nth : forall objectId segments currentIndex k request,
  nth_error (requestsFrom objectId currentIndex segments) k = Some request ->
  exists before segment after,
    segments = before ++ segment :: after /\
    needsFormatting segment = true /\
    length (filter needsFormatting before) = k /\
    request = formattingRequest objectId
                (currentIndex + length (plainTextOf before)) segment.
Proof.
  intros objectId. induction segments as [|segment rest IH]; intros idx k request H.
  - destruct k; discriminate.
  - cbn [requestsFrom] in H. destruct (needsFormatting segment) eqn:Hneeds.
    + destruct k as [|k].
      * injection H as <-. exists [], segment, rest.
        repeat split; trivial. cbn. now rewrite Nat.add_0_r.
      * cbn [app nth_error] in H. apply IH in H.
        destruct H as (before & seg & after & -> & Hseg & Hk & ->).
        exists (segment :: before), seg, after.
        split; [reflexivity|]. split; [exact Hseg|].
        split; [cbn [filter]; rewrite Hneeds; cbn [length]; now f_equal|].
        unfold plainTextOf. cbn [map concat]. rewrite length_app.
        f_equal. lia.
    + cbn [app] in H. apply IH in H.
      destruct H as (before & seg & after & -> & Hseg & Hk & ->).
      exists (segment :: before), seg, after.
      split; [reflexivity|]. split; [exact Hseg|].
      split; [cbn [filter]; now rewrite Hneeds|].
      unfold plainTextOf. cbn [map concat]. rewrite length_app.
      f_equal. lia.
Qed.

(** The text of a segment is where the texts before it end. *)
Lemma plainTextOf_slice : forall before segment after,
  substring (plainTextOf (before ++ segment :: after))
            (length (plainTextOf before))
            (length (plainTextOf before) + length (text segment))
  = text segment.
Proof.
  intros before segment after. unfold plainTextOf.
  rewrite map_app, concat_app. cbn [map concat].
  rewrite substring_firstn_skipn by (rewrite ?length_app; lia).
  rewrite skipn_app, Nat.sub_diag, skipn_all. cbn [skipn app].
  replace (length (concat (map text before)) + length (text segment)
           - length (concat (map text before))) with (length (text segment)) by lia.
  rewrite firstn_app, Nat.sub_diag, firstn_all. cbn [firstn]. apply app_nil_r.
Qed.

(** X1. There is one request per segment that has a flag, in the order of
    the segments, and none for the others. The range of a request starts
    after the texts of all the segments before its own, flagged or not, and
    in the text the callers insert (the texts of the segments joined) it
    holds exactly the text of its segment. *)
Theorem generateTextFormattingRequests_ranges :
  forall (objectId : str) (segments : list FormattedTextSegment),
    let requests := generateTextFormattingRequests objectId segments in
    length requests = length (filter needsFormatting segments) /\
    forall k request,
      nth_error requests k = Some request ->
      exists before segment after,
        segments = before ++ segment :: after /\
        needsFormatting segment = true /\
        length (filter needsFormatting before) = k /\
        uts_objectId request = objectId /\
        uts_style request = styleOf segment /\
        uts_textRange request
          = FIXED_RANGE (length (plainTextOf before))
                        (length (plainTextOf before) + length (text segment)) /\
        substring (plainTextOf segments) (rangeStart request) (rangeEnd request)
          = text segment.
Proof.
  intros objectId segments requests. unfold requests.
  rewrite generateTextFormattingRequests_from.
  split; [apply requestsFrom_length|].
  intros k request H. apply requestsFrom_nth in H.
  destruct H as (before & segment & after & -> & Hseg & Hk & ->).
  exists before, segment, after. cbn [Nat.add].
  repeat split; trivial.
  unfold rangeStart, rangeEnd. cbn [formattingRequest uts_textRange].
  apply plainTextOf_slice.
Qed.

Lemma requestsFrom_bounds : forall objectId segments currentIndex,
  Forall (fun r => currentIndex <= rangeStart r /\ rangeStart r <= rangeEnd r /\
                   rangeEnd r <= currentIndex + length (plainTextOf segments))
         (requestsFrom objectId currentIndex segments).
Proof.
  intros objectId. induction segments as [|segment rest IH]; intros idx; [constructor|].
  cbn [requestsFrom]. unfold plainTextOf. cbn [map concat]. rewrite length_app.
  apply Forall_app; split.
  - destruct (needsFormatting segment); constructor; [|constructor].
    unfold rangeStart, rangeEnd. cbn. lia.
  - eapply Forall_impl; [|apply IH]. cbv beta. unfold plainTextOf.
    intros r Hr. lia.
Qed.

Lemma requestsFrom_sorted : forall objectId segments currentIndex,
  StronglySorted (fun r1 r2 => rangeEnd r1 <= rangeStart r2)
                 (requestsFrom objectId currentIndex segments).
Proof.
  intros objectId. induction segments as [|segment rest IH]; intros idx; [constructor|].
  cbn [requestsFrom]. destruct (needsFormatting segment); cbn [app]; [|apply IH].
  constructor; [apply IH|].
  eapply Forall_impl; [|apply requestsFrom_bounds]. cbv beta.
  unfold rangeEnd at 1. cbn. intros r Hr. lia.
Qed.

(** X2. The ranges of the requests lie within the inserted text, and they
    come in increasing order without overlap: each ends where the next
    starts or before. *)
Theorem generateTextFormattingRequests_disjoint :
  forall (objectId : str) (segments : list FormattedTextSegment),
    let requests := generateTextFormattingRequests objectId segments in
    Forall (fun r => exists s e, uts_textRange r = FIXED_RANGE s e /\
                       s <= e /\ e <= length (plainTextOf segments)) requests /\
    StronglySorted (fun r1 r2 => rangeEnd r1 <= rangeStart r2) requests.
Proof.
  intros objectId segments requests. unfold requests.
  rewrite generateTextFormattingRequests_from.
  split; [|apply requestsFrom_sorted].
  pose proof (requestsFrom_bounds objectId segments 0) as Hb.
  apply Forall_forall. intros r Hin.
  rewrite Forall_forall in Hb. specialize (Hb r Hin).
  assert (Hfix : exists s e, uts_textRange r = FIXED_RANGE s e).
  { apply In_nth_error in Hin. destruct Hin as (k & Hk).
    apply requestsFrom_nth in Hk.
    destruct Hk as (before & segment & after & _ & _ & _ & ->).
    cbn. eauto. }
  destruct Hfix as (s & e & Hr). exists s, e. split; [exact Hr|].
  unfold rangeStart, rangeEnd in Hb. rewrite Hr in Hb. cbn in Hb. lia.
Qed.

(** *** The formatter and the requests together *)

Lemma needsFormatting_styled : forall t f,
  needsFormatting (styledSegment t f) = true.
Proof. intros t []; reflexivity. Qed.

Lemma segmentFold_flagged : forall markdown spans segments textIndex,
  filter needsFormatting
         (fst (fold_left (segmentStep markdown) spans (segments, textIndex)))
  = filter needsFormatting segments
    ++ map (fun r => styledSegment (r_text r) (r_format r)) spans.
Proof.
  intros markdown. induction spans as [|r spans IH]; intros segments ti.
  - cbn. now rewrite app_nil_r.
  - cbn [fold_left segmentStep map]. rewrite IH.
    rewrite filter_app. cbn [filter]. rewrite needsFormatting_styled.
    rewrite <- app_assoc. cbn [app]. f_equal.
    destruct (ti <? r_start r); [|reflexivity].
    destruct (truthy (substring markdown ti (r_start r))); [|reflexivity].
    rewrite filter_app. cbn. apply app_nil_r.
Qed.

(** The segments that have a flag are the styled segments of the spans. *)
Lemma buildSegments_flagged : forall markdown spans,
  filter needsFormatting (buildSegments markdown spans)
  = map (fun r => styledSegment (r_text r) (r_format r)) spans.
Proof.
  intros markdown spans. unfold buildSegments.
  pose proof (segmentFold_flagged markdown spans [] 0) as H.
  destruct (fold_left (segmentStep markdown) spans ([], 0)) as [segments ti].
  cbn [fst filter app] in H.
  assert (H2 : forall extra,
             filter needsFormatting
               (if truthy extra then segments ++ [plainSegment extra] else segments)
             = filter needsFormatting segments).
  { intros extra. destruct (truthy extra); [|reflexivity].
    rewrite filter_app. cbn. apply app_nil_r. }
  match goal with
  | |- filter _ (if length ?s2 =? 0 then _ else _) = _ =>
      assert (Hs2 : filter needsFormatting s2 = filter needsFormatting segments)
  end.
  { destruct (ti <? length markdown); [apply H2 | reflexivity]. }
  match goal with
  | |- filter _ (if ?c then _ else _) = _ => destruct c
  end.
  - rewrite filter_app, Hs2, H. cbn. apply app_nil_r.
  - now rewrite Hs2, H.
Qed.

Lemma Forall2_nth_error : forall (A B : Type) (P : A -> B -> Prop) l1 l2,
  length l1 = length l2 ->
  (forall k a b, nth_error l1 k = Some a -> nth_error l2 k = Some b -> P a b) ->
  Forall2 P l1 l2.
Proof.
  intros A B P. induction l1 as [|a l1 IH]; intros [|b l2] Hlen H;
    try discriminate; constructor.
  - apply (H 0); reflexivity.
  - apply IH; [now injection Hlen|].
    intros k a' b' Ha Hb. apply (H (S k)); assumption.
Qed.

(** X3. For every markdown string the requests generated from the segments
    of [parseMarkdownToFormattedText] are one per accepted span, in order.
    The range of each is not empty and holds, in the plain text of the
    segments, the text of its span; its style sets the flag of the span's
    format and nothing else, and [fields] names that flag alone. *)
Theorem parseMarkdownToFormattedText_requests :
  forall (objectId markdown : str),
  exists spans segments,
    acceptedSpans markdown = Some spans /\
    parseMarkdownToFormattedText markdown = Some segments /\
    Forall2 (fun request span =>
               exists s e,
                 uts_textRange request = FIXED_RANGE s e /\
                 s < e /\
                 substring (plainTextOf segments) s e = r_text span /\
                 uts_style request = formatStyle (r_format span) /\
                 uts_fields request = formatName (r_format span))
            (generateTextFormattingRequests objectId segments) spans.
Proof.
  intros objectId markdown.
  destruct (acceptedSpans_spec markdown) as (spans & Hacc & Hwf & _).
  exists spans, (buildSegments markdown spans).
  split; [exact Hacc|].
  split; [unfold parseMarkdownToFormattedText; now rewrite Hacc|].
  rewrite generateTextFormattingRequests_from.
  pose proof (buildSegments_flagged markdown spans) as Hflag.
  apply Forall2_nth_error.
  - rewrite requestsFrom_length, Hflag. apply length_map.
  - intros k request span Hreq Hspan.
    apply requestsFrom_nth in Hreq.
    destruct Hreq as (before & segment & after & Hsegs & Hneeds & Hk & ->).
    (* the segment is the styled segment of the k-th span *)
    assert (Hseg : segment = styledSegment (r_text span) (r_format span)).
    { rewrite Hsegs, filter_app in Hflag. cbn [filter] in Hflag.
      rewrite Hneeds in Hflag.
      assert (Hnth : nth_error (map (fun r => styledSegment (r_text r) (r_format r)) spans) k
                     = Some segment).
      { rewrite <- Hflag, nth_error_app2 by lia.
        rewrite Hk, Nat.sub_diag. reflexivity. }
      rewrite nth_error_map, Hspan in Hnth. cbn in Hnth. now injection Hnth. }
    rewrite Forall_forall in Hwf.
    pose proof (Hwf span (nth_error_In _ _ Hspan)) as (Htext & _).
    exists (length (plainTextOf before)),
           (length (plainTextOf before) + length (text segment)).
    cbn [Nat.add formattingRequest uts_textRange uts_style uts_fields].
    split; [reflexivity|].
    split.
    { rewrite Hseg. cbn [text styledSegment].
      destruct (r_text span); [contradiction | simpl; lia]. }
    split.
    { rewrite Hsegs, plainTextOf_slice, Hseg. reflexivity. }
    rewrite Hseg. split; destruct (r_format span); reflexivity.
Qed.

(** *** Texts without delimiters, and the shape of the segments *)

(** A pattern does not match in a string that lacks the first character of
    its opening delimiter. *)
Lemma searchFrom_absent : forall re c opening s index,
  sr_open re = c :: opening ->
  includes s c = false ->
  searchFrom re index s = None.
Proof.
  intros re c opening s index Hopen.
  revert index. induction s as [|d s IH]; intros index Hs; cbn [searchFrom];
    unfold matchAt; rewrite Hopen; cbn [isPrefix]; [reflexivity|].
  unfold includes in Hs. cbn [existsb] in Hs.
  apply orb_false_iff in Hs. destruct Hs as [Hd Hs].
  rewrite Hd. cbn [andb]. now apply IH.
Qed.

Lemma scanPattern_absent : forall fuel markdown re type c opening replacements,
  sr_open re = c :: opening ->
  includes markdown c = false ->
  scanPattern fuel markdown re type 0 replacements = Some replacements.
Proof.
  intros fuel markdown re type c opening replacements Hopen Hc.
  assert (Hexec : regexExec re markdown 0 = None).
  { unfold regexExec. cbn [skipn].
    destruct (length markdown <? 0); [reflexivity|].
    eapply searchFrom_absent; eassumption. }
  destruct fuel; cbn [scanPattern]; now rewrite Hexec.
Qed.

(** X4. A markdown string with no asterisk and no underscore comes back as
    one plain segment that holds the whole string. *)
Theorem parseMarkdownToFormattedText_plain : forall markdown : str,
  includes markdown STAR = false ->
  includes markdown UNDERSCORE = false ->
  parseMarkdownToFormattedText markdown = Some [plainSegment markdown].
Proof.
  intros markdown Hstar Hunder.
  unfold parseMarkdownToFormattedText, acceptedSpans, collectReplacements, patterns.
  cbn [foldM fst snd].
  rewrite (scanPattern_absent _ markdown boldRegex Bold STAR [STAR]) by trivial.
  rewrite (scanPattern_absent _ markdown underlineRegex Underline UNDERSCORE [UNDERSCORE])
    by trivial.
  rewrite (scanPattern_absent _ markdown italicRegex Italic STAR []) by trivial.
  cbn [option_map sortByStart fold_right].
  unfold buildSegments. cbn [fold_left]. unfold substringFrom. cbn [skipn].
  destruct markdown as [|c rest]; reflexivity.
Qed.

Lemma parseMarkdownToFormattedText_plain_witness :
  parseMarkdownToFormattedText (js "plain text, no markup")
  = Some [plainSegment (js "plain text, no markup")].
Proof.
  apply (parseMarkdownToFormattedText_plain (js "plain text, no markup")); reflexivity.
Defined.

Lemma segmentFold_shape : forall markdown spans segments textIndex,
  Forall (wrappedSpan markdown) spans ->
  Forall (fun s => segmentShape s /\ text s <> []) segments ->
  Forall (fun s => segmentShape s /\ text s <> [])
         (fst (fold_left (segmentStep markdown) spans (segments, textIndex))).
Proof.
  intros markdown. induction spans as [|r spans IH]; intros segments ti Hwf Hsegs;
    [exact Hsegs|].
  inversion Hwf as [|? ? (Htext & _) Hwf']; subst.
  cbn [fold_left segmentStep]. apply IH; [exact Hwf'|].
  apply Forall_app; split.
  - destruct (ti <? r_start r); [|exact Hsegs].
    destruct (truthy (substring markdown ti (r_start r))) eqn:Ht; [|exact Hsegs].
    apply Forall_app; split; [exact Hsegs|]. constructor; [|constructor].
    split; [now left|]. cbn [text plainSegment].
    intros Hnil. rewrite Hnil in Ht. discriminate.
  - constructor; [|constructor]. split; [right; eexists; reflexivity | exact Htext].
Qed.

Lemma segmentFold_length : forall markdown spans segments textIndex,
  length segments + length spans
  <= length (fst (fold_left (segmentStep markdown) spans (segments, textIndex))).
Proof.
  intros markdown. induction spans as [|r spans IH]; intros segments ti;
    [cbn; lia|].
  cbn [fold_left segmentStep length].
  etransitivity; [|apply IH]. rewrite !length_app. cbn [length].
  destruct (ti <? r_start r); [|lia].
  destruct (truthy (substring markdown ti (r_start r))); [|lia].
  rewrite length_app. cbn [length]. lia.
Qed.

Lemma buildSegments_nil : forall markdown,
  buildSegments markdown [] = [plainSegment markdown].
Proof. intros [|c rest]; reflexivity. Qed.

(** The segments for genuine spans: never none, each plain or styled, and
    with a text that is not empty unless the source is. *)
Lemma buildSegments_shape : forall markdown spans,
  Forall (wrappedSpan markdown) spans ->
  buildSegments markdown spans <> [] /\
  Forall segmentShape (buildSegments markdown spans) /\
  (markdown <> [] -> Forall (fun s => text s <> []) (buildSegments markdown spans)) /\
  (markdown = [] -> buildSegments markdown spans = [plainSegment []]).
Proof.
  intros markdown spans Hwf.
  destruct spans as [|r spans'].
  { rewrite buildSegments_nil. split; [discriminate|].
    split; [constructor; [now left | constructor]|].
    split; [|now intros ->].
    intros Hne. constructor; [exact Hne | constructor]. }
  assert (Hmd : markdown <> []).
  { inversion Hwf as [|? ? Hr _]; subst.
    pose proof (wrappedSpan_nonempty _ _ Hr) as Hne.
    destruct Hr as (_ & _ & Hle & _). intros ->. cbn in Hle. lia. }
  set (spans := r :: spans') in *.
  unfold buildSegments.
  pose proof (segmentFold_shape markdown spans [] 0 Hwf (Forall_nil _)) as Hshape.
  pose proof (segmentFold_length markdown spans [] 0) as Hlen.
  destruct (fold_left (segmentStep markdown) spans ([], 0)) as [segments ti].
  cbn [fst length] in Hshape, Hlen. unfold spans in Hlen. cbn [length] in Hlen.
  set (segments2 :=
         if ti <? length markdown
         then if truthy (substringFrom markdown ti)
              then segments ++ [plainSegment (substringFrom markdown ti)]
              else segments
         else segments).
  assert (H2 : Forall (fun s => segmentShape s /\ text s <> []) segments2).
  { unfold segments2. destruct (ti <? length markdown); [|exact Hshape].
    destruct (truthy (substringFrom markdown ti)) eqn:Ht; [|exact Hshape].
    apply Forall_app; split; [exact Hshape|]. constructor; [|constructor].
    split; [now left|]. cbn [text plainSegment].
    intros Hnil. rewrite Hnil in Ht. discriminate. }
  assert (Hlen2 : 0 < length segments2).
  { unfold segments2. destruct (ti <? length markdown); [|lia].
    destruct (truthy (substringFrom markdown ti)); [|lia].
    rewrite length_app. lia. }
  replace (length segments2 =? 0) with false by (symmetry; apply Nat.eqb_neq; lia).
  split; [intros Hnil; rewrite Hnil in Hlen2; cbn in Hlen2; lia|].
  split; [eapply Forall_impl; [|exact H2]; now intros s [Hs _]|].
  split; [intros _; eapply Forall_impl; [|exact H2]; now intros s [_ Hs]|].
  intros Hm. contradiction.
Qed.

(** X5. The formatter never returns an empty array. Every segment is plain
    or carries exactly one of the three formats, with no font size; and
    unless the markdown string is empty, no segment has an empty text. For
    the empty string the result is one plain segment with the empty text. *)
Theorem parseMarkdownToFormattedText_segments : forall markdown : str,
  exists segments,
    parseMarkdownToFormattedText markdown = Some segments /\
    segments <> [] /\
    Forall segmentShape segments /\
    (markdown <> [] -> Forall (fun s => text s <> []) segments) /\
    (markdown = [] -> segments = [plainSegment []]).
Proof.
  intros markdown.
  destruct (acceptedSpans_spec markdown) as (spans & Hacc & Hwf & _).
  exists (buildSegments markdown spans).
  split; [unfold parseMarkdownToFormattedText; now rewrite Hacc|].
  now apply buildSegments_shape.
Qed.

(** *** One span between plain texts *)

Lemma includes_app : forall s1 s2 c,
  includes (s1 ++ s2) c = (includes s1 c || includes s2 c)%bool.
Proof. intros s1 s2 c. unfold includes. apply existsb_app. Qed.

Lemma searchFrom_hit : forall re index s cap,
  matchAt re s = Some cap ->
  searchFrom re index s
  = Some {| m_index := index; m_0 := sr_open re ++ cap ++ sr_close re; m_1 := cap |}.
Proof. intros re index [|c s] cap H; cbn [searchFrom]; now rewrite H. Qed.

Lemma searchFrom_miss : forall re index c s,
  matchAt re (c :: s) = None ->
  searchFrom re index (c :: s) = searchFrom re (S index) s.
Proof. intros re index c s H. cbn [searchFrom]. now rewrite H. Qed.

(** The search passes over a stretch that lacks the first character of the
    opening delimiter. *)
Lemma searchFrom_skip : forall re c opening before s index,
  sr_open re = c :: opening ->
  includes before c = false ->
  searchFrom re index (before ++ s) = searchFrom re (index + length before) s.
Proof.
  intros re c opening before s index Hopen.
  revert index. induction before as [|d before IH]; intros index Hb.
  - cbn. now rewrite Nat.add_0_r.
  - unfold includes in Hb. cbn [existsb] in Hb.
    apply orb_false_iff in Hb. destruct Hb as [Hd Hb].
    cbn [app]. rewrite searchFrom_miss.
    + rewrite IH by exact Hb. f_equal. cbn [length]. lia.
    + unfold matchAt. rewrite Hopen. cbn [isPrefix]. now rewrite Hd.
Qed.

Lemma groupGreedy_cons : forall excluded close x s,
  groupGreedy excluded close (x :: s)
  = if excluded x then None
    else match groupGreedy excluded close s with
         | Some cap => Some (x :: cap)
         | None => if isPrefix close s then Some [x] else None
         end.
Proof. reflexivity. Qed.

Lemma isPrefix_self : forall d rest, isPrefix d (d ++ rest) = true.
Proof.
  induction d as [|a d IH]; intros rest; [reflexivity|].
  cbn [app isPrefix]. now rewrite N.eqb_refl, IH.
Qed.

(** The group takes a run of admitted characters that the closing delimiter
    follows, when the delimiter starts with an excluded character. *)
Lemma groupGreedy_run : forall excluded c closing t rest,
  t <> [] ->
  forallb (fun x => negb (excluded x)) t = true ->
  excluded c = true ->
  groupGreedy excluded (c :: closing) (t ++ (c :: closing) ++ rest) = Some t.
Proof.
  intros excluded c closing t rest Hne Hall Hc.
  induction t as [|x t IH]; [contradiction|].
  cbn [forallb] in Hall. apply andb_true_iff in Hall. destruct Hall as [Hx Hall].
  apply negb_true_iff in Hx.
  change ((x :: t) ++ (c :: closing) ++ rest) with (x :: (t ++ (c :: closing) ++ rest)).
  rewrite groupGreedy_cons, Hx.
  destruct t as [|y t].
  - change ([] ++ (c :: closing) ++ rest) with (c :: (closing ++ rest)).
    rewrite groupGreedy_cons, Hc.
    change (c :: closing ++ rest) with ((c :: closing) ++ rest).
    now rewrite isPrefix_self.
  - rewrite IH; [reflexivity | discriminate | exact Hall].
Qed.

(** The group fails in a string that lacks the first character of the
    closing delimiter. *)
Lemma groupGreedy_none : forall excluded c closing s,
  includes s c = false ->
  groupGreedy excluded (c :: closing) s = None.
Proof.
  intros excluded c closing. induction s as [|x s IH]; intros Hs; [reflexivity|].
  unfold includes in Hs. cbn [existsb] in Hs.
  apply orb_false_iff in Hs. destruct Hs as [_ Hs].
  cbn [groupGreedy]. destruct (excluded x); [reflexivity|].
  rewrite IH by exact Hs.
  destruct s as [|y s]; [reflexivity|].
  unfold includes in Hs. cbn [existsb] in Hs.
  apply orb_false_iff in Hs. destruct Hs as [Hy _].
  cbn [isPrefix]. now rewrite Hy.
Qed.

Lemma regexExec_search : forall re input lastIndex,
  lastIndex <= length input ->
  regexExec re input lastIndex = searchFrom re lastIndex (skipn lastIndex input).
Proof.
  intros re input lastIndex H. unfold regexExec.
  replace (length input <? lastIndex) with false; [reflexivity|].
  symmetry. apply Nat.ltb_ge. exact H.
Qed.

Lemma scanPattern_done : forall fuel markdown re type lastIndex replacements,
  regexExec re markdown lastIndex = None ->
  scanPattern fuel markdown re type lastIndex replacements = Some replacements.
Proof. intros [|fuel] * H; cbn [scanPattern]; now rewrite H. Qed.

Lemma noStar_forallb : forall t,
  includes t STAR = false -> forallb (fun x => negb (N.eqb STAR x)) t = true.
Proof.
  induction t as [|x t IH]; intros H; [reflexivity|].
  unfold includes in H. cbn [existsb] in H.
  apply orb_false_iff in H. destruct H as [Hx Ht].
  cbn [forallb]. rewrite Hx. now apply IH.
Qed.

Lemma noUnderscore_forallb : forall t,
  includes t UNDERSCORE = false ->
  forallb (fun x => negb (N.eqb UNDERSCORE x)) t = true.
Proof.
  induction t as [|x t IH]; intros H; [reflexivity|].
  unfold includes in H. cbn [existsb] in H.
  apply orb_false_iff in H. destruct H as [Hx Ht].
  cbn [forallb]. rewrite Hx. now apply IH.
Qed.

(** One pattern on [before ++ d ++ t ++ d ++ after], where [d] is its
    delimiter and the other stretches lack the delimiter's character: the
    loop pushes the span of [t] and nothing else. *)
Lemma scanPattern_one : forall re type c closing before t after replacements,
  sr_open re = c :: closing ->
  sr_close re = c :: closing ->
  sr_lazy re = false ->
  sr_excluded re = N.eqb c ->
  includes before c = false ->
  includes t c = false ->
  includes after c = false ->
  t <> [] ->
  let d := c :: closing in
  let markdown := before ++ d ++ t ++ d ++ after in
  overlapsAny (length before) (length before + length (d ++ t ++ d)) replacements
    = false ->
  scanPattern (length markdown) markdown re type 0 replacements
  = Some (replacements
          ++ [{| r_start := length before;
                 r_end := length before + length (d ++ t ++ d);
                 r_text := t; r_format := type |}]).
Proof.
  intros re type c closing before t after replacements
         Hopen Hclose Hlazy Hexcl Hb Ht Ha Hne d markdown Hov.
  assert (Hforall : forallb (fun x => negb (N.eqb c x)) t = true).
  { clear - Ht. induction t as [|x t IH]; [reflexivity|].
    unfold includes in Ht. cbn [existsb] in Ht.
    apply orb_false_iff in Ht. destruct Ht as [Hx Ht].
    cbn [forallb]. rewrite Hx. now apply IH. }
  assert (Hmatch : matchAt re (d ++ t ++ d ++ after) = Some t).
  { unfold matchAt. rewrite Hopen, Hclose, Hlazy, Hexcl. fold d.
    rewrite isPrefix_self, skipn_app, Nat.sub_diag, skipn_all. cbn [skipn app].
    apply groupGreedy_run; [exact Hne | exact Hforall | apply N.eqb_refl]. }
  assert (Hexec : regexExec re markdown 0
                  = Some {| m_index := length before; m_0 := d ++ t ++ d; m_1 := t |}).
  { rewrite regexExec_search by lia. cbn [skipn]. unfold markdown.
    rewrite (searchFrom_skip re c closing) by assumption.
    rewrite (searchFrom_hit re _ _ t Hmatch). now rewrite Hopen, Hclose. }
  assert (Hlen : length markdown
                 = length before + length (d ++ t ++ d) + length after).
  { unfold markdown. rewrite !length_app. lia. }
  destruct (length markdown) as [|fuel] eqn:Hfuel.
  { rewrite !length_app in Hlen. unfold d in Hlen. cbn [length] in Hlen. lia. }
  cbn [scanPattern]. rewrite Hexec. cbn [m_index m_0 m_1]. rewrite Hov. cbn [negb].
  apply scanPattern_done.
  rewrite regexExec_search by (rewrite Hfuel; lia).
  assert (Hskip : skipn (length before + length (d ++ t ++ d)) markdown = after).
  { unfold markdown.
    replace (before ++ d ++ t ++ d ++ after)
      with ((before ++ d ++ t ++ d) ++ after) by (now rewrite <- !app_assoc).
    replace (length before + length (d ++ t ++ d))
      with (length (before ++ d ++ t ++ d)) by (rewrite !length_app; lia).
    rewrite skipn_app, Nat.sub_diag, skipn_all. reflexivity. }
  rewrite Hskip. eapply searchFrom_absent; eassumption.
Qed.

(** The segments for one span between two texts. *)
Lemma buildSegments_one : forall before middle after t f,
  middle <> [] ->
  buildSegments (before ++ middle ++ after)
    [{| r_start := length before; r_end := length before + length middle;
        r_text := t; r_format := f |}]
  = plainIfAny before ++ [styledSegment t f] ++ plainIfAny after.
Proof.
  intros before middle after t f Hmid.
  unfold buildSegments. cbn [fold_left segmentStep r_start r_end r_text r_format].
  assert (Hgap : substring (before ++ middle ++ after) 0 (length before) = before).
  { rewrite substring_0 by (rewrite length_app; lia).
    rewrite firstn_app, Nat.sub_diag, firstn_all. cbn [firstn]. apply app_nil_r. }
  assert (Hrest : substringFrom (before ++ middle ++ after)
                    (length before + length middle) = after).
  { unfold substringFrom. rewrite app_assoc.
    replace (length before + length middle) with (length (before ++ middle))
      by (rewrite length_app; lia).
    rewrite skipn_app, Nat.sub_diag, skipn_all. reflexivity. }
  rewrite Hgap, Hrest. unfold plainIfAny.
  assert (H1 : (if 0 <? length before
                then if truthy before then [] ++ [plainSegment before] else []
                else [])
               = if truthy before then [plainSegment before] else []).
  { destruct before; reflexivity. }
  rewrite H1.
  assert (H2 : (length before + length middle <? length (before ++ middle ++ after))
               = truthy after).
  { rewrite !length_app. destruct after as [|a after]; cbn [truthy length].
    - apply Nat.ltb_ge. lia.
    - apply Nat.ltb_lt. lia. }
  rewrite H2.
  destruct (truthy before), (truthy after) eqn:Hafter;
    try rewrite Hafter; reflexivity.
Qed.

Lemma includes_cons : forall x s c,
  includes (x :: s) c = (N.eqb c x || includes s c)%bool.
Proof. reflexivity. Qed.

(** [includes] of a concatenation, by its parts. *)
Ltac includes_parts :=
  repeat (rewrite includes_app || rewrite includes_cons).

(** The bold pattern passes over an asterisk that no asterisk follows. *)
Lemma searchFrom_bold_lone_star : forall before rest index,
  includes before STAR = false ->
  match rest with [] => True | x :: _ => N.eqb STAR x = false end ->
  searchFrom boldRegex index (before ++ STAR :: rest)
  = searchFrom boldRegex (index + length before + 1) rest.
Proof.
  intros before rest index Hb Hrest.
  rewrite (searchFrom_skip boldRegex STAR [STAR]) by trivial.
  rewrite searchFrom_miss; [f_equal; lia|].
  unfold matchAt. cbn [boldRegex sr_open isPrefix].
  destruct rest as [|x rest]; [reflexivity|]. now rewrite Hrest.
Qed.

Lemma head_not : forall (s rest : str) (c : char),
  includes s c = false -> s <> [] ->
  match s ++ rest with [] => True | x :: _ => N.eqb c x = false end.
Proof.
  intros [|x s] rest c H Hne; [contradiction|].
  unfold includes in H. cbn [existsb] in H.
  apply orb_false_iff in H. now destruct H.
Qed.

Lemma head_not_all : forall (s : str) (c : char),
  includes s c = false ->
  match s with [] => True | x :: _ => N.eqb c x = false end.
Proof.
  intros [|x s] c H; [exact I|].
  unfold includes in H. cbn [existsb] in H.
  apply orb_false_iff in H. now destruct H.
Qed.

(** The accepted spans of [before ++ d ++ t ++ d ++ after], where [d] is the
    delimiter of a format and the three stretches have no asterisk and no
    underscore: the span of [t], alone. *)
Lemma acceptedSpans_one : forall f before t after,
  noDelimiter before -> noDelimiter t -> noDelimiter after -> t <> [] ->
  let d := delimiterOf f in
  acceptedSpans (before ++ d ++ t ++ d ++ after)
  = Some [{| r_start := length before;
             r_end := length before + length (d ++ t ++ d);
             r_text := t; r_format := f |}].
Proof.
  intros f before t after [Hbs Hbu] [Hts Htu] [Has Hau] Hne d.
  unfold acceptedSpans, collectReplacements, patterns. cbn [foldM fst snd].
  destruct f; unfold d; cbn [delimiterOf].
  - (* bold *)
    rewrite (scanPattern_one boldRegex Bold STAR [STAR] before t after [])
      by (trivial; reflexivity).
    rewrite app_nil_l.
    rewrite (scanPattern_absent _ _ underlineRegex Underline UNDERSCORE [UNDERSCORE]).
    2: reflexivity.
    2:{ includes_parts. rewrite Hbu, Htu, Hau. reflexivity. }
    set (span := {| r_start := length before;
                    r_end := length before + length ([STAR; STAR] ++ t ++ [STAR; STAR]);
                    r_text := t; r_format := Bold |}).
    set (markdown := before ++ [STAR; STAR] ++ t ++ [STAR; STAR] ++ after).
    assert (Hlen : length markdown = length before + (length t + 4) + length after).
    { unfold markdown. rewrite !length_app. cbn [length]. lia. }
    (* the italic pattern matches from the second asterisk, inside the span *)
    assert (Hexec1 : regexExec italicRegex markdown 0
                     = Some {| m_index := length before + 1;
                               m_0 := [STAR] ++ t ++ [STAR]; m_1 := t |}).
    { rewrite regexExec_search by lia. cbn [skipn]. unfold markdown.
      rewrite (searchFrom_skip italicRegex STAR []) by trivial.
      cbn [app]. rewrite searchFrom_miss by reflexivity.
      replace (S (0 + length before)) with (length before + 1) by lia.
      apply (searchFrom_hit italicRegex). unfold matchAt.
      cbn [italicRegex sr_open sr_lazy sr_excluded sr_close isPrefix length skipn].
      rewrite N.eqb_refl. cbn [andb].
      change (t ++ STAR :: STAR :: after) with (t ++ [STAR] ++ (STAR :: after)).
      apply groupGreedy_run; [exact Hne | now apply noStar_forallb | reflexivity]. }
    assert (Hexec2 : regexExec italicRegex markdown (length before + 1 + (length t + 2))
                     = None).
    { rewrite regexExec_search by lia.
      assert (Hskip : skipn (length before + 1 + (length t + 2)) markdown = STAR :: after).
      { unfold markdown.
        replace (before ++ [STAR; STAR] ++ t ++ [STAR; STAR] ++ after)
          with ((before ++ [STAR; STAR] ++ t ++ [STAR]) ++ STAR :: after)
          by (now rewrite <- !app_assoc).
        replace (length before + 1 + (length t + 2))
          with (length (before ++ [STAR; STAR] ++ t ++ [STAR]))
          by (rewrite !length_app; cbn [length]; lia).
        rewrite skipn_app, Nat.sub_diag, skipn_all. reflexivity. }
      rewrite Hskip. rewrite searchFrom_miss.
      - now apply (searchFrom_absent italicRegex STAR []).
      - unfold matchAt.
        cbn [italicRegex sr_open sr_lazy sr_excluded sr_close isPrefix length skipn].
        rewrite N.eqb_refl. cbn [andb]. now apply groupGreedy_none. }
    destruct (length markdown) as [|fuel] eqn:Hfuel; [lia|].
    cbn [scanPattern]. rewrite Hexec1. cbn [m_index m_0 m_1].
    assert (Hov : overlapsAny (length before + 1)
                    (length before + 1 + length ([STAR] ++ t ++ [STAR])) [span] = true).
    { unfold overlapsAny, span. cbn [existsb r_start r_end].
      replace (length before <=? length before + 1) with true
        by (symmetry; apply Nat.leb_le; lia).
      replace (length before + 1 <? length before + length ([STAR; STAR] ++ t ++ [STAR; STAR]))
        with true
        by (symmetry; apply Nat.ltb_lt; rewrite !length_app; cbn [length]; lia).
      reflexivity. }
    rewrite Hov. cbn [negb].
    replace (length ([STAR] ++ t ++ [STAR])) with (length t + 2)
      by (rewrite !length_app; cbn [length]; lia).
    rewrite (scanPattern_done fuel markdown italicRegex Italic _ [span] Hexec2).
    reflexivity.
  - (* italic *)
    assert (Hbold : regexExec boldRegex (before ++ [STAR] ++ t ++ [STAR] ++ after) 0 = None).
    { rewrite regexExec_search by lia. cbn [skipn app].
      rewrite searchFrom_bold_lone_star; [|exact Hbs | now apply head_not].
      rewrite searchFrom_bold_lone_star; [|exact Hts | now apply head_not_all].
      now apply (searchFrom_absent boldRegex STAR [STAR]). }
    rewrite (scanPattern_done _ _ boldRegex Bold 0 [] Hbold).
    rewrite (scanPattern_absent _ _ underlineRegex Underline UNDERSCORE [UNDERSCORE]).
    2: reflexivity.
    2:{ includes_parts. rewrite Hbu, Htu, Hau. reflexivity. }
    rewrite (scanPattern_one italicRegex Italic STAR [] before t after [])
      by (trivial; reflexivity).
    reflexivity.
  - (* underline *)
    rewrite (scanPattern_absent _ _ boldRegex Bold STAR [STAR]).
    2: reflexivity.
    2:{ includes_parts. rewrite Hbs, Hts, Has. reflexivity. }
    rewrite (scanPattern_one underlineRegex Underline UNDERSCORE [UNDERSCORE]
               before t after []) by (trivial; reflexivity).
    rewrite app_nil_l.
    rewrite (scanPattern_absent _ _ italicRegex Italic STAR []).
    2: reflexivity.
    2:{ includes_parts. rewrite Hbs, Hts, Has. reflexivity. }
    reflexivity.
Qed.

(** X6. One span between plain texts. For a text [t] that is not empty and
    stretches [before] and [after], all three without an asterisk or an
    underscore, the markdown string [before ++ d ++ t ++ d ++ after], where
    [d] is the delimiter of bold, italic or underline, gives the plain
    segment of [before] (when it is not empty), the segment of [t] with that
    format, and the plain segment of [after] (when it is not empty). *)
Theorem parseMarkdownToFormattedText_one_span :
  forall (f : Format) (before t after : str),
    noDelimiter before -> noDelimiter t -> noDelimiter after -> t <> [] ->
    parseMarkdownToFormattedText
      (before ++ delimiterOf f ++ t ++ delimiterOf f ++ after)
    = Some (plainIfAny before ++ [styledSegment t f] ++ plainIfAny after).
Proof.
  intros f before t after Hb Ht Ha Hne.
  unfold parseMarkdownToFormattedText.
  rewrite (acceptedSpans_one f before t after Hb Ht Ha Hne). cbn [option_map].
  f_equal.
  replace (before ++ delimiterOf f ++ t ++ delimiterOf f ++ after)
    with (before ++ (delimiterOf f ++ t ++ delimiterOf f) ++ after)
    by (now rewrite <- !app_assoc).
  apply buildSegments_one.
  destruct f; discriminate.
Qed.

Lemma parseMarkdownToFormattedText_one_span_witness :
  parseMarkdownToFormattedText (js "Hello **world**!")
  = Some [plainSegment (js "Hello "); styledSegment (js "world") Bold;
          plainSegment (js "!")].
Proof.
  apply (parseMarkdownToFormattedText_one_span Bold (js "Hello ") (js "world") (js "!"));
    (split; reflexivity) || discriminate.
Defined.

(* ===================================================================== *)
(** ** Truncation *)
(* ===================================================================== *)

(** Where [lastIndexOf] points: the needle, with no other occurrence after
    it; [-1] exactly when the needle does not occur. *)
Lemma lastIndexOf_spec (s : str) (c : char) :
  (lastIndexOf s c = (-1)%Z /\ ~ In c s) \/
  (exists pre rest, s = pre ++ c :: rest /\ ~ In c rest /\
                    lastIndexOf s c = Z.of_nat (length pre)).
Proof.
  induction s as [|d s IH]; [left; split; [reflexivity | intros []] |].
  cbn [lastIndexOf].
  destruct IH as [[Hi Hno] | (pre & rest & Hs & Hno & Hi)].
  - rewrite Hi. change (0 <=? -1)%Z with false. cbv iota.
    destruct (N.eqb d c) eqn:Hd.
    + apply N.eqb_eq in Hd. subst d. right. exists [], s. auto.
    + apply N.eqb_neq in Hd. left. split; [reflexivity |].
      intros [H | H]; [congruence | auto].
  - right. exists (d :: pre), rest. rewrite Hi.
    replace (0 <=? Z.of_nat (length pre))%Z with true
      by (symmetry; apply Z.leb_le; lia).
    split; [rewrite Hs; reflexivity |]. split; [assumption |].
    cbn [length]. lia.
Qed.

Lemma binary_round_aux_sign (sx : bool) (mx ex : Z) (lx : SpecFloat.location) :
  signIs sx (SpecFloat.binary_round_aux FloatOps.prec FloatOps.emax sx mx ex lx).
Proof.
  unfold SpecFloat.binary_round_aux.
  destruct (SpecFloat.shr_fexp _ _ mx ex lx) as [mrs' e'].
  destruct (SpecFloat.shr_fexp _ _ _ e' SpecFloat.loc_Exact) as [mrs'' e''].
  destruct (SpecFloat.shr_m mrs''); [reflexivity | | exact I].
  destruct (Z.leb _ _); reflexivity.
Qed.

(** A natural number as a double is not negative. *)
Lemma float_of_nat_sign (n : nat) :
  signIs false (FloatOps.Prim2SF (float_of_nat n)).
Proof.
  unfold float_of_nat, float_of_Z.
  assert (H : PrimFloat.of_uint63 (Uint63.of_Z (Z.of_nat n))
              = match Z.of_nat n with
                | Zneg p => PrimFloat.opp (PrimFloat.of_uint63 (Uint63.of_Z (Zpos p)))
                | _ => PrimFloat.of_uint63 (Uint63.of_Z (Z.of_nat n))
                end)
    by (destruct (Z.of_nat n) eqn:E; [reflexivity | reflexivity | lia]).
  rewrite <- H, FloatAxioms.of_uint63_spec.
  unfold SpecFloat.binary_normalize.
  pose proof (Uint63.to_Z_bounded (Uint63.of_Z (Z.of_nat n))) as Hb.
  destruct (Uint63.to_Z (Uint63.of_Z (Z.of_nat n))); [reflexivity | | lia].
  unfold SpecFloat.binary_round.
  destruct (SpecFloat.shl_align _ _ _) as [mz ez].
  apply binary_round_aux_sign.
Qed.

(** [maxLength * 0.8] is not below an index that is [0] or [-1]. *)
Lemma boundary_not_below (maxLength : nat) (i : Z) :
  (-1 <= i <= 0)%Z ->
  PrimFloat.ltb (PrimFloat.mul (float_of_nat maxLength) WORD_BOUNDARY_FACTOR)
                (float_of_Z i) = false.
Proof.
  intros Hi.
  rewrite FloatAxioms.ltb_spec, FloatAxioms.mul_spec.
  pose proof (float_of_nat_sign maxLength) as Hs.
  assert (Hp : signIs false
                 (FloatAxioms.SF64mul (FloatOps.Prim2SF (float_of_nat maxLength))
                    (FloatOps.Prim2SF WORD_BOUNDARY_FACTOR))).
  { replace (FloatOps.Prim2SF WORD_BOUNDARY_FACTOR)
      with (SpecFloat.S754_finite false 7205759403792794 (-53))
      by (vm_compute; reflexivity).
    destruct (FloatOps.Prim2SF (float_of_nat maxLength)) as [s | s | | s m e];
      cbn [signIs] in Hs; try subst s; try exact I; try reflexivity.
    unfold FloatAxioms.SF64mul, SpecFloat.SFmul.
    apply binary_round_aux_sign. }
  assert (Hc : i = (-1)%Z \/ i = 0%Z) by lia.
  destruct Hc as [-> | ->].
  - replace (FloatOps.Prim2SF (float_of_Z (-1)))
      with (SpecFloat.S754_finite true 4503599627370496 (-52))
      by (vm_compute; reflexivity).
    destruct (FloatAxioms.SF64mul _ _) as [s | s | | s m e];
      cbn [signIs] in Hp; try subst s; reflexivity.
  - replace (FloatOps.Prim2SF (float_of_Z 0))
      with (SpecFloat.S754_zero false)
      by (vm_compute; reflexivity).
    destruct (FloatAxioms.SF64mul _ _) as [s | s | | s m e];
      cbn [signIs] in Hp; try subst s; reflexivity.
Qed.

(** The two exits of [truncateText] for a text over the limit. *)
Lemma truncateText_long (text : str) (maxLength : nat) :
  maxLength < length text ->
  let truncated := firstn maxLength text in
  let lastSpace := lastIndexOf truncated SP in
  truncateText text maxLength =
    (if PrimFloat.ltb (PrimFloat.mul (float_of_nat maxLength) WORD_BOUNDARY_FACTOR)
                      (float_of_Z lastSpace)
     then firstn (Z.to_nat lastSpace) truncated
     else truncated) ++ ELLIPSIS.
Proof.
  intros Hlong. cbv zeta. unfold truncateText.
  replace (length text <=? maxLength) with false
    by (symmetry; apply Nat.leb_gt; lia).
  rewrite (substring_0 text maxLength) by lia.
  destruct (PrimFloat.ltb _ _); [| reflexivity].
  rewrite substring_0; [reflexivity |].
  destruct (lastIndexOf_spec (firstn maxLength text) SP)
    as [[Hi _] | (pre & rest & Hs & _ & Hi)]; rewrite Hi.
  - simpl. lia.
  - rewrite Nat2Z.id, Hs, length_app. lia.
Qed.

(** X7. A text over the limit is cut and closed by three dots. What is kept
    is the first [maxLength] characters, or, when the comparison with
    [maxLength * 0.8] chooses the word boundary, these characters up to
    their last space: the space and the space-free stretch after it are
    dropped, and what is kept is not empty. *)
Theorem truncateText_cut (text : str) (maxLength : nat) :
  maxLength < length text ->
  exists kept,
    truncateText text maxLength = kept ++ ELLIPSIS /\
    (kept = firstn maxLength text \/
     exists rest, firstn maxLength text = kept ++ SP :: rest /\
                  ~ In SP rest /\ kept <> []).
Proof.
  intros Hlong. rewrite truncateText_long by assumption. cbv zeta.
  destruct (PrimFloat.ltb _ _) eqn:Hcmp.
  - destruct (lastIndexOf_spec (firstn maxLength text) SP)
      as [[Hi _] | (pre & rest & Hs & Hno & Hi)].
    + rewrite Hi, boundary_not_below in Hcmp by lia. discriminate.
    + exists pre. rewrite Hi, Nat2Z.id. rewrite Hs at 1.
      rewrite firstn_app, Nat.sub_diag, firstn_all. cbn [firstn].
      rewrite app_nil_r. split; [reflexivity |]. right.
      exists rest. split; [assumption |]. split; [assumption |].
      intros ->. rewrite Hi, boundary_not_below in Hcmp by (simpl; lia).
      discriminate.
  - eexists. split; [reflexivity |]. left. reflexivity.
Qed.

Lemma truncateText_cut_witness :
  exists kept,
    truncateText (js "hello brave new world") 18 = kept ++ ELLIPSIS /\
    (kept = firstn 18 (js "hello brave new world") \/
     exists rest, firstn 18 (js "hello brave new world") = kept ++ SP :: rest /\
                  ~ In SP rest /\ kept <> []).
Proof.
  apply (truncateText_cut (js "hello brave new world") 18).
  vm_compute. lia.
Defined.

(** X8. The result of [truncateText] is never longer than the limit plus the
    three dots, and a text without a space among its first [maxLength]
    characters is cut at the limit exactly. *)
Theorem truncateText_length (text : str) (maxLength : nat) :
  length (truncateText text maxLength) <= maxLength + 3 /\
  (maxLength < length text -> ~ In SP (firstn maxLength text) ->
   truncateText text maxLength = firstn maxLength text ++ ELLIPSIS).
Proof.
  split.
  - destruct (Nat.leb_spec (length text) maxLength) as [Hshort | Hlong].
    + unfold truncateText.
      replace (length text <=? maxLength) with true
        by (symmetry; apply Nat.leb_le; lia). lia.
    + rewrite truncateText_long by assumption. cbv zeta.
      rewrite length_app. unfold ELLIPSIS. cbn [length].
      destruct (PrimFloat.ltb _ _); rewrite ?length_firstn; lia.
  - intros Hlong Hno. rewrite truncateText_long by assumption. cbv zeta.
    destruct (lastIndexOf_spec (firstn maxLength text) SP)
      as [[Hi _] | (pre & rest & Hs & _ & _)].
    + rewrite Hi, boundary_not_below by lia. reflexivity.
    + exfalso. apply Hno. rewrite Hs. apply in_or_app. right. left. reflexivity.
Qed.

(* ===================================================================== *)
(** ** The text partitioner, further *)
(* ===================================================================== *)

Lemma hardChunkLoop_None (n : nat) (slides : list Chunk) (sentence : str) :
  hardChunkLoop n (length sentence) slides sentence = None
  <-> n <= 3 /\ n < length sentence.
Proof.
  split.
  - intros Hnone. destruct (le_lt_dec n 3) as [Hsmall | Hbig].
    + split; [assumption |].
      destruct (Nat.ltb_spec n (length sentence)) as [Hlt | Hge]; [assumption |].
      exfalso. revert Hnone. generalize (length sentence) at 1 as fuel.
      intros fuel. destruct fuel as [|fuel]; cbn [hardChunkLoop];
        (replace (n <? length sentence) with false
           by (symmetry; apply Nat.ltb_ge; lia)); discriminate.
    + destruct (hardChunkLoop_total n (length sentence) slides sentence Hbig (le_n _))
        as (st & Hst). congruence.
  - intros [Hsmall Hlong]. now apply hardChunkLoop_stuck.
Qed.

Lemma sentenceStep_None (n : nat) (st : SplitState) (sentence : str) :
  sentenceStep n st sentence = None <-> n <= 3 /\ n < length sentence.
Proof.
  destruct st as [slides cur]. unfold sentenceStep.
  destruct (length cur + length sentence + 2 <=? n) eqn:Hfit.
  - apply Nat.leb_le in Hfit. split; [discriminate | lia].
  - destruct (truthy cur); cbv beta iota;
      (destruct (n <? length sentence) eqn:Hlong;
       [| apply Nat.ltb_ge in Hlong; split; [discriminate | lia]]).
    + rewrite <- (hardChunkLoop_None n
                   (slides ++ [(SentenceFlush,
                                cur ++ (if endsWith cur DOT then [] else [DOT]))])).
      destruct (hardChunkLoop _ _ _ _) as [[slides2 rest] |];
        split; congruence.
    + rewrite <- (hardChunkLoop_None n slides).
      destruct (hardChunkLoop _ _ _ _) as [[slides2 rest] |];
        split; congruence.
Qed.

(** A loop whose body fails on some items, whatever the state, fails exactly
    when one of them is in the list. *)
Lemma foldM_None (A S : Type) (step : S -> A -> option S) (bad : A -> Prop) :
  (forall st x, step st x = None <-> bad x) ->
  forall l st, foldM step l st = None <-> Exists bad l.
Proof.
  intros Hstep. induction l as [|x l IH]; intros st; cbn [foldM].
  - split; [discriminate | intros H; inversion H].
  - destruct (step st x) as [st' |] eqn:Hx.
    + rewrite IH. split; [now right |].
      intros H. inversion H as [? ? Hbad | ? ? Hl]; subst; [| assumption].
      apply Hstep with (st := st) in Hbad. congruence.
    + split; [| reflexivity]. intros _. left. now apply (Hstep st).
Qed.

Lemma paragraphStep_None (n : nat) (st : SplitState) (paragraph : str) :
  paragraphStep n st paragraph = None
  <-> Exists (fun sentence => n <= 3 /\ n < length sentence)
             (split2 DOT SP paragraph).
Proof.
  assert (Hlen : Exists (fun sentence => n <= 3 /\ n < length sentence)
                   (split2 DOT SP paragraph) -> n < length paragraph).
  { intros H. apply Exists_exists in H. destruct H as (s & Hin & _ & Hs).
    apply split2_piece_length in Hin. lia. }
  destruct st as [slides cur]. unfold paragraphStep.
  destruct (length cur + length paragraph + 2 <=? n) eqn:Hfit.
  - apply Nat.leb_le in Hfit. split; [discriminate |].
    intros H. apply Hlen in H. lia.
  - destruct (truthy cur); cbv beta iota;
      (destruct (n <? length paragraph) eqn:Hlong;
       [apply foldM_None; intros; apply sentenceStep_None
       | apply Nat.ltb_ge in Hlong; split; [discriminate |];
         intros H; apply Hlen in H; lia]).
Qed.

(** X9. The partitioner fails to return exactly when the budget is at most 3
    and some sentence of some paragraph is longer than the budget: the
    [while] loop then cuts nothing off the sentence. With any larger budget,
    and for every text without such a sentence, it returns. *)
Theorem splitTextForSlides_diverges_iff (n : nat) (text : str) :
  splitTextForSlides n text = None
  <-> n <= 3 /\
      exists paragraph sentence,
        In paragraph (split2 LF LF text) /\
        In sentence (split2 DOT SP paragraph) /\
        n < length sentence.
Proof.
  assert (Hloops : splitLoops n text = None
                   <-> Exists (fun paragraph =>
                                 Exists (fun sentence => n <= 3 /\ n < length sentence)
                                        (split2 DOT SP paragraph))
                              (split2 LF LF text)).
  { unfold splitLoops.
    rewrite <- (foldM_None _ _ (paragraphStep n) _
                  (fun st x => paragraphStep_None n st x)
                  (split2 LF LF text) ([], [])).
    destruct (foldM _ _ _) as [[slides cur] |]; split; congruence. }
  rewrite Exists_exists in Hloops.
  unfold splitTextForSlides.
  destruct (length text <=? n) eqn:Hfit.
  - apply Nat.leb_le in Hfit. split; [discriminate |].
    intros (_ & p & s & Hp & Hs & Hlong).
    apply split2_piece_length in Hp, Hs. lia.
  - split.
    + intros Hnone.
      destruct (splitLoops n text) as [slides |]; [discriminate |].
      destruct Hloops as [Hloops _].
      destruct (Hloops eq_refl) as (p & Hp & Hex).
      apply Exists_exists in Hex. destruct Hex as (s & Hs & Hsmall & Hlong).
      split; [assumption |]. exists p, s. auto.
    + intros (Hsmall & p & s & Hp & Hs & Hlong).
      destruct Hloops as [_ Hloops]. rewrite Hloops; [reflexivity |].
      exists p. split; [assumption |]. apply Exists_exists. exists s. auto.
Qed.

Lemma join_cons (sep x : str) (l : list str) :
  l <> [] -> join sep (x :: l) = x ++ sep ++ join sep l.
Proof. destruct l; [congruence | reflexivity]. Qed.

Lemma split2_from_nonempty (a b : char) (k : nat) :
  forall (s cur : str), length s <= k -> split2_from a b cur s <> [].
Proof.
  induction k as [|k IH]; intros s cur Hk.
  - destruct s; [discriminate | simpl in Hk; lia].
  - destruct s as [|c [|d s'']]; [discriminate | discriminate |].
    rewrite split2_from_cons2.
    destruct (N.eqb c a && N.eqb d b)%bool; [discriminate |].
    apply IH. simpl in *. lia.
Qed.

Lemma join_split2_from (a b : char) (k : nat) :
  forall (s cur : str), length s <= k ->
  join [a; b] (split2_from a b cur s) = cur ++ s.
Proof.
  induction k as [|k IH]; intros s cur Hk.
  - destruct s; [simpl; now rewrite app_nil_r | simpl in Hk; lia].
  - destruct s as [|c [|d s'']]; [| | rewrite split2_from_cons2].
    + simpl. now rewrite app_nil_r.
    + reflexivity.
    + destruct (N.eqb c a && N.eqb d b)%bool eqn:Hsep.
      * apply andb_prop in Hsep. destruct Hsep as [Hc Hd].
        apply N.eqb_eq in Hc, Hd. subst c d.
        rewrite join_cons
          by (apply (split2_from_nonempty a b k); simpl in *; lia).
        rewrite IH by (simpl in *; lia). reflexivity.
      * rewrite IH by (simpl in *; lia). now rewrite <- app_assoc.
Qed.

(** Joining the pieces of a split with the separator gives the text back. *)
Lemma join_split2 (a b : char) (s : str) : join [a; b] (split2 a b s) = s.
Proof. unfold split2. now rewrite (join_split2_from a b (length s)). Qed.

Lemma join_merge (sep x y : str) (rest : list str) :
  forall l, join sep (l ++ (x ++ sep ++ y) :: rest)
            = join sep (l ++ x :: y :: rest).
Proof.
  induction l as [|z l IH].
  - cbn [app]. rewrite (join_cons sep x) by discriminate.
    destruct rest as [|r rest]; [reflexivity |].
    rewrite !join_cons by discriminate. now rewrite <- !app_assoc.
  - cbn [app]. rewrite !join_cons by (destruct l; discriminate).
    now rewrite IH.
Qed.

(** A loop keeps what each round of its body keeps. *)
Lemma foldM_inv (A S : Type) (step : S -> A -> option S) (Inv : S -> Prop) :
  (forall st x st', step st x = Some st' -> Inv st -> Inv st') ->
  forall l st st', foldM step l st = Some st' -> Inv st -> Inv st'.
Proof.
  intros Hstep. induction l as [|x l IH]; intros st st' Hfold Hinv;
    cbn [foldM] in Hfold.
  - now injection Hfold as <-.
  - destruct (step st x) as [st1 |] eqn:Hx; [| discriminate].
    eapply IH; [eassumption |]. eapply Hstep; eassumption.
Qed.

Section PartitionContent.
Variable n : nat.

(** What the [while] loop cuts off: pieces of [n - 3] characters, each
    pushed with three dots, and a rest; pieces and rest make up the
    sentence, and after at least one round the rest is longer than 3. *)
Lemma hardChunkLoop_pieces : forall fuel slides sentence slides' rest,
  hardChunkLoop n fuel slides sentence = Some (slides', rest) ->
  exists pieces,
    slides' = slides ++ map (fun p => (HardChunk, p ++ ELLIPSIS)) pieces /\
    concat pieces ++ rest = sentence /\
    Forall (fun p => length p = n - 3) pieces /\
    length rest <= n /\
    (length sentence <= n -> pieces = [] /\ rest = sentence) /\
    (n < length sentence -> 3 < length rest).
Proof.
  assert (Hstop : forall slides sentence slides' rest,
            Some (slides, sentence) = Some (slides', rest) ->
            length sentence <= n ->
            exists pieces : list str,
              slides' = slides ++ map (fun p => (HardChunk, p ++ ELLIPSIS)) pieces /\
              concat pieces ++ rest = sentence /\
              Forall (fun p => length p = n - 3) pieces /\
              length rest <= n /\
              (length sentence <= n -> pieces = [] /\ rest = sentence) /\
              (n < length sentence -> 3 < length rest)).
  { intros slides sentence slides' rest H Hle. injection H as <- <-.
    exists []. cbn [map concat app]. rewrite app_nil_r.
    repeat split; auto; lia. }
  induction fuel as [|fuel IH]; intros slides sentence slides' rest;
    cbn [hardChunkLoop]; destruct (n <? length sentence) eqn:Hlt;
    try discriminate;
    try (intros H; apply Hstop; [exact H | apply Nat.ltb_ge in Hlt; lia]).
  intros H. apply Nat.ltb_lt in Hlt.
  destruct (le_lt_dec n 3) as [Hsmall | Hbig].
  { rewrite hardChunkLoop_stuck in H; [discriminate | assumption |].
    replace (n - 3) with 0 by lia. exact Hlt. }
  apply IH in H.
  destruct H as (pieces & -> & Hcat & Hall & Hrest & Hshort & Hlong).
  unfold substringFrom in Hcat, Hshort, Hlong.
  rewrite length_skipn in Hshort, Hlong.
  exists (firstn (n - 3) sentence :: pieces).
  rewrite <- app_assoc. cbn [map app concat].
  rewrite substring_0 by lia.
  split; [reflexivity |].
  split; [rewrite <- app_assoc, Hcat; apply firstn_skipn |].
  split; [constructor; [rewrite length_firstn; lia | exact Hall] |].
  split; [exact Hrest |].
  split; [intros Hle; lia |].
  intros _.
  destruct (le_lt_dec (length sentence - (n - 3)) n) as [Hle | Hgt].
  - destruct (Hshort Hle) as [_ ->]. rewrite length_skipn. lia.
  - apply Hlong. exact Hgt.
Qed.

Lemma hardChunkLoop_nonEmpty : forall fuel slides sentence st',
  hardChunkLoop n fuel slides sentence = Some st' ->
  pushedNonEmpty (slides, sentence) -> pushedNonEmpty st'.
Proof.
  intros fuel slides sentence [slides' rest] H Hinv.
  apply hardChunkLoop_pieces in H. destruct H as (pieces & -> & _).
  unfold pushedNonEmpty in *. cbn [fst] in *.
  apply Forall_app. split; [exact Hinv |].
  apply Forall_forall. intros c Hin. apply in_map_iff in Hin.
  destruct Hin as (p & <- & _). cbn [snd]. destruct p; discriminate.
Qed.

Lemma truthy_true (s : str) : truthy s = true -> s <> [].
Proof. destruct s; [discriminate | discriminate]. Qed.

Lemma sentenceRest_nonEmpty : forall slides1 currentSlide1 sentence st',
  (if n <? length sentence then
     match hardChunkLoop n (length sentence) slides1 sentence with
     | None => None
     | Some (slides, sentence) =>
         Some (slides, if 0 <? length sentence then sentence else currentSlide1)
     end
   else Some (slides1, sentence)) = Some st' ->
  Forall (fun c : Chunk => snd c <> []) slides1 ->
  pushedNonEmpty st'.
Proof.
  intros slides1 cur1 s st' Hstep Hinv.
  destruct (n <? length s).
  - destruct (hardChunkLoop n (length s) slides1 s) as [[slides2 rest] |] eqn:Hhard;
      [| discriminate].
    injection Hstep as <-.
    apply hardChunkLoop_nonEmpty in Hhard; [exact Hhard | exact Hinv].
  - injection Hstep as <-. exact Hinv.
Qed.

Lemma sentenceStep_nonEmpty : forall st sentence st',
  sentenceStep n st sentence = Some st' ->
  pushedNonEmpty st -> pushedNonEmpty st'.
Proof.
  intros [slides cur] s st' Hstep Hinv. unfold sentenceStep in Hstep.
  unfold pushedNonEmpty in Hinv. cbn [fst] in Hinv.
  destruct (length cur + length s + 2 <=? n).
  { injection Hstep as <-. exact Hinv. }
  destruct (truthy cur) eqn:Ht; cbv beta iota in Hstep;
    apply sentenceRest_nonEmpty in Hstep; try assumption.
  apply Forall_app. split; [exact Hinv |].
  constructor; [| constructor]. cbn [snd].
  apply truthy_true in Ht. destruct cur; [congruence | discriminate].
Qed.

Lemma paragraphStep_nonEmpty : forall st paragraph st',
  paragraphStep n st paragraph = Some st' ->
  pushedNonEmpty st -> pushedNonEmpty st'.
Proof.
  intros [slides cur] p st' Hstep Hinv. unfold paragraphStep in Hstep.
  destruct (length cur + length p + 2 <=? n).
  { injection Hstep as <-. exact Hinv. }
  assert (Hflush : truthy cur = true ->
                   pushedNonEmpty (slides ++ [(ParagraphFlush, cur)], @nil char)).
  { intros Ht. unfold pushedNonEmpty in *. cbn [fst] in *.
    apply Forall_app. split; [exact Hinv |].
    constructor; [| constructor]. cbn [snd]. now apply truthy_true. }
  destruct (truthy cur) eqn:Ht; cbv beta iota in Hstep;
    (destruct (n <? length p);
     [eapply foldM_inv; [apply sentenceStep_nonEmpty | exact Hstep |]
     | injection Hstep as <-]);
    try exact (Hflush eq_refl); exact Hinv.
Qed.

Lemma splitLoops_nonEmpty : forall text slides,
  splitLoops n text = Some slides ->
  Forall (fun c : Chunk => snd c <> []) slides.
Proof.
  intros text slides Hloops. unfold splitLoops in Hloops.
  destruct (foldM (paragraphStep n) (split2 LF LF text) ([], []))
    as [[slides1 cur1] |] eqn:Hfold; [| discriminate].
  apply (foldM_inv _ _ (paragraphStep n) pushedNonEmpty paragraphStep_nonEmpty)
    in Hfold; [| constructor].
  unfold pushedNonEmpty in Hfold. cbn [fst] in Hfold.
  injection Hloops as <-.
  destruct (truthy cur1) eqn:Ht; [| exact Hfold].
  apply Forall_app. split; [exact Hfold |].
  constructor; [| constructor]. now apply truthy_true.
Qed.

(** The paragraph loop over paragraphs that it can take whole: nothing is
    split, and the chunks and the current slide, joined by blank lines, are
    the paragraphs read. *)
Lemma paragraphFold_join : forall paragraphs slides currentSlide,
  Forall (wholeParagraph n) paragraphs ->
  currentSlide <> [] -> length currentSlide <= n ->
  Forall (fun c : Chunk => length (snd c) <= n) slides ->
  exists slides' currentSlide',
    foldM (paragraphStep n) paragraphs (slides, currentSlide)
      = Some (slides', currentSlide') /\
    currentSlide' <> [] /\ length currentSlide' <= n /\
    Forall (fun c : Chunk => length (snd c) <= n) slides' /\
    join [LF; LF] (map snd slides' ++ [currentSlide'])
      = join [LF; LF] ((map snd slides ++ [currentSlide]) ++ paragraphs).
Proof.
  induction paragraphs as [|p rest IH]; intros slides cur Hps Hne Hcur Hall.
  - exists slides, cur. rewrite app_nil_r. auto.
  - inversion Hps as [|? ? [Hp Hplen] Hrest]; subst.
    cbn [foldM]. unfold paragraphStep.
    assert (Ht : truthy cur = true) by (destruct cur; [congruence | reflexivity]).
    rewrite Ht. cbv beta iota.
    destruct (length cur + length p + 2 <=? n) eqn:Hfit.
    + apply Nat.leb_le in Hfit.
      destruct (IH slides (cur ++ [LF; LF] ++ p)) as (slides' & cur' & Hfold & H1 & H2 & H3 & H4);
        try assumption.
      * destruct cur; [congruence | discriminate].
      * rewrite !length_app. simpl length. lia.
      * exists slides', cur'. repeat (split; [assumption |]).
        rewrite H4, <- !app_assoc.
        exact (join_merge [LF; LF] cur p rest (map snd slides)).
    + replace (n <? length p) with false by (symmetry; apply Nat.ltb_ge; lia).
      destruct (IH (slides ++ [(ParagraphFlush, cur)]) p)
        as (slides' & cur' & Hfold & H1 & H2 & H3 & H4); try assumption.
      * apply Forall_app. split; [assumption |]. constructor; [exact Hcur | constructor].
      * exists slides', cur'. repeat (split; [assumption |]).
        rewrite H4, map_app, <- !app_assoc. reflexivity.
Qed.

End PartitionContent.

(** X10. What the partitioner returns is never an empty list, and for a text
    that is not empty no chunk is empty. *)
Theorem splitTextForSlides_chunks_nonempty (n : nat) (text : str) (chunks : list str) :
  splitTextForSlides n text = Some chunks ->
  chunks <> [] /\ (text <> [] -> Forall (fun c => c <> []) chunks).
Proof.
  unfold splitTextForSlides. destruct (length text <=? n) eqn:Hfit.
  - intros H. injection H as <-. split; [discriminate |].
    intros Hne. constructor; [exact Hne | constructor].
  - apply Nat.leb_gt in Hfit.
    destruct (splitLoops n text) as [slides |] eqn:Hloops; [| discriminate].
    intros H. injection H as <-.
    apply splitLoops_nonEmpty in Hloops.
    destruct slides as [|c slides]; cbn [length Nat.ltb Nat.leb].
    + split; [discriminate |]. intros Hne. constructor; [exact Hne | constructor].
    + split; [discriminate |]. intros _.
      apply Forall_forall. intros x Hin. apply in_map_iff in Hin.
      destruct Hin as (y & <- & Hy).
      rewrite Forall_forall in Hloops. now apply Hloops.
Qed.

Lemma splitTextForSlides_chunks_nonempty_witness :
  [js "One. Two"; js "Three"] <> [] /\
  (js "One. Two" ++ [LF; LF] ++ js "Three" <> [] ->
   Forall (fun c => c <> []) [js "One. Two"; js "Three"]).
Proof.
  apply (splitTextForSlides_chunks_nonempty 10
           (js "One. Two" ++ [LF; LF] ++ js "Three")).
  vm_compute. reflexivity.
Defined.

(** X11. A text whose paragraphs are all non-empty and within the budget is
    split at blank lines only: the partitioner returns, every chunk is within
    the budget, and the chunks joined by blank lines are the text. *)
Theorem splitTextForSlides_paragraph_round_trip (n : nat) (text : str) :
  Forall (wholeParagraph n) (paragraphsOf text) ->
  exists chunks,
    splitTextForSlides n text = Some chunks /\
    Forall (fun c => length c <= n) chunks /\
    join [LF; LF] chunks = text.
Proof.
  intros Hps. unfold splitTextForSlides.
  destruct (length text <=? n) eqn:Hfit.
  { apply Nat.leb_le in Hfit. exists [text].
    split; [reflexivity |]. split; [| reflexivity].
    constructor; [exact Hfit | constructor]. }
  unfold splitLoops. pose proof (join_split2 LF LF text) as Hjoin.
  unfold paragraphsOf in Hps.
  destruct (split2 LF LF text) as [|p rest] eqn:Hsplit.
  { exfalso. revert Hsplit. apply (split2_from_nonempty LF LF (length text)). lia. }
  apply Forall_cons_iff in Hps. destruct Hps as [[Hp Hplen] Hrest].
  assert (Hfirst : paragraphStep n ([], []) p = Some ([], p)).
  { unfold paragraphStep. cbn [length truthy app Nat.add].
    replace (n <? length p) with false by (symmetry; apply Nat.ltb_ge; lia).
    destruct (length p + 2 <=? n); reflexivity. }
  cbn [foldM]. rewrite Hfirst.
  destruct (paragraphFold_join n rest [] p Hrest Hp Hplen (Forall_nil _))
    as (slides' & cur' & Hfold & Hne & Hcur & Hall & Hcat).
  match goal with
  | |- context [foldM ?f ?l ?st] =>
      replace (foldM f l st) with (Some (slides', cur')) by (symmetry; exact Hfold)
  end.
  replace (truthy cur') with true by (destruct cur'; [congruence | reflexivity]).
  rewrite length_app. cbn [length].
  replace (0 <? length slides' + 1) with true
    by (symmetry; apply Nat.ltb_lt; lia).
  eexists. split; [reflexivity |].
  rewrite map_app. cbn [map snd]. split.
  - apply Forall_app. split.
    + apply Forall_forall. intros x Hin. apply in_map_iff in Hin.
      destruct Hin as (y & <- & Hy). rewrite Forall_forall in Hall. now apply Hall.
    + constructor; [exact Hcur | constructor].
  - exact (eq_trans Hcat Hjoin).
Qed.

Lemma splitTextForSlides_paragraph_round_trip_witness :
  exists chunks,
    splitTextForSlides 10 (js "One. Two" ++ [LF; LF] ++ js "Three"
                           ++ [LF; LF] ++ js "Four") = Some chunks /\
    Forall (fun c => length c <= 10) chunks /\
    join [LF; LF] chunks
      = js "One. Two" ++ [LF; LF] ++ js "Three" ++ [LF; LF] ++ js "Four".
Proof.
  apply (splitTextForSlides_paragraph_round_trip 10
           (js "One. Two" ++ [LF; LF] ++ js "Three" ++ [LF; LF] ++ js "Four")).
  vm_compute. repeat constructor; (discriminate || lia).
Defined.

(** X12. A text over a budget above 3 that has neither a blank line nor a
    sentence break is cut by length alone: every chunk but the last is
    [n - 3] characters of the text followed by three dots, the last chunk is
    the rest, between 4 and [n] characters long, and the pieces and the rest
    in order make up the text. *)
Theorem splitTextForSlides_hard_chunks (n : nat) (text : str) :
  3 < n -> n < length text ->
  split2 LF LF text = [text] -> split2 DOT SP text = [text] ->
  exists pieces rest,
    splitTextForSlides n text
      = Some (map (fun p => p ++ ELLIPSIS) pieces ++ [rest]) /\
    concat pieces ++ rest = text /\
    Forall (fun p => length p = n - 3) pieces /\
    3 < length rest <= n.
Proof.
  intros Hn Hlong Hpar Hsen. unfold splitTextForSlides.
  replace (length text <=? n) with false by (symmetry; apply Nat.leb_gt; lia).
  unfold splitLoops. rewrite Hpar. cbn [foldM]. unfold paragraphStep.
  cbn [length truthy Nat.add].
  replace (length text + 2 <=? n) with false by (symmetry; apply Nat.leb_gt; lia).
  replace (n <? length text) with true by (symmetry; apply Nat.ltb_lt; lia).
  rewrite Hsen. cbn [foldM]. unfold sentenceStep.
  cbn [length truthy Nat.add].
  replace (length text + 2 <=? n) with false by (symmetry; apply Nat.leb_gt; lia).
  replace (n <? length text) with true by (symmetry; apply Nat.ltb_lt; lia).
  destruct (hardChunkLoop_total n (length text) [] text Hn (le_n _))
    as ([slides rest] & Hhard).
  rewrite Hhard.
  apply hardChunkLoop_pieces in Hhard.
  destruct Hhard as (pieces & -> & Hcat & Hall & Hrest & _ & Hmore).
  specialize (Hmore Hlong).
  replace (0 <? length rest) with true by (symmetry; apply Nat.ltb_lt; lia).
  replace (truthy rest) with true by (destruct rest; [simpl in Hmore; lia | reflexivity]).
  cbn [app]. rewrite length_app. cbn [length].
  replace (0 <? _ + 1) with true by (symmetry; apply Nat.ltb_lt; lia).
  exists pieces, rest. split; [| auto].
  rewrite map_app, map_map. reflexivity.
Qed.

Lemma splitTextForSlides_hard_chunks_witness :
  exists pieces rest,
    splitTextForSlides 8 (js "abcdefghijklmnopq")
      = Some (map (fun p => p ++ ELLIPSIS) pieces ++ [rest]) /\
    concat pieces ++ rest = js "abcdefghijklmnopq" /\
    Forall (fun p => length p = 8 - 3) pieces /\
    3 < length rest <= 8.
Proof.
  apply (splitTextForSlides_hard_chunks 8 (js "abcdefghijklmnopq"));
    vm_compute; (lia || reflexivity).
Defined.

(* ===================================================================== *)
(** ** The font-fit sizer, further *)
(* ===================================================================== *)

Section FontSearchFacts.
Variable fits : Z -> bool.
Variable overflows : Z -> bool.
Variable range : FontRange.

(** The descent returns the first candidate that passes the test, and what
    it was given when there is none. *)
Lemma shrinkLoop_first : forall fuel optimalSize fontSize,
  (fontSize - fr_min range < 2 * Z.of_nat fuel)%Z ->
  exists r, shrinkLoop fits range fuel optimalSize fontSize = Some r /\
    ((r = optimalSize /\
      forall j, (0 <= j)%Z -> (fr_min range <= fontSize - 2 * j)%Z ->
        fits (fontSize - 2 * j) = false) \/
     (exists k, (0 <= k)%Z /\ r = (fontSize - 2 * k)%Z /\
        (fr_min range <= r)%Z /\ fits r = true /\
        forall j, (0 <= j < k)%Z -> fits (fontSize - 2 * j) = false)).
Proof.
  induction fuel as [|fuel IH]; intros opt fs Hfuel; cbn [shrinkLoop].
  - destruct (fr_min range <=? fs)%Z eqn:Hmin.
    + apply Z.leb_le in Hmin. lia.
    + apply Z.leb_gt in Hmin. eexists; split; [reflexivity | left].
      split; [reflexivity |]. intros j Hj Hlo. lia.
  - destruct (fr_min range <=? fs)%Z eqn:Hmin.
    + apply Z.leb_le in Hmin. destruct (fits fs) eqn:Hfit.
      * eexists; split; [reflexivity | right]. exists 0%Z.
        rewrite Z.mul_0_r, Z.sub_0_r. repeat split; auto; lia.
      * destruct (IH opt (fs - 2)%Z) as (r & Hr & Hcase); [lia |].
        exists r; split; [exact Hr |].
        destruct Hcase as [(-> & Hnone) | (k & Hk & -> & Hlo & Hf & Hbefore)].
        -- left. split; [reflexivity |]. intros j Hj Hlo.
           destruct (Z.eq_dec j 0) as [-> | Hnz].
           ++ now rewrite Z.mul_0_r, Z.sub_0_r.
           ++ replace (fs - 2 * j)%Z with (fs - 2 - 2 * (j - 1))%Z by lia.
              apply Hnone; lia.
        -- right. exists (k + 1)%Z.
           replace (fs - 2 * (k + 1))%Z with (fs - 2 - 2 * k)%Z by lia.
           repeat split; auto; try lia. intros j Hj.
           destruct (Z.eq_dec j 0) as [-> | Hnz].
           ++ now rewrite Z.mul_0_r, Z.sub_0_r.
           ++ replace (fs - 2 * j)%Z with (fs - 2 - 2 * (j - 1))%Z by lia.
              apply Hbefore; lia.
    + apply Z.leb_gt in Hmin. eexists; split; [reflexivity | left].
      split; [reflexivity |]. intros j Hj Hlo. lia.
Qed.

(** The ascent returns the last candidate before the first that is above
    the maximum or overflows. *)
Lemma growLoop_last : forall fuel optimalSize fontSize,
  (fr_max range - fontSize < 2 * Z.of_nat fuel)%Z ->
  fontSize = (optimalSize + 2)%Z ->
  exists r, growLoop overflows range fuel optimalSize fontSize = Some r /\
    exists k, (0 <= k)%Z /\ r = (optimalSize + 2 * k)%Z /\
      (forall j, (1 <= j <= k)%Z ->
         (optimalSize + 2 * j <= fr_max range)%Z /\
         overflows (optimalSize + 2 * j) = false) /\
      ((fr_max range < r + 2)%Z \/ overflows (r + 2) = true).
Proof.
  induction fuel as [|fuel IH]; intros opt fs Hfuel ->; cbn [growLoop].
  - destruct (opt + 2 <=? fr_max range)%Z eqn:Hmax.
    + apply Z.leb_le in Hmax. lia.
    + apply Z.leb_gt in Hmax. eexists; split; [reflexivity |].
      exists 0%Z. rewrite Z.mul_0_r, Z.add_0_r.
      repeat split; lia.
  - destruct (opt + 2 <=? fr_max range)%Z eqn:Hmax.
    + apply Z.leb_le in Hmax. destruct (overflows (opt + 2)) eqn:Hov.
      * eexists; split; [reflexivity |].
        exists 0%Z. rewrite Z.mul_0_r, Z.add_0_r.
        repeat split; try lia. now right.
      * destruct (IH (opt + 2)%Z (opt + 2 + 2)%Z) as (r & Hr & k & Hk & -> & Hacc & Hstop);
          [lia | reflexivity |].
        exists (opt + 2 + 2 * k)%Z; split; [exact Hr |].
        exists (k + 1)%Z. split; [lia |]. split; [lia |]. split; [| exact Hstop].
        intros j Hj. destruct (Z.eq_dec j 1) as [-> | Hne].
        -- rewrite Z.mul_1_r. auto.
        -- replace (opt + 2 * j)%Z with (opt + 2 + 2 * (j - 1))%Z by lia.
           apply Hacc. lia.
    + apply Z.leb_gt in Hmax. eexists; split; [reflexivity |].
      exists 0%Z. rewrite Z.mul_0_r, Z.add_0_r.
      repeat split; lia.
Qed.

(** The two phases together. *)
Lemma fontSearch_characterised :
  exists size, fontSearch fits overflows range = Some size /\
    (((size < fr_default range)%Z /\ firstFit fits range size) \/
     ((fr_default range <= size)%Z /\
      (noFit fits range \/ firstFit fits range (fr_default range)) /\
      lastBeforeOverflow overflows range size)).
Proof.
  unfold fontSearch.
  destruct (shrinkLoop_first (S (Z.to_nat (fr_default range - fr_min range)))
              (fr_default range) (fr_default range)) as (r1 & Hr1 & Hc1); [lia |].
  rewrite Hr1.
  assert (Hgrow : (noFit fits range \/ firstFit fits range (fr_default range)) ->
            exists size,
              growLoop overflows range (S (Z.to_nat (fr_max range - fr_default range)))
                (fr_default range) (fr_default range + 2) = Some size /\
              (((size < fr_default range)%Z /\ firstFit fits range size) \/
               ((fr_default range <= size)%Z /\
                (noFit fits range \/ firstFit fits range (fr_default range)) /\
                lastBeforeOverflow overflows range size))).
  { intros Hwhy.
    destruct (growLoop_last (S (Z.to_nat (fr_max range - fr_default range)))
                (fr_default range) (fr_default range + 2)%Z)
      as (r2 & Hr2 & k & Hk & -> & Hacc & Hstop); [lia | reflexivity |].
    eexists; split; [exact Hr2 | right].
    split; [lia |]. split; [exact Hwhy |].
    exists k. auto. }
  destruct Hc1 as [(-> & Hnone) | (k & Hk & -> & Hlo & Hf & Hbefore)].
  - rewrite Z.eqb_refl. apply Hgrow. left. exact Hnone.
  - destruct (Z.eqb_spec (fr_default range - 2 * k) (fr_default range)) as [Heq | Hne].
    + rewrite Heq. apply Hgrow. right.
      exists k. rewrite Heq in *. repeat split; auto; lia.
    + eexists; split; [reflexivity | left]. split; [lia |].
      exists k. repeat split; auto.
Qed.
End FontSearchFacts.

(** X13. What [calculateOptimalFontSize] returns for a range of whole
    numbers whose sizes are safe integers, whatever the text and the box
    are. It returns, and the size is a whole number. A size below the
    default is the first candidate of the descent at which the estimate
    fits the box. Otherwise the estimate fits at the default or at no
    candidate at all, and the size is where the ascent stops: the last
    candidate before one that is above the maximum or whose estimate
    overflows the box. *)
Theorem calculateOptimalFontSize_safe_search :
  forall (text : str) (containerWidth containerHeight : float) (range : FontRange),
  safeRange range ->
  let fits := fun z => Binary64.fitsBox text containerWidth containerHeight
                         (float_of_Z z) in
  let overflows := fun z => Binary64.overflowsBox text containerWidth containerHeight
                              (float_of_Z z) in
  exists fuel size,
    (forall fuel', fuel <= fuel' ->
       Binary64.calculateOptimalFontSize fuel' text containerWidth containerHeight
         (toBinary64 range) = Some (float_of_Z size)) /\
    (((size < fr_default range)%Z /\ firstFit fits range size) \/
     ((fr_default range <= size)%Z /\
      (noFit fits range \/ firstFit fits range (fr_default range)) /\
      lastBeforeOverflow overflows range size)).
Proof.
  intros text cw ch range Hsafe fits overflows.
  destruct (fontSearch_characterised (fitsBox text cw ch) (overflowsBox text cw ch) range)
    as (size & Hsize & Hshape).
  exists (fuelFor range), size.
  split; [intros fuel Hfuel; now apply fontSearch_whole |].
  exact Hshape.
Qed.

Lemma calculateOptimalFontSize_safe_search_witness :
  let fits := fun z => Binary64.fitsBox (js "short") 620 340 (float_of_Z z) in
  let overflows := fun z => Binary64.overflowsBox (js "short") 620 340 (float_of_Z z) in
  exists fuel size,
    (forall fuel', fuel <= fuel' ->
       Binary64.calculateOptimalFontSize fuel' (js "short") 620 340
         (toBinary64 FONT_SIZE_RANGES_BODY) = Some (float_of_Z size)) /\
    (((size < fr_default FONT_SIZE_RANGES_BODY)%Z /\
      firstFit fits FONT_SIZE_RANGES_BODY size) \/
     ((fr_default FONT_SIZE_RANGES_BODY <= size)%Z /\
      (noFit fits FONT_SIZE_RANGES_BODY \/
       firstFit fits FONT_SIZE_RANGES_BODY (fr_default FONT_SIZE_RANGES_BODY)) /\
      lastBeforeOverflow overflows FONT_SIZE_RANGES_BODY size)).
Proof.
  apply (calculateOptimalFontSize_safe_search (js "short") 620 340
           FONT_SIZE_RANGES_BODY).
  unfold safeRange, safeSize, MAX_SAFE_INTEGER. simpl. lia.
Defined.

(* ===================================================================== *)
(** ** Whitespace and splitting *)
(* ===================================================================== *)

Lemma dropWhile_head (p : char -> bool) : forall s c r,
  dropWhile p s = c :: r -> p c = false.
Proof.
  induction s as [|d s IH]; intros c r H; [discriminate |].
  cbn [dropWhile] in H. destruct (p d) eqn:Hd.
  - eapply IH; eassumption.
  - injection H as <- _. exact Hd.
Qed.

Lemma takeWhile_dropWhile (p : char -> bool) : forall s,
  takeWhile p s ++ dropWhile p s = s.
Proof.
  induction s as [|d s IH]; [reflexivity |].
  cbn [takeWhile dropWhile]. destruct (p d); [| reflexivity].
  cbn [app]. now rewrite IH.
Qed.

Lemma takeWhile_forallb (p : char -> bool) : forall s,
  forallb p (takeWhile p s) = true.
Proof.
  induction s as [|d s IH]; [reflexivity |].
  cbn [takeWhile]. destruct (p d) eqn:Hd; [| reflexivity].
  cbn [forallb]. now rewrite Hd.
Qed.

Lemma takeWhile_all (p : char -> bool) : forall s,
  forallb p s = true -> takeWhile p s = s.
Proof.
  induction s as [|d s IH]; intros H; [reflexivity |].
  cbn [forallb] in H. apply andb_prop in H. destruct H as [Hd Hs].
  cbn [takeWhile]. rewrite Hd. now rewrite IH.
Qed.

Lemma dropWhile_app_last (p : char -> bool) (c : char) : forall s,
  p c = false -> dropWhile p (s ++ [c]) = dropWhile p s ++ [c].
Proof.
  intros s Hc. induction s as [|d s IH]; cbn [app dropWhile].
  - now rewrite Hc.
  - destruct (p d); [exact IH | reflexivity].
Qed.

Lemma dropWhile_prefix (p : char -> bool) : forall pre s,
  forallb p pre = true -> dropWhile p (pre ++ s) = dropWhile p s.
Proof.
  induction pre as [|d pre IH]; intros s H; [reflexivity |].
  cbn [forallb] in H. apply andb_prop in H. destruct H as [Hd Hpre].
  cbn [app dropWhile]. rewrite Hd. now apply IH.
Qed.

Lemma trimStart_infix (s : str) : exists pre, s = pre ++ trimStart s.
Proof.
  exists (takeWhile isWhiteSpace s). symmetry. apply takeWhile_dropWhile.
Qed.

Lemma trimEnd_infix (s : str) : exists post, s = trimEnd s ++ post.
Proof.
  exists (rev (takeWhile isWhiteSpace (rev s))). unfold trimEnd.
  rewrite <- rev_app_distr, takeWhile_dropWhile. symmetry. apply rev_involutive.
Qed.

(** [trim] cuts at both ends and nowhere else. *)
Lemma trim_infix (s : str) : exists pre post, s = pre ++ trim s ++ post.
Proof.
  destruct (trimStart_infix s) as (pre & Hpre).
  destruct (trimEnd_infix (trimStart s)) as (post & Hpost).
  exists pre, post. unfold trim. now rewrite <- Hpost.
Qed.

Lemma trimStart_visible (t : str) : startsVisible t = true -> trimStart t = t.
Proof.
  destruct t as [|c t]; [discriminate |]. cbn [startsVisible]. intros H.
  unfold trimStart. cbn [dropWhile].
  now destruct (isWhiteSpace c).
Qed.

Lemma trimEnd_visible (t : str) : endsVisible t = true -> trimEnd t = t.
Proof.
  unfold endsVisible, trimEnd. intros H.
  fold (trimStart (rev t)). rewrite trimStart_visible by exact H.
  apply rev_involutive.
Qed.

Lemma trim_visible (t : str) : visibleText t = true -> trim t = t.
Proof.
  unfold visibleText. intros H. apply andb_prop in H. destruct H as [Hs He].
  unfold trim. rewrite trimStart_visible by exact Hs. now apply trimEnd_visible.
Qed.

Lemma startsVisible_dropWhile (s : str) :
  truthy (dropWhile isWhiteSpace s) = true ->
  startsVisible (dropWhile isWhiteSpace s) = true.
Proof.
  destruct (dropWhile isWhiteSpace s) as [|c r] eqn:Hd; [discriminate |].
  intros _. apply dropWhile_head in Hd. cbn [startsVisible]. now rewrite Hd.
Qed.

(** What [trim] returns, unless it is empty, has visible ends. *)
Lemma trim_visibleText (s : str) :
  truthy (trim s) = true -> visibleText (trim s) = true.
Proof.
  intros Ht. unfold visibleText. apply andb_true_intro. split.
  - unfold trim, trimEnd in *. unfold trimStart in *.
    destruct (dropWhile isWhiteSpace s) as [|c t] eqn:Hd; [discriminate |].
    apply dropWhile_head in Hd.
    cbn [rev]. rewrite dropWhile_app_last by exact Hd.
    rewrite rev_app_distr. cbn [rev app startsVisible]. now rewrite Hd.
  - unfold endsVisible, trim, trimEnd in *. rewrite rev_involutive.
    apply startsVisible_dropWhile.
    destruct (dropWhile isWhiteSpace (rev (trimStart s))); [discriminate | reflexivity].
Qed.

Lemma endsVisible_cons (c : char) (s : str) :
  s <> [] -> endsVisible (c :: s) = endsVisible s.
Proof.
  intros Hs. unfold endsVisible. cbn [rev].
  destruct (rev s) as [|d r] eqn:Hr; [| reflexivity].
  apply (f_equal (@rev char)) in Hr. rewrite rev_involutive in Hr. contradiction.
Qed.

Lemma endsVisible_blank : forall s,
  forallb isWhiteSpace s = true -> endsVisible s = false.
Proof.
  induction s as [|c s IH]; intros H; [reflexivity |].
  cbn [forallb] in H. apply andb_prop in H. destruct H as [Hc Hs].
  destruct s as [|d s'].
  - unfold endsVisible. cbn [rev app startsVisible]. now rewrite Hc.
  - rewrite endsVisible_cons by discriminate. now apply IH.
Qed.

Lemma endsVisible_app (pre s : str) :
  s <> [] -> endsVisible (pre ++ s) = endsVisible s.
Proof.
  intros Hs. induction pre as [|c pre IH]; [reflexivity |].
  cbn [app]. rewrite endsVisible_cons; [exact IH |].
  destruct pre; destruct s; try discriminate; congruence.
Qed.

Lemma isLineTerminator_isWhiteSpace (c : char) :
  isLineTerminator c = true -> isWhiteSpace c = true.
Proof.
  unfold isLineTerminator. rewrite !orb_true_iff, !N.eqb_eq.
  intros [[[-> | ->] | ->] | ->]; reflexivity.
Qed.

Lemma split1_nonempty (c : char) (s : str) : split1 c s <> [].
Proof.
  destruct s as [|d s]; [discriminate |]. cbn [split1].
  destruct (N.eqb d c); [discriminate |]. destruct (split1 c s); discriminate.
Qed.

(** No piece of a split holds the separator. *)
Lemma split1_pieces (c : char) : forall s p,
  In p (split1 c s) -> ~ In c p.
Proof.
  induction s as [|d s IH]; intros p Hin.
  - destruct Hin as [<- | []]. intros [].
  - cbn [split1] in Hin. destruct (N.eqb d c) eqn:Hd.
    + destruct Hin as [<- | Hin]; [intros [] | now apply IH].
    + apply N.eqb_neq in Hd.
      destruct (split1 c s) as [|piece rest] eqn:Hs.
      * destruct Hin as [<- | []]. intros [H | []]. congruence.
      * destruct Hin as [<- | Hin].
        -- intros [H | H]; [congruence |]. revert H. apply IH. now left.
        -- apply IH. now right.
Qed.

Lemma split1_whole (c : char) : forall s,
  ~ In c s -> split1 c s = [s].
Proof.
  induction s as [|d s IH]; intros Hno; [reflexivity |].
  cbn [split1]. destruct (N.eqb_spec d c) as [-> | Hd].
  - exfalso. apply Hno. now left.
  - rewrite IH; [reflexivity |]. intros H. apply Hno. now right.
Qed.

Lemma split1_app (c : char) : forall l s,
  ~ In c l -> split1 c (l ++ c :: s) = l :: split1 c s.
Proof.
  induction l as [|d l IH]; intros s Hno.
  - cbn [app split1]. now rewrite N.eqb_refl.
  - cbn [app split1]. destruct (N.eqb_spec d c) as [-> | Hd].
    + exfalso. apply Hno. now left.
    + rewrite IH; [reflexivity |]. intros H. apply Hno. now right.
Qed.

(** Splitting what was joined gives the lines back. *)
Lemma split1_join (c : char) : forall lines,
  lines <> [] -> Forall (fun l => ~ In c l) lines ->
  split1 c (join [c] lines) = lines.
Proof.
  induction lines as [|l lines IH]; intros Hne Hall; [congruence |].
  apply Forall_cons_iff in Hall. destruct Hall as [Hl Hall].
  destruct lines as [|l' lines'].
  - cbn [join]. now apply split1_whole.
  - rewrite join_cons by discriminate. cbn [app].
    rewrite split1_app by exact Hl. f_equal. apply IH; [discriminate | exact Hall].
Qed.

(* ===================================================================== *)
(** ** The list structurer, further *)
(* ===================================================================== *)

Lemma dotPlus_spec (s cap : str) :
  dotPlus s = Some cap ->
  cap <> [] /\ oneLine cap = true /\ exists post, s = cap ++ post.
Proof.
  unfold dotPlus. intros H.
  assert (Hcap : cap = takeWhile (fun c => negb (isLineTerminator c)) s).
  { destruct (takeWhile _ s); [discriminate | now injection H]. }
  split; [| split].
  - destruct (takeWhile _ s); [discriminate | injection H as <-; discriminate].
  - subst cap. apply takeWhile_forallb.
  - exists (dropWhile (fun c => negb (isLineTerminator c)) s).
    subst cap. symmetry. apply takeWhile_dropWhile.
Qed.

Lemma dotPlus_None (s : str) :
  dotPlus s = None -> s = [] \/ exists c r, s = c :: r /\ isWhiteSpace c = true.
Proof.
  unfold dotPlus. destruct s as [|c r]; [now left |]. cbn [takeWhile].
  destruct (isLineTerminator c) eqn:Hc; cbn [negb]; [| discriminate].
  intros _. right. exists c, r. split; [reflexivity |].
  now apply isLineTerminator_isWhiteSpace.
Qed.

Lemma wsThenRest_cons (c : char) (s : str) :
  wsThenRest (c :: s) =
  if isWhiteSpace c then
    match wsThenRest s with
    | Some cap => Some cap
    | None => dotPlus s
    end
  else None.
Proof. reflexivity. Qed.

Lemma digitsDotRest_cons (c : char) (s : str) :
  digitsDotRest (c :: s) =
  if isDigit c then
    match digitsDotRest s with
    | Some cap => Some cap
    | None =>
        match s with
        | d :: s'' => if N.eqb d DOT then wsThenRest s'' else None
        | [] => None
        end
    end
  else None.
Proof. reflexivity. Qed.

(** [\s+(.+)] fails on a text that starts with whitespace only when the
    text is all whitespace. *)
Lemma wsThenRest_None : forall s c,
  isWhiteSpace c = true -> wsThenRest (c :: s) = None ->
  forallb isWhiteSpace (c :: s) = true.
Proof.
  induction s as [|d s IH]; intros c Hc H; cbn [forallb]; rewrite Hc; [reflexivity |].
  cbn [andb]. rewrite wsThenRest_cons, Hc in H.
  destruct (wsThenRest (d :: s)) eqn:Hrec; [discriminate |].
  apply dotPlus_None in H. destruct H as [H | (e & r & He & Hws)]; [discriminate |].
  injection He as <- <-. now apply IH.
Qed.

(** The capture of [\s+(.+)] in a text with a visible end: a stretch of the
    text, on one line, that starts with a visible character. *)
Lemma wsThenRest_spec : forall s cap,
  wsThenRest s = Some cap -> endsVisible s = true ->
  (exists pre post, s = pre ++ cap ++ post) /\
  startsVisible cap = true /\ oneLine cap = true.
Proof.
  induction s as [|c s IH]; intros cap H Hend; [discriminate |].
  rewrite wsThenRest_cons in H. destruct (isWhiteSpace c) eqn:Hc; [| discriminate].
  destruct s as [|d s'].
  { discriminate. }
  rewrite endsVisible_cons in Hend by discriminate.
  destruct (wsThenRest (d :: s')) as [cap' |] eqn:Hrec.
  - injection H as <-.
    destruct (IH cap' eq_refl Hend) as ((pre & post & Hs) & Hv & Hl).
    split; [| now split]. exists (c :: pre), post. cbn [app]. now rewrite <- Hs.
  - apply dotPlus_spec in H. destruct H as (Hne & Hl & post & Hs).
    split; [exists [c], post; cbn [app]; now rewrite <- Hs |].
    split; [| exact Hl].
    destruct cap as [|e cap']; [congruence |].
    injection Hs as <- _. cbn [startsVisible].
    destruct (isWhiteSpace d) eqn:Hd; [| reflexivity].
    apply wsThenRest_None in Hrec; [| exact Hd].
    apply endsVisible_blank in Hrec. congruence.
Qed.

Lemma digitsDotRest_spec : forall s cap,
  digitsDotRest s = Some cap -> endsVisible s = true ->
  (exists pre post, s = pre ++ cap ++ post) /\
  startsVisible cap = true /\ oneLine cap = true.
Proof.
  induction s as [|c s IH]; intros cap H Hend; [discriminate |].
  rewrite digitsDotRest_cons in H. destruct (isDigit c); [| discriminate].
  destruct s as [|d s'].
  { discriminate. }
  rewrite endsVisible_cons in Hend by discriminate.
  destruct (digitsDotRest (d :: s')) as [cap' |] eqn:Hrec.
  - injection H as <-.
    destruct (IH cap' eq_refl Hend) as ((pre & post & Hs) & Hv & Hl).
    split; [| now split]. exists (c :: pre), post. cbn [app]. now rewrite <- Hs.
  - destruct (N.eqb d DOT); [| discriminate].
    destruct s' as [|e s'']; [discriminate |].
    rewrite endsVisible_cons in Hend by discriminate.
    destruct (wsThenRest_spec _ _ H Hend) as ((pre & post & Hs) & Hv & Hl).
    split; [| now split]. exists (c :: d :: pre), post. cbn [app]. now rewrite <- Hs.
Qed.

Lemma bulletMatch_spec (trimmed cap : str) :
  bulletMatch trimmed = Some cap -> endsVisible trimmed = true ->
  (exists pre post, trimmed = pre ++ cap ++ post) /\
  startsVisible cap = true /\ oneLine cap = true.
Proof.
  unfold bulletMatch. destruct trimmed as [|c s]; [discriminate |].
  destruct (N.eqb c HYPHEN || N.eqb c STAR || N.eqb c PLUS)%bool; [| discriminate].
  intros H Hend. destruct s as [|d s']; [discriminate |].
  rewrite endsVisible_cons in Hend by discriminate.
  destruct (wsThenRest_spec _ _ H Hend) as ((pre & post & Hs) & Hv & Hl).
  split; [| now split]. exists (c :: pre), post. cbn [app]. now rewrite <- Hs.
Qed.

(** The text of the item of a non-blank line is a stretch of its [trim()]
    that starts with a visible character. *)
Lemma listItemOfLine_text (line : str) :
  truthy (trim line) = true ->
  (exists pre post, trim line = pre ++ item_text (listItemOfLine line) ++ post) /\
  startsVisible (item_text (listItemOfLine line)) = true.
Proof.
  intros Ht. apply trim_visibleText in Ht. unfold visibleText in Ht.
  apply andb_prop in Ht. destruct Ht as [Hs He].
  unfold listItemOfLine.
  destruct (bulletMatch (trim line)) as [cap |] eqn:Hb.
  { destruct (bulletMatch_spec _ _ Hb He) as (Hin & Hv & _). now split. }
  unfold numberMatch.
  destruct (digitsDotRest (trim line)) as [cap |] eqn:Hn.
  { destruct (digitsDotRest_spec _ _ Hn He) as (Hin & Hv & _). now split. }
  cbn [item_text]. split; [| exact Hs].
  exists [], []. now rewrite app_nil_r.
Qed.

(** X14. Every item of [parseMarkdownList] takes its text from its own line:
    the text is a stretch of the line, it starts with a character that is
    not whitespace (so it is not empty), and it has no line feed. *)
Theorem parseMarkdownList_item_texts : forall markdown : str,
  Forall2 takenFrom (nonBlankLines markdown) (parseMarkdownList markdown).
Proof.
  intros markdown. rewrite parseMarkdownList_map.
  assert (Hlines : Forall (fun line => truthy (trim line) = true /\ ~ In LF line)
                          (nonBlankLines markdown)).
  { apply Forall_forall. intros line Hin. unfold nonBlankLines in Hin.
    apply filter_In in Hin. destruct Hin as [Hin Ht]. split; [exact Ht |].
    eapply split1_pieces; eassumption. }
  induction Hlines as [|line lines [Ht Hno] _ IH]; [constructor |].
  cbn [map]. constructor; [| exact IH].
  destruct (listItemOfLine_text line Ht) as ((pre & post & Hin) & Hv).
  destruct (trim_infix line) as (pre' & post' & Hline).
  assert (Hstretch : line = (pre' ++ pre) ++ item_text (listItemOfLine line)
                            ++ (post ++ post')).
  { rewrite Hline at 1. rewrite Hin. now rewrite <- !app_assoc. }
  split; [now exists (pre' ++ pre), (post ++ post') |].
  split; [exact Hv |].
  intros HLF. apply Hno. rewrite Hstretch.
  apply in_or_app. right. apply in_or_app. now left.
Qed.

Lemma isDigit_cases (d : char) :
  isDigit d = true ->
  isWhiteSpace d = false /\ d <> LF /\
  (N.eqb d HYPHEN || N.eqb d STAR || N.eqb d PLUS)%bool = false.
Proof.
  unfold isDigit, inRangeN. intros H. apply andb_prop in H.
  destruct H as [Hlo Hhi]. apply N.leb_le in Hlo, Hhi.
  assert (Hd : (d = 48 \/ d = 49 \/ d = 50 \/ d = 51 \/ d = 52 \/ d = 53 \/
                d = 54 \/ d = 55 \/ d = 56 \/ d = 57)%N) by lia.
  repeat (destruct Hd as [-> | Hd]); try subst d;
    (split; [reflexivity | split; [discriminate | reflexivity]]).
Qed.

Lemma bullet_cases (c : char) :
  (N.eqb c HYPHEN || N.eqb c STAR || N.eqb c PLUS)%bool = true ->
  isWhiteSpace c = false /\ c <> LF.
Proof.
  rewrite !orb_true_iff, !N.eqb_eq.
  intros [[-> | ->] | ->]; (split; [reflexivity | discriminate]).
Qed.

Lemma oneLine_no_LF (t : str) : oneLine t = true -> ~ In LF t.
Proof.
  unfold oneLine. intros H Hin.
  rewrite forallb_forall in H. specialize (H LF Hin). discriminate.
Qed.

(** The whitespace run gives nothing back when the body starts with a
    visible character and is one line. *)
Lemma wsThenRest_gap : forall gap body,
  gap <> [] -> forallb isWhiteSpace gap = true ->
  startsVisible body = true -> oneLine body = true ->
  wsThenRest (gap ++ body) = Some body.
Proof.
  induction gap as [|g gap IH]; intros body Hne Hws Hv Hl; [congruence |].
  cbn [forallb] in Hws. apply andb_prop in Hws. destruct Hws as [Hg Hws].
  cbn [app]. rewrite wsThenRest_cons, Hg.
  destruct gap as [|g' gap'].
  - cbn [app]. destruct body as [|b body']; [discriminate |].
    cbn [startsVisible] in Hv. rewrite wsThenRest_cons.
    destruct (isWhiteSpace b); [discriminate |].
    unfold dotPlus. unfold oneLine in Hl. rewrite takeWhile_all by exact Hl.
    reflexivity.
  - rewrite IH; auto. discriminate.
Qed.

Lemma digitsDotRest_digits : forall digits rest body,
  digits <> [] -> forallb isDigit digits = true ->
  wsThenRest rest = Some body ->
  digitsDotRest (digits ++ DOT :: rest) = Some body.
Proof.
  induction digits as [|d digits IH]; intros rest body Hne Hds Hrest; [congruence |].
  cbn [forallb] in Hds. apply andb_prop in Hds. destruct Hds as [Hd Hds].
  cbn [app]. rewrite digitsDotRest_cons, Hd.
  destruct digits as [|d' digits'].
  - cbn [app]. rewrite digitsDotRest_cons.
    change (isDigit DOT) with false. cbv iota.
    now rewrite N.eqb_refl.
  - rewrite (IH rest body); auto. discriminate.
Qed.

(** A well-formed list line: what its parts are for the loop body. *)
Lemma markedLine_parts (l : MarkedLine) :
  markedLineOk l = true ->
  ~ In LF (lineText l) /\
  trim (lineText l) = markerText (ml_marker l) ++ ml_gap l ++ ml_body l /\
  leadingSpaces (lineText l) = ml_indent l /\
  wsThenRest (ml_gap l ++ ml_body l) = Some (ml_body l).
Proof.
  unfold markedLineOk, lineText. destruct l as [k m gap body]. cbn [ml_indent ml_marker ml_gap ml_body].
  rewrite !andb_true_iff. intros [[[[Hm Hgap] Hws] Hbody] Hline].
  assert (Hgap' : gap <> []) by (destruct gap; [discriminate | discriminate]).
  assert (Hws1 : forallb isWhiteSpace gap = true).
  { apply forallb_forall. intros c Hin. rewrite forallb_forall in Hws.
    specialize (Hws c Hin). now apply andb_prop in Hws. }
  assert (Hws2 : ~ In LF gap).
  { intros Hin. rewrite forallb_forall in Hws. specialize (Hws LF Hin).
    apply andb_prop in Hws. destruct Hws as [_ Hws]. discriminate. }
  pose proof Hbody as Hb. unfold visibleText in Hb. apply andb_prop in Hb.
  destruct Hb as [Hbs Hbe].
  assert (Hbne : body <> []) by (destruct body; [discriminate | discriminate]).
  assert (Hhead : exists c r, markerText m = c :: r /\ isWhiteSpace c = false
                              /\ ~ In LF (markerText m)).
  { destruct m as [c | digits]; cbn [markerText markerOk] in *.
    - destruct (bullet_cases c Hm) as [Hc HLF]. exists c, []. repeat split; auto.
      intros [H | []]. congruence.
    - apply andb_prop in Hm. destruct Hm as [Hne Hds].
      destruct digits as [|d ds]; [discriminate |].
      exists d, (ds ++ [DOT]). split; [reflexivity |].
      pose proof Hds as Hd. cbn [forallb] in Hd. apply andb_prop in Hd.
      split; [apply (isDigit_cases d); tauto |].
      intros Hin. apply in_app_or in Hin. destruct Hin as [Hin | [H | []]];
        [| discriminate].
      rewrite forallb_forall in Hds. specialize (Hds LF Hin). discriminate. }
  destruct Hhead as (c & r & Hmt & Hc & HmLF).
  split; [| split; [| split]].
  - intros Hin. apply in_app_or in Hin. destruct Hin as [Hin | Hin].
    { apply repeat_spec in Hin. discriminate. }
    apply in_app_or in Hin. destruct Hin as [Hin | Hin]; [auto |].
    apply in_app_or in Hin. destruct Hin as [Hin | Hin]; [auto |].
    revert Hin. now apply oneLine_no_LF.
  - unfold trim. rewrite trimStart_whitespace_prefix by apply forallb_repeat_SP.
    rewrite trimStart_visible by (rewrite Hmt; cbn [app startsVisible]; now rewrite Hc).
    apply trimEnd_visible.
    rewrite !endsVisible_app; auto.
    destruct gap; [congruence | discriminate].
  - rewrite Hmt. cbn [app].
    apply leadingSpaces_indent with (indent := repeat SP k) (c := c)
      (rest := r ++ gap ++ body) in Hc; [| apply forallb_repeat_SP].
    rewrite Hc. apply repeat_length.
  - now apply wsThenRest_gap.
Qed.

Lemma listItemOfLine_marked (l : MarkedLine) :
  markedLineOk l = true ->
  listItemOfLine (lineText l) = itemOfMarkedLine l.
Proof.
  intros Hok. destruct (markedLine_parts l Hok) as (_ & Htrim & Hlead & Hcap).
  unfold listItemOfLine, itemOfMarkedLine. rewrite Htrim, Hlead.
  unfold markedLineOk in Hok. rewrite !andb_true_iff in Hok.
  destruct Hok as [[[[Hm _] _] _] _].
  destruct (ml_marker l) as [c | digits]; cbn [markerText markerOk markerNumbered] in *.
  - cbn [app bulletMatch]. rewrite Hm, Hcap. reflexivity.
  - apply andb_prop in Hm. destruct Hm as [Hne Hds].
    assert (Hnum : numberMatch ((digits ++ [DOT]) ++ ml_gap l ++ ml_body l)
                   = Some (ml_body l)).
    { unfold numberMatch. rewrite <- app_assoc. cbn [app].
      apply digitsDotRest_digits; auto. destruct digits; [discriminate | discriminate]. }
    rewrite Hnum.
    destruct digits as [|d ds]; [discriminate |].
    cbn [forallb] in Hds. apply andb_prop in Hds. destruct Hds as [Hd _].
    destruct (isDigit_cases d Hd) as (_ & _ & Hnb).
    cbn [app bulletMatch]. rewrite Hnb. reflexivity.
Qed.

(** X15. Well-formed list lines are read back as written. For lines made of
    spaces, a marker ([-], [*], [+], or digits and a dot), whitespace and a
    one-line body with visible ends, joined by line feeds,
    [parseMarkdownList] returns one item per line: the body as text, half
    the number of spaces as level, and [isNumbered] exactly for the digit
    markers. *)
Theorem parseMarkdownList_marked_lines : forall lines : list MarkedLine,
  forallb markedLineOk lines = true ->
  parseMarkdownList (join [LF] (map lineText lines)) = map itemOfMarkedLine lines.
Proof.
  intros lines Hok. rewrite forallb_forall in Hok.
  destruct lines as [|l lines]; [reflexivity |].
  rewrite parseMarkdownList_map. unfold nonBlankLines.
  rewrite split1_join.
  - assert (Hkeep : forall ls : list MarkedLine,
              (forall x, In x ls -> markedLineOk x = true) ->
              map listItemOfLine
                (filter (fun line => truthy (trim line)) (map lineText ls))
              = map itemOfMarkedLine ls).
    { induction ls as [|x ls IH]; intros Hall; [reflexivity |].
      cbn [map filter].
      destruct (markedLine_parts x (Hall x (or_introl eq_refl)))
        as (_ & Htrim & _ & _).
      assert (Ht : truthy (trim (lineText x)) = true).
      { rewrite Htrim. specialize (Hall x (or_introl eq_refl)).
        unfold markedLineOk in Hall. rewrite !andb_true_iff in Hall.
        destruct Hall as [[[[Hm _] _] _] _].
        destruct (ml_marker x) as [c | digits]; [reflexivity |].
        cbn [markerOk markerText] in *. apply andb_prop in Hm.
        destruct digits; [destruct Hm; discriminate | reflexivity]. }
      rewrite Ht. cbn [map]. rewrite listItemOfLine_marked by (apply Hall; now left).
      f_equal. apply IH. intros y Hy. apply Hall. now right. }
    apply Hkeep. exact Hok.
  - discriminate.
  - apply Forall_forall. intros line Hin. apply in_map_iff in Hin.
    destruct Hin as (x & <- & Hx). now apply markedLine_parts, Hok.
Qed.

Lemma parseMarkdownList_marked_lines_witness :
  parseMarkdownList
    (join [LF]
       (map lineText
          [ {| ml_indent := 0; ml_marker := NumberMarker (js "12");
               ml_gap := js " "; ml_body := js "first step" |};
            {| ml_indent := 4; ml_marker := BulletMarker STAR;
               ml_gap := js "  "; ml_body := js "detail" |} ]))
  = map itemOfMarkedLine
      [ {| ml_indent := 0; ml_marker := NumberMarker (js "12");
           ml_gap := js " "; ml_body := js "first step" |};
        {| ml_indent := 4; ml_marker := BulletMarker STAR;
           ml_gap := js "  "; ml_body := js "detail" |} ].
Proof.
  apply (parseMarkdownList_marked_lines
           [ {| ml_indent := 0; ml_marker := NumberMarker (js "12");
                ml_gap := js " "; ml_body := js "first step" |};
             {| ml_indent := 4; ml_marker := BulletMarker STAR;
                ml_gap := js "  "; ml_body := js "detail" |} ]).
  vm_compute. reflexivity.
Defined.

(* ===================================================================== *)
(** ** The table structurer, further *)
(* ===================================================================== *)

Lemma includes_false (s : str) (c : char) : includes s c = false <-> ~ In c s.
Proof.
  unfold includes. split.
  - intros H Hin. assert (Hex : existsb (N.eqb c) s = true).
    { apply existsb_exists. exists c. split; [exact Hin | apply N.eqb_refl]. }
    congruence.
  - intros Hno. destruct (existsb (N.eqb c) s) eqn:Hex; [| reflexivity].
    apply existsb_exists in Hex. destruct Hex as (d & Hin & Hd).
    apply N.eqb_eq in Hd. subst d. contradiction.
Qed.

(** The characters of a piece of a split are characters of the text. *)
Lemma split1_In (c : char) : forall s p x,
  In p (split1 c s) -> In x p -> In x s.
Proof.
  induction s as [|d s IH]; intros p x Hp Hx.
  - destruct Hp as [<- | []]. exact Hx.
  - cbn [split1] in Hp. destruct (N.eqb d c).
    + destruct Hp as [<- | Hp]; [destruct Hx |]. right. eapply IH; eassumption.
    + destruct (split1 c s) as [|piece rest] eqn:Hs.
      * destruct Hp as [<- | []]. destruct Hx as [<- | []]. now left.
      * destruct Hp as [<- | Hp].
        -- destruct Hx as [<- | Hx]; [now left |]. right.
           apply (IH piece x); [now left | exact Hx].
        -- right. apply (IH p x); [now right | exact Hx].
Qed.

Lemma trim_In (s : str) (x : char) : In x (trim s) -> In x s.
Proof.
  intros Hin. destruct (trim_infix s) as (pre & post & Hs). rewrite Hs.
  apply in_or_app. right. apply in_or_app. now left.
Qed.

(** The cells of a line have visible ends and no pipe. *)
Lemma cellsOf_ok (line : str) :
  ~ In LF line -> forallb cellOk (cellsOf line) = true.
Proof.
  intros HLF. apply forallb_forall. intros cell Hin. unfold cellsOf in Hin.
  apply filter_In in Hin. destruct Hin as [Hin Ht].
  apply in_map_iff in Hin. destruct Hin as (p & <- & Hp).
  unfold cellOk. rewrite !andb_true_iff, !negb_true_iff, !includes_false.
  split; [split |].
  - now apply trim_visibleText.
  - intros Hpipe. apply trim_In in Hpipe. revert Hpipe.
    eapply split1_pieces; eassumption.
  - intros H. apply trim_In in H. apply HLF. eapply split1_In; eassumption.
Qed.

Lemma nonBlankLines_no_LF (markdown line : str) :
  In line (nonBlankLines markdown) -> ~ In LF (trim line).
Proof.
  unfold nonBlankLines. intros Hin. apply filter_In in Hin.
  destruct Hin as [Hin _]. intros H. apply trim_In in H. revert H.
  eapply split1_pieces; eassumption.
Qed.

Lemma forallb_firstn (A : Type) (p : A -> bool) : forall n l,
  forallb p l = true -> forallb p (firstn n l) = true.
Proof.
  induction n as [|n IH]; intros l H; [reflexivity |].
  destruct l as [|x l]; [reflexivity |].
  cbn [forallb firstn] in *. apply andb_prop in H. destruct H as [Hx Hl].
  rewrite Hx. now apply IH.
Qed.

Lemma padCells_paddedRow (n : nat) (cells : list str) :
  forallb cellOk cells = true -> 0 < length cells ->
  paddedRow n (padCells n cells).
Proof.
  intros Hok Hlen. destruct (le_lt_dec (length cells) n) as [Hshort | Hlong].
  - rewrite padCells_short by exact Hshort.
    exists cells, (n - length cells). split; [reflexivity |].
    split; [exact Hok |]. right. destruct cells; [simpl in Hlen; lia | discriminate].
  - rewrite padCells_long by lia.
    exists (firstn n cells), 0. cbn [repeat]. rewrite app_nil_r.
    split; [reflexivity |]. split; [now apply forallb_firstn |].
    destruct n as [|n]; [now left | right].
    destruct cells; [simpl in Hlen; lia | discriminate].
Qed.

(** X16. In every table that [parseMarkdownTable] returns, a header cell has
    visible ends (so it is not empty) and holds neither a pipe nor a line
    feed; a row is such cells followed by empty strings only, and unless the
    table has no column its first cell is not padding. *)
Theorem parseMarkdownTable_cells : forall (markdown : str) (table : ParsedTable),
  parseMarkdownTable markdown = Some table ->
  forallb cellOk (headers table) = true /\
  Forall (paddedRow (length (headers table))) (rows table).
Proof.
  intros markdown table Hparse.
  assert (Hlines : 2 <= length (nonBlankLines markdown)).
  { unfold parseMarkdownTable in Hparse.
    destruct (Nat.ltb_spec (length (nonBlankLines markdown)) 2); [discriminate | lia]. }
  apply parseMarkdownTable_Some in Hparse. destruct Hparse as [Hh Hr].
  split.
  - rewrite Hh. apply cellsOf_ok. apply (nonBlankLines_no_LF markdown).
    apply nth_In. lia.
  - rewrite Hr, rowLoop_filter_map. apply Forall_forall. intros row Hin.
    apply in_map_iff in Hin. destruct Hin as (line & <- & Hline).
    apply filter_In in Hline. destruct Hline as [Hline Hdata].
    unfold isDataRow in Hdata. apply andb_prop in Hdata.
    destruct Hdata as [_ Hcells]. apply Nat.ltb_lt in Hcells.
    apply padCells_paddedRow; [| exact Hcells].
    apply cellsOf_ok. apply (nonBlankLines_no_LF markdown).
    rewrite <- (firstn_skipn 2 (nonBlankLines markdown)).
    apply in_or_app. now right.
Qed.

Lemma parseMarkdownTable_cells_witness :
  forallb cellOk [js "A"; js "B"] = true /\
  Forall (paddedRow (length [js "A"; js "B"])) [[js "1"; js "2"]].
Proof.
  exact (parseMarkdownTable_cells TABLE_SCENARIO
           {| headers := [js "A"; js "B"]; rows := [[js "1"; js "2"]] |} eq_refl).
Defined.

Lemma cellOk_parts (c : str) :
  cellOk c = true ->
  startsVisible c = true /\ endsVisible c = true /\ ~ In PIPE c /\ ~ In LF c.
Proof.
  unfold cellOk, visibleText.
  rewrite !andb_true_iff, !negb_true_iff, !includes_false. tauto.
Qed.

(** [trim] takes the blank on either side of a cell away. *)
Lemma trim_spaced_cell (c : str) :
  cellOk c = true -> trim (SP :: c ++ [SP]) = c.
Proof.
  intros Hok. destruct (cellOk_parts c Hok) as (Hs & He & _).
  unfold trim.
  replace (trimStart (SP :: c ++ [SP])) with (c ++ [SP]).
  - unfold trimEnd. rewrite rev_app_distr. cbn [rev app dropWhile].
    change (isWhiteSpace SP) with true. cbv iota.
    fold (trimStart (rev c)). rewrite trimStart_visible by exact He.
    apply rev_involutive.
  - unfold trimStart. cbn [dropWhile]. change (isWhiteSpace SP) with true.
    cbv iota. fold (trimStart (c ++ [SP])). symmetry. apply trimStart_visible.
    destruct c; [discriminate | exact Hs].
Qed.

(** The pieces of a table line between its pipes. *)
Lemma split1_tableLine : forall cells,
  forallb cellOk cells = true ->
  split1 PIPE (concat (map (fun c => SP :: c ++ [SP; PIPE]) cells))
  = map (fun c => SP :: c ++ [SP]) cells ++ [[]].
Proof.
  induction cells as [|c cells IH]; intros Hok; [reflexivity |].
  cbn [forallb] in Hok. apply andb_prop in Hok. destruct Hok as [Hc Hok].
  destruct (cellOk_parts c Hc) as (_ & _ & Hpipe & _).
  cbn [map concat].
  replace ((SP :: c ++ [SP; PIPE]) ++ concat (map (fun c0 => SP :: c0 ++ [SP; PIPE]) cells))
    with ((SP :: c ++ [SP]) ++ PIPE :: concat (map (fun c0 => SP :: c0 ++ [SP; PIPE]) cells))
    by (cbn [app]; rewrite <- !app_assoc; reflexivity).
  rewrite split1_app.
  - rewrite IH by exact Hok. reflexivity.
  - intros [H | H]; [discriminate |].
    apply in_app_or in H. destruct H as [H | [H | []]]; [auto | discriminate].
Qed.

Lemma cellsOf_spaced : forall cells,
  forallb cellOk cells = true ->
  filter truthy (map trim (map (fun c => SP :: c ++ [SP]) cells ++ [[]])) = cells.
Proof.
  induction cells as [|c cells IH]; intros Hok; [reflexivity |].
  cbn [forallb] in Hok. apply andb_prop in Hok. destruct Hok as [Hc Hok].
  cbn [map app filter]. rewrite trim_spaced_cell by exact Hc.
  destruct (cellOk_parts c Hc) as (Hs & _).
  replace (truthy c) with true by (destruct c; [discriminate | reflexivity]).
  f_equal. now apply IH.
Qed.

(** The cells of a written table line are the cells written. *)
Lemma cellsOf_tableLine (cells : list str) :
  forallb cellOk cells = true -> cellsOf (tableLine cells) = cells.
Proof.
  intros Hok. unfold cellsOf, tableLine. cbn [split1].
  rewrite N.eqb_refl, split1_tableLine by exact Hok.
  cbn [map filter]. change (truthy (trim [])) with false. cbv iota.
  now apply cellsOf_spaced.
Qed.

Lemma endsVisible_snoc (s : str) (c : char) :
  endsVisible (s ++ [c]) = negb (isWhiteSpace c).
Proof. unfold endsVisible. rewrite rev_app_distr. reflexivity. Qed.

Lemma tableLine_last : forall cells,
  tableLine cells = [PIPE] \/ exists s, tableLine cells = s ++ [PIPE].
Proof.
  intros cells. unfold tableLine.
  induction cells as [|c cells IH] using rev_ind; [now left |].
  right. rewrite map_app, concat_app. cbn [map concat].
  rewrite app_nil_r.
  exists (PIPE :: concat (map (fun c0 => SP :: c0 ++ [SP; PIPE]) cells) ++ SP :: c ++ [SP]).
  cbn [app]. f_equal. rewrite <- !app_assoc. f_equal. cbn [app].
  f_equal. now rewrite <- app_assoc.
Qed.

Lemma trim_tableLine (cells : list str) : trim (tableLine cells) = tableLine cells.
Proof.
  apply trim_visible. unfold visibleText. apply andb_true_intro.
  split; [reflexivity |].
  destruct (tableLine_last cells) as [-> | (s & ->)]; [reflexivity |].
  now rewrite endsVisible_snoc.
Qed.

Lemma tableLine_no_LF (cells : list str) :
  forallb cellOk cells = true -> ~ In LF (tableLine cells).
Proof.
  intros Hok. unfold tableLine. intros [H | H]; [discriminate |].
  apply in_concat in H. destruct H as (piece & Hpiece & Hin).
  apply in_map_iff in Hpiece. destruct Hpiece as (c & <- & Hc).
  rewrite forallb_forall in Hok. specialize (Hok c Hc).
  destruct (cellOk_parts c Hok) as (_ & _ & _ & HLF).
  destruct Hin as [H | H]; [discriminate |].
  apply in_app_or in H. destruct H as [H | [H | [H | []]]];
    [auto | discriminate | discriminate].
Qed.

Lemma separatorLine_chars (columns : nat) :
  forallb (fun c => N.eqb c PIPE || N.eqb c HYPHEN)%bool (separatorLine columns) = true.
Proof.
  assert (Hbody : forallb (fun c => N.eqb c PIPE || N.eqb c HYPHEN)%bool
                    (concat (repeat (js "---|") columns)) = true).
  { induction columns as [|k IH]; [reflexivity |].
    cbn [repeat concat]. rewrite forallb_app.
    apply andb_true_intro. split; [reflexivity | exact IH]. }
  unfold separatorLine.
  change (forallb ?f (PIPE :: ?l)) with (f PIPE && forallb f l)%bool.
  apply andb_true_intro. split; [reflexivity | exact Hbody].
Qed.

Lemma separatorLine_last (columns : nat) :
  separatorLine columns = [PIPE] \/ exists s, separatorLine columns = s ++ [PIPE].
Proof.
  unfold separatorLine. destruct columns as [|k]; [now left | right].
  assert (Hbody : exists s, concat (repeat (js "---|") (S k)) = s ++ [PIPE]).
  { induction k as [|k (s & IH)].
    - exists (js "---"). reflexivity.
    - exists (js "---|" ++ s).
      change (concat (repeat (js "---|") (S (S k))))
        with (js "---|" ++ concat (repeat (js "---|") (S k))).
      rewrite <- app_assoc. f_equal. exact IH. }
  destruct Hbody as (s & Hs). exists (PIPE :: s). cbn [app]. f_equal. exact Hs.
Qed.

Lemma separatorLine_facts (columns : nat) :
  trim (separatorLine columns) = separatorLine columns /\
  ~ In LF (separatorLine columns) /\
  separatorRegex (separatorLine columns) = true.
Proof.
  pose proof (separatorLine_chars columns) as Hchars.
  rewrite forallb_forall in Hchars.
  split; [| split].
  - apply trim_visible. unfold visibleText. apply andb_true_intro.
    split; [reflexivity |].
    destruct (separatorLine_last columns) as [-> | (s & ->)]; [reflexivity |].
    now rewrite endsVisible_snoc.
  - intros H. specialize (Hchars LF H). discriminate.
  - apply separatorRegex_spec. split; [discriminate |].
    apply forallb_forall. intros c Hc. specialize (Hchars c Hc).
    unfold isSeparatorChar. apply orb_prop in Hchars.
    destruct Hchars as [H | H]; rewrite H; rewrite ?orb_true_r; reflexivity.
Qed.

Lemma rowLoop_tableLines (columns : nat) : forall rows,
  0 < columns ->
  forallb (fun row => (length row =? columns) && forallb cellOk row)%bool rows = true ->
  rowLoop columns (map tableLine rows) = rows.
Proof.
  intros rows Hcol. induction rows as [|row rows IH]; intros Hok; [reflexivity |].
  cbn [forallb] in Hok. rewrite !andb_true_iff in Hok.
  destruct Hok as [[Hlen Hcells] Hrest]. apply Nat.eqb_eq in Hlen.
  cbn [map rowLoop]. rewrite trim_tableLine.
  replace (includes (tableLine row) PIPE) with true
    by (unfold tableLine, includes; cbn [existsb]; now rewrite N.eqb_refl).
  cbn [negb]. rewrite cellsOf_tableLine by exact Hcells.
  replace (0 <? length row) with true by (symmetry; apply Nat.ltb_lt; lia).
  rewrite padCells_short by lia. rewrite Hlen, Nat.sub_diag. cbn [repeat].
  rewrite app_nil_r. f_equal. now apply IH.
Qed.

(** X17. A table that is written down the usual way is read back as it is:
    for at least one column, rows as wide as the header, and cells with
    visible ends and without pipe and line feed, parsing the lines
    [| h1 | h2 |], [|---|---|], [| c1 | c2 |], ... gives the headers and the
    rows written. *)
Theorem parseMarkdownTable_render : forall t : ParsedTable,
  tableOk t = true -> parseMarkdownTable (renderTable t) = Some t.
Proof.
  intros [hs rs]. unfold tableOk, renderTable. cbn [headers rows].
  rewrite !andb_true_iff. intros [[Hcol Hhs] Hrs]. apply Nat.ltb_lt in Hcol.
  destruct (separatorLine_facts (length hs)) as (Hstrim & HsLF & Hsep).
  assert (HrsLF : Forall (fun l => ~ In LF l) (map tableLine rs)).
  { apply Forall_forall. intros l Hin. apply in_map_iff in Hin.
    destruct Hin as (row & <- & Hrow). apply tableLine_no_LF.
    rewrite forallb_forall in Hrs. specialize (Hrs row Hrow).
    now apply andb_prop in Hrs. }
  assert (Hkeep : forall rows' : list (list str),
            filter (fun line => truthy (trim line)) (map tableLine rows')
            = map tableLine rows').
  { induction rows' as [|row rows' IH]; [reflexivity |].
    cbn [map filter]. rewrite trim_tableLine. cbn [tableLine truthy].
    now rewrite IH. }
  assert (Hlines : nonBlankLines
                     (join [LF] (tableLine hs :: separatorLine (length hs)
                                 :: map tableLine rs))
                   = tableLine hs :: separatorLine (length hs) :: map tableLine rs).
  { unfold nonBlankLines. rewrite split1_join.
    - cbn [filter]. rewrite trim_tableLine, Hstrim, Hkeep. reflexivity.
    - discriminate.
    - constructor; [now apply tableLine_no_LF |]. constructor; assumption. }
  unfold parseMarkdownTable. rewrite Hlines.
  cbn [length Nat.ltb Nat.leb nth skipn].
  rewrite trim_tableLine, Hstrim, Hsep.
  replace (includes (tableLine hs) PIPE) with true
    by (unfold tableLine, includes; cbn [existsb]; now rewrite N.eqb_refl).
  replace (includes (separatorLine (length hs)) PIPE) with true
    by (unfold separatorLine, includes; cbn [existsb]; now rewrite N.eqb_refl).
  cbn [negb orb]. rewrite cellsOf_tableLine by exact Hhs.
  rewrite rowLoop_tableLines by assumption. reflexivity.
Qed.

Lemma parseMarkdownTable_render_witness :
  parseMarkdownTable
    (renderTable {| headers := [js "Name"; js "Qty"];
                    rows := [[js "nut"; js "12"]; [js "bolt M4"; js "7"]] |})
  = Some {| headers := [js "Name"; js "Qty"];
            rows := [[js "nut"; js "12"]; [js "bolt M4"; js "7"]] |}.
Proof.
  apply (parseMarkdownTable_render
           {| headers := [js "Name"; js "Qty"];
              rows := [[js "nut"; js "12"]; [js "bolt M4"; js "7"]] |}).
  vm_compute. reflexivity.
Defined.

(* ===================================================================== *)
(** ** The table tool *)
(* ===================================================================== *)

Lemma headerInserts_In (id : str) (hs : list str) (o : str)
    (l : option CellLocation) (t : str) (i : nat) :
  In (InsertText o l t i) (headerInserts id hs) <->
  o = id /\ i = 0 /\ t <> [] /\
  exists c, l = Some {| rowIndex := 0; columnIndex := c |} /\
            c < length hs /\ t = nth c hs [].
Proof.
  unfold headerInserts. rewrite in_flat_map. split.
  - intros (c & Hc & Hin). apply in_seq in Hc. cbv zeta in Hin.
    destruct (truthy (nth c hs [])) eqn:Ht; [| destruct Hin].
    destruct Hin as [Heq | []]. injection Heq as <- <- <- <-.
    repeat split; auto; [now apply truthy_true |].
    exists c. repeat split; auto. lia.
  - intros (-> & -> & Hne & c & -> & Hc & ->). exists c.
    split; [apply in_seq; lia |]. cbv zeta.
    destruct (nth c hs []); [congruence | now left].
Qed.

Lemma rowInserts_In (id : str) (rs : list (list str)) (n : nat) (o : str)
    (l : option CellLocation) (t : str) (i : nat) :
  In (InsertText o l t i) (rowInserts id rs n) <->
  o = id /\ i = 0 /\ t <> [] /\
  exists r c, l = Some {| rowIndex := r + 1; columnIndex := c |} /\
              r < length rs /\ c < n /\ t = nth c (nth r rs []) [].
Proof.
  unfold rowInserts. rewrite in_flat_map. split.
  - intros (r & Hr & Hin). apply in_seq in Hr.
    apply in_flat_map in Hin. destruct Hin as (c & Hc & Hin).
    apply in_seq in Hc. cbv zeta in Hin.
    destruct (truthy (nth c (nth r rs []) [])) eqn:Ht; [| destruct Hin].
    destruct Hin as [Heq | []]. injection Heq as <- <- <- <-.
    repeat split; auto; [now apply truthy_true |].
    exists r, c. repeat split; auto; lia.
  - intros (-> & -> & Hne & r & c & -> & Hr & Hc & ->). exists r.
    split; [apply in_seq; lia |]. apply in_flat_map. exists c.
    split; [apply in_seq; lia |]. cbv zeta.
    destruct (nth c (nth r rs []) []); [congruence | now left].
Qed.

Lemma headerStyling_In (id : str) (n : nat) (u : UpdateTextStyle) :
  In (UpdateTextStyleRequest u) (headerStyling id n) <->
  exists c, c < n /\
    u = cellStyleRequest id {| rowIndex := 0; columnIndex := c |}
          headerCellStyle (js "bold,fontSize,fontFamily").
Proof.
  unfold headerStyling. rewrite in_app_iff, in_map_iff. split.
  - intros [(c & Heq & Hc) | [H | []]]; [| discriminate].
    apply in_seq in Hc. injection Heq as <-. exists c. split; [lia | reflexivity].
  - intros (c & Hc & ->). left. exists c. split; [reflexivity | apply in_seq; lia].
Qed.

Lemma dataStyling_In (id : str) (rowCount n : nat) (u : UpdateTextStyle) :
  In (UpdateTextStyleRequest u) (dataStyling id rowCount n) <->
  exists r c, 1 <= r <= rowCount /\ c < n /\
    u = cellStyleRequest id {| rowIndex := r; columnIndex := c |}
          dataCellStyle (js "fontSize,fontFamily").
Proof.
  unfold dataStyling. rewrite in_flat_map. split.
  - intros (r & Hr & Hin). apply in_seq in Hr. apply in_map_iff in Hin.
    destruct Hin as (c & Heq & Hc). apply in_seq in Hc. injection Heq as <-.
    exists r, c. repeat split; auto; lia.
  - intros (r & c & Hr & Hc & ->). exists r. split; [apply in_seq; lia |].
    apply in_map_iff. exists c. split; [reflexivity | apply in_seq; lia].
Qed.

Lemma styling_no_insert (id : str) (rowCount n : nat) (o : str)
    (l : option CellLocation) (t : str) (i : nat) :
  ~ In (InsertText o l t i) (headerStyling id n) /\
  ~ In (InsertText o l t i) (dataStyling id rowCount n).
Proof.
  split.
  - unfold headerStyling. rewrite in_app_iff, in_map_iff.
    intros [(c & Heq & _) | [H | []]]; discriminate.
  - unfold dataStyling. rewrite in_flat_map. intros (r & _ & Hin).
    apply in_map_iff in Hin. destruct Hin as (c & Heq & _). discriminate.
Qed.

Lemma inserts_no_style (id : str) (hs : list str) (rs : list (list str)) (n : nat)
    (u : UpdateTextStyle) :
  ~ In (UpdateTextStyleRequest u) (headerInserts id hs) /\
  ~ In (UpdateTextStyleRequest u) (rowInserts id rs n).
Proof.
  split.
  - unfold headerInserts. rewrite in_flat_map. intros (c & _ & Hin).
    cbv zeta in Hin. destruct (truthy _); [| destruct Hin].
    destruct Hin as [H | []]. discriminate.
  - unfold rowInserts. rewrite in_flat_map. intros (r & _ & Hin).
    apply in_flat_map in Hin. destruct Hin as (c & _ & Hin).
    cbv zeta in Hin. destruct (truthy _); [| destruct Hin].
    destruct Hin as [H | []]. discriminate.
Qed.

(** The requests when the tool does not throw. *)
Lemma addTableToSlideRequests_inr (id : str) (args : AddTableToSlideArgs)
    (requests : list Request) :
  addTableToSlideRequests id args = inr requests ->
  exists table properties,
    parseMarkdownTable (tableContent args) = Some table /\
    headers table <> [] /\
    requests
    = [CreateTable id properties (length (rows table) + 1) (length (headers table))]
      ++ headerInserts id (headers table)
      ++ rowInserts id (rows table) (length (headers table))
      ++ (if match headerStyle args with Some false => false | _ => true end
          then headerStyling id (length (headers table)) else [])
      ++ (if 0 <? length (rows table)
          then dataStyling id (length (rows table)) (length (headers table)) else [])
      ++ [tableBorders id (length (rows table) + 1) (length (headers table))].
Proof.
  unfold addTableToSlideRequests.
  destruct (parseMarkdownTable (tableContent args)) as [table |]; [| discriminate].
  cbv zeta.
  destruct ((length (headers table) =? 0) || (length (rows table) + 1 =? 0))%bool eqn:Hzero;
    [discriminate |].
  intros H. injection H as <-. apply orb_false_elim in Hzero.
  destruct Hzero as [Hcols _]. apply Nat.eqb_neq in Hcols.
  eexists table, _. split; [reflexivity |].
  split; [destruct (headers table); [simpl in Hcols; lia | discriminate] |].
  reflexivity.
Qed.

(** X18. When [addTableToSlideTool] builds its requests, the first is
    [createTable] with one row more than the parsed table has rows and as
    many columns as it has headers, at least one. The [insertText] requests
    are exactly the non-empty cells of the parsed table: each is for the
    table object, at index 0, at a location within the created table, with
    the text of the cell there (row 0 holds the headers); and every
    non-empty cell has its request. *)
Theorem addTableToSlide_inserts :
  forall (tableObjectId : str) (args : AddTableToSlideArgs) (requests : list Request),
    addTableToSlideRequests tableObjectId args = inr requests ->
    exists table,
      parseMarkdownTable (tableContent args) = Some table /\
      headers table <> [] /\
      (exists properties rest,
         requests = CreateTable tableObjectId properties
                      (length (rows table) + 1) (length (headers table)) :: rest) /\
      forall objectId cellLocation text index,
        In (InsertText objectId cellLocation text index) requests <->
        objectId = tableObjectId /\ index = 0 /\ text <> [] /\
        exists loc, cellLocation = Some loc /\ inTable table loc /\
                    text = tableCell table loc.
Proof.
  intros id args requests Hreq.
  apply addTableToSlideRequests_inr in Hreq.
  destruct Hreq as (table & properties & Hparse & Hcols & ->).
  exists table. split; [exact Hparse |]. split; [exact Hcols |].
  split; [eexists _, _; reflexivity |].
  intros o l t i. rewrite !in_app_iff, headerInserts_In, rowInserts_In.
  destruct (styling_no_insert id (length (rows table)) (length (headers table)) o l t i)
    as [Hhs Hds].
  split.
  - intros [[H | []] | [H | [H | [H | [H | [H | []]]]]]]; try discriminate.
    + destruct H as (-> & -> & Hne & c & -> & Hc & ->).
      repeat split; auto. eexists. split; [reflexivity |].
      split; [split; cbn [rowIndex columnIndex]; lia | reflexivity].
    + destruct H as (-> & -> & Hne & r & c & -> & Hr & Hc & ->).
      repeat split; auto. eexists. split; [reflexivity |].
      split; [split; cbn [rowIndex columnIndex]; lia |].
      unfold tableCell. cbn [rowIndex columnIndex].
      replace (r + 1) with (S r) by lia. reflexivity.
    + destruct (match headerStyle args with Some false => false | _ => true end);
        [contradiction | destruct H].
    + destruct (0 <? length (rows table)); [contradiction | destruct H].
  - intros (-> & -> & Hne & [r c] & -> & [Hr Hc] & ->).
    cbn [rowIndex columnIndex] in Hr, Hc. right.
    destruct r as [|r].
    + left. repeat split; auto. exists c. repeat split; auto.
    + right. left. repeat split; auto. exists r, c.
      replace (r + 1) with (S r) by lia. repeat split; auto. lia.
Qed.

Lemma addTableToSlide_inserts_witness :
  exists table,
    parseMarkdownTable (tableContent TABLE_SCENARIO_ARGS) = Some table /\
    headers table <> [] /\
    (exists properties rest,
       requestsOf (addTableToSlideRequests (js "table_1") TABLE_SCENARIO_ARGS)
       = CreateTable (js "table_1") properties
           (length (rows table) + 1) (length (headers table)) :: rest) /\
    forall objectId cellLocation text index,
      In (InsertText objectId cellLocation text index)
         (requestsOf (addTableToSlideRequests (js "table_1") TABLE_SCENARIO_ARGS)) <->
      objectId = js "table_1" /\ index = 0 /\ text <> [] /\
      exists loc, cellLocation = Some loc /\ inTable table loc /\
                  text = tableCell table loc.
Proof.
  apply (addTableToSlide_inserts (js "table_1") TABLE_SCENARIO_ARGS).
  vm_compute. reflexivity.
Defined.

(** X19. When [addTableToSlideTool] builds its requests, the last is the
    border request over the whole created table, and the [updateTextStyle]
    requests are exactly these: for every location within the created table
    in a row after the first, the data style on the whole text of the cell;
    and, unless [headerStyle] is [false], for every location in row 0 the
    header style. None lies outside the table. *)
Theorem addTableToSlide_styles :
  forall (tableObjectId : str) (args : AddTableToSlideArgs) (requests : list Request),
    addTableToSlideRequests tableObjectId args = inr requests ->
    exists table,
      parseMarkdownTable (tableContent args) = Some table /\
      (exists front,
         requests = front ++ [tableBorders tableObjectId (length (rows table) + 1)
                                (length (headers table))]) /\
      forall u,
        In (UpdateTextStyleRequest u) requests <->
        exists loc, inTable table loc /\
          ((rowIndex loc = 0 /\ headerStyle args <> Some false /\
            u = cellStyleRequest tableObjectId loc headerCellStyle
                  (js "bold,fontSize,fontFamily")) \/
           (0 < rowIndex loc /\
            u = cellStyleRequest tableObjectId loc dataCellStyle
                  (js "fontSize,fontFamily"))).
Proof.
  intros id args requests Hreq.
  apply addTableToSlideRequests_inr in Hreq.
  destruct Hreq as (table & properties & Hparse & Hcols & ->).
  exists table. split; [exact Hparse |]. split.
  { eexists. rewrite !app_assoc. reflexivity. }
  intros u. rewrite !in_app_iff.
  destruct (inserts_no_style id (headers table) (rows table) (length (headers table)) u)
    as [Hhi Hri].
  assert (Hstyled : match headerStyle args with Some false => false | _ => true end = true
                    <-> headerStyle args <> Some false).
  { destruct (headerStyle args) as [[|] |]; split; congruence. }
  split.
  - intros [[H | []] | [H | [H | [H | [H | [H | []]]]]]]; try discriminate;
      try contradiction.
    + destruct (match headerStyle args with Some false => false | _ => true end) eqn:Hs;
        [| destruct H].
      apply headerStyling_In in H. destruct H as (c & Hc & ->).
      exists {| rowIndex := 0; columnIndex := c |}.
      split; [split; cbn [rowIndex columnIndex]; lia |].
      left. split; [reflexivity |]. split; [now apply Hstyled | reflexivity].
    + destruct (0 <? length (rows table)); [| destruct H].
      apply dataStyling_In in H. destruct H as (r & c & Hr & Hc & ->).
      exists {| rowIndex := r; columnIndex := c |}.
      split; [split; cbn [rowIndex columnIndex]; lia |].
      right. split; [cbn [rowIndex]; lia | reflexivity].
  - intros ([r c] & [Hr Hc] & [(Hrow & Hs & ->) | (Hrow & ->)]);
      cbn [rowIndex columnIndex] in *; right; right; right.
    + left. apply Hstyled in Hs. rewrite Hs. apply headerStyling_In.
      subst r. exists c. split; [exact Hc | reflexivity].
    + right. left.
      replace (0 <? length (rows table)) with true
        by (symmetry; apply Nat.ltb_lt; lia).
      apply dataStyling_In. exists r, c. repeat split; auto; lia.
Qed.

Lemma addTableToSlide_styles_witness :
  exists table,
    parseMarkdownTable (tableContent TABLE_SCENARIO_ARGS) = Some table /\
    (exists front,
       requestsOf (addTableToSlideRequests (js "table_1") TABLE_SCENARIO_ARGS)
       = front ++ [tableBorders (js "table_1") (length (rows table) + 1)
                     (length (headers table))]) /\
    forall u,
      In (UpdateTextStyleRequest u)
         (requestsOf (addTableToSlideRequests (js "table_1") TABLE_SCENARIO_ARGS)) <->
      exists loc, inTable table loc /\
        ((rowIndex loc = 0 /\ headerStyle TABLE_SCENARIO_ARGS <> Some false /\
          u = cellStyleRequest (js "table_1") loc headerCellStyle
                (js "bold,fontSize,fontFamily")) \/
         (0 < rowIndex loc /\
          u = cellStyleRequest (js "table_1") loc dataCellStyle
                (js "fontSize,fontFamily"))).
Proof.
  apply (addTableToSlide_styles (js "table_1") TABLE_SCENARIO_ARGS).
  vm_compute. reflexivity.
Defined.

(* ===================================================================== *)
(** ** The list tool *)
(* ===================================================================== *)

Lemma rangesAt_above (k : nat) : forall groups : LevelGroups,
  Forall (fun k' => k < k') (map fst groups) -> rangesAt k groups = [].
Proof.
  induction groups as [|[k' rs] groups IH]; intros Hall; [reflexivity |].
  cbn [map fst] in Hall. apply Forall_cons_iff in Hall. destruct Hall as [Hk Hall].
  cbn [rangesAt]. replace (k =? k') with false by (symmetry; apply Nat.eqb_neq; lia).
  now apply IH.
Qed.

Lemma pushRange_keys (lv : nat) (r : LevelRange) : forall groups : LevelGroups,
  forall k, In k (map fst (pushRange lv r groups)) ->
            k = lv \/ In k (map fst groups).
Proof.
  induction groups as [|[k' rs] groups IH]; intros k Hin.
  - destruct Hin as [<- | []]. now left.
  - cbn [pushRange] in Hin. destruct (lv =? k') eqn:Heq.
    + right. exact Hin.
    + destruct (lv <? k').
      * destruct Hin as [<- | Hin]; [now left | now right].
      * destruct Hin as [<- | Hin]; [right; now left |].
        destruct (IH k Hin) as [-> | H]; [now left | right; now right].
Qed.

(** Pushing a range keeps the keys in ascending order. *)
Lemma pushRange_sorted (lv : nat) (r : LevelRange) : forall groups : LevelGroups,
  keysAscending groups -> keysAscending (pushRange lv r groups).
Proof.
  unfold keysAscending.
  induction groups as [|[k' rs] groups IH]; intros Hs.
  - cbn. constructor; constructor.
  - cbn [map fst] in Hs. apply StronglySorted_inv in Hs. destruct Hs as [Hs Hall].
    cbn [pushRange]. destruct (Nat.eqb_spec lv k') as [-> | Hne].
    + cbn [map fst]. constructor; assumption.
    + destruct (Nat.ltb_spec lv k') as [Hlt | Hge].
      * cbn [map fst]. constructor.
        -- constructor; assumption.
        -- constructor; [exact Hlt |].
           eapply Forall_impl; [| exact Hall]. intros a Ha. cbn beta in Ha. lia.
      * cbn [map fst]. constructor; [now apply IH |].
        apply Forall_forall. intros k Hin.
        apply pushRange_keys in Hin. destruct Hin as [-> | Hin]; [lia |].
        rewrite Forall_forall in Hall. now apply Hall.
Qed.

(** Pushing a range appends it to the ranges of its level and changes no
    other level. *)
Lemma pushRange_rangesAt (lv : nat) (r : LevelRange) (k : nat) :
  forall groups : LevelGroups,
  keysAscending groups ->
  rangesAt k (pushRange lv r groups)
  = if k =? lv then rangesAt k groups ++ [r] else rangesAt k groups.
Proof.
  unfold keysAscending.
  induction groups as [|[k' rs] groups IH]; intros Hs.
  - cbn [pushRange rangesAt]. destruct (k =? lv); reflexivity.
  - cbn [map fst] in Hs. apply StronglySorted_inv in Hs. destruct Hs as [Hs Hall].
    cbn [pushRange]. destruct (Nat.eqb_spec lv k') as [-> | Hne].
    + cbn [rangesAt]. destruct (k =? k'); reflexivity.
    + destruct (Nat.ltb_spec lv k') as [Hlt | Hge].
      * cbn [rangesAt]. destruct (Nat.eqb_spec k lv) as [-> | Hk]; [| reflexivity].
        replace (lv =? k') with false by (symmetry; apply Nat.eqb_neq; lia).
        rewrite rangesAt_above; [reflexivity |].
        eapply Forall_impl; [| exact Hall]. intros a Ha. cbn beta in Ha. lia.
      * cbn [rangesAt]. destruct (Nat.eqb_spec k k') as [-> | Hk].
        -- replace (k' =? lv) with false by (symmetry; apply Nat.eqb_neq; lia).
           reflexivity.
        -- now apply IH.
Qed.

Lemma groupStep_range (groups : LevelGroups) (offset : nat) (item : ParsedListItem) :
  groupStep (groups, offset) item
  = (pushRange (level item) (lineRange (offset, item)) groups,
     offset + length (itemLine item) + 1).
Proof.
  unfold groupStep, lineRange. rewrite length_app. cbn [length fst snd].
  f_equal; [f_equal; f_equal; lia | lia].
Qed.

(** The loop over the items: the ranges of a level are the lines of its
    items, in order. *)
Lemma groupFold_rangesAt : forall items groups offset,
  keysAscending groups ->
  keysAscending (fst (fold_left groupStep items (groups, offset))) /\
  forall k, rangesAt k (fst (fold_left groupStep items (groups, offset)))
            = rangesAt k groups
              ++ map lineRange (filter (atLevel k) (locateItems offset items)).
Proof.
  induction items as [|item items IH]; intros groups offset Hs.
  - cbn [fold_left fst locateItems filter map]. split; [exact Hs |].
    intros k. now rewrite app_nil_r.
  - cbn [fold_left]. rewrite groupStep_range.
    destruct (IH (pushRange (level item) (lineRange (offset, item)) groups)
                 (offset + length (itemLine item) + 1)
                 (pushRange_sorted _ _ _ Hs)) as [Hs' Hranges].
    split; [exact Hs' |]. intros k. rewrite Hranges.
    rewrite pushRange_rangesAt by exact Hs.
    cbn [locateItems filter]. unfold atLevel at 2. cbn [snd].
    rewrite (Nat.eqb_sym (level item) k).
    destruct (k =? level item); [| reflexivity].
    cbn [map]. now rewrite <- app_assoc.
Qed.

(** Listing the groups in ascending order of the keys, and keeping levels 1
    and 2: first the ranges of level 1, then those of level 2. *)
Lemma nestedBullets_sorted (id : str) (styles : list str) :
  length styles = 3 ->
  forall groups : LevelGroups,
  keysAscending groups ->
  nestedBullets id styles groups
  = map (fun r => CreateParagraphBullets id
                    (FIXED_RANGE (range_start r) (range_end r)) (nth 1 styles []))
        (rangesAt 1 groups)
    ++ map (fun r => CreateParagraphBullets id
                       (FIXED_RANGE (range_start r) (range_end r)) (nth 2 styles []))
           (rangesAt 2 groups).
Proof.
  intros Hlen. unfold keysAscending, nestedBullets. rewrite Hlen.
  induction groups as [|[k rs] groups IH]; intros Hs; [reflexivity |].
  cbn [map fst] in Hs. apply StronglySorted_inv in Hs. destruct Hs as [Hs Hall].
  cbn [flat_map rangesAt]. rewrite (IH Hs).
  destruct k as [|[|[|k]]].
  - reflexivity.
  - cbn [Nat.eqb Nat.ltb Nat.leb andb].
    rewrite (rangesAt_above 1 groups) by exact Hall.
    cbn [map app]. reflexivity.
  - cbn [Nat.eqb Nat.ltb Nat.leb andb].
    rewrite (rangesAt_above 1 groups), (rangesAt_above 2 groups); cbn [map app].
    + now rewrite app_nil_r.
    + exact Hall.
    + eapply Forall_impl; [| exact Hall]. intros a Ha. cbn beta in Ha. lia.
  - cbn [Nat.eqb Nat.ltb Nat.leb andb].
    rewrite (rangesAt_above 1 groups), (rangesAt_above 2 groups); cbn [map app].
    + reflexivity.
    + eapply Forall_impl; [| exact Hall]. intros a Ha. cbn beta in Ha. lia.
    + eapply Forall_impl; [| exact Hall]. intros a Ha. cbn beta in Ha. lia.
Qed.

(** The offsets of [locateItems] are where the lines are in the text. *)
Lemma locateItems_slice : forall items prefix,
  Forall (fun located =>
            substring (prefix ++ listTextOf items) (fst located)
              (fst located + length (itemLine (snd located)))
            = itemLine (snd located))
         (locateItems (length prefix) items).
Proof.
  unfold listTextOf.
  induction items as [|item items IH]; intros prefix; [constructor |].
  cbn [locateItems map]. constructor.
  - cbn [fst snd].
    assert (Hjoin : exists rest, join [LF] (itemLine item :: map itemLine items)
                                 = itemLine item ++ rest).
    { destruct (map itemLine items) as [|l ls] eqn:Hm.
      - exists []. cbn [join]. now rewrite app_nil_r.
      - eexists. rewrite join_cons by discriminate. reflexivity. }
    destruct Hjoin as (rest & ->).
    rewrite substring_firstn_skipn by (rewrite ?length_app; lia).
    rewrite skipn_app, skipn_all, Nat.sub_diag. cbn [skipn app].
    replace (length prefix + length (itemLine item) - length prefix)
      with (length (itemLine item)) by lia.
    rewrite firstn_app, firstn_all, Nat.sub_diag. cbn [firstn].
    now rewrite app_nil_r.
  - destruct items as [|item' items']; [constructor |].
    specialize (IH (prefix ++ itemLine item ++ [LF])).
    rewrite !length_app in IH. cbn [length] in IH.
    replace (length prefix + (length (itemLine item) + 1))
      with (length prefix + length (itemLine item) + 1) in IH by lia.
    rewrite (join_cons [LF] (itemLine item)) by discriminate.
    eapply Forall_impl; [| exact IH]. intros located Hloc. cbn beta in *.
    etransitivity; [| exact Hloc]. f_equal. rewrite <- !app_assoc. reflexivity.
Qed.

(** The requests when the tool does not throw. *)
Lemma addListToSlideRequests_outcome (id : str) (args : AddListToSlideArgs) :
  let items := parseMarkdownList (listContent args) in
  (items = [] /\ addListToSlideRequests id args = Some (inl NO_LIST_ITEMS)) \/
  (items <> [] /\
   exists properties size,
     (12 <= size <= 20)%Z /\ Z.even size = true /\
     addListToSlideRequests id args
     = Some (inr ([ CreateShape id (js "TEXT_BOX") properties;
                    InsertText id None (listTextOf items) 0;
                    listFontRequest id size;
                    CreateParagraphBullets id ALL (topPreset args items) ]
                  ++ (if existsb (fun item => 0 <? level item) items
                      then nestedBullets id
                             (bulletStyles (topPreset args items) (firstIsNumbered items))
                             (fst (fold_left groupStep items ([], 0)))
                      else [])))).
Proof.
  cbv zeta. unfold addListToSlideRequests. cbv zeta.
  destruct (parseMarkdownList (listContent args)) as [|first rest] eqn:Hitems;
    [left; split; reflexivity | right].
  split; [discriminate |].
  unfold calculateOptimalFontSize.
  match goal with
  | |- context [fontSearch ?f ?o FONT_SIZE_RANGES_LIST] =>
      destruct (fontSearch_returns f o FONT_SIZE_RANGES_LIST)
        as (size & Hsize & j & Hj & Hcase);
      replace (fontSearch f o FONT_SIZE_RANGES_LIST) with (Some size)
  end.
  eexists _, size. split; [| split; [| reflexivity]].
  - cbn [fr_default fr_min fr_max FONT_SIZE_RANGES_LIST] in Hcase.
    destruct Hcase as [(-> & [-> | Hlo]) | (-> & [-> | Hhi])]; lia.
  - cbn [fr_default fr_min fr_max FONT_SIZE_RANGES_LIST] in Hcase.
    destruct Hcase as [(-> & _) | (-> & _)].
    + replace (16 - 2 * j)%Z with (2 * (8 - j))%Z by lia. apply Z.even_mul.
    + replace (16 + 2 * j)%Z with (2 * (8 + j))%Z by lia. apply Z.even_mul.
Qed.

(** X20. [addListToSlideTool] always gets as far as its requests or its own
    error. It throws exactly when the content has no non-blank line.
    Otherwise the requests start with the text box, the insertion of the
    list text (the item lines joined by line feeds) at index 0, the font
    request for the whole text with an even size from 12 to 20, and the
    bullets for the whole text with the preset asked for, or the one that
    fits the first item. *)
Theorem addListToSlide_outcome :
  forall (listObjectId : str) (args : AddListToSlideArgs),
    let items := parseMarkdownList (listContent args) in
    exists outcome,
      addListToSlideRequests listObjectId args = Some outcome /\
      match outcome with
      | inl message =>
          message = NO_LIST_ITEMS /\ nonBlankLines (listContent args) = []
      | inr requests =>
          nonBlankLines (listContent args) <> [] /\
          exists properties size nested,
            (12 <= size <= 20)%Z /\ Z.even size = true /\
            requests
            = CreateShape listObjectId (js "TEXT_BOX") properties
              :: InsertText listObjectId None (listTextOf items) 0
              :: listFontRequest listObjectId size
              :: CreateParagraphBullets listObjectId ALL (topPreset args items)
              :: nested
      end.
Proof.
  intros id args. cbv zeta.
  assert (Hlines : parseMarkdownList (listContent args) = []
                   <-> nonBlankLines (listContent args) = []).
  { rewrite parseMarkdownList_map.
    destruct (nonBlankLines (listContent args)); split; try discriminate; reflexivity. }
  destruct (addListToSlideRequests_outcome id args)
    as [(Hnone & ->) | (Hsome & properties & size & Hrange & Heven & ->)].
  - eexists. split; [reflexivity |]. split; [reflexivity | now apply Hlines].
  - eexists. split; [reflexivity |].
    split; [intros H; apply Hsome; now apply Hlines |].
    exists properties, size. eexists. split; [exact Hrange |].
    split; [exact Heven | reflexivity].
Qed.

(** X21. The bullet requests for nested items. After its first four requests
    [addListToSlideTool] pushes one request per item of level 1, in item
    order, and then one per item of level 2; items of level 3 and deeper get
    none. The range of each is the line of its item in the list text:
    slicing the text inserted at the range gives the indented item line,
    without its line feed. The preset is the entry of [bulletStyles] for the
    level. *)
Theorem addListToSlide_nested_bullets :
  forall (listObjectId : str) (args : AddListToSlideArgs) (requests : list Request),
    addListToSlideRequests listObjectId args = Some (inr requests) ->
    let items := parseMarkdownList (listContent args) in
    let located := locateItems 0 items in
    let styles := bulletStyles (topPreset args items) (firstIsNumbered items) in
    skipn 4 requests
    = map (nestedBulletRequest listObjectId styles) (filter (atLevel 1) located)
      ++ map (nestedBulletRequest listObjectId styles) (filter (atLevel 2) located) /\
    Forall (fun item_at =>
              substring (listTextOf items) (fst item_at)
                (fst item_at + length (itemLine (snd item_at)))
              = itemLine (snd item_at))
           located.
Proof.
  intros id args requests Hreq. cbv zeta.
  split; [| exact (locateItems_slice (parseMarkdownList (listContent args)) [])].
  destruct (addListToSlideRequests_outcome id args)
    as [(_ & Herr) | (_ & properties & size & _ & _ & Hok)];
    [congruence |].
  rewrite Hok in Hreq. injection Hreq as <-. cbn [skipn app].
  set (items := parseMarkdownList (listContent args)).
  set (styles := bulletStyles (topPreset args items) (firstIsNumbered items)).
  destruct (groupFold_rangesAt items [] 0) as [Hsorted Hranges];
    [constructor |].
  assert (Hmap : forall k,
            map (fun r => CreateParagraphBullets id
                            (FIXED_RANGE (range_start r) (range_end r))
                            (nth k styles []))
                (map lineRange (filter (atLevel k) (locateItems 0 items)))
            = map (nestedBulletRequest id styles)
                  (filter (atLevel k) (locateItems 0 items))).
  { intros k. rewrite map_map. apply map_ext_in. intros located Hin.
    apply filter_In in Hin. destruct Hin as [_ Hlevel].
    unfold atLevel in Hlevel. apply Nat.eqb_eq in Hlevel.
    unfold nestedBulletRequest, lineRange. cbn [range_start range_end].
    now rewrite Hlevel. }
  destruct (existsb (fun item => 0 <? level item) items) eqn:Hnested.
  - rewrite nestedBullets_sorted by (reflexivity || exact Hsorted).
    rewrite !Hranges. cbn [rangesAt app]. now rewrite !Hmap.
  - assert (Hnone : forall k, 0 < k -> forall offset,
              filter (atLevel k) (locateItems offset items) = []).
    { intros k Hk. clearbody items. clear - Hnested Hk.
      induction items as [|item items IH]; intros offset; [reflexivity |].
      cbn [existsb] in Hnested. apply orb_false_elim in Hnested.
      destruct Hnested as [Hitem Hrest]. apply Nat.ltb_ge in Hitem.
      cbn [locateItems filter]. unfold atLevel at 1. cbn [snd].
      replace (level item =? k) with false by (symmetry; apply Nat.eqb_neq; lia).
      now apply IH. }
    rewrite !Hnone by lia. reflexivity.
Qed.

Lemma addListToSlide_nested_bullets_witness :
  skipn 4 (listRequestsOf (addListToSlideRequests (js "list_1") LIST_SCENARIO_ARGS))
  = map (nestedBulletRequest (js "list_1")
           (bulletStyles
              (topPreset LIST_SCENARIO_ARGS
                 (parseMarkdownList (listContent LIST_SCENARIO_ARGS)))
              (firstIsNumbered (parseMarkdownList (listContent LIST_SCENARIO_ARGS)))))
        (filter (atLevel 1)
           (locateItems 0 (parseMarkdownList (listContent LIST_SCENARIO_ARGS))))
    ++ map (nestedBulletRequest (js "list_1")
              (bulletStyles
                 (topPreset LIST_SCENARIO_ARGS
                    (parseMarkdownList (listContent LIST_SCENARIO_ARGS)))
                 (firstIsNumbered (parseMarkdownList (listContent LIST_SCENARIO_ARGS)))))
           (filter (atLevel 2)
              (locateItems 0 (parseMarkdownList (listContent LIST_SCENARIO_ARGS)))) /\
  Forall (fun item_at =>
            substring (listTextOf (parseMarkdownList (listContent LIST_SCENARIO_ARGS)))
              (fst item_at) (fst item_at + length (itemLine (snd item_at)))
            = itemLine (snd item_at))
         (locateItems 0 (parseMarkdownList (listContent LIST_SCENARIO_ARGS))).
Proof.
  apply (addListToSlide_nested_bullets (js "list_1") LIST_SCENARIO_ARGS).
  vm_compute. reflexivity.
Defined.

(* ===================================================================== *)
(** ** The inline formatter, further *)
(* ===================================================================== *)

Lemma scanPattern_step : forall fuel markdown re type lastIndex replacements m,
  regexExec re markdown lastIndex = Some m ->
  scanPattern (S fuel) markdown re type lastIndex replacements
  = scanPattern fuel markdown re type (m_index m + length (m_0 m))
      (if negb (overlapsAny (m_index m) (m_index m + length (m_0 m)) replacements)
       then replacements ++ [{| r_start := m_index m;
                                r_end := m_index m + length (m_0 m);
                                r_text := m_1 m; r_format := type |}]
       else replacements).
Proof. intros * H. cbn [scanPattern]. now rewrite H. Qed.

Lemma skipn_prefix (pre rest : str) (k : nat) :
  k = length pre -> skipn k (pre ++ rest) = rest.
Proof. intros ->. now rewrite skipn_app, Nat.sub_diag, skipn_all. Qed.

(** The accepted spans when an italic span follows a bold span after some
    text: the bold span alone. The italic pattern matches from the second
    asterisk of each bold delimiter, and both matches overlap the bold
    span; the search then resumes inside the italic span. *)
Lemma acceptedSpans_bold_then_italic : forall before t1 mid t2 after,
  noDelimiter before -> noDelimiter t1 -> noDelimiter mid ->
  noDelimiter t2 -> noDelimiter after ->
  t1 <> [] -> mid <> [] -> t2 <> [] ->
  acceptedSpans (before ++ [STAR; STAR] ++ t1 ++ [STAR; STAR]
                 ++ mid ++ [STAR] ++ t2 ++ [STAR] ++ after)
  = Some [{| r_start := length before;
             r_end := length before + length ([STAR; STAR] ++ t1 ++ [STAR; STAR]);
             r_text := t1; r_format := Bold |}].
Proof.
  intros before t1 mid t2 after [Hbs Hbu] [H1s H1u] [Hms Hmu] [H2s H2u] [Has Hau]
         Hne1 Hnem Hne2.
  set (tail := mid ++ [STAR] ++ t2 ++ [STAR] ++ after).
  set (markdown := before ++ [STAR; STAR] ++ t1 ++ [STAR; STAR] ++ tail).
  set (span := {| r_start := length before;
                  r_end := length before + length ([STAR; STAR] ++ t1 ++ [STAR; STAR]);
                  r_text := t1; r_format := Bold |}).
  assert (Hlen : length markdown
                 = length before + length t1 + length mid + length t2
                   + length after + 6).
  { unfold markdown, tail. rewrite !length_app. cbn [length]. lia. }
  assert (Hspan : r_end span = length before + length t1 + 4).
  { unfold span. cbn [r_end]. rewrite !length_app. cbn [length]. lia. }
  (* the bold pattern *)
  assert (Hbold0 : regexExec boldRegex markdown 0
                   = Some {| m_index := length before;
                             m_0 := [STAR; STAR] ++ t1 ++ [STAR; STAR]; m_1 := t1 |}).
  { rewrite regexExec_search by lia. cbn [skipn]. unfold markdown.
    rewrite (searchFrom_skip boldRegex STAR [STAR]) by trivial.
    apply (searchFrom_hit boldRegex). unfold matchAt.
    cbn [boldRegex sr_open sr_lazy sr_excluded sr_close].
    rewrite isPrefix_self. rewrite skipn_prefix by reflexivity.
    apply groupGreedy_run; [exact Hne1 | now apply noStar_forallb | reflexivity]. }
  assert (Hbold1 : regexExec boldRegex markdown (length before + length t1 + 4) = None).
  { rewrite regexExec_search by lia.
    assert (Hskip : skipn (length before + length t1 + 4) markdown = tail).
    { unfold markdown.
      replace (before ++ [STAR; STAR] ++ t1 ++ [STAR; STAR] ++ tail)
        with ((before ++ [STAR; STAR] ++ t1 ++ [STAR; STAR]) ++ tail)
        by (now rewrite <- !app_assoc).
      apply skipn_prefix. rewrite !length_app. cbn [length]. lia. }
    rewrite Hskip. unfold tail. cbn [app].
    rewrite searchFrom_bold_lone_star; [| exact Hms | now apply head_not].
    rewrite searchFrom_bold_lone_star; [| exact H2s | now apply head_not_all].
    now apply (searchFrom_absent boldRegex STAR [STAR]). }
  (* the italic pattern *)
  assert (Hit0 : regexExec italicRegex markdown 0
                 = Some {| m_index := length before + 1;
                           m_0 := [STAR] ++ t1 ++ [STAR]; m_1 := t1 |}).
  { rewrite regexExec_search by lia. cbn [skipn]. unfold markdown.
    rewrite (searchFrom_skip italicRegex STAR []) by trivial.
    cbn [app]. rewrite searchFrom_miss by reflexivity.
    replace (S (0 + length before)) with (length before + 1) by lia.
    apply (searchFrom_hit italicRegex). unfold matchAt.
    cbn [italicRegex sr_open sr_lazy sr_excluded sr_close isPrefix length skipn].
    rewrite N.eqb_refl. cbn [andb].
    change (t1 ++ STAR :: STAR :: tail) with (t1 ++ [STAR] ++ (STAR :: tail)).
    apply groupGreedy_run; [exact Hne1 | now apply noStar_forallb | reflexivity]. }
  assert (Hit1 : regexExec italicRegex markdown (length before + length t1 + 3)
                 = Some {| m_index := length before + length t1 + 3;
                           m_0 := [STAR] ++ mid ++ [STAR]; m_1 := mid |}).
  { rewrite regexExec_search by lia.
    assert (Hskip : skipn (length before + length t1 + 3) markdown
                    = [STAR] ++ mid ++ [STAR] ++ (t2 ++ [STAR] ++ after)).
    { unfold markdown, tail.
      replace (before ++ [STAR; STAR] ++ t1 ++ [STAR; STAR]
               ++ mid ++ [STAR] ++ t2 ++ [STAR] ++ after)
        with ((before ++ [STAR; STAR] ++ t1 ++ [STAR])
              ++ [STAR] ++ mid ++ [STAR] ++ (t2 ++ [STAR] ++ after))
        by (now rewrite <- !app_assoc).
      apply skipn_prefix. rewrite !length_app. cbn [length]. lia. }
    rewrite Hskip.
    apply (searchFrom_hit italicRegex). unfold matchAt.
    cbn [italicRegex sr_open sr_lazy sr_excluded sr_close].
    rewrite isPrefix_self. rewrite skipn_prefix by reflexivity.
    apply groupGreedy_run; [exact Hnem | now apply noStar_forallb | reflexivity]. }
  assert (Hit2 : regexExec italicRegex markdown
                   (length before + length t1 + length mid + 5) = None).
  { rewrite regexExec_search by lia.
    assert (Hskip : skipn (length before + length t1 + length mid + 5) markdown
                    = t2 ++ STAR :: after).
    { unfold markdown, tail.
      replace (before ++ [STAR; STAR] ++ t1 ++ [STAR; STAR]
               ++ mid ++ [STAR] ++ t2 ++ [STAR] ++ after)
        with ((before ++ [STAR; STAR] ++ t1 ++ [STAR; STAR] ++ mid ++ [STAR])
              ++ t2 ++ STAR :: after)
        by (now rewrite <- !app_assoc).
      apply skipn_prefix. rewrite !length_app. cbn [length]. lia. }
    rewrite Hskip.
    rewrite (searchFrom_skip italicRegex STAR []) by trivial.
    rewrite searchFrom_miss.
    - now apply (searchFrom_absent italicRegex STAR []).
    - unfold matchAt.
      cbn [italicRegex sr_open sr_lazy sr_excluded sr_close isPrefix length skipn].
      rewrite N.eqb_refl. cbn [andb]. now apply groupGreedy_none. }
  unfold acceptedSpans, collectReplacements, patterns. cbn [foldM fst snd].
  fold tail. fold markdown.
  destruct (length markdown) as [|[|[|fuel]]] eqn:Hfuel; try lia.
  (* bold *)
  rewrite (scanPattern_step _ _ _ _ _ _ _ Hbold0). cbn [m_index m_0 m_1].
  cbn [overlapsAny existsb negb]. rewrite app_nil_l. fold span.
  replace (length before + length ([STAR; STAR] ++ t1 ++ [STAR; STAR]))
    with (length before + length t1 + 4)
    by (rewrite !length_app; cbn [length]; lia).
  rewrite (scanPattern_done _ _ _ _ _ _ Hbold1).
  (* underline *)
  rewrite (scanPattern_absent _ markdown underlineRegex Underline UNDERSCORE [UNDERSCORE]).
  2: reflexivity.
  2:{ unfold markdown, tail. includes_parts.
      rewrite Hbu, H1u, Hmu, H2u, Hau. reflexivity. }
  (* italic: two matches, both overlapping the bold span *)
  rewrite (scanPattern_step _ _ _ _ _ _ _ Hit0). cbn [m_index m_0 m_1].
  assert (Hov0 : overlapsAny (length before + 1)
                   (length before + 1 + length ([STAR] ++ t1 ++ [STAR])) [span] = true).
  { unfold overlapsAny. cbn [existsb]. rewrite Hspan. unfold span at 1. cbn [r_start].
    replace (length before <=? length before + 1) with true
      by (symmetry; apply Nat.leb_le; lia).
    replace (length before + 1 <? length before + length t1 + 4) with true
      by (symmetry; apply Nat.ltb_lt; lia).
    reflexivity. }
  rewrite Hov0. cbn [negb].
  replace (length before + 1 + length ([STAR] ++ t1 ++ [STAR]))
    with (length before + length t1 + 3)
    by (rewrite !length_app; cbn [length]; lia).
  rewrite (scanPattern_step _ _ _ _ _ _ _ Hit1). cbn [m_index m_0 m_1].
  assert (Hov1 : overlapsAny (length before + length t1 + 3)
                   (length before + length t1 + 3 + length ([STAR] ++ mid ++ [STAR]))
                   [span] = true).
  { unfold overlapsAny. cbn [existsb]. rewrite Hspan. unfold span at 1. cbn [r_start].
    replace (length before <=? length before + length t1 + 3) with true
      by (symmetry; apply Nat.leb_le; lia).
    replace (length before + length t1 + 3 <? length before + length t1 + 4) with true
      by (symmetry; apply Nat.ltb_lt; lia).
    reflexivity. }
  rewrite Hov1. cbn [negb].
  replace (length before + length t1 + 3 + length ([STAR] ++ mid ++ [STAR]))
    with (length before + length t1 + length mid + 5)
    by (rewrite !length_app; cbn [length]; lia).
  rewrite (scanPattern_done _ _ _ _ _ _ Hit2).
  reflexivity.
Qed.

(** X22. An italic span that follows a bold span after some text is not
    recognised. For stretches without asterisk and underscore, with [t1],
    [mid] and [t2] not empty, the markdown string
    [before ++ "**" ++ t1 ++ "**" ++ mid ++ "*" ++ t2 ++ "*" ++ after] gives
    the plain segment of [before] (when it is not empty), the bold segment
    of [t1], and one plain segment that still holds the two asterisks:
    [mid ++ "*" ++ t2 ++ "*" ++ after]. *)
Theorem parseMarkdownToFormattedText_italic_after_bold :
  forall (before t1 mid t2 after : str),
    noDelimiter before -> noDelimiter t1 -> noDelimiter mid ->
    noDelimiter t2 -> noDelimiter after ->
    t1 <> [] -> mid <> [] -> t2 <> [] ->
    parseMarkdownToFormattedText
      (before ++ [STAR; STAR] ++ t1 ++ [STAR; STAR]
       ++ mid ++ [STAR] ++ t2 ++ [STAR] ++ after)
    = Some (plainIfAny before
            ++ [styledSegment t1 Bold;
                plainSegment (mid ++ [STAR] ++ t2 ++ [STAR] ++ after)]).
Proof.
  intros before t1 mid t2 after Hb H1 Hm H2 Ha Hne1 Hnem Hne2.
  unfold parseMarkdownToFormattedText.
  rewrite (acceptedSpans_bold_then_italic before t1 mid t2 after) by assumption.
  cbn [option_map]. f_equal.
  replace (before ++ [STAR; STAR] ++ t1 ++ [STAR; STAR]
           ++ mid ++ [STAR] ++ t2 ++ [STAR] ++ after)
    with (before ++ ([STAR; STAR] ++ t1 ++ [STAR; STAR])
          ++ (mid ++ [STAR] ++ t2 ++ [STAR] ++ after))
    by (now rewrite <- !app_assoc).
  rewrite buildSegments_one by discriminate.
  unfold plainIfAny at 2.
  replace (truthy (mid ++ [STAR] ++ t2 ++ [STAR] ++ after)) with true
    by (destruct mid; [congruence | reflexivity]).
  reflexivity.
Qed.

Lemma parseMarkdownToFormattedText_italic_after_bold_witness :
  parseMarkdownToFormattedText
    (js "Hello " ++ [STAR; STAR] ++ js "world" ++ [STAR; STAR]
     ++ js " and " ++ [STAR] ++ js "friend" ++ [STAR] ++ [])
  = Some (plainIfAny (js "Hello ")
          ++ [styledSegment (js "world") Bold;
              plainSegment (js " and " ++ [STAR] ++ js "friend" ++ [STAR] ++ [])]).
Proof.
  apply (parseMarkdownToFormattedText_italic_after_bold
           (js "Hello ") (js "world") (js " and ") (js "friend") []);
    (split; reflexivity) || discriminate.
Defined.

(* ===================================================================== *)
(** ** The text partitioner: sentences *)
(* ===================================================================== *)

Lemma endsWith_app (s t : str) (c : char) :
  t <> [] -> endsWith (s ++ t) c = endsWith t c.
Proof.
  intros Ht. unfold endsWith. rewrite rev_app_distr.
  destruct (rev t) as [|d r] eqn:Hr; [| reflexivity].
  apply (f_equal (@rev char)) in Hr. rewrite rev_involutive in Hr. contradiction.
Qed.

(** The sentence loop over sentences that it can take whole: a chunk is
    closed with a full stop, never cut, and the chunks and the current
    slide, joined by blanks, are the sentences read, joined by ". ". *)
Lemma sentenceFold_join (n : nat) : forall sentences slides currentSlide,
  Forall (wholeSentence n) sentences ->
  currentSlide <> [] -> length currentSlide <= n ->
  endsWith currentSlide DOT = false ->
  Forall (fun c : Chunk => length (snd c) <= n + 1) slides ->
  exists slides' currentSlide',
    foldM (sentenceStep n) sentences (slides, currentSlide)
      = Some (slides', currentSlide') /\
    currentSlide' <> [] /\ length currentSlide' <= n /\
    Forall (fun c : Chunk => length (snd c) <= n + 1) slides' /\
    join [SP] (map snd slides' ++ [currentSlide'])
      = join [SP] (map snd slides ++ [join [DOT; SP] (currentSlide :: sentences)]).
Proof.
  induction sentences as [|s rest IH]; intros slides cur Hss Hne Hcur Hdot Hall.
  - exists slides, cur. auto.
  - apply Forall_cons_iff in Hss. destruct Hss as [(Hs & Hslen & Hsdot) Hrest].
    cbn [foldM]. unfold sentenceStep.
    assert (Ht : truthy cur = true) by (destruct cur; [congruence | reflexivity]).
    rewrite Ht, Hdot. cbv beta iota.
    destruct (length cur + length s + 2 <=? n) eqn:Hfit.
    + apply Nat.leb_le in Hfit.
      destruct (IH slides (cur ++ [DOT; SP] ++ s))
        as (slides' & cur' & Hfold & H1 & H2 & H3 & H4); try assumption.
      * destruct cur; [congruence | discriminate].
      * rewrite !length_app. simpl length. lia.
      * rewrite app_assoc. now rewrite endsWith_app.
      * exists slides', cur'. repeat (split; [assumption |]).
        rewrite H4. do 3 f_equal.
        exact (join_merge [DOT; SP] cur s rest []).
    + replace (n <? length s) with false by (symmetry; apply Nat.ltb_ge; lia).
      destruct (IH (slides ++ [(SentenceFlush, cur ++ [DOT])]) s)
        as (slides' & cur' & Hfold & H1 & H2 & H3 & H4); try assumption.
      * apply Forall_app. split; [assumption |].
        constructor; [| constructor]. cbn [snd]. rewrite length_app. simpl length. lia.
      * exists slides', cur'. repeat (split; [assumption |]).
        rewrite H4, map_app. cbn [map snd]. rewrite <- !app_assoc.
        cbn [app].
        transitivity (join [SP] (map snd slides
                                 ++ [(cur ++ [DOT]) ++ [SP] ++ join [DOT; SP] (s :: rest)])).
        { symmetry.
          exact (join_merge [SP] (cur ++ [DOT]) (join [DOT; SP] (s :: rest)) []
                   (map snd slides)). }
        do 3 f_equal. rewrite (join_cons [DOT; SP] cur) by discriminate.
        rewrite <- !app_assoc. reflexivity.
Qed.

(** X24. A text without a blank line whose sentences (the pieces between
    ". ") are all non-empty, within the budget and without a full stop of
    their own at the end is split between sentences only: the partitioner
    returns, every chunk is at most one character over the budget (the full
    stop that closes it), and the chunks joined by single blanks are the
    text. *)
Theorem splitTextForSlides_sentence_round_trip (n : nat) (text : str) :
  split2 LF LF text = [text] ->
  Forall (wholeSentence n) (split2 DOT SP text) ->
  exists chunks,
    splitTextForSlides n text = Some chunks /\
    Forall (fun c => length c <= n + 1) chunks /\
    join [SP] chunks = text.
Proof.
  intros Hpar Hss. unfold splitTextForSlides.
  destruct (length text <=? n) eqn:Hfit.
  { apply Nat.leb_le in Hfit. exists [text].
    split; [reflexivity |]. split; [| reflexivity].
    constructor; [lia | constructor]. }
  apply Nat.leb_gt in Hfit.
  unfold splitLoops. rewrite Hpar. cbn [foldM]. unfold paragraphStep.
  cbn [length truthy Nat.add].
  replace (length text + 2 <=? n) with false by (symmetry; apply Nat.leb_gt; lia).
  replace (n <? length text) with true by (symmetry; apply Nat.ltb_lt; lia).
  pose proof (join_split2 DOT SP text) as Hjoin.
  destruct (split2 DOT SP text) as [|s rest] eqn:Hsplit.
  { exfalso. revert Hsplit. apply (split2_from_nonempty DOT SP (length text)). lia. }
  apply Forall_cons_iff in Hss. destruct Hss as [(Hs & Hslen & Hsdot) Hrest].
  assert (Hfirst : sentenceStep n ([], []) s = Some ([], s)).
  { unfold sentenceStep. cbn [length truthy app Nat.add].
    replace (n <? length s) with false by (symmetry; apply Nat.ltb_ge; lia).
    destruct (length s + 2 <=? n); reflexivity. }
  cbn [foldM]. rewrite Hfirst.
  destruct (sentenceFold_join n rest [] s Hrest Hs Hslen Hsdot (Forall_nil _))
    as (slides' & cur' & Hfold & Hne & Hcur & Hall & Hcat).
  match goal with
  | |- context [foldM ?f ?l ?st] =>
      replace (foldM f l st) with (Some (slides', cur')) by (symmetry; exact Hfold)
  end.
  replace (truthy cur') with true by (destruct cur'; [congruence | reflexivity]).
  rewrite length_app. cbn [length].
  replace (0 <? length slides' + 1) with true
    by (symmetry; apply Nat.ltb_lt; lia).
  eexists. split; [reflexivity |].
  rewrite map_app. cbn [map snd]. split.
  - apply Forall_app. split.
    + apply Forall_forall. intros x Hin. apply in_map_iff in Hin.
      destruct Hin as (y & <- & Hy). rewrite Forall_forall in Hall. now apply Hall.
    + constructor; [lia | constructor].
  - exact (eq_trans Hcat Hjoin).
Qed.

Lemma splitTextForSlides_sentence_round_trip_witness :
  exists chunks,
    splitTextForSlides 12 (js "One two. Three four. Five") = Some chunks /\
    Forall (fun c => length c <= 12 + 1) chunks /\
    join [SP] chunks = js "One two. Three four. Five".
Proof.
  apply (splitTextForSlides_sentence_round_trip 12 (js "One two. Three four. Five")).
  - reflexivity.
  - vm_compute. repeat constructor; (discriminate || lia).
Defined.

Lemma groupLazy_cons : forall excluded close x s,
  groupLazy excluded close (x :: s)
  = if excluded x then None
    else if isPrefix close s then Some [x]
    else match groupLazy excluded close s with
         | Some cap => Some (x :: cap)
         | None => None
         end.
Proof. reflexivity. Qed.

(** The lazy group takes a run of admitted characters up to the closing
    character, when the run does not hold that character. *)
Lemma groupLazy_run : forall excluded c t rest,
  t <> [] ->
  forallb (fun x => negb (excluded x)) t = true ->
  includes t c = false ->
  groupLazy excluded [c] (t ++ [c] ++ rest) = Some t.
Proof.
  intros excluded c t rest Hne Hall Hc.
  induction t as [|x t IH]; [contradiction |].
  cbn [forallb] in Hall. apply andb_true_iff in Hall. destruct Hall as [Hx Hall].
  apply negb_true_iff in Hx.
  rewrite includes_cons in Hc. apply orb_false_iff in Hc. destruct Hc as [_ Hc].
  change ((x :: t) ++ [c] ++ rest) with (x :: (t ++ [c] ++ rest)).
  rewrite groupLazy_cons, Hx.
  destruct t as [|y t].
  - cbn [app isPrefix]. now rewrite N.eqb_refl.
  - rewrite includes_cons in Hc. pose proof Hc as Hc'.
    apply orb_false_iff in Hc'. destruct Hc' as [Hy _].
    cbn [app isPrefix]. rewrite Hy. cbn [andb].
    change (y :: t ++ c :: rest) with ((y :: t) ++ [c] ++ rest).
    rewrite IH; [reflexivity | discriminate | exact Hall |].
    now rewrite includes_cons.
Qed.

Lemma execAll_step : forall fuel markdown re type lastIndex allMatches m,
  regexExec re markdown lastIndex = Some m ->
  MaskingRevision.execAll (S fuel) markdown re type lastIndex allMatches
  = MaskingRevision.execAll fuel markdown re type (m_index m + length (m_0 m))
      (allMatches ++ [{| r_start := m_index m;
                         r_end := m_index m + length (m_0 m);
                         r_text := m_1 m; r_format := type |}]).
Proof. intros * H. cbn [MaskingRevision.execAll]. now rewrite H. Qed.

Lemma execAll_done : forall fuel markdown re type lastIndex allMatches,
  regexExec re markdown lastIndex = None ->
  MaskingRevision.execAll fuel markdown re type lastIndex allMatches = Some allMatches.
Proof. intros [|fuel] * H; cbn [MaskingRevision.execAll]; now rewrite H. Qed.

Lemma italicLoop_step : forall fuel markdown workingText boldMasks lastIndex allMatches m,
  regexExec MaskingRevision.italicRegex workingText lastIndex = Some m ->
  MaskingRevision.italicLoop (S fuel) markdown workingText boldMasks lastIndex allMatches
  = MaskingRevision.italicLoop fuel markdown workingText boldMasks
      (m_index m + length (m_0 m))
      (if negb (MaskingRevision.overlapsWithBold (m_index m)
                  (m_index m + length (m_0 m)) boldMasks)
       then allMatches
            ++ [{| r_start := m_index m;
                   r_end := m_index m + length (m_0 m);
                   r_text := substring markdown (m_index m + 1)
                               (m_index m + length (m_0 m) - 1);
                   r_format := Italic |}]
       else allMatches).
Proof. intros * H. cbn [MaskingRevision.italicLoop]. now rewrite H. Qed.

Lemma italicLoop_done : forall fuel markdown workingText boldMasks lastIndex allMatches,
  regexExec MaskingRevision.italicRegex workingText lastIndex = None ->
  MaskingRevision.italicLoop fuel markdown workingText boldMasks lastIndex allMatches
  = Some allMatches.
Proof. intros [|fuel] * H; cbn [MaskingRevision.italicLoop]; now rewrite H. Qed.

Lemma repeatStr_no_star (u : char) : forall k,
  N.eqb STAR u = false -> includes (MaskingRevision.repeatStr [u] k) STAR = false.
Proof.
  intros k Hu. induction k as [|k IH]; [reflexivity |].
  cbn [MaskingRevision.repeatStr app]. rewrite includes_cons, Hu. exact IH.
Qed.

(** The segments for two spans between three texts. *)
Lemma buildSegments_two : forall before m1 mid m2 after t1 f1 t2 f2,
  m1 <> [] -> m2 <> [] ->
  buildSegments (before ++ m1 ++ mid ++ m2 ++ after)
    [ {| r_start := length before; r_end := length before + length m1;
         r_text := t1; r_format := f1 |};
      {| r_start := length before + length m1 + length mid;
         r_end := length before + length m1 + length mid + length m2;
         r_text := t2; r_format := f2 |} ]
  = plainIfAny before ++ [styledSegment t1 f1] ++ plainIfAny mid
    ++ [styledSegment t2 f2] ++ plainIfAny after.
Proof.
  intros before m1 mid m2 after t1 f1 t2 f2 Hm1 Hm2.
  set (markdown := before ++ m1 ++ mid ++ m2 ++ after).
  assert (Hlen : length markdown
                 = length before + length m1 + length mid + length m2 + length after).
  { unfold markdown. rewrite !length_app. lia. }
  assert (Hgap1 : substring markdown 0 (length before) = before).
  { rewrite substring_0 by lia. unfold markdown.
    rewrite firstn_app, Nat.sub_diag, firstn_all. cbn [firstn]. apply app_nil_r. }
  assert (Hgap2 : substring markdown (length before + length m1)
                    (length before + length m1 + length mid) = mid).
  { rewrite substring_firstn_skipn by lia. unfold markdown.
    replace (before ++ m1 ++ mid ++ m2 ++ after)
      with ((before ++ m1) ++ mid ++ m2 ++ after) by (now rewrite <- !app_assoc).
    rewrite skipn_prefix by (rewrite length_app; lia).
    replace (length before + length m1 + length mid - (length before + length m1))
      with (length mid) by lia.
    rewrite firstn_app, Nat.sub_diag, firstn_all. cbn [firstn]. apply app_nil_r. }
  assert (Hrest : substringFrom markdown
                    (length before + length m1 + length mid + length m2) = after).
  { unfold substringFrom, markdown.
    replace (before ++ m1 ++ mid ++ m2 ++ after)
      with ((before ++ m1 ++ mid ++ m2) ++ after) by (now rewrite <- !app_assoc).
    apply skipn_prefix. rewrite !length_app. lia. }
  unfold buildSegments.
  cbn [fold_left segmentStep r_start r_end r_text r_format].
  rewrite Hgap1, Hgap2, Hrest. unfold plainIfAny.
  replace (0 <? length before) with (truthy before)
    by (destruct before; reflexivity).
  replace (length before + length m1 <? length before + length m1 + length mid)
    with (truthy mid)
    by (destruct mid; cbn [truthy length];
        [symmetry; apply Nat.ltb_ge; lia | symmetry; apply Nat.ltb_lt; lia]).
  replace (length before + length m1 + length mid + length m2 <? length markdown)
    with (truthy after)
    by (rewrite Hlen; destruct after; cbn [truthy length];
        [symmetry; apply Nat.ltb_ge; lia | symmetry; apply Nat.ltb_lt; lia]).
  destruct (truthy before), (truthy mid), (truthy after); reflexivity.
Qed.

(** The bold pattern finds nothing where no two asterisks are in a row. *)
Lemma searchFrom_bold_no_opening : forall s index,
  hasDoubled STAR s = false -> searchFrom boldRegex index s = None.
Proof.
  induction s as [|c s IH]; intros index H; cbn [searchFrom]; unfold matchAt;
    cbn [boldRegex sr_open]; [reflexivity |].
  cbn [hasDoubled] in H. apply orb_false_iff in H. destruct H as [Hhere Hrest].
  rewrite Hhere. now apply IH.
Qed.

(** A loop over the matches of a pattern pushes spans of its format only. *)
Lemma execAll_formats : forall markdown re type fuel lastIndex allMatches allMatches',
  Forall (fun m => r_format m = type) allMatches ->
  MaskingRevision.execAll fuel markdown re type lastIndex allMatches = Some allMatches' ->
  Forall (fun m => r_format m = type) allMatches'.
Proof.
  intros markdown re type.
  induction fuel as [|fuel IH]; intros lastIndex acc acc' Hacc;
    cbn [MaskingRevision.execAll];
    destruct (regexExec re markdown lastIndex) as [m |];
    try discriminate; try (intros [= <-]; exact Hacc).
  intros H. apply IH in H; [exact H |].
  apply Forall_app. split; [exact Hacc | constructor; [reflexivity | constructor]].
Qed.

(** X23. The masking revision as it is in the repository, on a markdown
    string in which no two asterisks are in a row. There is no bold span
    then and nothing is masked: the formatter returns, the texts of the
    segments are the source without the delimiters of the accepted spans,
    and the accepted spans are genuine (delimiter, text, delimiter in the
    source) and follow one another. *)
Theorem MaskingRevision_reconstruction_without_bold : forall markdown : str,
  hasDoubled STAR markdown = false ->
  exists spans segments,
    MaskingRevision.acceptedSpans markdown = Some spans /\
    MaskingRevision.parseMarkdownToFormattedText markdown = Some segments /\
    concat (map text segments) = stripDelimiters markdown spans /\
    Forall (wrappedSpan markdown) spans /\
    inOrder spans.
Proof.
  intros markdown Hnone.
  unfold MaskingRevision.parseMarkdownToFormattedText, MaskingRevision.acceptedSpans,
    MaskingRevision.parseWith, MaskingRevision.acceptedSpansWith.
  assert (Hbold : regexExec boldRegex markdown 0 = None).
  { rewrite regexExec_search by lia. cbn [skipn].
    now apply searchFrom_bold_no_opening. }
  rewrite (execAll_done _ _ _ _ _ _ Hbold).
  destruct (MaskingRevision_execAll_total markdown underlineRegex Underline
              (length markdown) 0 []) as (m2 & Hm2); [lia |].
  rewrite Hm2.
  pose proof (execAll_formats _ _ _ _ _ _ _ (Forall_nil _) Hm2) as Hfmt.
  apply MaskingRevision_execAll_wrapped in Hm2; [| split; reflexivity | constructor].
  cbv zeta.
  assert (Hmasks : filter (fun m => Format_eqb (r_format m) Bold) m2 = []).
  { clear - Hfmt. induction m2 as [|m m2 IH]; [reflexivity |].
    apply Forall_cons_iff in Hfmt. destruct Hfmt as [Hm Hfmt].
    cbn [filter]. rewrite Hm. cbn [Format_eqb]. now apply IH. }
  rewrite Hmasks. cbn [rev fold_left].
  destruct (MaskingRevision_italicLoop_total markdown markdown []
              (length markdown) 0 m2) as (m3 & Hm3); [lia |].
  rewrite Hm3.
  apply MaskingRevision_italicLoop_wrapped in Hm3;
    [| reflexivity | reflexivity | constructor | exact Hm2].
  destruct (acceptFold_spec markdown (sortByStart m3) [])
    as [Hwf Hdisj]; [now apply sortByStart_Forall | constructor | constructor |].
  set (reps := fold_left MaskingRevision.acceptStep (sortByStart m3) []) in *.
  assert (Hord : inOrder (sortByStart reps)).
  { apply sortByStart_inOrder; [| exact Hdisj].
    eapply Forall_impl; [| exact Hwf]. intros r. apply wrappedSpan_nonempty. }
  exists (sortByStart reps), (buildSegments markdown (sortByStart reps)).
  split; [reflexivity |]. split; [reflexivity |].
  split; [apply buildSegments_strip; [now apply sortByStart_Forall | exact Hord] |].
  split; [now apply sortByStart_Forall | exact Hord].
Qed.

Lemma MaskingRevision_reconstruction_without_bold_witness :
  exists spans segments,
    MaskingRevision.acceptedSpans (js "an *old* and __new__ thing") = Some spans /\
    MaskingRevision.parseMarkdownToFormattedText (js "an *old* and __new__ thing")
    = Some segments /\
    concat (map text segments)
    = stripDelimiters (js "an *old* and __new__ thing") spans /\
    Forall (wrappedSpan (js "an *old* and __new__ thing")) spans /\
    inOrder spans.
Proof.
  apply (MaskingRevision_reconstruction_without_bold (js "an *old* and __new__ thing")).
  reflexivity.
Defined.

Lemma repeatStr_excludes (placeholder : str) (c : char) : forall k,
  includes placeholder c = false ->
  includes (MaskingRevision.repeatStr placeholder k) c = false.
Proof.
  intros k Hp. induction k as [|k IH]; [reflexivity |].
  cbn [MaskingRevision.repeatStr]. now rewrite includes_app, Hp, IH.
Qed.

(** The segments for two spans of which the second starts after the first
    has ended, whatever stretch of the source the spans are. *)
Lemma buildSegments_pair : forall markdown a b,
  r_end a < r_start b ->
  buildSegments markdown [a; b]
  = (if 0 <? r_start a then plainIfAny (substring markdown 0 (r_start a)) else [])
    ++ [styledSegment (r_text a) (r_format a)]
    ++ plainIfAny (substring markdown (r_end a) (r_start b))
    ++ [styledSegment (r_text b) (r_format b)]
    ++ (if r_end b <? length markdown
        then plainIfAny (substringFrom markdown (r_end b)) else []).
Proof.
  intros markdown a b Hab.
  unfold buildSegments. cbn [fold_left segmentStep].
  replace (r_end a <? r_start b) with true by (symmetry; apply Nat.ltb_lt; lia).
  unfold plainIfAny.
  destruct (0 <? r_start a); destruct (truthy (substring markdown 0 (r_start a)));
    destruct (truthy (substring markdown (r_end a) (r_start b)));
    destruct (r_end b <? length markdown);
    destruct (truthy (substringFrom markdown (r_end b)));
    cbn [app length Nat.eqb]; rewrite ?length_app; cbn [length];
    rewrite ?Nat.add_1_r; cbn [Nat.eqb Nat.add]; rewrite <- ?app_assoc;
    reflexivity.
Qed.

(** The accepted spans of the masking revision when an italic span follows
    a bold span, for any placeholder that is not empty and holds no
    asterisk. The bold span of [n] characters is masked by [n] copies of
    the placeholder, so the italic pattern finds the italic span in the
    masked copy where the copy has it: [n * (length placeholder - 1)]
    further on than the source has. The offsets are taken over as they
    are, and the text of the span is cut from the source at them. *)
Lemma MaskingRevision_spans_shifted :
  forall (placeholder before t1 mid t2 after : str),
  placeholder <> [] ->
  includes placeholder STAR = false ->
  noDelimiter before -> noDelimiter t1 -> noDelimiter mid ->
  noDelimiter t2 -> noDelimiter after ->
  includes t2 LF = false ->
  t1 <> [] -> t2 <> [] ->
  let markdown := before ++ [STAR; STAR] ++ t1 ++ [STAR; STAR]
                  ++ mid ++ [STAR] ++ t2 ++ [STAR] ++ after in
  let shifted := length before + (length t1 + 4) * length placeholder + length mid in
  MaskingRevision.acceptedSpansWith placeholder markdown
  = Some [ {| r_start := length before;
              r_end := length before + (length t1 + 4);
              r_text := t1; r_format := Bold |};
           {| r_start := shifted;
              r_end := shifted + (length t2 + 2);
              r_text := substring markdown (shifted + 1) (shifted + (length t2 + 2) - 1);
              r_format := Italic |} ].
Proof.
  intros p before t1 mid t2 after Hpne Hp [Hbs Hbu] [H1s H1u] [Hms Hmu] [H2s H2u]
         [Has Hau] H2lf Hne1 Hne2.
  cbv zeta.
  set (tail := mid ++ [STAR] ++ t2 ++ [STAR] ++ after).
  set (markdown := before ++ [STAR; STAR] ++ t1 ++ [STAR; STAR] ++ tail).
  set (bspan := {| r_start := length before;
                   r_end := length before + (length t1 + 4);
                   r_text := t1; r_format := Bold |}).
  assert (Hm1 : length ([STAR; STAR] ++ t1 ++ [STAR; STAR]) = length t1 + 4)
    by (rewrite !length_app; cbn [length]; lia).
  assert (Hm2 : length ([STAR] ++ t2 ++ [STAR]) = length t2 + 2)
    by (rewrite !length_app; cbn [length]; lia).
  assert (Hlen : length markdown
                 = length before + length t1 + length mid + length t2
                   + length after + 6).
  { unfold markdown, tail. rewrite !length_app. cbn [length]. lia. }
  assert (Hskip : skipn (length before + length t1 + 4) markdown = tail).
  { unfold markdown.
    replace (before ++ [STAR; STAR] ++ t1 ++ [STAR; STAR] ++ tail)
      with ((before ++ [STAR; STAR] ++ t1 ++ [STAR; STAR]) ++ tail)
      by (now rewrite <- !app_assoc).
    apply skipn_prefix. rewrite !length_app. cbn [length]. lia. }
  (* the bold pattern *)
  assert (Hbold0 : regexExec boldRegex markdown 0
                   = Some {| m_index := length before;
                             m_0 := [STAR; STAR] ++ t1 ++ [STAR; STAR]; m_1 := t1 |}).
  { rewrite regexExec_search by lia. cbn [skipn]. unfold markdown.
    rewrite (searchFrom_skip boldRegex STAR [STAR]) by trivial.
    apply (searchFrom_hit boldRegex). unfold matchAt.
    cbn [boldRegex sr_open sr_lazy sr_excluded sr_close].
    rewrite isPrefix_self. rewrite skipn_prefix by reflexivity.
    apply groupGreedy_run; [exact Hne1 | now apply noStar_forallb | reflexivity]. }
  assert (Hbold1 : regexExec boldRegex markdown (length before + length t1 + 4) = None).
  { rewrite regexExec_search by lia. rewrite Hskip. unfold tail. cbn [app].
    rewrite searchFrom_bold_lone_star; [| exact Hms | now apply head_not].
    rewrite searchFrom_bold_lone_star; [| exact H2s | now apply head_not_all].
    now apply (searchFrom_absent boldRegex STAR [STAR]). }
  assert (Hunder : regexExec underlineRegex markdown 0 = None).
  { rewrite regexExec_search by lia. cbn [skipn].
    apply (searchFrom_absent underlineRegex UNDERSCORE [UNDERSCORE]); [reflexivity |].
    unfold markdown, tail. includes_parts.
    rewrite Hbu, H1u, Hmu, H2u, Hau. reflexivity. }
  (* the masked copy *)
  set (mask := MaskingRevision.repeatStr p (length t1 + 4)).
  assert (Hmasklen : length mask = (length t1 + 4) * length p).
  { unfold mask. apply repeatStr_length. }
  assert (Hpos : 1 <= length p) by (destruct p; [contradiction | cbn [length]; lia]).
  assert (Hwide : length t1 + 4 <= length mask) by (rewrite Hmasklen; nia).
  assert (Hwork : MaskingRevision.maskStep p markdown bspan
                  = before ++ mask ++ tail).
  { unfold MaskingRevision.maskStep, bspan. cbn [r_start r_end].
    rewrite substring_0 by lia.
    replace (length before + (length t1 + 4) - length before)
      with (length t1 + 4) by lia.
    fold mask. unfold substringFrom.
    replace (length before + (length t1 + 4)) with (length before + length t1 + 4)
      by lia.
    rewrite Hskip. unfold markdown.
    rewrite firstn_app, Nat.sub_diag, firstn_all. cbn [firstn].
    now rewrite app_nil_r. }
  set (workingText := before ++ mask ++ tail).
  assert (Hwlen : length workingText
                  = length before + length mask + length mid + length t2
                    + length after + 2).
  { unfold workingText, tail. rewrite !length_app. cbn [length]. lia. }
  assert (Hit0 : regexExec MaskingRevision.italicRegex workingText 0
                 = Some {| m_index := length before + length mask + length mid;
                           m_0 := [STAR] ++ t2 ++ [STAR]; m_1 := t2 |}).
  { rewrite regexExec_search by lia. cbn [skipn]. unfold workingText, tail.
    rewrite (searchFrom_skip MaskingRevision.italicRegex STAR []) by trivial.
    rewrite (searchFrom_skip MaskingRevision.italicRegex STAR [])
      by (trivial; apply repeatStr_excludes; exact Hp).
    rewrite (searchFrom_skip MaskingRevision.italicRegex STAR []) by trivial.
    cbn [Nat.add].
    apply (searchFrom_hit MaskingRevision.italicRegex). unfold matchAt.
    cbn [MaskingRevision.italicRegex sr_open sr_lazy sr_excluded sr_close].
    rewrite isPrefix_self. rewrite skipn_prefix by reflexivity.
    apply groupLazy_run; [exact Hne2 | | exact H2s].
    clear - H2s H2lf. induction t2 as [|x t2 IH]; [reflexivity |].
    rewrite includes_cons in H2s, H2lf.
    apply orb_false_iff in H2s, H2lf. destruct H2s as [Hx Hs], H2lf as [Hy Hl].
    cbn [forallb]. rewrite (N.eqb_sym x STAR), (N.eqb_sym x LF), Hx, Hy.
    now apply IH. }
  assert (Hit1 : regexExec MaskingRevision.italicRegex workingText
                   (length before + length mask + length mid + (length t2 + 2))
                 = None).
  { rewrite regexExec_search by lia.
    assert (Hskip2 : skipn (length before + length mask + length mid
                            + (length t2 + 2)) workingText = after).
    { unfold workingText, tail.
      replace (before ++ mask ++ mid ++ [STAR] ++ t2 ++ [STAR] ++ after)
        with ((before ++ mask ++ mid ++ [STAR] ++ t2 ++ [STAR]) ++ after)
        by (now rewrite <- !app_assoc).
      apply skipn_prefix. rewrite !length_app. cbn [length]. lia. }
    rewrite Hskip2.
    now apply (searchFrom_absent MaskingRevision.italicRegex STAR []). }
  unfold MaskingRevision.acceptedSpansWith. fold tail. fold markdown.
  destruct (length markdown) as [|[|fuel]] eqn:Hfuel; try lia.
  rewrite (execAll_step _ _ _ _ _ _ _ Hbold0). cbn [m_index m_0 m_1].
  rewrite app_nil_l. rewrite Hm1. fold bspan.
  replace (length before + (length t1 + 4)) with (length before + length t1 + 4)
    by lia.
  rewrite (execAll_done _ _ _ _ _ _ Hbold1).
  rewrite (execAll_done _ _ _ _ _ _ Hunder).
  cbv zeta. cbn [filter r_format bspan Format_eqb rev app fold_left].
  fold bspan. rewrite Hwork. fold workingText.
  destruct (length workingText) as [|fuel2] eqn:Hfuel2; [lia |].
  rewrite (italicLoop_step _ _ _ _ _ _ _ Hit0). cbn [m_index m_0 m_1].
  rewrite Hm2.
  assert (Hov : MaskingRevision.overlapsWithBold
                  (length before + length mask + length mid)
                  (length before + length mask + length mid + (length t2 + 2))
                  [bspan] = false).
  { unfold MaskingRevision.overlapsWithBold, bspan. cbn [existsb r_start r_end].
    replace (length before + length mask + length mid
             <? length before + (length t1 + 4)) with false
      by (symmetry; apply Nat.ltb_ge; lia).
    replace (length before + length mask + length mid + (length t2 + 2)
             <=? length before + (length t1 + 4)) with false
      by (symmetry; apply Nat.leb_gt; lia).
    replace (length before + length mask + length mid <? length before) with false
      by (symmetry; apply Nat.ltb_ge; lia).
    rewrite !andb_false_r. reflexivity. }
  rewrite Hov. cbn [negb].
  rewrite (italicLoop_done _ _ _ _ _ _ Hit1).
  set (ispan := {| r_start := length before + length mask + length mid;
                   r_end := length before + length mask + length mid
                            + (length t2 + 2);
                   r_text := substring markdown
                               (length before + length mask + length mid + 1)
                               (length before + length mask + length mid
                                + (length t2 + 2) - 1);
                   r_format := Italic |}).
  assert (Hsort : sortByStart [bspan; ispan] = [bspan; ispan]).
  { unfold sortByStart. cbn [fold_right insertByStart].
    unfold bspan at 1, ispan at 1. cbn [r_start].
    replace (length before <=? length before + length mask + length mid) with true
      by (symmetry; apply Nat.leb_le; lia).
    reflexivity. }
  cbn [app]. rewrite Hsort. cbn [fold_left].
  unfold MaskingRevision.acceptStep at 2. cbn [overlapsAny existsb negb app].
  unfold MaskingRevision.acceptStep.
  assert (Hov2 : overlapsAny (r_start ispan) (r_end ispan) [bspan] = false).
  { unfold overlapsAny, bspan, ispan. cbn [existsb r_start r_end].
    replace (length before + length mask + length mid
             <? length before + (length t1 + 4)) with false
      by (symmetry; apply Nat.ltb_ge; lia).
    replace (length before + length mask + length mid + (length t2 + 2)
             <=? length before + (length t1 + 4)) with false
      by (symmetry; apply Nat.leb_gt; lia).
    replace (length before + length mask + length mid <=? length before) with false
      by (symmetry; apply Nat.leb_gt; lia).
    rewrite !andb_false_r. reflexivity. }
  rewrite Hov2. cbn [negb app]. rewrite Hsort.
  unfold bspan, ispan. rewrite Hmasklen. reflexivity.
Qed.

(** X25. The masking revision as it is in the repository, when an italic
    span follows a bold span. For stretches without asterisk and
    underscore, with [t1] and [t2] not empty and [t2] on one line, the
    markdown string
    [before ++ "**" ++ t1 ++ "**" ++ mid ++ "*" ++ t2 ++ "*" ++ after] gives
    the bold segment of [t1], but the italic span is taken
    [2 * (length t1 + 4)] code units further on than it is: the italic
    segment holds what the source has there, which is nothing when that is
    beyond its end, and the plain segment between the two starts with [mid]
    and the opening asterisk of the italic span. *)
Theorem MaskingRevision_italic_after_bold_shifted :
  forall (before t1 mid t2 after : str),
    noDelimiter before -> noDelimiter t1 -> noDelimiter mid ->
    noDelimiter t2 -> noDelimiter after ->
    includes t2 LF = false ->
    t1 <> [] -> t2 <> [] ->
    let markdown := before ++ [STAR; STAR] ++ t1 ++ [STAR; STAR]
                    ++ mid ++ [STAR] ++ t2 ++ [STAR] ++ after in
    let boldEnd := length before + (length t1 + 4) in
    let shifted := boldEnd + 2 * (length t1 + 4) + length mid in
    MaskingRevision.parseMarkdownToFormattedText markdown
    = Some (plainIfAny before ++ [styledSegment t1 Bold]
            ++ [plainSegment (substring markdown boldEnd shifted)]
            ++ [styledSegment
                  (substring markdown (shifted + 1) (shifted + (length t2 + 2) - 1))
                  Italic]
            ++ (if shifted + (length t2 + 2) <? length markdown
                then plainIfAny (substringFrom markdown (shifted + (length t2 + 2)))
                else [])) /\
    exists rest, substring markdown boldEnd shifted = mid ++ [STAR] ++ rest.
Proof.
  intros before t1 mid t2 after Hb H1 Hm H2 Ha Hlf Hne1 Hne2. cbv zeta.
  set (markdown := before ++ [STAR; STAR] ++ t1 ++ [STAR; STAR]
                   ++ mid ++ [STAR] ++ t2 ++ [STAR] ++ after).
  assert (Hlen : length markdown
                 = length before + length t1 + length mid + length t2
                   + length after + 6).
  { unfold markdown. rewrite !length_app. cbn [length]. lia. }
  assert (Hgap : exists rest,
            substring markdown (length before + (length t1 + 4))
              (length before + (length t1 + 4) + 2 * (length t1 + 4) + length mid)
            = mid ++ [STAR] ++ rest).
  { unfold substring. rewrite Hlen.
    rewrite (Nat.min_l (length before + (length t1 + 4))) by lia.
    set (b' := Nat.min (length before + (length t1 + 4) + 2 * (length t1 + 4)
                        + length mid)
                       (length before + length t1 + length mid + length t2
                        + length after + 6)).
    assert (Hb' : length before + (length t1 + 4) + length mid + 1 <= b')
      by (unfold b'; lia).
    rewrite Nat.max_r, Nat.min_l by lia.
    unfold markdown.
    replace (before ++ [STAR; STAR] ++ t1 ++ [STAR; STAR]
             ++ mid ++ [STAR] ++ t2 ++ [STAR] ++ after)
      with ((before ++ [STAR; STAR] ++ t1 ++ [STAR; STAR])
            ++ mid ++ [STAR] ++ t2 ++ [STAR] ++ after)
      by (now rewrite <- !app_assoc).
    rewrite skipn_prefix by (rewrite !length_app; cbn [length]; lia).
    exists (firstn (b' - (length before + (length t1 + 4)) - length mid - 1)
                   (t2 ++ [STAR] ++ after)).
    rewrite firstn_app, firstn_all2 by lia. f_equal.
    destruct (b' - (length before + (length t1 + 4)) - length mid) as [|n] eqn:Hn;
      [lia |].
    replace (S n - 1) with n by lia. reflexivity. }
  split; [| exact Hgap].
  unfold MaskingRevision.parseMarkdownToFormattedText, MaskingRevision.parseWith.
  pose proof (MaskingRevision_spans_shifted MaskingRevision.PLACEHOLDER
                before t1 mid t2 after) as Hspans.
  cbv zeta in Hspans. fold markdown in Hspans.
  rewrite Hspans; try assumption; [| discriminate | reflexivity].
  cbn [option_map]. f_equal.
  change (length MaskingRevision.PLACEHOLDER) with 3.
  replace (length before + (length t1 + 4) * 3 + length mid)
    with (length before + (length t1 + 4) + 2 * (length t1 + 4) + length mid) by lia.
  rewrite buildSegments_pair by (cbn [r_start r_end]; lia).
  cbn [r_start r_end r_text r_format].
  destruct Hgap as (rest & Hgap).
  assert (Hbefore : (if 0 <? length before
                     then plainIfAny (substring markdown 0 (length before)) else [])
                    = plainIfAny before).
  { assert (Hsub : substring markdown 0 (length before) = before).
    { rewrite substring_0 by lia. unfold markdown.
      rewrite firstn_app, Nat.sub_diag, firstn_all. cbn [firstn]. apply app_nil_r. }
    rewrite Hsub. destruct before; reflexivity. }
  rewrite Hbefore.
  assert (Hplain : plainIfAny (substring markdown (length before + (length t1 + 4))
                     (length before + (length t1 + 4) + 2 * (length t1 + 4)
                      + length mid))
                   = [plainSegment (substring markdown (length before + (length t1 + 4))
                        (length before + (length t1 + 4) + 2 * (length t1 + 4)
                         + length mid))]).
  { unfold plainIfAny. rewrite Hgap. destruct mid; reflexivity. }
  rewrite Hplain. reflexivity.
Qed.

Lemma MaskingRevision_italic_after_bold_shifted_witness :
  let markdown := js "Hello " ++ [STAR; STAR] ++ js "world" ++ [STAR; STAR]
                  ++ js " and " ++ [STAR] ++ js "friend" ++ [STAR] ++ [] in
  let boldEnd := length (js "Hello ") + (length (js "world") + 4) in
  let shifted := boldEnd + 2 * (length (js "world") + 4) + length (js " and ") in
  MaskingRevision.parseMarkdownToFormattedText markdown
  = Some (plainIfAny (js "Hello ") ++ [styledSegment (js "world") Bold]
          ++ [plainSegment (substring markdown boldEnd shifted)]
          ++ [styledSegment
                (substring markdown (shifted + 1) (shifted + (length (js "friend") + 2) - 1))
                Italic]
          ++ (if shifted + (length (js "friend") + 2) <? length markdown
              then plainIfAny (substringFrom markdown
                                 (shifted + (length (js "friend") + 2)))
              else [])) /\
  exists rest, substring markdown boldEnd shifted = js " and " ++ [STAR] ++ rest.
Proof.
  apply (MaskingRevision_italic_after_bold_shifted
           (js "Hello ") (js "world") (js " and ") (js "friend") []);
    (split; reflexivity) || reflexivity || discriminate.
Defined.

(* ===================================================================== *)
(** ** The slide tool *)
(* ===================================================================== *)

Lemma join_nil_concat : forall l : list str, join [] l = concat l.
Proof.
  induction l as [|x l IH]; [reflexivity |].
  destruct l as [|y l]; [cbn; now rewrite app_nil_r |].
  rewrite join_cons by discriminate. cbn [app concat]. now rewrite IH.
Qed.

Lemma parseMarkdownToFormattedText_returns (markdown : str) :
  exists segments, parseMarkdownToFormattedText markdown = Some segments.
Proof.
  unfold parseMarkdownToFormattedText.
  destruct (acceptedSpans_spec markdown) as (spans & -> & _).
  eexists. reflexivity.
Qed.

Lemma calculateOptimalFontSize_returns (t : str) (w h : float) (range : FontRange) :
  exists size, calculateOptimalFontSize t w h range = Some size.
Proof.
  unfold calculateOptimalFontSize.
  destruct (fontSearch_returns (fitsBox t w h) (overflowsBox t w h) range)
    as (size & -> & _).
  eexists. reflexivity.
Qed.

(** One round of the loop returns its requests. *)
Lemma slideRequests_round (ids : nat -> SlideIds) (layoutName : str) (index : float)
    (title : str) (i : nat) (chunk : str) :
  exists batch, slideRound ids layoutName index title (i, chunk) batch.
Proof.
  unfold slideRound, slideRequests. cbn [fst snd].
  destruct (parseMarkdownToFormattedText_returns (currentTitle title i))
    as (titleSegments & ->).
  destruct (parseMarkdownToFormattedText_returns chunk) as (contentSegments & ->).
  cbv zeta.
  destruct (calculateOptimalFontSize_returns (joinedText titleSegments)
              (box_width LAYOUT_DIMENSIONS_TITLE) (box_height LAYOUT_DIMENSIONS_TITLE)
              FONT_SIZE_RANGES_TITLE) as (titleSize & ->).
  destruct (calculateOptimalFontSize_returns (joinedText contentSegments)
              (box_width LAYOUT_DIMENSIONS_BODY) (box_height LAYOUT_DIMENSIONS_BODY)
              FONT_SIZE_RANGES_BODY) as (contentSize & ->).
  eexists. split; [reflexivity |].
  exists titleSegments. eexists. split; [reflexivity |].
  unfold joinedText. rewrite join_nil_concat. reflexivity.
Qed.

Lemma slideLoop_rounds (ids : nat -> SlideIds) (layoutName : str) (index : float)
    (title : str) : forall chunks i,
  exists batches,
    slideLoop ids layoutName index title i chunks = Some batches /\
    Forall2 (slideRound ids layoutName index title)
            (combine (seq i (length chunks)) chunks) batches.
Proof.
  induction chunks as [|chunk chunks IH]; intros i.
  - exists []. split; [reflexivity | constructor].
  - destruct (slideRequests_round ids layoutName index title i chunk)
      as (batch & Hround).
    destruct (IH (S i)) as (batches & Hloop & Hall).
    exists (batch :: batches). cbn [slideLoop].
    pose proof Hround as [Hreq _]. cbn [fst snd] in Hreq.
    rewrite Hreq, Hloop. split; [reflexivity |].
    cbn [length seq combine]. constructor; assumption.
Qed.

(** X26. [createSlideWithContentTool] builds its requests for every title
    and content. The content is split with the budget of 800 characters;
    there is at least one chunk, and one only when the content has at most
    800 characters. There is one array of requests per chunk, in order:
    round [i] creates its slide at [slideIndex + i] (1 when no index or the
    index 0 is given), with the title as it is in round 0 and with
    [" (cont. i+1)"] appended after that, and inserts into the title box the
    texts of the segments of that title. *)
Theorem createSlideWithContent_rounds :
  forall (ids : nat -> SlideIds) (args : CreateSlideWithContentArgs),
  exists chunks batches,
    splitTextForSlides DEFAULT_MAX_CHARS_PER_SLIDE (slide_content args) = Some chunks /\
    createSlideWithContentRequests ids args = Some batches /\
    chunks <> [] /\
    (length (slide_content args) <= DEFAULT_MAX_CHARS_PER_SLIDE ->
     chunks = [slide_content args]) /\
    (slideIndex args = None \/ slideIndex args = Some 0%float ->
     orNumber (slideIndex args) 1 = 1%float) /\
    Forall2 (slideRound ids (orString (layout args) TITLE_AND_BODY)
               (orNumber (slideIndex args) 1) (slide_title args))
            (combine (seq 0 (length chunks)) chunks) batches.
Proof.
  intros ids args. unfold createSlideWithContentRequests. cbv zeta.
  destruct (splitTextForSlides_total DEFAULT_MAX_CHARS_PER_SLIDE (slide_content args))
    as (chunks & Hchunks); [unfold DEFAULT_MAX_CHARS_PER_SLIDE; lia |].
  rewrite Hchunks.
  destruct (slideLoop_rounds ids (orString (layout args) TITLE_AND_BODY)
              (orNumber (slideIndex args) 1) (slide_title args) chunks 0)
    as (batches & Hloop & Hall).
  exists chunks, batches. split; [reflexivity |]. split; [exact Hloop |].
  split; [| split; [| split; [| exact Hall]]].
  - unfold splitTextForSlides in Hchunks.
    destruct (length (slide_content args) <=? DEFAULT_MAX_CHARS_PER_SLIDE).
    + injection Hchunks as <-. discriminate.
    + destruct (splitLoops _ _) as [slides |]; [| discriminate].
      injection Hchunks as <-. destruct slides; discriminate.
  - intros Hshort. unfold splitTextForSlides in Hchunks.
    replace (length (slide_content args) <=? DEFAULT_MAX_CHARS_PER_SLIDE) with true
      in Hchunks by (symmetry; now apply Nat.leb_le).
    now injection Hchunks as <-.
  - intros [-> | ->]; reflexivity.
Qed.

(* ===================================================================== *)
(** ** The text tool *)
(* ===================================================================== *)

Lemma defaultFontRange_ordered (args : AddTextToSlideArgs) :
  (fr_min (defaultFontRange args) <= fr_default (defaultFontRange args)
   <= fr_max (defaultFontRange args))%Z.
Proof.
  unfold defaultFontRange. destruct (str_eqb (textTypeOf args) TITLE); cbn; lia.
Qed.

Lemma chosenFontSize_choice (args : AddTextToSlideArgs) (plainText : str) (w h : float) :
  exists size, chosenFontSize args plainText w h = Some size /\
               fontSizeChoice args size.
Proof.
  unfold chosenFontSize, fontSizeChoice, fontSizeSet.
  assert (Hsearch : exists size,
            calculateOptimalFontSize plainText w h (defaultFontRange args) = Some size /\
            (fr_min (defaultFontRange args) <= size <= fr_max (defaultFontRange args))%Z).
  { unfold calculateOptimalFontSize.
    destruct (fontSearch_returns (fitsBox plainText w h) (overflowsBox plainText w h)
                (defaultFontRange args)) as (size & Hsize & j & Hj & Hcase).
    exists size. split; [exact Hsize |].
    pose proof (defaultFontRange_ordered args) as Hord.
    destruct Hcase as [(-> & [-> | Hlo]) | (-> & [-> | Hhi])]; lia. }
  destruct Hsearch as (searched & Hsearched & Hrange).
  destruct (text_fontSize args) as [given |]; cbn [negb andb].
  - destruct (Z.eqb given 0); cbn [negb andb].
    + destruct (autoFits args); eauto.
    + eauto.
  - destruct (autoFits args); eauto.
Qed.

Lemma formattingRequests_within (id : str) (segments : list FormattedTextSegment)
    (u : UpdateTextStyle) :
  In u (generateTextFormattingRequests id segments) ->
  uts_objectId u = id /\
  rangeStart u <= rangeEnd u <= length (concat (map text segments)).
Proof.
  rewrite generateTextFormattingRequests_from. intros Hin. split.
  - apply In_nth_error in Hin. destruct Hin as (k & Hk).
    apply requestsFrom_nth in Hk.
    destruct Hk as (before & segment & after & _ & _ & _ & ->). reflexivity.
  - pose proof (requestsFrom_bounds id segments 0) as Hb.
    rewrite Forall_forall in Hb. specialize (Hb u Hin).
    unfold plainTextOf in Hb. lia.
Qed.

(** X27. [addTextToSlideTool] builds its requests for every text. They start
    with the text box and the insertion, at index 0, of the joined texts of
    the segments of the text; the third sets the font for the whole text.
    The size is the one given when it is not zero, with no check against a
    range; otherwise it lies in the range of the kind of text, or is the
    default of that range when fitting is switched off. Every
    [updateTextStyle] request is for the text box, and its range lies within
    the text inserted. *)
Theorem addTextToSlide_requests :
  forall (textObjectId : str) (args : AddTextToSlideArgs),
  exists segments size properties rest,
    parseMarkdownToFormattedText (text_text args) = Some segments /\
    addTextToSlideRequests textObjectId args
    = Some (CreateShape textObjectId (js "TEXT_BOX") properties
            :: InsertText textObjectId None (concat (map text segments)) 0
            :: textFontRequest textObjectId size
            :: rest) /\
    fontSizeChoice args size /\
    forall u, In (UpdateTextStyleRequest u) rest ->
      uts_objectId u = textObjectId /\
      rangeStart u <= rangeEnd u <= length (concat (map text segments)).
Proof.
  intros id args. unfold addTextToSlideRequests. cbv zeta.
  destruct (parseMarkdownToFormattedText_returns (text_text args)) as (segments & ->).
  match goal with
  | |- context [chosenFontSize args ?t ?w ?h] =>
      destruct (chosenFontSize_choice args t w h) as (size & Hsize & Hchoice);
      replace (chosenFontSize args t w h) with (Some size)
  end.
  exists segments, size. eexists _, _.
  split; [reflexivity |]. split.
  { unfold joinedText. rewrite join_nil_concat. reflexivity. }
  split; [exact Hchoice |].
  intros u Hin. rewrite !in_app_iff in Hin.
  destruct Hin as [Hin | [Hin | Hin]].
  - destruct (str_eqb (textTypeOf args) TITLE); [| destruct Hin].
    destruct Hin as [Heq | []]. injection Heq as <-.
    cbn. split; [reflexivity | lia].
  - apply in_map_iff in Hin. destruct Hin as (u' & Heq & Hin).
    injection Heq as ->. now apply formattingRequests_within.
  - destruct (autoFits args); [| destruct Hin].
    destruct Hin as [Heq | []]. discriminate.
Qed.

Lemma groupGreedy_clean : forall excluded close s cap,
  groupGreedy excluded close s = Some cap ->
  forallb (fun x => negb (excluded x)) cap = true.
Proof.
  intros excluded close. induction s as [|c s IH]; intros cap H; [discriminate |].
  rewrite groupGreedy_cons in H. destruct (excluded c) eqn:Hc; [discriminate |].
  destruct (groupGreedy excluded close s) as [cap' |] eqn:Hrec.
  - injection H as <-. cbn [forallb]. rewrite Hc. cbn [negb andb]. now apply IH.
  - destruct (isPrefix close s); [| discriminate]. injection H as <-.
    cbn [forallb]. now rewrite Hc.
Qed.

Lemma searchFrom_cap : forall re s index m,
  searchFrom re index s = Some m -> exists s', matchAt re s' = Some (m_1 m).
Proof.
  intros re. induction s as [|c s IH]; intros index m H; cbn [searchFrom] in H.
  - destruct (matchAt re []) as [cap |] eqn:Hm; [| discriminate].
    injection H as <-. exists []. exact Hm.
  - destruct (matchAt re (c :: s)) as [cap |] eqn:Hm.
    + injection H as <-. exists (c :: s). exact Hm.
    + eapply IH. exact H.
Qed.

(** The group of a match holds no character of the delimiter. *)
Lemma regexExec_clean : forall re type markdown lastIndex m,
  excludesOwn re type ->
  regexExec re markdown lastIndex = Some m ->
  includes (m_1 m) (delimiterChar type) = false.
Proof.
  intros re type markdown lastIndex m [Hlazy Hexcl] H. unfold regexExec in H.
  destruct (length markdown <? lastIndex); [discriminate |].
  apply searchFrom_cap in H. destruct H as (s' & Hm).
  unfold matchAt in Hm. destruct (isPrefix (sr_open re) s'); [| discriminate].
  rewrite Hlazy, Hexcl in Hm. apply groupGreedy_clean in Hm.
  apply includes_false. intros Hin.
  rewrite forallb_forall in Hm. specialize (Hm _ Hin).
  now rewrite N.eqb_refl in Hm.
Qed.

(** The loop of a pattern keeps what holds of every span that it can push. *)
Lemma scanPattern_Forall (P : Replacement -> Prop) (markdown : str)
    (re : SpanRegex) (type : Format) :
  (forall lastIndex m,
     regexExec re markdown lastIndex = Some m ->
     P {| r_start := m_index m; r_end := m_index m + length (m_0 m);
          r_text := m_1 m; r_format := type |}) ->
  forall fuel lastIndex replacements replacements',
    scanPattern fuel markdown re type lastIndex replacements = Some replacements' ->
    Forall P replacements -> Forall P replacements'.
Proof.
  intros Hmatch. induction fuel as [|fuel IH]; intros lastIndex reps reps' H Hall;
    cbn [scanPattern] in H;
    destruct (regexExec re markdown lastIndex) as [m |] eqn:Hexec;
    try discriminate; try (injection H as <-; exact Hall).
  eapply IH; [exact H |].
  destruct (overlapsAny _ _ reps); cbn [negb]; [exact Hall |].
  apply Forall_app. split; [exact Hall |].
  constructor; [| constructor]. eapply Hmatch. exact Hexec.
Qed.

Lemma patterns_excludesOwn :
  Forall (fun pattern => excludesOwn (fst pattern) (snd pattern)) patterns.
Proof. repeat constructor. Qed.

Lemma collectReplacements_clean : forall markdown replacements,
  collectReplacements markdown = Some replacements ->
  Forall cleanSpan replacements.
Proof.
  intros markdown. unfold collectReplacements.
  assert (Hgen : forall ps reps reps',
            Forall (fun pattern => excludesOwn (fst pattern) (snd pattern)) ps ->
            foldM (fun replacements (pattern : SpanRegex * Format) =>
                     scanPattern (length markdown) markdown (fst pattern) (snd pattern)
                                 0 replacements) ps reps = Some reps' ->
            Forall cleanSpan reps -> Forall cleanSpan reps').
  { induction ps as [|[re type] ps IH]; intros reps reps' Hps H Hall; cbn [foldM] in H.
    - now injection H as <-.
    - apply Forall_cons_iff in Hps. destruct Hps as [Hp Hps]. cbn [fst snd] in *.
      destruct (scanPattern (length markdown) markdown re type 0 reps)
        as [reps1 |] eqn:Hscan; [| discriminate].
      eapply IH; [exact Hps | exact H |].
      eapply (scanPattern_Forall cleanSpan); [| exact Hscan | exact Hall].
      intros lastIndex m Hexec. unfold cleanSpan. cbn [r_text r_format].
      eapply regexExec_clean; eassumption. }
  intros reps H. eapply Hgen; [apply patterns_excludesOwn | exact H | constructor].
Qed.

(** X28. No styled segment holds a character of its own delimiter: for every
    markdown string the formatter returns segments in which a bold or italic
    text has no asterisk and an underlined text has no underscore. (A plain
    segment may hold either.) *)
Theorem parseMarkdownToFormattedText_clean_texts : forall markdown : str,
  exists segments,
    parseMarkdownToFormattedText markdown = Some segments /\
    Forall cleanSegment segments.
Proof.
  intros markdown. unfold parseMarkdownToFormattedText, acceptedSpans.
  destruct (collectReplacements_spec markdown) as (reps & Hreps & _).
  rewrite Hreps. cbn [option_map]. eexists. split; [reflexivity |].
  apply collectReplacements_clean in Hreps.
  apply (sortByStart_Forall cleanSpan) in Hreps.
  pose proof (buildSegments_flagged markdown (sortByStart reps)) as Hflag.
  apply Forall_forall. intros segment Hin.
  destruct (needsFormatting segment) eqn:Hneeds.
  - assert (Hstyled : In segment
                        (map (fun r => styledSegment (r_text r) (r_format r))
                             (sortByStart reps))).
    { rewrite <- Hflag. apply filter_In. split; assumption. }
    apply in_map_iff in Hstyled. destruct Hstyled as (r & <- & Hr).
    rewrite Forall_forall in Hreps. specialize (Hreps r Hr).
    unfold cleanSpan in Hreps. unfold cleanSegment, styledSegment.
    cbn [bold italic underline text].
    destruct (r_format r); cbn [delimiterChar Format_eqb] in *;
      split; intros H; try exact Hreps; try discriminate;
      destruct H; discriminate.
  - unfold needsFormatting in Hneeds.
    apply orb_false_elim in Hneeds. destruct Hneeds as [Hneeds _].
    apply orb_false_elim in Hneeds. destruct Hneeds as [Hneeds Hu].
    apply orb_false_elim in Hneeds. destruct Hneeds as [Hb Hi].
    split; [intros [H | H]; congruence | intros H; congruence].
Qed.

(* ===================================================================== *)
(** ** The list structurer: markers *)
(* ===================================================================== *)

Lemma wsThenRest_shape : forall s cap,
  wsThenRest s = Some cap ->
  exists gap post, s = gap ++ cap ++ post /\ isGap gap.
Proof.
  induction s as [|c s IH]; intros cap H; [discriminate |].
  rewrite wsThenRest_cons in H. destruct (isWhiteSpace c) eqn:Hc; [| discriminate].
  destruct (wsThenRest s) as [cap' |] eqn:Hrec.
  - injection H as <-. destruct (IH cap' eq_refl) as (gap & post & -> & Hne & Hws).
    exists (c :: gap), post. split; [reflexivity |].
    split; [discriminate |]. cbn [forallb]. now rewrite Hc.
  - apply dotPlus_spec in H. destruct H as (_ & _ & post & ->).
    exists [c], post. split; [reflexivity |].
    split; [discriminate |]. cbn [forallb]. now rewrite Hc.
Qed.

Lemma digitsDotRest_shape : forall s cap,
  digitsDotRest s = Some cap ->
  exists digits gap post,
    s = digits ++ [DOT] ++ gap ++ cap ++ post /\
    digits <> [] /\ forallb isDigit digits = true /\ isGap gap.
Proof.
  induction s as [|c s IH]; intros cap H; [discriminate |].
  rewrite digitsDotRest_cons in H. destruct (isDigit c) eqn:Hc; [| discriminate].
  destruct (digitsDotRest s) as [cap' |] eqn:Hrec.
  - injection H as <-.
    destruct (IH cap' eq_refl) as (digits & gap & post & -> & _ & Hds & Hgap).
    exists (c :: digits), gap, post. split; [reflexivity |].
    split; [discriminate |]. split; [| exact Hgap].
    cbn [forallb]. now rewrite Hc.
  - destruct s as [|d s']; [discriminate |].
    destruct (N.eqb_spec d DOT) as [-> | Hd]; [| discriminate].
    apply wsThenRest_shape in H. destruct H as (gap & post & -> & Hgap).
    exists [c], gap, post. split; [reflexivity |].
    split; [discriminate |]. split; [| exact Hgap].
    cbn [forallb]. now rewrite Hc.
Qed.

Lemma listItemOfLine_readFrom (line : str) : readFrom line (listItemOfLine line).
Proof.
  unfold readFrom, listItemOfLine.
  destruct (bulletMatch (trim line)) as [cap |] eqn:Hb.
  - cbn [isNumbered item_text]. split; [discriminate |]. intros _. left.
    unfold bulletMatch in Hb. destruct (trim line) as [|c s]; [discriminate |].
    fold (isBulletChar c) in Hb.
    destruct (isBulletChar c) eqn:Hc; [| discriminate].
    apply wsThenRest_shape in Hb. destruct Hb as (gap & post & -> & Hgap).
    exists c, gap, post. auto.
  - destruct (numberMatch (trim line)) as [cap |] eqn:Hn.
    + cbn [isNumbered item_text]. split; [| discriminate]. intros _.
      unfold numberMatch in Hn. now apply digitsDotRest_shape.
    + cbn [isNumbered item_text]. split; [discriminate |]. intros _. right. auto.
Qed.

(** X29. How the marker of a line decides its item. An item has
    [isNumbered] only when the trimmed line is digits, a dot, whitespace and
    then the text of the item; an item without [isNumbered] comes from a
    trimmed line that is a bullet character ([-], [*] or [+]), whitespace
    and then the text, or else from a line that neither pattern matches,
    whose trimmed form is the text. *)
Theorem parseMarkdownList_markers : forall markdown : str,
  Forall2 readFrom (nonBlankLines markdown) (parseMarkdownList markdown).
Proof.
  intros markdown. rewrite parseMarkdownList_map.
  induction (nonBlankLines markdown) as [|line lines IH]; [constructor |].
  cbn [map]. constructor; [apply listItemOfLine_readFrom | exact IH].
Qed.

(* ===================================================================== *)
(** ** The table tool: outcome and size *)
(* ===================================================================== *)

Lemma flat_map_agree (A B : Type) (f g : A -> list B) : forall l : list A,
  (forall a, In a l -> f a = g a) -> flat_map f l = flat_map g l.
Proof.
  induction l as [|a l IH]; intros Hfg; [reflexivity |].
  cbn [flat_map]. rewrite (Hfg a (or_introl eq_refl)), IH; [reflexivity |].
  intros b Hb. apply Hfg. now right.
Qed.

Lemma cellLoop_length (B : Type) (F : nat -> str -> B) : forall (cells : list str) offset,
  length (flat_map (fun col =>
                      let cell := nth (col - offset) cells [] in
                      if truthy cell then [F col cell] else [])
                   (seq offset (length cells)))
  = length (filter truthy cells).
Proof.
  induction cells as [|cell cells IH]; intros offset; [reflexivity |].
  cbn [length seq flat_map filter]. rewrite Nat.sub_diag. cbn [nth].
  rewrite length_app.
  rewrite (flat_map_agree _ _ _
             (fun col => let c := nth (col - S offset) cells [] in
                         if truthy c then [F col c] else [])).
  - rewrite IH. destruct (truthy cell); reflexivity.
  - intros col Hcol. apply in_seq in Hcol.
    replace (col - offset) with (S (col - S offset)) by lia. reflexivity.
Qed.

Lemma headerInserts_length (id : str) (hs : list str) :
  length (headerInserts id hs) = length (filter truthy hs).
Proof.
  unfold headerInserts.
  rewrite <- (cellLoop_length Request
                (fun col cell =>
                   InsertText id (Some {| rowIndex := 0; columnIndex := col |}) cell 0)
                hs 0).
  f_equal. apply flat_map_ext. intros col. now rewrite Nat.sub_0_r.
Qed.

Lemma rowInserts_length (id : str) (n : nat) : forall (rs : list (list str)) offset,
  Forall (fun row => length row = n) rs ->
  length (flat_map (fun row =>
            flat_map (fun col =>
                        let cellValue := nth col (nth (row - offset) rs []) [] in
                        if truthy cellValue
                        then [InsertText id
                                (Some {| rowIndex := row + 1; columnIndex := col |})
                                cellValue 0]
                        else [])
                     (seq 0 n))
            (seq offset (length rs)))
  = length (filter truthy (concat rs)).
Proof.
  induction rs as [|row rs IH]; intros offset Hall; [reflexivity |].
  apply Forall_cons_iff in Hall. destruct Hall as [Hrow Hall].
  cbn [length seq flat_map concat]. rewrite Nat.sub_diag. cbn [nth].
  rewrite length_app, filter_app, length_app. f_equal.
  - rewrite <- Hrow.
    rewrite <- (cellLoop_length Request
                  (fun col cell =>
                     InsertText id (Some {| rowIndex := offset + 1; columnIndex := col |})
                       cell 0)
                  row 0).
    f_equal. apply flat_map_ext. intros col. now rewrite Nat.sub_0_r.
  - rewrite <- (IH (S offset) Hall). f_equal.
    apply flat_map_agree. intros r Hr. apply in_seq in Hr.
    replace (r - offset) with (S (r - S offset)) by lia. reflexivity.
Qed.

Lemma parsedTable_widths (markdown : str) (table : ParsedTable) :
  parseMarkdownTable markdown = Some table ->
  Forall (fun row => length row = length (headers table)) (rows table).
Proof.
  intros Hparse. apply parseMarkdownTable_Some in Hparse. destruct Hparse as [_ ->].
  rewrite rowLoop_filter_map. apply Forall_forall. intros row Hin.
  apply in_map_iff in Hin. destruct Hin as (line & <- & _). apply padCells_length.
Qed.

(** X30. The outcome of [addTableToSlideTool] before the call of
    [batchUpdate]. It throws the format error exactly when the content does
    not parse as a table, and the other error exactly when the table parses
    with no header cell. Otherwise the number of requests is two (the table
    and its borders) plus one per cell that is not empty plus the styling
    requests: every non-empty cell of the parsed table is inserted once. *)
Theorem addTableToSlide_outcome :
  forall (tableObjectId : str) (args : AddTableToSlideArgs),
    match addTableToSlideRequests tableObjectId args with
    | inl message =>
        (message = INVALID_TABLE_FORMAT /\
         parseMarkdownTable (tableContent args) = None) \/
        (message = TABLE_WITHOUT_COLUMN /\
         exists table, parseMarkdownTable (tableContent args) = Some table /\
                       headers table = [])
    | inr requests =>
        exists table,
          parseMarkdownTable (tableContent args) = Some table /\
          headers table <> [] /\
          length requests = 2 + nonEmptyCells table + stylingRequests args table
    end.
Proof.
  intros id args.
  destruct (addTableToSlideRequests id args) as [message | requests] eqn:Hout.
  - unfold addTableToSlideRequests in Hout.
    destruct (parseMarkdownTable (tableContent args)) as [table |];
      [| injection Hout as <-; now left].
    cbv zeta in Hout.
    destruct ((length (headers table) =? 0) || (length (rows table) + 1 =? 0))%bool
      eqn:Hzero; [| discriminate].
    injection Hout as <-. right. split; [reflexivity |].
    exists table. split; [reflexivity |].
    apply orb_prop in Hzero. destruct Hzero as [H | H]; apply Nat.eqb_eq in H.
    + now apply length_zero_iff_nil.
    + lia.
  - apply addTableToSlideRequests_inr in Hout.
    destruct Hout as (table & properties & Hparse & Hcols & ->).
    exists table. split; [exact Hparse |]. split; [exact Hcols |].
    rewrite !length_app, headerInserts_length. cbn [length].
    assert (Hrows : length (rowInserts id (rows table) (length (headers table)))
                    = length (filter truthy (concat (rows table)))).
    { unfold rowInserts.
      rewrite <- (rowInserts_length id (length (headers table)) (rows table) 0
                    (parsedTable_widths _ _ Hparse)).
      f_equal. apply flat_map_ext. intros row. now rewrite Nat.sub_0_r. }
    rewrite Hrows.
    assert (Hhead : length (headerStyling id (length (headers table)))
                    = length (headers table) + 1).
    { unfold headerStyling. rewrite length_app, length_map, length_seq. reflexivity. }
    assert (Hdata : length (dataStyling id (length (rows table)) (length (headers table)))
                    = length (rows table) * length (headers table)).
    { unfold dataStyling. generalize 1 at 1 as start.
      induction (length (rows table)) as [|k IH]; intros start; [reflexivity |].
      cbn [seq flat_map]. rewrite length_app, length_map, length_seq, IH. lia. }
    unfold nonEmptyCells, stylingRequests.
    destruct (headerStyle args) as [[|] |]; cbn [length];
      rewrite ?Hhead;
      (destruct (0 <? length (rows table)) eqn:Hlt;
       [rewrite Hdata; lia
       | apply Nat.ltb_ge in Hlt; cbn [length]; nia]).
Qed.
